(** * Tiny-C in Python: lexer, parser, code generator and virtual machine

    A shallow embedding of [tinyc.py].  The program keeps its state in module
    globals ([ch], [sym], [int_val], [id_name] for the lexer, [_object] and
    [here] for the code generator, [_globals] for the machine); here every
    phase threads that state explicitly through a small state-and-exception
    monad.  Python integers are [Z]; the three [array.array] buffers are
    lists of [Z] of fixed length, indexed the way Python indexes (negative
    indices count from the end, anything else out of range raises
    [IndexError]) and storing only values of the item type (otherwise
    [OverflowError]).

    The definitions of the phases come twice.  First as the program runs on
    an interpreter that refuses no call ([next_sym], [program], [c],
    [compile], [run], [main]); then, in the section on the recursion limit,
    with the count of the calls that may still be nested ([next_sym_in],
    [program_lim], [c_in], [compile_lim], [run_lim], [main_lim]), where a
    call too deep raises [RecursionError].  The second gives what the first
    gives until the limit is met ([program_lim_agrees], [c_in_agrees]).

    Not modelled: the decoding of the input stream into characters (the
    input is a sequence of 8-bit characters). *)

From Stdlib Require Import ZArith String Ascii List Lia DecimalString.
From Stdlib Require DecimalPos.
From stdpp Require Import base tactics option list.

Local Open Scope Z_scope.

(* ------------------------------------------------------------------ *)
(** ** Exceptions and the state monad *)

(** The exceptions the program can end with.  [SystemExit code diag] is what
    [syntax_error] does: it writes [diag] to the diagnostic stream and then
    calls [sys.exit code].  [RecursionError] is what the interpreter raises
    on a call nested deeper than its recursion limit. *)
Inductive exn : Type :=
| SystemExit (code : Z) (diag : string)
| IndexError
| OverflowError
| AttributeError
| RecursionError.

(** [Fuel] is not a behaviour of the program: it marks a model run that was
    given too few steps. *)
Inductive res (A : Type) : Type :=
| Ok (a : A)
| Raise (e : exn)
| Fuel.
Arguments Ok {A} a.
Arguments Raise {A} e.
Arguments Fuel {A}.

Definition M (S A : Type) : Type := S -> res (A * S).

Definition ret {S A} (a : A) : M S A := fun s => Ok (a, s).

Definition bind {S A B} (m : M S A) (k : A -> M S B) : M S B :=
  fun s => match m s with
           | Ok (a, s') => k a s'
           | Raise e => Raise e
           | Fuel => Fuel
           end.

Definition raise {S A} (e : exn) : M S A := fun _ => Raise e.
Definition out_of_fuel {S A} : M S A := fun _ => Fuel.
Definition get {S} : M S S := fun s => Ok (s, s).
Definition gets {S A} (f : S -> A) : M S A := fun s => Ok (f s, s).
Definition modify {S} (f : S -> S) : M S unit := fun s => Ok (tt, f s).
Definition lift {S A} (r : res A) : M S A :=
  fun s => match r with
           | Ok a => Ok (a, s)
           | Raise e => Raise e
           | Fuel => Fuel
           end.

Declare Scope tinyc_scope.
Delimit Scope tinyc_scope with tinyc.
Notation "'let*' x ':=' m 'in' k" := (bind m (fun x => k))
  (at level 10, x name, m at level 100, k at level 200) : tinyc_scope.
Notation "m '>>' k" := (bind m (fun _ => k))
  (at level 100, k at level 200, right associativity) : tinyc_scope.
Local Open Scope tinyc_scope.

(* ------------------------------------------------------------------ *)
(** ** Python sequences *)

(** [seq[i]] for a sequence of length [len]: the position read or written,
    or [None] when Python raises [IndexError]. *)
Definition py_index (len i : Z) : option nat :=
  if (0 <=? i) && (i <? len) then Some (Z.to_nat i)
  else if (- len <=? i) && (i <? 0) then Some (Z.to_nat (len + i))
  else None.

Definition py_get {A} (l : list A) (i : Z) : res A :=
  match py_index (Z.of_nat (length l)) i with
  | Some k => match l !! k with
              | Some v => Ok v
              | None => Raise IndexError
              end
  | None => Raise IndexError
  end.

(** [a[i] = v] on an [array.array] whose items range over [lo..hi]: the index
    is checked first, then the value. *)
Definition py_set (lo hi : Z) (l : list Z) (i v : Z) : res (list Z) :=
  match py_index (Z.of_nat (length l)) i with
  | Some k => if (lo <=? v) && (v <=? hi) then Ok (<[k:=v]> l)
              else Raise OverflowError
  | None => Raise IndexError
  end.

(** Type code ["b"]: signed char.  Type code ["i"]: signed int (32 bits). *)
Definition set_b := py_set (-128) 127.
Definition INT_MIN : Z := - 2 ^ 31.
Definition INT_MAX : Z := 2 ^ 31 - 1.
Definition set_i := py_set INT_MIN INT_MAX.

(** [ord] of a character, and [str] of an integer. *)
Definition ord (a : ascii) : Z := Z.of_N (N_of_ascii a).
Definition str (z : Z) : string := NilZero.string_of_int (Z.to_int z).

(* ------------------------------------------------------------------ *)
(** ** Lexer *)

Inductive Symbol : Type :=
| DO_SYM | ELSE_SYM | IF_SYM | WHILE_SYM | LBRA | RBRA | LPAR | RPAR
| PLUS | MINUS | LESS | SEMI | EQUAL | INT | ID | EOI.

Definition Symbol_value (s : Symbol) : Z :=
  match s with
  | DO_SYM => 0 | ELSE_SYM => 1 | IF_SYM => 2 | WHILE_SYM => 3
  | LBRA => 4 | RBRA => 5 | LPAR => 6 | RPAR => 7
  | PLUS => 8 | MINUS => 9 | LESS => 10 | SEMI => 11
  | EQUAL => 12 | INT => 13 | ID => 14 | EOI => 15
  end.

Definition words : list (option string) :=
  [Some "do"; Some "else"; Some "if"; Some "while"; None]%string.

(** The lexer's globals, with the unread rest of standard input.  [ch] is
    [None] once [next_ch] has stored the marker ["EOF"].  [sym] and [int_val]
    are unassigned in the program until [next_sym] first writes them; they
    start at 0 here (no function reads them before that first write, see
    [program_stale]). *)
Record lexer : Type := Lexer {
  ch : option ascii;
  stdin : list ascii;
  sym : Z;
  int_val : Z;
  id_name : string
}.

Definition lexer_init (input : list ascii) : lexer :=
  {| ch := Some " "%char; stdin := input; sym := 0; int_val := 0;
     id_name := ""%string |}.

Definition set_sym (s : Symbol) (L : lexer) : lexer :=
  {| ch := ch L; stdin := stdin L; sym := Symbol_value s;
     int_val := int_val L; id_name := id_name L |}.

Definition syntax_error {S A} : M S A :=
  raise (SystemExit 1 "syntax error").

(** [next_ch]: one character of standard input, or the marker at its end. *)
Definition read1 (inp : list ascii) : option ascii * list ascii :=
  match inp with
  | [] => (None, [])
  | a :: inp' => (Some a, inp')
  end.

Definition next_ch (L : lexer) : lexer :=
  let '(c, inp) := read1 (stdin L) in
  {| ch := c; stdin := inp; sym := sym L; int_val := int_val L;
     id_name := id_name L |}.

(** The three loops of [next_sym] that advance over characters have one
    shape, [while p(ch): acc = f(acc, ch); next_ch()]: the blanks skipped by
    the tail call [next_ch(); return next_sym()], the digits of a number and
    the characters of a word.  The marker ["EOF"] satisfies none of the three
    conditions. *)
Fixpoint scan {A} (p : ascii -> bool) (f : A -> ascii -> A)
    (inp : list ascii) (c : option ascii) (acc : A)
    : A * option ascii * list ascii :=
  match c with
  | Some a =>
      if p a then
        match inp with
        | [] => (f acc a, None, [])
        | a' :: inp' => scan p f inp' (Some a') (f acc a)
        end
      else (acc, c, inp)
  | None => (acc, c, inp)
  end.

Definition is_blank (a : ascii) : bool :=
  (ord a =? 32) || (ord a =? 10).
Definition is_digit (a : ascii) : bool :=
  (ord "0" <=? ord a) && (ord a <=? ord "9").
Definition is_lower (a : ascii) : bool :=
  (ord "a" <=? ord a) && (ord a <=? ord "z").
Definition is_word (a : ascii) : bool :=
  is_lower a || (ord a =? ord "_").

(** [sym = 0; while words[sym] != None and words[sym] != id_name: sym += 1],
    run over the entries of [words] from position [s] on. *)
Fixpoint lookup_word (ws : list (option string)) (s : Z) (name : string) : Z :=
  match ws with
  | Some w :: ws' => if String.eqb w name then s else lookup_word ws' (s + 1) name
  | _ => s
  end.

Definition single (s : Symbol) (L : lexer) : res (unit * lexer) :=
  Ok (tt, set_sym s (next_ch L)).

Definition next_sym : M lexer unit := fun L0 =>
  let '(_, c, inp) := scan is_blank (fun u _ => u) (stdin L0) (ch L0) tt in
  let L := {| ch := c; stdin := inp; sym := sym L0; int_val := int_val L0;
              id_name := id_name L0 |} in
  match c with
  | None => Ok (tt, set_sym EOI L)
  | Some a =>
      if ord a =? ord "{" then single LBRA L
      else if ord a =? ord "}" then single RBRA L
      else if ord a =? ord "(" then single LPAR L
      else if ord a =? ord ")" then single RPAR L
      else if ord a =? ord "+" then single PLUS L
      else if ord a =? ord "-" then single MINUS L
      else if ord a =? ord "<" then single LESS L
      else if ord a =? ord ";" then single SEMI L
      else if ord a =? ord "=" then single EQUAL L
      else if is_digit a then
        let '(v, c', inp') :=
          scan is_digit (fun v d => v * 10 + ord d - ord "0") inp c 0 in
        Ok (tt, {| ch := c'; stdin := inp'; sym := Symbol_value INT;
                   int_val := v; id_name := id_name L |})
      else if is_lower a then
        let '(name, c', inp') :=
          scan is_word (fun s d => (s ++ String d "")%string) inp c ""%string in
        let s := lookup_word words 0 name in
        match words !! Z.to_nat s with
        | Some (Some _) =>
            Ok (tt, {| ch := c'; stdin := inp'; sym := s;
                       int_val := int_val L; id_name := name |})
        | _ =>
            if (Z.of_nat (String.length name) =? 1) then
              Ok (tt, {| ch := c'; stdin := inp'; sym := Symbol_value ID;
                         int_val := int_val L; id_name := name |})
            else Raise (SystemExit 1 "syntax error")
        end
      else Raise (SystemExit 1 "syntax error")
  end.

(* ------------------------------------------------------------------ *)
(** ** Parser *)

(** A [Node] of kind [k] carries the attributes the parser assigns to nodes
    of that kind: [val] for [VAR] and [CST], [o1], [o2], [o3] for the others.
    The [if] statement that changes its kind from [IF1] to [IF2] on seeing
    [else] is built here as [IF2] in one go. *)
Inductive Node : Type :=
| VAR (val : Z)
| CST (val : Z)
| ADD (o1 o2 : Node)
| SUB (o1 o2 : Node)
| LT (o1 o2 : Node)
| SET (o1 o2 : Node)
| IF1 (o1 o2 : Node)
| IF2 (o1 o2 o3 : Node)
| WHILE (o1 o2 : Node)
| DO (o1 o2 : Node)
| EMPTY
| SEQ (o1 o2 : Node)
| EXPR (o1 : Node)
| PROG (o1 : Node).

Definition P : Type -> Type := M lexer.

Definition sym_is (s : Symbol) : P bool :=
  gets (fun L => sym L =? Symbol_value s).

(** [if sym == s: next_sym() else: syntax_error()] *)
Definition expect (s : Symbol) : P unit :=
  let* b := sym_is s in if b then next_sym else syntax_error.

(** [ord(id_name[0])]; the lexer never stores an empty name. *)
Definition first_ord (s : string) : res Z :=
  match s with
  | String a _ => Ok (ord a)
  | EmptyString => Raise IndexError
  end.

Section Grammar.
(** The recursive calls [expr()] and [statement()], closed below by fuel. *)
Variable expr_rec : P Node.

Definition paren_expr : P Node :=
  expect LPAR >>
  let* x := expr_rec in
  expect RPAR >>
  ret x.

Definition term : P Node :=
  let* is_id := sym_is ID in
  if is_id then
    let* name := gets id_name in
    let* o := lift (first_ord name) in
    next_sym >>
    ret (VAR (o - ord "a"))
  else
    let* is_int := sym_is INT in
    if is_int then
      let* v := gets int_val in
      next_sym >>
      ret (CST v)
    else paren_expr.

(** The loop of [_sum], entered with the left operand [x]. *)
Fixpoint sum_loop (n : nat) (x : Node) : P Node :=
  match n with
  | O => out_of_fuel
  | S n' =>
      let* plus := sym_is PLUS in
      let* minus := sym_is MINUS in
      if plus || minus then
        next_sym >>
        let* y := term in
        sum_loop n' (if plus then ADD x y else SUB x y)
      else ret x
  end.

Definition _sum (n : nat) : P Node :=
  let* x := term in sum_loop n x.

Definition test (n : nat) : P Node :=
  let* x := _sum n in
  let* less := sym_is LESS in
  if less then
    next_sym >>
    let* y := _sum n in
    ret (LT x y)
  else ret x.

Definition is_VAR (x : Node) : bool :=
  match x with VAR _ => true | _ => false end.

Definition expr_body (n : nat) : P Node :=
  let* is_id := sym_is ID in
  if negb is_id then test n
  else
    let* x := test n in
    let* eq := sym_is EQUAL in
    if is_VAR x && eq then
      next_sym >>
      let* y := expr_rec in
      ret (SET x y)
    else ret x.
End Grammar.

Fixpoint expr (n : nat) : P Node :=
  match n with
  | O => out_of_fuel
  | S n' => expr_body (expr n') n
  end.

Section Statements.
Variable statement_rec : P Node.
Variable n : nat.

(** The loop of a block, entered with the statements read so far. *)
Fixpoint block_loop (k : nat) (x : Node) : P Node :=
  match k with
  | O => out_of_fuel
  | S k' =>
      let* closed := sym_is RBRA in
      if closed then ret x
      else
        let* y := statement_rec in
        block_loop k' (SEQ x y)
  end.

Definition statement_body : P Node :=
  let* s := gets sym in
  if s =? Symbol_value IF_SYM then
    next_sym >>
    let* c := paren_expr (expr n) in
    let* a := statement_rec in
    let* els := sym_is ELSE_SYM in
    if els then
      next_sym >>
      let* b := statement_rec in
      ret (IF2 c a b)
    else ret (IF1 c a)
  else if s =? Symbol_value WHILE_SYM then
    next_sym >>
    let* c := paren_expr (expr n) in
    let* a := statement_rec in
    ret (WHILE c a)
  else if s =? Symbol_value DO_SYM then
    next_sym >>
    let* a := statement_rec in
    expect WHILE_SYM >>
    let* c := paren_expr (expr n) in
    expect SEMI >>
    ret (DO a c)
  else if s =? Symbol_value SEMI then
    next_sym >>
    ret EMPTY
  else if s =? Symbol_value LBRA then
    next_sym >>
    let* x := block_loop n EMPTY in
    next_sym >>
    ret x
  else
    let* e := expr n in
    expect SEMI >>
    ret (EXPR e).
End Statements.

Fixpoint statement (n : nat) : P Node :=
  match n with
  | O => out_of_fuel
  | S n' => statement_body (statement n') n
  end.

Definition program_body (n : nat) : P Node :=
  next_sym >>
  let* x := statement n in
  let* eoi := sym_is EOI in
  if eoi then ret (PROG x) else syntax_error.

(** Every call of [expr] or [statement] but the outermost follows a
    [next_sym] that consumed a token, so the depth of calls and the number of
    loop iterations stay below the number of characters read plus two
    ([program_total]). *)
Definition fuel_for (input : list ascii) : nat := S (S (length input)).

Definition program (input : list ascii) : res Node :=
  match program_body (fuel_for input) (lexer_init input) with
  | Ok (x, _) => Ok x
  | Raise e => Raise e
  | Fuel => Fuel
  end.


(* ------------------------------------------------------------------ *)
(** ** Code generator *)

Inductive Instruction : Type :=
| IFETCH | ISTORE | IPUSH | IPOP | IADD | ISUB | ILT | JZ | JNZ | JMP | HALT.

Definition Instruction_value (i : Instruction) : Z :=
  match i with
  | IFETCH => 0 | ISTORE => 1 | IPUSH => 2 | IPOP => 3 | IADD => 4
  | ISUB => 5 | ILT => 6 | JZ => 7 | JNZ => 8 | JMP => 9 | HALT => 10
  end.

(** The code generator's globals: the code buffer and the emission cursor. *)
Record codegen : Type := Codegen {
  _object : list Z;
  here : Z
}.

Definition codegen_init : codegen :=
  {| _object := replicate 1000 0; here := 0 |}.

Definition G : Type -> Type := M codegen.

Definition g (c : Z) : G unit := fun st =>
  match set_b (_object st) (here st) c with
  | Ok o => Ok (tt, {| _object := o; here := here st + 1 |})
  | Raise e => Raise e
  | Fuel => Fuel
  end.

Definition hole : G Z := fun st =>
  let st' := {| _object := _object st; here := here st + 1 |} in
  Ok (here st' - 1, st').

Definition fix_ (src dst : Z) : G unit := fun st =>
  match set_b (_object st) src (dst - src) with
  | Ok o => Ok (tt, {| _object := o; here := here st |})
  | Raise e => Raise e
  | Fuel => Fuel
  end.

(** [x.val]: only [VAR] and [CST] nodes have the attribute. *)
Definition val_of (x : Node) : res Z :=
  match x with
  | VAR v | CST v => Ok v
  | _ => Raise AttributeError
  end.

Fixpoint c (x : Node) : G unit :=
  match x with
  | VAR v => g (Instruction_value IFETCH) >> g v
  | CST v => g (Instruction_value IPUSH) >> g v
  | ADD o1 o2 => c o1 >> c o2 >> g (Instruction_value IADD)
  | SUB o1 o2 => c o1 >> c o2 >> g (Instruction_value ISUB)
  | LT o1 o2 => c o1 >> c o2 >> g (Instruction_value ILT)
  | SET o1 o2 =>
      c o2 >>
      g (Instruction_value ISTORE) >>
      let* v := lift (val_of o1) in
      g v
  | IF1 o1 o2 =>
      c o1 >>
      g (Instruction_value JZ) >>
      let* p1 := hole in
      c o2 >>
      let* h := gets here in
      fix_ p1 h
  | IF2 o1 o2 o3 =>
      c o1 >>
      g (Instruction_value JZ) >>
      let* p1 := hole in
      c o2 >>
      g (Instruction_value JMP) >>
      let* p2 := hole in
      let* h := gets here in
      fix_ p1 h >>
      c o3 >>
      let* h' := gets here in
      fix_ p2 h'
  | WHILE o1 o2 =>
      let* p1 := gets here in
      c o1 >>
      g (Instruction_value JZ) >>
      let* p2 := hole in
      c o2 >>
      g (Instruction_value JMP) >>
      let* p3 := hole in
      fix_ p3 p1 >>
      let* h := gets here in
      fix_ p2 h
  | DO o1 o2 =>
      let* p1 := gets here in
      c o1 >>
      c o2 >>
      g (Instruction_value JNZ) >>
      let* p3 := hole in
      fix_ p3 p1
  | EMPTY => ret tt
  | SEQ o1 o2 => c o1 >> c o2
  | EXPR o1 => c o1 >> g (Instruction_value IPOP)
  | PROG o1 => c o1 >> g (Instruction_value HALT)
  end.

(** [c(ast)] on the fresh buffer, as the main program calls it. *)
Definition compile (x : Node) : res (list Z) :=
  match c x codegen_init with
  | Ok (_, st) => Ok (_object st)
  | Raise e => Raise e
  | Fuel => Fuel
  end.

(* ------------------------------------------------------------------ *)
(** ** Virtual machine *)

(** [Instruction[index]] is [list(Instruction)[index].name]. *)
Definition Instruction_getitem (index : Z) : res Instruction :=
  py_get [IFETCH; ISTORE; IPUSH; IPOP; IADD; ISUB; ILT; JZ; JNZ; JMP; HALT]
         index.

(** The locals of [run] with the array of globals. *)
Record vm : Type := Vm {
  stack : list Z;
  sp : Z;
  pc : Z;
  _globals : list Z
}.

Definition V : Type -> Type := M vm.

Definition set_stack (i v : Z) : V unit := fun s =>
  match set_i (stack s) i v with
  | Ok st => Ok (tt, {| stack := st; sp := sp s; pc := pc s;
                        _globals := _globals s |})
  | Raise e => Raise e
  | Fuel => Fuel
  end.

Definition set_global (i v : Z) : V unit := fun s =>
  match set_i (_globals s) i v with
  | Ok gl => Ok (tt, {| stack := stack s; sp := sp s; pc := pc s;
                        _globals := gl |})
  | Raise e => Raise e
  | Fuel => Fuel
  end.

Definition add_sp (d : Z) : V unit :=
  modify (fun s => {| stack := stack s; sp := sp s + d; pc := pc s;
                      _globals := _globals s |}).

Definition add_pc (d : Z) : V unit :=
  modify (fun s => {| stack := stack s; sp := sp s; pc := pc s + d;
                      _globals := _globals s |}).

Definition rd_stack (i : Z) : V Z := fun s =>
  lift (py_get (stack s) i) s.
Definition rd_global (i : Z) : V Z := fun s =>
  lift (py_get (_globals s) i) s.

Section Machine.
Variable code : list Z.

Definition rd_code : V Z := fun s => lift (py_get code (pc s)) s.

(** [stack[sp - 2] = op(stack[sp - 2], stack[sp - 1]); sp -= 1] *)
Definition binop (op : Z -> Z -> Z) : V unit :=
  let* p := gets sp in
  let* a := rd_stack (p - 2) in
  let* b := rd_stack (p - 1) in
  set_stack (p - 2) (op a b) >>
  add_sp (-1).

(** [sp -= 1; if taken(stack[sp]): pc += _object[pc] else: pc += 1] *)
Definition branch (taken : Z -> bool) : V unit :=
  add_sp (-1) >>
  let* p := gets sp in
  let* v := rd_stack p in
  if taken v then
    let* d := rd_code in add_pc d
  else add_pc 1.

(** One turn of the loop of [run]; the result is [true] on [break]. *)
Definition step : V bool :=
  let* b := rd_code in
  let* instruction := lift (Instruction_getitem b) in
  add_pc 1 >>
  match instruction with
  | IFETCH =>
      let* i := rd_code in
      let* v := rd_global i in
      let* p := gets sp in
      set_stack p v >>
      add_sp 1 >>
      add_pc 1 >>
      ret false
  | ISTORE =>
      let* p := gets sp in
      let* v := rd_stack (p - 1) in
      let* i := rd_code in
      set_global i v >>
      add_pc 1 >>
      ret false
  | IPUSH =>
      let* v := rd_code in
      let* p := gets sp in
      set_stack p v >>
      add_sp 1 >>
      add_pc 1 >>
      ret false
  | IPOP => add_sp (-1) >> ret false
  | IADD => binop Z.add >> ret false
  | ISUB => binop Z.sub >> ret false
  | ILT => binop (fun a b => if a <? b then 1 else 0) >> ret false
  | JZ => branch (fun v => v =? 0) >> ret false
  | JNZ => branch (fun v => negb (v =? 0)) >> ret false
  | JMP => (let* d := rd_code in add_pc d) >> ret false
  | HALT => ret true
  end.

(** The loop of [run], for at most [n] turns. *)
Fixpoint run_loop (n : nat) : V unit :=
  match n with
  | O => out_of_fuel
  | S n' =>
      let* halted := step in
      if halted then ret tt else run_loop n'
  end.
End Machine.

Definition vm_init (globals : list Z) : vm :=
  {| stack := replicate 1000 0; sp := 0; pc := 0; _globals := globals |}.

(** [run()]: the globals it leaves. *)
Definition run (n : nat) (code globals : list Z) : res (list Z) :=
  match run_loop code n (vm_init globals) with
  | Ok (_, s) => Ok (_globals s)
  | Raise e => Raise e
  | Fuel => Fuel
  end.

(* ------------------------------------------------------------------ *)
(** ** Main program *)

(** What a run of the process shows: it exits with a status after writing to
    its standard output and diagnostic stream, or dies of an uncaught
    exception, or is still executing after the turns the model gave it. *)
Inductive outcome : Type :=
| Exited (code : Z) (stdout stderr : list string)
| Uncaught (e : exn)
| StillRunning.

(** [for i in range(26): if _globals[i] != 0: print(f"{(ord('a') + i)} = {_globals[i]}")],
    the loop run over the indices [idx]; an index outside the array raises. *)
Fixpoint report (globals : list Z) (idx : list Z) : res (list string) :=
  match idx with
  | [] => Ok []
  | i :: idx' =>
      match py_get globals i with
      | Ok v =>
          match report globals idx' with
          | Ok out =>
              Ok (if v =? 0 then out
                  else (str (ord "a" + i) ++ " = " ++ str v)%string :: out)
          | r => r
          end
      | Raise e => Raise e
      | Fuel => Fuel
      end
  end.

Definition range26 : list Z := map Z.of_nat (seq 0 26).

Definition finish {A} (r : res A) (k : A -> outcome) : outcome :=
  match r with
  | Ok a => k a
  | Raise (SystemExit code diag) => Exited code [] [diag]
  | Raise e => Uncaught e
  | Fuel => StillRunning
  end.

(** The main program on the characters of standard input; the machine is given
    [n] turns. *)
Definition main (n : nat) (input : list ascii) : outcome :=
  finish (program input) (fun ast =>
  finish (compile ast) (fun code =>
  finish (run n code (replicate 26 0)) (fun globals =>
  finish (report globals range26) (fun out =>
  Exited 0 out [])))).

Definition chars (s : string) : list ascii := list_ascii_of_string s.

(* ------------------------------------------------------------------ *)
(** ** Auxiliary definitions for the statements below *)

Definition zlen {A} (l : list A) : Z := Z.of_nat (length l).

(** The listing of a node: the bytes [c] emits for it, with every hole
    already holding its displacement.  [c_listing] shows that this is what
    [c] leaves in the buffer, wherever it starts. *)
Fixpoint code_of (x : Node) : list Z :=
  match x with
  | VAR v => [Instruction_value IFETCH; v]
  | CST v => [Instruction_value IPUSH; v]
  | ADD o1 o2 => code_of o1 ++ code_of o2 ++ [Instruction_value IADD]
  | SUB o1 o2 => code_of o1 ++ code_of o2 ++ [Instruction_value ISUB]
  | LT o1 o2 => code_of o1 ++ code_of o2 ++ [Instruction_value ILT]
  | SET o1 o2 =>
      code_of o2 ++
      [Instruction_value ISTORE;
       match val_of o1 with Ok v => v | _ => 0 end]
  | IF1 o1 o2 =>
      code_of o1 ++
      [Instruction_value JZ; zlen (code_of o2) + 1] ++
      code_of o2
  | IF2 o1 o2 o3 =>
      code_of o1 ++
      [Instruction_value JZ; zlen (code_of o2) + 3] ++
      code_of o2 ++
      [Instruction_value JMP; zlen (code_of o3) + 1] ++
      code_of o3
  | WHILE o1 o2 =>
      code_of o1 ++
      [Instruction_value JZ; zlen (code_of o2) + 3] ++
      code_of o2 ++
      [Instruction_value JMP; - (zlen (code_of o1) + zlen (code_of o2) + 3)]
  | DO o1 o2 =>
      code_of o1 ++ code_of o2 ++
      [Instruction_value JNZ; - (zlen (code_of o1) + zlen (code_of o2) + 1)]
  | EMPTY => []
  | SEQ o1 o2 => code_of o1 ++ code_of o2
  | EXPR o1 => code_of o1 ++ [Instruction_value IPOP]
  | PROG o1 => code_of o1 ++ [Instruction_value HALT]
  end.

(** The bytes [l] stand in the buffer [obj] from address [p] on. *)
Definition code_at (obj : list Z) (p : Z) (l : list Z) : Prop :=
  0 <= p /\
  forall (i : nat) (b : Z), l !! i = Some b -> obj !! (Z.to_nat p + i)%nat = Some b.

(** [obj'] has the bytes of [obj] at every address below [h]. *)
Definition same_below (h : Z) (obj obj' : list Z) : Prop :=
  forall i : nat, Z.of_nat i < h -> obj' !! i = obj !! i.

(** The two syntactic classes of the grammar, as the parser builds them
    ([program_wf]): expressions, whose variables are the 26 globals and whose
    assignment targets are variables, and statements. *)
Definition is_global (v : Z) : bool := (0 <=? v) && (v <? 26).

Fixpoint is_expr (x : Node) : bool :=
  match x with
  | VAR v => is_global v
  | CST v => true
  | ADD a b | SUB a b | LT a b => is_expr a && is_expr b
  | SET (VAR v) e => is_global v && is_expr e
  | _ => false
  end.

Fixpoint is_stmt (x : Node) : bool :=
  match x with
  | IF1 e a => is_expr e && is_stmt a
  | IF2 e a b => is_expr e && is_stmt a && is_stmt b
  | WHILE e a => is_expr e && is_stmt a
  | DO a e => is_stmt a && is_expr e
  | EMPTY => true
  | SEQ a b => is_stmt a && is_stmt b
  | EXPR e => is_expr e
  | _ => false
  end.

(** The value of an expression and the globals after it, as sections 4.3 and
    4.4 of the specification describe them: the meaning the compiled code is
    compared with.  Integers are unbounded here. *)
Fixpoint eval (x : Node) (globals : list Z) : Z * list Z :=
  match x with
  | VAR v => (default 0 (globals !! Z.to_nat v), globals)
  | CST v => (v, globals)
  | ADD a b =>
      let '(va, g1) := eval a globals in
      let '(vb, g2) := eval b g1 in
      (va + vb, g2)
  | SUB a b =>
      let '(va, g1) := eval a globals in
      let '(vb, g2) := eval b g1 in
      (va - vb, g2)
  | LT a b =>
      let '(va, g1) := eval a globals in
      let '(vb, g2) := eval b g1 in
      (if va <? vb then 1 else 0, g2)
  | SET (VAR i) e =>
      let '(v, g1) := eval e globals in
      (v, <[Z.to_nat i := v]> g1)
  | _ => (0, globals)
  end.

(** [v1 = v2 = ... = vn = K], nested to the right. *)
Definition chain (vs : list Z) (K : Node) : Node :=
  foldr (fun v k => SET (VAR v) k) K vs.

(** [obj'] has the bytes of [obj] at every address but [k]. *)
Definition same_except (k : Z) (obj obj' : list Z) : Prop :=
  forall i : nat, Z.of_nat i <> k -> obj' !! i = obj !! i.

(** From a run that halts in [s'] within [n] turns: a later state of the same
    run satisfies [post]. *)
Definition lands (code : list Z) (n : nat) (s' : vm) (post : vm -> Prop) : Prop :=
  exists (m : nat) (s1 : vm),
    (m <= n)%nat /\ run_loop code m s1 = Ok (tt, s') /\ post s1.

(** Where the code of an expression leaves the machine started in [s]: past
    the code, one value higher, that value being the expression's, the globals
    being those the expression leaves, the stack below untouched. *)
Definition expr_post (x : Node) (s s1 : vm) : Prop :=
  pc s1 = pc s + zlen (code_of x) /\
  sp s1 = sp s + 1 /\
  stack s1 !! Z.to_nat (sp s) = Some (eval x (_globals s)).1 /\
  _globals s1 = (eval x (_globals s)).2 /\
  forall j : nat, Z.of_nat j < sp s -> stack s1 !! j = stack s !! j.

(** Where the code of a statement leaves the machine started in [s]: past the
    code, at the same height. *)
Definition stmt_post (x : Node) (s s1 : vm) : Prop :=
  pc s1 = pc s + zlen (code_of x) /\ sp s1 = sp s.

Definition balanced (k : nat) (x : Node) : Prop :=
  forall code s s',
    code_at code (pc s) (code_of x) -> 0 <= sp s ->
    run_loop code k s = Ok (tt, s') ->
    lands code k s' (stmt_post x s).

(** What the lexer guarantees of an identifier token: its name is one
    lowercase letter. *)
Definition lex_ok (L : lexer) : Prop :=
  sym L = Symbol_value ID ->
  exists a, id_name L = String a EmptyString /\ is_lower a = true.

(** What a parsing function returns on success: a node of its syntactic
    class, leaving the lexer with a well-formed token. *)
Definition parses (class : Node -> bool) (m : P Node) : Prop :=
  forall L x L', lex_ok L -> m L = Ok (x, L') -> class x = true /\ lex_ok L'.

(** Whether a branch instruction jumps, given the value it pops. *)
Definition jumps (i : Instruction) (v : Z) : bool :=
  match i with
  | JZ => v =? 0
  | JNZ => negb (v =? 0)
  | JMP => true
  | _ => false
  end.

(** Whether an instruction pops the value it tests. *)
Definition pops (i : Instruction) : bool :=
  match i with
  | JZ | JNZ => true
  | _ => false
  end.

(** A small program and its run, for the instances below: [a=1;]. *)
Definition demo_ast : Node := PROG (EXPR (SET (VAR 0) (CST 1))).
Definition demo_code : list Z :=
  Eval vm_compute in match compile demo_ast with Ok o => o | _ => [] end.
Definition demo_final : vm :=
  Eval vm_compute in
    match run_loop demo_code 4 (vm_init (replicate 26 0)) with
    | Ok (_, s) => s
    | _ => vm_init []
    end.

(** A space or a newline. *)
Definition blank (a : ascii) : Prop := a = " "%char \/ a = "010"%char.

(** Every assignment in the tree has a [VAR] node as its target. *)
Fixpoint lhs_are_vars (x : Node) : bool :=
  match x with
  | VAR _ | CST _ | EMPTY => true
  | SET o1 o2 => is_VAR o1 && lhs_are_vars o2
  | ADD o1 o2 | SUB o1 o2 | LT o1 o2 | IF1 o1 o2 | WHILE o1 o2 | DO o1 o2
  | SEQ o1 o2 => lhs_are_vars o1 && lhs_are_vars o2
  | IF2 o1 o2 o3 => lhs_are_vars o1 && lhs_are_vars o2 && lhs_are_vars o3
  | EXPR o1 | PROG o1 => lhs_are_vars o1
  end.


(** The token of each entry of [words]. *)
Definition keyword_of (name : string) : option Symbol :=
  if String.eqb "do" name then Some DO_SYM
  else if String.eqb "else" name then Some ELSE_SYM
  else if String.eqb "if" name then Some IF_SYM
  else if String.eqb "while" name then Some WHILE_SYM
  else None.

(** The lexer after a word token [s] named [name], [rest] being what follows
    the word on standard input. *)
Definition after_word (s : Symbol) (name : string) (rest : list ascii) : lexer :=
  {| ch := (read1 rest).1; stdin := (read1 rest).2; sym := Symbol_value s;
     int_val := 0; id_name := name |}.

(** [rest] does not go on with a letter or an underscore. *)
Definition ends_word (rest : list ascii) : Prop :=
  match rest with
  | [] => True
  | b :: _ => is_word b = false
  end.

(** [m'] gives every result [m] gives, and may give one where [m] runs out
    of fuel. *)
Definition weaker {A} (m m' : P A) : Prop :=
  forall L, m L <> Fuel -> m' L = m L.

(** The index of the global named by a letter, and the text
    [v1=v2=...=vn=] of a chain of assignment targets. *)
Definition var_of (a : ascii) : Z := ord a - ord "a".

Definition chain_text (vs : list ascii) : list ascii :=
  flat_map (fun a => [a; "="%char]) vs.

(** The state in which an identifier [a] followed by [=] leaves the lexer. *)
Definition at_ident (a : ascii) (tail : list ascii) : lexer :=
  {| ch := Some "="%char; stdin := tail; sym := Symbol_value ID; int_val := 0;
     id_name := String a "" |}.

(** The program [a=b=c=2<3;] of the documentation, compiled. *)
Definition abc_ast : Node :=
  PROG (EXPR (chain [0; 1; 2] (LT (CST 2) (CST 3)))).
Definition abc_code : list Z :=
  Eval vm_compute in match compile abc_ast with Ok o => o | _ => [] end.

(** The characters the lexer has yet to classify, and the tokens the parser
    has yet to consume: those characters and the token in [sym], unless it
    is the end of input. *)
Definition unread (L : lexer) : nat :=
  (length (stdin L) + match ch L with Some _ => 1 | None => 0 end)%nat.

Definition toks (L : lexer) : nat :=
  (unread L + (if (sym L =? Symbol_value EOI)%Z then 0 else 1))%nat.

(** A result of the parser that is no exhaustion of fuel and, if an
    exception, the syntax error; [Q] holds of what it returns. *)
Definition good {A} (Q : A -> lexer -> Prop) (r : res (A * lexer)) : Prop :=
  match r with
  | Ok (a, L') => Q a L'
  | Raise e => e = SystemExit 1 "syntax error"
  | Fuel => False
  end.

(** The exceptions of the code generator and of the machine. *)
Definition benign (e : exn) : Prop := e = IndexError \/ e = OverflowError.

(** A computation that raises only exceptions among [ok], and does not run
    out of fuel. *)
Definition raises_only {S A} (ok : exn -> Prop) (m : M S A) : Prop :=
  forall s, match m s with
            | Ok _ => True
            | Raise e => ok e
            | Fuel => False
            end.

(** After a call that consumed a token: a well-formed lexer with fewer
    tokens left than in [L]; and the parsing functions that do so from every
    state with fewer than [bound] tokens left. *)
Definition closer {A} (L : lexer) : A -> lexer -> Prop :=
  fun _ L' => lex_ok L' /\ (toks L' < toks L)%nat.

Definition rec_ok (bound : nat) (r : P Node) : Prop :=
  forall L1, lex_ok L1 -> (toks L1 < bound)%nat -> good (closer L1) (r L1).

(** A step of the machine that leaves the array of globals its length. *)
Definition keeps_len {A} (m : V A) : Prop :=
  forall s a s1, m s = Ok (a, s1) ->
    length (_globals s1) = length (_globals s).

(** Two states of the lexer that differ only in what the parser does not
    read: the name when the token is no identifier, the value when it is no
    number. *)
Definition same_tok (L1 L2 : lexer) : Prop :=
  ch L1 = ch L2 /\ stdin L1 = stdin L2 /\ sym L1 = sym L2 /\
  (sym L1 = Symbol_value ID -> id_name L1 = id_name L2) /\
  (sym L1 = Symbol_value INT -> int_val L1 = int_val L2).

Definition same_res {A} (r1 r2 : res (A * lexer)) : Prop :=
  match r1, r2 with
  | Ok (a1, L1), Ok (a2, L2) => a1 = a2 /\ same_tok L1 L2
  | Raise e1, Raise e2 => e1 = e2
  | Fuel, Fuel => True
  | _, _ => False
  end.

Definition respects {A} (m : P A) : Prop :=
  forall L1 L2, same_tok L1 L2 -> same_res (m L1) (m L2).

(* ------------------------------------------------------------------ *)
(** ** Further auxiliary definitions *)

(** A value an item of the code buffer can hold (type code ["b"]). *)
Definition is_byte (b : Z) : bool := (-128 <=? b) && (b <=? 127).

(** [obj'] has the bytes of [obj] at every address from [h] on. *)
Definition same_from (h : Z) (obj obj' : list Z) : Prop :=
  forall i : nat, h <= Z.of_nat i -> obj' !! i = obj !! i.

(** The meaning of a statement on the globals, read off the grammar: the
    reference the compiled code is compared with.  Conditions are values of
    expressions ([eval]), zero being false; [k] bounds the depth of the
    evaluation, loops included, and [None] is a bound that was too small. *)
Fixpoint meaning (k : nat) (x : Node) (globals : list Z) : option (list Z) :=
  match k with
  | O => None
  | S k' =>
      match x with
      | IF1 e a =>
          let '(v, g1) := eval e globals in
          if v =? 0 then Some g1 else meaning k' a g1
      | IF2 e a b =>
          let '(v, g1) := eval e globals in
          if v =? 0 then meaning k' b g1 else meaning k' a g1
      | WHILE e a =>
          let '(v, g1) := eval e globals in
          if v =? 0 then Some g1
          else match meaning k' a g1 with
               | Some g2 => meaning k' (WHILE e a) g2
               | None => None
               end
      | DO a e =>
          match meaning k' a globals with
          | Some g1 =>
              let '(v, g2) := eval e g1 in
              if v =? 0 then Some g2 else meaning k' (DO a e) g2
          | None => None
          end
      | EMPTY => Some globals
      | SEQ a b =>
          match meaning k' a globals with
          | Some g1 => meaning k' b g1
          | None => None
          end
      | EXPR e => Some (eval e globals).2
      | PROG a => meaning k' a globals
      | _ => None
      end
  end.

(** Where the code of a statement leaves the machine started in [s]: past the
    code, at the same height, with the globals the statement means. *)
Definition stmt_means (x : Node) (s s1 : vm) : Prop :=
  pc s1 = pc s + zlen (code_of x) /\ sp s1 = sp s /\
  exists k, meaning k x (_globals s) = Some (_globals s1).

Definition faithful (n : nat) (x : Node) : Prop :=
  forall code s s',
    code_at code (pc s) (code_of x) -> 0 <= sp s ->
    run_loop code n s = Ok (tt, s') ->
    lands code n s' (stmt_means x s).

(** [rest] does not go on with a digit. *)
Definition ends_number (rest : list ascii) : Prop :=
  match rest with
  | [] => True
  | b :: _ => is_digit b = false
  end.

(** The lexer after a number token of value [v], [rest] being what follows
    the digits on standard input. *)
Definition after_number (v : Z) (rest : list ascii) : lexer :=
  {| ch := (read1 rest).1; stdin := (read1 rest).2; sym := Symbol_value INT;
     int_val := v; id_name := ""%string |}.

(** A value an item of the stack or of the globals can hold (type code
    ["i"]). *)
Definition is_int (v : Z) : bool := (INT_MIN <=? v) && (v <=? INT_MAX).

(** A step of the machine that leaves the globals in [I] if it found them
    there. *)
Definition keeps_globals (I : list Z -> Prop) {A} (m : V A) : Prop :=
  forall s a s1, m s = Ok (a, s1) -> I (_globals s) -> I (_globals s1).

(** The text [+b] or [-b] of each further operand of a sum whose operands
    are variables, and the tree the operands build from the left operand
    [x]. *)
Definition sum_text (ops : list (bool * ascii)) : list ascii :=
  flat_map (fun o : bool * ascii => [if o.1 then "+"%char else "-"%char; o.2]) ops.

Definition sum_tree (x : Node) (ops : list (bool * ascii)) : Node :=
  fold_left (fun x (o : bool * ascii) => if o.1 then ADD x (VAR (var_of o.2))
                        else SUB x (VAR (var_of o.2))) ops x.

(** The lexer when the token after an operand is read, the operands [ops]
    and [;] being what is left of the sum: the operator of the first of
    [ops], or [;]. *)
Definition at_op (ops : list (bool * ascii)) (nm : string) : lexer :=
  match ops with
  | [] => {| ch := None; stdin := []; sym := Symbol_value SEMI; int_val := 0;
             id_name := nm |}
  | o :: ops' =>
      {| ch := Some o.2; stdin := sum_text ops' ++ [";"%char];
         sym := Symbol_value (if o.1 then PLUS else MINUS); int_val := 0;
         id_name := nm |}
  end.

(** [L'] is [L] after some calls of [next_sym], none of which failed. *)
Inductive reaches : lexer -> lexer -> Prop :=
| reaches_refl L : reaches L L
| reaches_step L L1 L2 :
    next_sym L = Ok (tt, L1) -> reaches L1 L2 -> reaches L L2.

(** A parsing function that moves the lexer by calls of [next_sym] only. *)
Definition advances {A} (m : P A) : Prop :=
  forall L a L', m L = Ok (a, L') -> reaches L L'.



(** The characters the lexer has not consumed, the one in [ch] first. *)
Definition pending (c : option ascii) (inp : list ascii) : list ascii :=
  match c with
  | Some a => a :: inp
  | None => inp
  end.


(** The lexer holds the first token of [text], the rest of [text] being what
    it has yet to read: it is, up to the variables the parser does not read,
    what [next_sym] makes of [text].  And [text] starts with a token (or is
    at its end). *)
Definition at_text (text : list ascii) (L : lexer) : Prop :=
  exists L1, next_sym (lexer_init text) = Ok (tt, L1) /\ same_tok L1 L.

Definition lexes (text : list ascii) : Prop :=
  exists L1, next_sym (lexer_init text) = Ok (tt, L1).

(** The punctuation characters and their tokens. *)
Definition puncts : list (ascii * Symbol) :=
  [("{", LBRA); ("}", RBRA); ("(", LPAR); (")", RPAR); ("+", PLUS);
   ("-", MINUS); ("<", LESS); (";", SEMI); ("=", EQUAL)]%char.

(** A text for each tree in the image of the parser.  The name of the global
    [v]; an expression, every operation in parentheses; a statement; the
    statements of a block. *)
Definition letter (v : Z) : ascii := ascii_of_N (Z.to_N (ord "a" + v)).

Fixpoint unparse_expr (x : Node) : list ascii :=
  match x with
  | VAR v => [letter v]
  | CST n => chars (str n)
  | ADD a b => "("%char :: unparse_expr a ++ "+"%char :: unparse_expr b ++ [")"%char]
  | SUB a b => "("%char :: unparse_expr a ++ "-"%char :: unparse_expr b ++ [")"%char]
  | LT a b => "("%char :: unparse_expr a ++ "<"%char :: unparse_expr b ++ [")"%char]
  | SET a b => "("%char :: unparse_expr a ++ "="%char :: unparse_expr b ++ [")"%char]
  | _ => []
  end.

Fixpoint unparse (x : Node) : list ascii :=
  match x with
  | IF1 e a => chars "if(" ++ unparse_expr e ++ ")"%char :: unparse a
  | IF2 e a b =>
      chars "if(" ++ unparse_expr e ++ ")"%char :: unparse a ++
      chars "else " ++ unparse b
  | WHILE e a => chars "while(" ++ unparse_expr e ++ ")"%char :: unparse a
  | DO a e =>
      chars "do " ++ unparse a ++ chars "while(" ++ unparse_expr e ++ chars ");"
  | EMPTY => [";"%char]
  | SEQ a b => "{"%char :: (unparse_block a ++ unparse b) ++ ["}"%char]
  | EXPR e => unparse_expr e ++ [";"%char]
  | _ => []
  end
with unparse_block (x : Node) : list ascii :=
  match x with
  | SEQ a b => unparse_block a ++ unparse b
  | _ => []
  end.

(** The trees in the image of the parser.  Expressions: variables are
    globals, constants are not negative, assignment targets are variables.
    Statements: the first branch of an [if] with [else] does not end in an
    [if] without [else] (the [else] would be taken for that one), and a
    block is the chain of [SEQ] nodes that starts from [EMPTY]. *)
Fixpoint expr_ok (x : Node) : bool :=
  match x with
  | VAR v => is_global v
  | CST n => 0 <=? n
  | ADD a b | SUB a b | LT a b => expr_ok a && expr_ok b
  | SET (VAR v) e => is_global v && expr_ok e
  | _ => false
  end.

Fixpoint open_if (x : Node) : bool :=
  match x with
  | IF1 _ _ => true
  | IF2 _ _ b => open_if b
  | WHILE _ a => open_if a
  | _ => false
  end.

Fixpoint stmt_ok (x : Node) : bool :=
  match x with
  | IF1 e a => expr_ok e && stmt_ok a
  | IF2 e a b => expr_ok e && stmt_ok a && negb (open_if a) && stmt_ok b
  | WHILE e a => expr_ok e && stmt_ok a
  | DO a e => stmt_ok a && expr_ok e
  | EMPTY => true
  | SEQ a b => block_ok a && stmt_ok b
  | EXPR e => expr_ok e
  | _ => false
  end
with block_ok (x : Node) : bool :=
  match x with
  | EMPTY => true
  | SEQ a b => block_ok a && stmt_ok b
  | _ => false
  end.

(** The depth of a tree, twice over: the fuel its parsing takes. *)
Fixpoint height (x : Node) : nat :=
  match x with
  | VAR _ | CST _ | EMPTY => 0
  | ADD a b | SUB a b | LT a b | SET a b | IF1 a b | WHILE a b | DO a b
  | SEQ a b => S (S (height a `max` height b))
  | IF2 a b c => S (S ((height a `max` height b) `max` height c))
  | EXPR a | PROG a => S (S (height a))
  end.

(** What may follow an operand: no letter, underscore or digit. *)
Definition stops (rest : list ascii) : Prop :=
  ends_word rest /\ ends_number rest.

(** What follows a statement is not [else]. *)
Definition no_else (rest : list ascii) : Prop :=
  forall L, at_text rest L -> sym L <> Symbol_value ELSE_SYM.

(** The keywords and their tokens, and the token a text starts with. *)
Definition keywords : list (string * Symbol) :=
  [("do", DO_SYM); ("else", ELSE_SYM); ("if", IF_SYM); ("while", WHILE_SYM)]%string.

Definition first_sym (x : Node) : Symbol :=
  match x with
  | VAR _ => ID
  | CST _ => INT
  | ADD _ _ | SUB _ _ | LT _ _ | SET _ _ => LPAR
  | IF1 _ _ | IF2 _ _ _ => IF_SYM
  | WHILE _ _ => WHILE_SYM
  | DO _ _ => DO_SYM
  | EMPTY => SEMI
  | SEQ _ _ => LBRA
  | EXPR e =>
      match e with
      | VAR _ => ID
      | CST _ => INT
      | _ => LPAR
      end
  | PROG _ => EOI
  end.

(** What may follow an expression: [)] or [;]. *)
Definition closes (rest : list ascii) : Prop :=
  exists r, rest = ")"%char :: r \/ rest = ";"%char :: r.

(** The number of statements of a block. *)
Fixpoint spine (x : Node) : nat :=
  match x with
  | SEQ a _ => S (spine a)
  | _ => 0
  end.

(** What the lexer guarantees of a token, numbers included: the value of a
    number token is not negative. *)
Definition lex_nat (L : lexer) : Prop :=
  lex_ok L /\ (sym L = Symbol_value INT -> 0 <= int_val L).

(** What a parsing function returns on success: a node and a lexer that
    satisfy [Q], the lexer with a well-formed token. *)
Definition returns (Q : Node -> lexer -> Prop) (m : P Node) : Prop :=
  forall L x L', lex_nat L -> m L = Ok (x, L') -> Q x L' /\ lex_nat L'.

(** An expression of the parser's image; a statement of the image, no
    [else] following it when it ends in an [if] without [else]; a block of
    the image. *)
Definition expr_image (x : Node) (L : lexer) : Prop := expr_ok x = true.

Definition stmt_image (x : Node) (L : lexer) : Prop :=
  stmt_ok x = true /\ (open_if x = true -> sym L <> Symbol_value ELSE_SYM).

Definition block_image (x : Node) (L : lexer) : Prop := block_ok x = true.

(** The stack cells the code of a tree uses above the height at which it is
    entered. *)
Fixpoint depth (x : Node) : Z :=
  match x with
  | VAR _ | CST _ => 1
  | ADD a b | SUB a b | LT a b => depth a `max` (1 + depth b)
  | SET _ e => depth e
  | IF1 e a | WHILE e a | DO e a | SEQ e a => depth e `max` depth a
  | IF2 e a b => (depth e `max` depth a) `max` depth b
  | EMPTY => 0
  | EXPR e | PROG e => depth e
  end.

(** One turn of the machine from [s] either raises [OverflowError] or
    arrives, without halting, in a state with [pc] moved by [dpc], [sp] by
    [dsp], and arrays of the same lengths. *)
Definition advance (s s1 : vm) (dpc dsp : Z) : Prop :=
  pc s1 = pc s + dpc /\ sp s1 = sp s + dsp /\
  length (stack s1) = length (stack s) /\
  length (_globals s1) = length (_globals s).

Definition moves (code : list Z) (s : vm) (dpc dsp : Z) : Prop :=
  step code s = Raise OverflowError \/
  exists s1, step code s = Ok (false, s1) /\ advance s s1 dpc dsp.

(** The loop of [run], given [n] turns from [s], runs out of them, or raises
    [OverflowError], or comes to a state in [post] with turns left. *)
Definition proceeds (code : list Z) (n : nat) (s : vm) (post : vm -> Prop) : Prop :=
  run_loop code n s = Fuel \/
  run_loop code n s = Raise OverflowError \/
  exists (m : nat) (s1 : vm),
    (m <= n)%nat /\ post s1 /\ run_loop code n s = run_loop code m s1.

(** Where the code of an expression, and of a statement, leaves the machine
    started in [s], if it gets there. *)
Definition safe_expr (k : nat) (x : Node) : Prop :=
  forall code s,
    code_at code (pc s) (code_of x) -> 0 <= sp s ->
    sp s + depth x <= zlen (stack s) -> 26 <= zlen (_globals s) ->
    proceeds code k s (fun s1 => advance s s1 (zlen (code_of x)) 1).

Definition safe_stmt (k : nat) (x : Node) : Prop :=
  forall code s,
    code_at code (pc s) (code_of x) -> 0 <= sp s ->
    sp s + depth x <= zlen (stack s) -> 26 <= zlen (_globals s) ->
    proceeds code k s (fun s1 => advance s s1 (zlen (code_of x)) 0).

(** A tree without [WHILE] and [DO] nodes. *)
Fixpoint loop_free (x : Node) : bool :=
  match x with
  | VAR _ | CST _ | EMPTY => true
  | WHILE _ _ | DO _ _ => false
  | ADD a b | SUB a b | LT a b | SET a b | IF1 a b | SEQ a b =>
      loop_free a && loop_free b
  | IF2 a b d => loop_free a && loop_free b && loop_free d
  | EXPR a | PROG a => loop_free a
  end.

(** Started in [s] with [n] turns, the machine raises [OverflowError] or
    reaches, having spent at most [k] turns, a state that [post] holds of. *)
Definition ends_within (code : list Z) (n : nat) (s : vm) (k : nat)
    (post : vm -> Prop) : Prop :=
  run_loop code n s = Raise OverflowError \/
  exists (m : nat) (s1 : vm),
    ((m <= n)%nat /\ (n <= m + k)%nat) /\ post s1 /\
    run_loop code n s = run_loop code m s1.

(* ------------------------------------------------------------------ *)
(** ** The recursion limit *)

(** The definitions above describe the program on an interpreter that
    never refuses a call.  The interpreter raises [RecursionError] on a call
    that would be nested deeper than its recursion limit, and the program
    catches no exception.  The functions of the program are given here once
    more with the number [d] of calls that may still be nested inside one
    another: [f_in d] is the body of [f] run with [d] frames left, and a
    call made from it is [enter d], which raises when no frame is left and
    runs the callee with one frame fewer otherwise.

    The frames counted are those of the functions [tinyc.py] defines
    ([Node.__init__] and [CustomEnumMeta.__getitem__] among them), nested
    below the module level.  The frame of the module itself, and what the
    library does inside a call (the lookup of an enumeration member), are
    not counted: the limit of the model is the interpreter's less the few
    frames they take. *)
Definition enter {S A} (d : nat) (body : nat -> M S A) : M S A :=
  match d with
  | O => raise RecursionError
  | S d' => body d'
  end.

(** Calls of [next_ch()] and [syntax_error()], which call nothing of the
    program; [new_node(k)] calls [Node(k)], which enters [Node.__init__]. *)
Definition next_ch_call (d : nat) : M lexer unit :=
  enter d (fun _ => modify next_ch).

Definition syntax_error_call {A} (d : nat) : M lexer A :=
  enter d (fun _ => syntax_error).

Definition new_node_call (d : nat) : M lexer unit :=
  enter d (fun d1 => enter d1 (fun _ => ret tt)).

(** [next_sym] with [d] frames left.  At the end of input it calls nothing.
    On a blank it calls [next_ch()] and then itself, [return next_sym()],
    one frame deeper for every blank.  Every other case starts with a call
    of [next_ch()] or [syntax_error()] and never has more than one call
    open, so it goes as in [next_sym] when a frame is left. *)
Fixpoint next_sym_in (d : nat) : M lexer unit := fun L =>
  match ch L with
  | None => Ok (tt, set_sym EOI L)
  | Some a =>
      if is_blank a then
        (next_ch_call d >> enter d next_sym_in) L
      else
        match d with
        | O => Raise RecursionError
        | S _ => next_sym L
        end
  end.

Definition next_sym_call (d : nat) : P unit := enter d next_sym_in.

Definition expect_in (d : nat) (s : Symbol) : P unit :=
  let* b := sym_is s in if b then next_sym_call d else syntax_error_call d.

Section GrammarIn.
Variable expr_rec : nat -> P Node.

Definition paren_expr_in (d : nat) : P Node :=
  expect_in d LPAR >>
  let* x := enter d expr_rec in
  expect_in d RPAR >>
  ret x.

Definition term_in (d : nat) : P Node :=
  let* is_id := sym_is ID in
  if is_id then
    new_node_call d >>
    let* name := gets id_name in
    let* o := lift (first_ord name) in
    next_sym_call d >>
    ret (VAR (o - ord "a"))
  else
    let* is_int := sym_is INT in
    if is_int then
      new_node_call d >>
      let* v := gets int_val in
      next_sym_call d >>
      ret (CST v)
    else enter d paren_expr_in.

Fixpoint sum_loop_in (d : nat) (n : nat) (x : Node) : P Node :=
  match n with
  | O => out_of_fuel
  | S n' =>
      let* plus := sym_is PLUS in
      let* minus := sym_is MINUS in
      if plus || minus then
        new_node_call d >>
        next_sym_call d >>
        let* y := enter d term_in in
        sum_loop_in d n' (if plus then ADD x y else SUB x y)
      else ret x
  end.

Definition _sum_in (n d : nat) : P Node :=
  let* x := enter d term_in in sum_loop_in d n x.

Definition test_in (n d : nat) : P Node :=
  let* x := enter d (_sum_in n) in
  let* less := sym_is LESS in
  if less then
    new_node_call d >>
    next_sym_call d >>
    let* y := enter d (_sum_in n) in
    ret (LT x y)
  else ret x.

Definition expr_body_in (n d : nat) : P Node :=
  let* is_id := sym_is ID in
  if negb is_id then enter d (test_in n)
  else
    let* x := enter d (test_in n) in
    let* eq := sym_is EQUAL in
    if is_VAR x && eq then
      new_node_call d >>
      next_sym_call d >>
      let* y := enter d expr_rec in
      ret (SET x y)
    else ret x.
End GrammarIn.

Fixpoint expr_in (n : nat) : nat -> P Node :=
  match n with
  | O => fun _ => out_of_fuel
  | S n' => expr_body_in (expr_in n') n
  end.

Section StatementsIn.
Variable statement_rec : nat -> P Node.
Variable n : nat.

Fixpoint block_loop_in (d : nat) (k : nat) (x : Node) : P Node :=
  match k with
  | O => out_of_fuel
  | S k' =>
      let* closed := sym_is RBRA in
      if closed then ret x
      else
        new_node_call d >>
        let* y := enter d statement_rec in
        block_loop_in d k' (SEQ x y)
  end.

Definition statement_body_in (d : nat) : P Node :=
  let* s := gets sym in
  if s =? Symbol_value IF_SYM then
    new_node_call d >>
    next_sym_call d >>
    let* c := enter d (paren_expr_in (expr_in n)) in
    let* a := enter d statement_rec in
    let* els := sym_is ELSE_SYM in
    if els then
      next_sym_call d >>
      let* b := enter d statement_rec in
      ret (IF2 c a b)
    else ret (IF1 c a)
  else if s =? Symbol_value WHILE_SYM then
    new_node_call d >>
    next_sym_call d >>
    let* c := enter d (paren_expr_in (expr_in n)) in
    let* a := enter d statement_rec in
    ret (WHILE c a)
  else if s =? Symbol_value DO_SYM then
    new_node_call d >>
    next_sym_call d >>
    let* a := enter d statement_rec in
    expect_in d WHILE_SYM >>
    let* c := enter d (paren_expr_in (expr_in n)) in
    expect_in d SEMI >>
    ret (DO a c)
  else if s =? Symbol_value SEMI then
    new_node_call d >>
    next_sym_call d >>
    ret EMPTY
  else if s =? Symbol_value LBRA then
    new_node_call d >>
    next_sym_call d >>
    let* x := block_loop_in d n EMPTY in
    next_sym_call d >>
    ret x
  else
    new_node_call d >>
    let* e := enter d (expr_in n) in
    expect_in d SEMI >>
    ret (EXPR e).
End StatementsIn.

Fixpoint statement_in (n : nat) : nat -> P Node :=
  match n with
  | O => fun _ => out_of_fuel
  | S n' => statement_body_in (statement_in n') n
  end.

Definition program_in (n d : nat) : P Node :=
  new_node_call d >>
  next_sym_call d >>
  let* x := enter d (statement_in n) in
  let* eoi := sym_is EOI in
  if eoi then ret (PROG x) else syntax_error_call d.

(** [program()] called from the module, where [limit] calls may be nested. *)
Definition program_lim (limit : nat) (input : list ascii) : res Node :=
  match enter limit (program_in (fuel_for input)) (lexer_init input) with
  | Ok (x, _) => Ok x
  | Raise e => Raise e
  | Fuel => Fuel
  end.

(** [c] with [d] frames left: [NodeType[x.kind]] enters
    [CustomEnumMeta.__getitem__] before anything is emitted. *)
Definition g_call (d : nat) (b : Z) : G unit := enter d (fun _ => g b).
Definition hole_call (d : nat) : G Z := enter d (fun _ => hole).
Definition fix_call (d : nat) (src dst : Z) : G unit :=
  enter d (fun _ => fix_ src dst).
Definition getitem_call {S} (d : nat) : M S unit :=
  enter d (fun _ => ret tt).

Fixpoint c_in (x : Node) (d : nat) : G unit :=
  getitem_call d >>
  match x with
  | VAR v => g_call d (Instruction_value IFETCH) >> g_call d v
  | CST v => g_call d (Instruction_value IPUSH) >> g_call d v
  | ADD o1 o2 =>
      enter d (c_in o1) >> enter d (c_in o2) >>
      g_call d (Instruction_value IADD)
  | SUB o1 o2 =>
      enter d (c_in o1) >> enter d (c_in o2) >>
      g_call d (Instruction_value ISUB)
  | LT o1 o2 =>
      enter d (c_in o1) >> enter d (c_in o2) >>
      g_call d (Instruction_value ILT)
  | SET o1 o2 =>
      enter d (c_in o2) >>
      g_call d (Instruction_value ISTORE) >>
      let* v := lift (val_of o1) in
      g_call d v
  | IF1 o1 o2 =>
      enter d (c_in o1) >>
      g_call d (Instruction_value JZ) >>
      let* p1 := hole_call d in
      enter d (c_in o2) >>
      let* h := gets here in
      fix_call d p1 h
  | IF2 o1 o2 o3 =>
      enter d (c_in o1) >>
      g_call d (Instruction_value JZ) >>
      let* p1 := hole_call d in
      enter d (c_in o2) >>
      g_call d (Instruction_value JMP) >>
      let* p2 := hole_call d in
      let* h := gets here in
      fix_call d p1 h >>
      enter d (c_in o3) >>
      let* h' := gets here in
      fix_call d p2 h'
  | WHILE o1 o2 =>
      let* p1 := gets here in
      enter d (c_in o1) >>
      g_call d (Instruction_value JZ) >>
      let* p2 := hole_call d in
      enter d (c_in o2) >>
      g_call d (Instruction_value JMP) >>
      let* p3 := hole_call d in
      fix_call d p3 p1 >>
      let* h := gets here in
      fix_call d p2 h
  | DO o1 o2 =>
      let* p1 := gets here in
      enter d (c_in o1) >>
      enter d (c_in o2) >>
      g_call d (Instruction_value JNZ) >>
      let* p3 := hole_call d in
      fix_call d p3 p1
  | EMPTY => ret tt
  | SEQ o1 o2 => enter d (c_in o1) >> enter d (c_in o2)
  | EXPR o1 => enter d (c_in o1) >> g_call d (Instruction_value IPOP)
  | PROG o1 => enter d (c_in o1) >> g_call d (Instruction_value HALT)
  end.

Definition compile_lim (limit : nat) (x : Node) : res (list Z) :=
  match enter limit (c_in x) codegen_init with
  | Ok (_, st) => Ok (_object st)
  | Raise e => Raise e
  | Fuel => Fuel
  end.

(** [run] calls nothing but [Instruction[_object[pc]]], once a turn: the
    byte is read, [CustomEnumMeta.__getitem__] is entered, and the turn goes
    on as in [step]. *)
Definition step_in (code : list Z) (d : nat) : V bool :=
  rd_code code >>
  getitem_call d >>
  step code.

Fixpoint run_loop_in (code : list Z) (d : nat) (n : nat) : V unit :=
  match n with
  | O => out_of_fuel
  | S n' =>
      let* halted := step_in code d in
      if halted then ret tt else run_loop_in code d n'
  end.

Definition run_lim (limit n : nat) (code globals : list Z) : res (list Z) :=
  match enter limit (fun d => run_loop_in code d n) (vm_init globals) with
  | Ok (_, s) => Ok (_globals s)
  | Raise e => Raise e
  | Fuel => Fuel
  end.

(** The main program under the limit. *)
Definition main_lim (limit n : nat) (input : list ascii) : outcome :=
  finish (program_lim limit input) (fun ast =>
  finish (compile_lim limit ast) (fun code =>
  finish (run_lim limit n code (replicate 26 0)) (fun globals =>
  finish (report globals range26) (fun out =>
  Exited 0 out [])))).

(** The calls [c] nests for a tree. *)
Fixpoint nesting (x : Node) : nat :=
  match x with
  | VAR _ | CST _ | EMPTY => 1
  | SET _ a | EXPR a | PROG a => S (nesting a)
  | ADD a b | SUB a b | LT a b | IF1 a b | WHILE a b | DO a b | SEQ a b =>
      S (nesting a `max` nesting b)
  | IF2 a b e => S ((nesting a `max` nesting b) `max` nesting e)
  end.

(** A result [r] under the limit, against the result [r'] without it: the
    same, or else the limit was met. *)
Definition limited {A} (r r' : res A) : Prop :=
  r = Raise RecursionError \/ r = r'.

(** The same with fuel: [r] is the result with less fuel and fewer frames
    than [r'], and [lt] says that the fuel is strictly less. *)
Definition upto (lt : Prop) {A} (r r' : res A) : Prop :=
  r = Raise RecursionError \/ (r = Fuel /\ lt) \/ r = r'.

(** A parsing function that reads on and never puts a character back. *)
Definition quiet {A} (m : P A) : Prop :=
  forall L a L1, m L = Ok (a, L1) -> (unread L1 <= unread L)%nat.

(* ------------------------------------------------------------------ *)
(** * Properties *)

(** *** Python sequences *)

Lemma py_index_nonneg len i k :
  0 <= i -> py_index len i = Some k -> k = Z.to_nat i /\ i < len.
Proof.
  unfold py_index. intros Hi.
  destruct (0 <=? i) eqn:E1, (i <? len) eqn:E2; simpl;
    try (intros [= <-]; split; [reflexivity | lia]).
  - destruct (- len <=? i) eqn:E3, (i <? 0) eqn:E4; simpl; try discriminate; lia.
  - lia.
  - lia.
Qed.

Lemma py_index_in_range len i :
  0 <= i < len -> py_index len i = Some (Z.to_nat i).
Proof.
  intros H. unfold py_index.
  destruct (0 <=? i) eqn:E1, (i <? len) eqn:E2; simpl; try reflexivity; lia.
Qed.

Lemma py_get_nonneg {A} (l : list A) i v :
  0 <= i -> py_get l i = Ok v -> l !! Z.to_nat i = Some v.
Proof.
  unfold py_get. intros Hi.
  destruct (py_index _ i) as [k|] eqn:E; [|discriminate].
  apply py_index_nonneg in E as [-> _]; [|assumption].
  destruct (l !! Z.to_nat i); [|discriminate]. congruence.
Qed.

Lemma py_get_lookup {A} (l : list A) i v :
  0 <= i -> l !! Z.to_nat i = Some v -> py_get l i = Ok v.
Proof.
  intros Hi Hl. unfold py_get.
  rewrite py_index_in_range.
  - by rewrite Hl.
  - apply lookup_lt_Some in Hl. lia.
Qed.

Lemma py_set_nonneg lo hi l i v l' :
  0 <= i -> py_set lo hi l i v = Ok l' ->
  l' = <[Z.to_nat i := v]> l /\ i < zlen l /\ lo <= v <= hi.
Proof.
  unfold py_set. intros Hi.
  destruct (py_index _ i) as [k|] eqn:E; [|discriminate].
  apply py_index_nonneg in E as [-> Hlt]; [|assumption].
  destruct (lo <=? v) eqn:E1, (v <=? hi) eqn:E2; simpl; try discriminate.
  intros [= <-]. unfold zlen. repeat split; lia.
Qed.

Lemma py_set_in_range lo hi l i v :
  0 <= i < zlen l -> lo <= v <= hi ->
  py_set lo hi l i v = Ok (<[Z.to_nat i := v]> l).
Proof.
  intros Hi Hv. unfold py_set. rewrite py_index_in_range by exact Hi.
  destruct (lo <=? v) eqn:E1, (v <=? hi) eqn:E2; simpl; try reflexivity; lia.
Qed.

(** *** Bytes in the buffer *)

Lemma code_at_nil obj p : 0 <= p -> code_at obj p [].
Proof. intros Hp. split; [exact Hp|]. intros i b. by rewrite lookup_nil. Qed.

Lemma code_at_cons obj p b l :
  code_at obj p (b :: l) <->
  0 <= p /\ obj !! Z.to_nat p = Some b /\ code_at obj (p + 1) l.
Proof.
  unfold code_at. split.
  - intros [Hp H]. split; [exact Hp|]. split.
    + specialize (H 0%nat b eq_refl). by rewrite Nat.add_0_r in H.
    + split; [lia|]. intros i b' Hi. specialize (H (S i) b' Hi).
      replace (Z.to_nat (p + 1) + i)%nat with (Z.to_nat p + S i)%nat by lia.
      exact H.
  - intros (Hp & H0 & _ & H). split; [exact Hp|].
    intros [|i] b' Hi; simpl in Hi.
    + rewrite Nat.add_0_r. congruence.
    + specialize (H i b' Hi).
      replace (Z.to_nat p + S i)%nat with (Z.to_nat (p + 1) + i)%nat by lia.
      exact H.
Qed.

Lemma code_at_app obj p l1 l2 :
  code_at obj p (l1 ++ l2) <->
  code_at obj p l1 /\ code_at obj (p + zlen l1) l2.
Proof.
  unfold code_at, zlen. split.
  - intros [Hp H]. repeat split; try lia.
    + intros i b Hi. apply H. by apply lookup_app_l_Some.
    + intros i b Hi.
      replace (Z.to_nat (p + Z.of_nat (length l1)) + i)%nat
        with (Z.to_nat p + (length l1 + i))%nat by lia.
      apply H. by rewrite lookup_app_r, Nat.add_comm, Nat.add_sub by lia.
  - intros [[Hp H1] [_ H2]]. split; [exact Hp|].
    intros i b Hi. apply lookup_app_Some in Hi as [Hi|[Hge Hi]].
    + by apply H1.
    + specialize (H2 _ _ Hi).
      replace (Z.to_nat (p + Z.of_nat (length l1)) + (i - length l1))%nat
        with (Z.to_nat p + i)%nat in H2 by lia.
      exact H2.
Qed.

Lemma code_at_nonneg obj p l : code_at obj p l -> 0 <= p.
Proof. by intros [H _]. Qed.

Lemma code_at_frame obj obj' p l :
  (forall i : nat, p <= Z.of_nat i < p + zlen l -> obj' !! i = obj !! i) ->
  code_at obj p l -> code_at obj' p l.
Proof.
  unfold code_at, zlen. intros Hsame [Hp H]. split; [exact Hp|].
  intros i b Hi. rewrite Hsame; [by apply H|].
  apply lookup_lt_Some in Hi. lia.
Qed.

Lemma code_at_same_below h obj obj' p l :
  same_below h obj obj' -> p + zlen l <= h ->
  code_at obj p l -> code_at obj' p l.
Proof.
  intros Hs Hle. apply code_at_frame. intros i Hi. apply Hs. lia.
Qed.

Lemma code_at_get obj p b l : code_at obj p (b :: l) -> py_get obj p = Ok b.
Proof.
  intros (Hp & H & _)%code_at_cons. by apply py_get_lookup.
Qed.

Lemma same_below_refl h obj : same_below h obj obj.
Proof. by intros i _. Qed.

Lemma same_below_trans h h' o1 o2 o3 :
  same_below h o1 o2 -> same_below h' o2 o3 -> h <= h' -> same_below h o1 o3.
Proof.
  intros H1 H2 Hle i Hi. rewrite H2 by lia. by apply H1.
Qed.

Lemma same_below_insert h obj (k : nat) v :
  h <= Z.of_nat k -> same_below h obj (<[k:=v]> obj).
Proof.
  intros Hle i Hi. apply list_lookup_insert_ne. lia.
Qed.

(** *** The monad *)

Lemma bind_ok {S A B} (m : M S A) (k : A -> M S B) s r :
  bind m k s = Ok r -> exists a s1, m s = Ok (a, s1) /\ k a s1 = Ok r.
Proof.
  unfold bind. destruct (m s) as [[a s1]| |]; try discriminate. eauto.
Qed.

Lemma lift_ok {S A} (r : res A) (s : S) a s1 :
  lift r s = Ok (a, s1) -> r = Ok a /\ s1 = s.
Proof. unfold lift. destruct r; try discriminate. by intros [= -> ->]. Qed.

Ltac minv H :=
  lazymatch type of H with
  | bind _ _ _ = Ok _ =>
      let a := fresh "a" in
      let s1 := fresh "st" in
      let H1 := fresh "H" in
      let H2 := fresh "H" in
      apply bind_ok in H as (a & s1 & H1 & H2); minv H1; minv H2
  | lift _ _ = Ok _ =>
      let H1 := fresh "H" in
      apply lift_ok in H as [H1 ->]
  | gets _ _ = Ok _ => unfold gets in H; injection H as <- <-
  | ret _ _ = Ok _ => unfold ret in H; injection H as <- <-
  | modify _ _ = Ok _ => unfold modify in H; injection H as <- <-
  | hole _ = Ok _ => unfold hole in H; injection H as <- <-
  | _ => idtac
  end.

(** *** Code generator *)

Lemma zlen_app {A} (l1 l2 : list A) : zlen (l1 ++ l2) = zlen l1 + zlen l2.
Proof. unfold zlen. rewrite length_app. lia. Qed.

Lemma zlen_cons {A} (a : A) l : zlen (a :: l) = 1 + zlen l.
Proof. unfold zlen. simpl. lia. Qed.

Lemma zlen_nil {A} : zlen (@nil A) = 0.
Proof. reflexivity. Qed.

Lemma zlen_nonneg {A} (l : list A) : 0 <= zlen l.
Proof. unfold zlen. lia. Qed.


Lemma code_at_same_except k obj obj' p l :
  same_except k obj obj' -> k < p \/ p + zlen l <= k ->
  code_at obj p l -> code_at obj' p l.
Proof.
  intros Hs Hk. apply code_at_frame. intros i Hi. apply Hs. lia.
Qed.

Lemma set_b_ok obj i v obj' :
  set_b obj i v = Ok obj' -> 0 <= i ->
  code_at obj' i [v] /\ same_except i obj obj' /\ -128 <= v <= 127.
Proof.
  intros H Hi. apply py_set_nonneg in H as (-> & Hlt & Hv); [|exact Hi].
  split; [|split; [|exact Hv]].
  - apply code_at_cons. split; [exact Hi|]. split.
    + apply list_lookup_insert_eq. unfold zlen in Hlt. lia.
    + apply code_at_nil. lia.
  - intros k Hk. apply list_lookup_insert_ne. lia.
Qed.

Lemma g_ok v st u st' :
  g v st = Ok (u, st') -> 0 <= here st ->
  here st' = here st + 1 /\
  code_at (_object st') (here st) [v] /\
  same_except (here st) (_object st) (_object st') /\
  -128 <= v <= 127.
Proof.
  unfold g. intros H Hh.
  destruct (set_b _ _ _) as [o| |] eqn:E; try discriminate.
  injection H as _ <-. simpl. split; [reflexivity|].
  by apply set_b_ok.
Qed.

Lemma fix_ok src dst st u st' :
  fix_ src dst st = Ok (u, st') -> 0 <= src ->
  here st' = here st /\
  code_at (_object st') src [dst - src] /\
  same_except src (_object st) (_object st') /\
  -128 <= dst - src <= 127.
Proof.
  unfold fix_. intros H Hh.
  destruct (set_b _ _ _) as [o| |] eqn:E; try discriminate.
  injection H as _ <-. simpl. split; [reflexivity|].
  by apply set_b_ok.
Qed.

Lemma same_except_below k h obj obj' :
  same_except k obj obj' -> h <= k -> same_below h obj obj'.
Proof. intros H Hle i Hi. apply H. lia. Qed.

Ltac zl :=
  repeat first
    [ rewrite zlen_app in * | rewrite zlen_cons in *
    | rewrite (@zlen_nil Z) in * ].


Lemma code_at_eq obj p p' l : code_at obj p l -> p = p' -> code_at obj p' l.
Proof. by intros H <-. Qed.

Lemma code_at_eq1 obj p p' b b' :
  code_at obj p [b] -> p = p' -> b = b' -> code_at obj p' [b'].
Proof. by intros H <- <-. Qed.

Lemma code_at_cons1 obj p b l :
  code_at obj p [b] -> code_at obj (p + 1) l -> code_at obj p (b :: l).
Proof.
  intros (Hp & Hb & _)%code_at_cons Hl. apply code_at_cons. auto.
Qed.

Lemma code_at_app2 obj p l1 l2 :
  code_at obj p l1 -> code_at obj (p + zlen l1) l2 -> code_at obj p (l1 ++ l2).
Proof. intros. by apply code_at_app. Qed.

Ltac frame :=
  match goal with
  | H : code_at ?o _ ?l |- code_at ?o _ ?l =>
      eapply code_at_eq; [exact H | lia]
  | H : code_at ?o _ [_] |- code_at ?o _ [_] =>
      eapply code_at_eq1; [exact H | lia | lia]
  | S : same_below _ ?o1 ?o |- code_at ?o _ _ =>
      eapply (code_at_same_below _ o1 o); [exact S | zl; lia | frame]
  | S : same_except _ ?o1 ?o |- code_at ?o _ _ =>
      eapply (code_at_same_except _ o1 o); [exact S | zl; lia | frame]
  end.

Ltac pieces :=
  lazymatch goal with
  | |- code_at _ _ (_ ++ _) => apply code_at_app2; pieces
  | |- code_at _ _ [_] => idtac
  | |- code_at _ _ (_ :: _) => apply code_at_cons1; pieces
  | |- code_at _ _ [] => apply code_at_nil; lia
  | |- _ => idtac
  end.

Ltac below :=
  match goal with
  | |- same_below _ ?o ?o => apply same_below_refl
  | S : same_below ?h ?o1 ?o |- same_below _ _ ?o =>
      eapply (same_below_trans _ h _ o1 o); [below | exact S | lia]
  | S : same_except ?k ?o1 ?o |- same_below _ _ ?o =>
      eapply (same_below_trans _ k _ o1 o);
        [below | eapply same_except_below; [exact S | lia] | lia]
  end.


Ltac listing_step :=
  match goal with
  | H : g _ _ = Ok _ |- _ =>
      let E := fresh "E" in let C := fresh "C" in let S := fresh "S" in
      apply g_ok in H as (E & C & S & _); [|simpl in *; lia]
  | H : fix_ _ _ _ = Ok _ |- _ =>
      let E := fresh "E" in let C := fresh "C" in let S := fresh "S" in
      apply fix_ok in H as (E & C & S & _); [|simpl in *; lia]
  | IH : forall st u st', c ?x st = Ok _ -> _, H : c ?x _ = Ok _ |- _ =>
      let E := fresh "E" in let C := fresh "C" in let S := fresh "S" in
      apply IH in H as (E & C & S); [|simpl in *; lia]
  end.

Ltac finish_listing :=
  simpl in *; zl; split; [lia | split; [pieces; frame | below]].

Lemma c_listing x : forall st u st',
  c x st = Ok (u, st') -> 0 <= here st ->
  here st' = here st + zlen (code_of x) /\
  code_at (_object st') (here st) (code_of x) /\
  same_below (here st) (_object st) (_object st').
Proof.
  induction x; intros st u st' H Hh; simpl in H; minv H;
    try pose proof (zlen_nonneg (code_of x1));
    try pose proof (zlen_nonneg (code_of x2));
    try pose proof (zlen_nonneg (code_of x3));
    try pose proof (zlen_nonneg (code_of x));
    repeat listing_step;
    try match goal with H : val_of _ = Ok _ |- _ => simpl; rewrite H end;
    finish_listing.
Qed.

(** *** Virtual machine: what one turn of the loop does *)

Lemma rd_code_at code s b l :
  code_at code (pc s) (b :: l) -> rd_code code s = Ok (b, s).
Proof.
  intros H. unfold rd_code. by rewrite (code_at_get _ _ _ _ H).
Qed.

Lemma run_loop_ok code n s u s' :
  run_loop code n s = Ok (u, s') ->
  exists n1 h s1, n = S n1 /\ step code s = Ok (h, s1) /\
    if (h : bool) then s' = s1 else run_loop code n1 s1 = Ok (u, s').
Proof.
  destruct n as [|n1]; [discriminate|]. simpl. intros H.
  apply bind_ok in H as (h & s1 & H1 & H2).
  exists n1, h, s1. split; [reflexivity|]. split; [exact H1|].
  destruct h; [|exact H2]. unfold ret in H2. congruence.
Qed.

Lemma set_stack_ok i v s u s1 :
  set_stack i v s = Ok (u, s1) -> 0 <= i ->
  stack s1 = <[Z.to_nat i := v]> (stack s) /\ sp s1 = sp s /\ pc s1 = pc s /\
  _globals s1 = _globals s /\ i < zlen (stack s).
Proof.
  unfold set_stack, set_i. intros H Hi.
  destruct (py_set _ _ _ _ _) as [st| |] eqn:E; try discriminate.
  injection H as _ <-. simpl.
  apply py_set_nonneg in E as (-> & ? & _); auto.
Qed.

Lemma set_global_ok i v s u s1 :
  set_global i v s = Ok (u, s1) -> 0 <= i ->
  _globals s1 = <[Z.to_nat i := v]> (_globals s) /\ sp s1 = sp s /\
  pc s1 = pc s /\ stack s1 = stack s /\ i < zlen (_globals s).
Proof.
  unfold set_global, set_i. intros H Hi.
  destruct (py_set _ _ _ _ _) as [st| |] eqn:E; try discriminate.
  injection H as _ <-. simpl.
  apply py_set_nonneg in E as (-> & ? & _); auto.
Qed.

Lemma rd_stack_ok i s v s1 :
  rd_stack i s = Ok (v, s1) -> 0 <= i ->
  stack s !! Z.to_nat i = Some v /\ s1 = s.
Proof.
  unfold rd_stack. intros [H ->]%lift_ok Hi. split; [|reflexivity].
  by apply py_get_nonneg.
Qed.

Lemma rd_global_ok i s v s1 :
  rd_global i s = Ok (v, s1) -> 0 <= i ->
  _globals s !! Z.to_nat i = Some v /\ s1 = s.
Proof.
  unfold rd_global. intros [H ->]%lift_ok Hi. split; [|reflexivity].
  by apply py_get_nonneg.
Qed.

(** The head of [step]: fetch the opcode, decode it, advance [pc]. *)
Lemma step_decode code s i l r :
  code_at code (pc s) (Instruction_value i :: l) ->
  step code s = Ok r ->
  exists k : V bool,
    k {| stack := stack s; sp := sp s; pc := pc s + 1;
         _globals := _globals s |} = Ok r /\
    k = match i with
        | IFETCH =>
            let* i := rd_code code in
            let* v := rd_global i in
            let* p := gets sp in
            set_stack p v >> add_sp 1 >> add_pc 1 >> ret false
        | ISTORE =>
            let* p := gets sp in
            let* v := rd_stack (p - 1) in
            let* i := rd_code code in
            set_global i v >> add_pc 1 >> ret false
        | IPUSH =>
            let* v := rd_code code in
            let* p := gets sp in
            set_stack p v >> add_sp 1 >> add_pc 1 >> ret false
        | IPOP => add_sp (-1) >> ret false
        | IADD => binop Z.add >> ret false
        | ISUB => binop Z.sub >> ret false
        | ILT => binop (fun a b => if a <? b then 1 else 0) >> ret false
        | JZ => branch code (fun v => v =? 0) >> ret false
        | JNZ => branch code (fun v => negb (v =? 0)) >> ret false
        | JMP => (let* d := rd_code code in add_pc d) >> ret false
        | HALT => ret true
        end.
Proof.
  intros Hc H. unfold step in H.
  apply bind_ok in H as (b & s1 & H1 & H).
  rewrite (rd_code_at _ _ _ _ Hc) in H1. injection H1 as <- <-.
  apply bind_ok in H as (j & s1 & H1 & H).
  apply lift_ok in H1 as [Hj ->].
  assert (j = i) as -> by (destruct i; vm_compute in Hj; congruence).
  apply bind_ok in H as (u & s1 & H1 & H).
  unfold add_pc, modify in H1. injection H1 as _ <-.
  eexists. split; [exact H|reflexivity].
Qed.

Lemma rd_code_ok code s b s1 b' l :
  rd_code code s = Ok (b, s1) -> code_at code (pc s) (b' :: l) ->
  b = b' /\ s1 = s.
Proof.
  intros H Hc. rewrite (rd_code_at _ _ _ _ Hc) in H. by injection H as <- <-.
Qed.

Ltac vinv H :=
  lazymatch type of H with
  | bind _ _ _ = Ok _ =>
      let a := fresh "a" in
      let s1 := fresh "s" in
      let H1 := fresh "H" in
      let H2 := fresh "H" in
      apply bind_ok in H as (a & s1 & H1 & H2); vinv H1; vinv H2
  | gets _ _ = Ok _ => unfold gets in H; injection H as <- <-
  | ret _ _ = Ok _ => unfold ret in H; injection H as <- <-
  | add_sp _ _ = Ok _ => unfold add_sp, modify in H; injection H as <- <-
  | add_pc _ _ = Ok _ => unfold add_pc, modify in H; injection H as <- <-
  | rd_code _ _ = Ok _ =>
      let E := fresh "E" in
      eapply rd_code_ok in H as [E ->];
        [try subst | simpl; eapply code_at_eq; [eassumption | simpl; lia]]
  | rd_stack _ _ = Ok _ =>
      let E := fresh "E" in
      apply rd_stack_ok in H as [E ->]; [|simpl in *; lia]
  | rd_global _ _ = Ok _ =>
      let E := fresh "E" in
      apply rd_global_ok in H as [E ->]; [|simpl in *; lia]
  | set_stack _ _ _ = Ok _ =>
      let E1 := fresh "E" in let E2 := fresh "E" in let E3 := fresh "E" in
      let E4 := fresh "E" in let E5 := fresh "E" in
      apply set_stack_ok in H as (E1 & E2 & E3 & E4 & E5); [|simpl in *; lia]
  | set_global _ _ _ = Ok _ =>
      let E1 := fresh "E" in let E2 := fresh "E" in let E3 := fresh "E" in
      let E4 := fresh "E" in let E5 := fresh "E" in
      apply set_global_ok in H as (E1 & E2 & E3 & E4 & E5); [|simpl in *; lia]
  | _ => idtac
  end.

Ltac decode H Hc :=
  let k := fresh "k" in
  let Hk := fresh "Hk" in
  let Ek := fresh "Ek" in
  destruct (step_decode _ _ _ _ _ Hc H) as (k & Hk & Ek);
  subst k; clear H;
  apply code_at_cons in Hc as (_ & _ & Hc).


Ltac vdone :=
  destruct_and?; simpl in *; subst; simpl in *;
  repeat first [eexists | split]; try eassumption; try reflexivity;
  try congruence; try lia.

Lemma step_IFETCH code s i l h s1 :
  code_at code (pc s) (Instruction_value IFETCH :: i :: l) ->
  step code s = Ok (h, s1) -> 0 <= i -> 0 <= sp s ->
  exists v, h = false /\ _globals s !! Z.to_nat i = Some v /\
    stack s1 = <[Z.to_nat (sp s) := v]> (stack s) /\ sp s1 = sp s + 1 /\
    pc s1 = pc s + 2 /\ _globals s1 = _globals s /\ sp s < zlen (stack s).
Proof. intros Hc H Hi Hsp. decode H Hc. vinv Hk. vdone. Qed.

Lemma step_IPUSH code s v l h s1 :
  code_at code (pc s) (Instruction_value IPUSH :: v :: l) ->
  step code s = Ok (h, s1) -> 0 <= sp s ->
  h = false /\
  stack s1 = <[Z.to_nat (sp s) := v]> (stack s) /\ sp s1 = sp s + 1 /\
  pc s1 = pc s + 2 /\ _globals s1 = _globals s /\ sp s < zlen (stack s).
Proof. intros Hc H Hsp. decode H Hc. vinv Hk. vdone. Qed.

Lemma step_ISTORE code s i l h s1 :
  code_at code (pc s) (Instruction_value ISTORE :: i :: l) ->
  step code s = Ok (h, s1) -> 0 <= i -> 1 <= sp s ->
  exists v, h = false /\ stack s !! Z.to_nat (sp s - 1) = Some v /\
    _globals s1 = <[Z.to_nat i := v]> (_globals s) /\
    stack s1 = stack s /\ sp s1 = sp s /\ pc s1 = pc s + 2 /\
    i < zlen (_globals s).
Proof. intros Hc H Hi Hsp. decode H Hc. vinv Hk. vdone. Qed.

Lemma step_IPOP code s l h s1 :
  code_at code (pc s) (Instruction_value IPOP :: l) ->
  step code s = Ok (h, s1) ->
  h = false /\ stack s1 = stack s /\ sp s1 = sp s - 1 /\
  pc s1 = pc s + 1 /\ _globals s1 = _globals s.
Proof. intros Hc H. decode H Hc. vinv Hk. vdone. Qed.

Lemma binop_ok op s u s1 :
  binop op s = Ok (u, s1) -> 2 <= sp s ->
  exists a b, stack s !! Z.to_nat (sp s - 2) = Some a /\
    stack s !! Z.to_nat (sp s - 1) = Some b /\
    stack s1 = <[Z.to_nat (sp s - 2) := op a b]> (stack s) /\
    sp s1 = sp s - 1 /\ pc s1 = pc s /\ _globals s1 = _globals s.
Proof. intros H Hsp. unfold binop in H. vinv H. vdone. Qed.

Lemma step_IADD code s l h s1 :
  code_at code (pc s) (Instruction_value IADD :: l) ->
  step code s = Ok (h, s1) -> 2 <= sp s ->
  exists a b, h = false /\ stack s !! Z.to_nat (sp s - 2) = Some a /\
    stack s !! Z.to_nat (sp s - 1) = Some b /\
    stack s1 = <[Z.to_nat (sp s - 2) := a + b]> (stack s) /\
    sp s1 = sp s - 1 /\ pc s1 = pc s + 1 /\ _globals s1 = _globals s.
Proof.
  intros Hc H Hsp. decode H Hc. vinv Hk.
  match goal with
  | B : binop _ _ = Ok _ |- _ =>
      apply binop_ok in B as (x & y & ?); [|simpl; lia]
  end.
  exists x, y. vdone.
Qed.

Lemma step_ISUB code s l h s1 :
  code_at code (pc s) (Instruction_value ISUB :: l) ->
  step code s = Ok (h, s1) -> 2 <= sp s ->
  exists a b, h = false /\ stack s !! Z.to_nat (sp s - 2) = Some a /\
    stack s !! Z.to_nat (sp s - 1) = Some b /\
    stack s1 = <[Z.to_nat (sp s - 2) := a - b]> (stack s) /\
    sp s1 = sp s - 1 /\ pc s1 = pc s + 1 /\ _globals s1 = _globals s.
Proof.
  intros Hc H Hsp. decode H Hc. vinv Hk.
  match goal with
  | B : binop _ _ = Ok _ |- _ =>
      apply binop_ok in B as (x & y & ?); [|simpl; lia]
  end.
  exists x, y. vdone.
Qed.

Lemma step_ILT code s l h s1 :
  code_at code (pc s) (Instruction_value ILT :: l) ->
  step code s = Ok (h, s1) -> 2 <= sp s ->
  exists a b, h = false /\ stack s !! Z.to_nat (sp s - 2) = Some a /\
    stack s !! Z.to_nat (sp s - 1) = Some b /\
    stack s1 = <[Z.to_nat (sp s - 2) := if a <? b then 1 else 0]> (stack s) /\
    sp s1 = sp s - 1 /\ pc s1 = pc s + 1 /\ _globals s1 = _globals s.
Proof.
  intros Hc H Hsp. decode H Hc. vinv Hk.
  match goal with
  | B : binop _ _ = Ok _ |- _ =>
      apply binop_ok in B as (x & y & ?); [|simpl; lia]
  end.
  exists x, y. vdone.
Qed.

Lemma branch_ok code taken s u s1 d l :
  branch code taken s = Ok (u, s1) -> code_at code (pc s) (d :: l) ->
  1 <= sp s ->
  exists v, stack s !! Z.to_nat (sp s - 1) = Some v /\
    stack s1 = stack s /\ sp s1 = sp s - 1 /\ _globals s1 = _globals s /\
    pc s1 = if taken v then pc s + d else pc s + 1.
Proof.
  intros H Hc Hsp. unfold branch in H. vinv H.
  match goal with
  | B : (if taken ?v then _ else _) _ = Ok _ |- _ =>
      exists v; destruct (taken v); vinv B; vdone
  end.
Qed.

Lemma step_JZ code s d l h s1 :
  code_at code (pc s) (Instruction_value JZ :: d :: l) ->
  step code s = Ok (h, s1) -> 1 <= sp s ->
  exists v, h = false /\ stack s !! Z.to_nat (sp s - 1) = Some v /\
    stack s1 = stack s /\ sp s1 = sp s - 1 /\ _globals s1 = _globals s /\
    pc s1 = if v =? 0 then pc s + 1 + d else pc s + 2.
Proof.
  intros Hc H Hsp. decode H Hc. vinv Hk.
  match goal with
  | B : branch _ _ _ = Ok _ |- _ =>
      eapply branch_ok in B as (v & ?); [|simpl; eassumption|simpl; lia]
  end.
  exists v. destruct (v =? 0); vdone.
Qed.

Lemma step_JNZ code s d l h s1 :
  code_at code (pc s) (Instruction_value JNZ :: d :: l) ->
  step code s = Ok (h, s1) -> 1 <= sp s ->
  exists v, h = false /\ stack s !! Z.to_nat (sp s - 1) = Some v /\
    stack s1 = stack s /\ sp s1 = sp s - 1 /\ _globals s1 = _globals s /\
    pc s1 = if v =? 0 then pc s + 2 else pc s + 1 + d.
Proof.
  intros Hc H Hsp. decode H Hc. vinv Hk.
  match goal with
  | B : branch _ _ _ = Ok _ |- _ =>
      eapply branch_ok in B as (v & ?); [|simpl; eassumption|simpl; lia]
  end.
  exists v. destruct (v =? 0); vdone.
Qed.

Lemma step_JMP code s d l h s1 :
  code_at code (pc s) (Instruction_value JMP :: d :: l) ->
  step code s = Ok (h, s1) ->
  h = false /\ stack s1 = stack s /\ sp s1 = sp s /\
  _globals s1 = _globals s /\ pc s1 = pc s + 1 + d.
Proof. intros Hc H. decode H Hc. vinv Hk. vdone. Qed.

Lemma step_HALT code s l h s1 :
  code_at code (pc s) (Instruction_value HALT :: l) ->
  step code s = Ok (h, s1) ->
  h = true /\ stack s1 = stack s /\ sp s1 = sp s /\
  _globals s1 = _globals s /\ pc s1 = pc s + 1.
Proof. intros Hc H. decode H Hc. vinv Hk. vdone. Qed.

(** *** Compiled expressions *)


Lemma lands_now code n s s' (post : vm -> Prop) :
  run_loop code n s = Ok (tt, s') -> post s -> lands code n s' post.
Proof. intros H Hp. exists n, s. auto. Qed.

Lemma lands_then code n s' (post post' : vm -> Prop) :
  lands code n s' post ->
  (forall m s1, (m <= n)%nat -> run_loop code m s1 = Ok (tt, s') -> post s1 ->
     lands code m s' post') ->
  lands code n s' post'.
Proof.
  intros (m & s1 & Hm & Hr & Hp) Hk.
  destruct (Hk m s1 Hm Hr Hp) as (m' & s2 & Hm' & Hr' & Hp').
  exists m', s2. split; [lia|]. auto.
Qed.

Lemma lands_weaken code n n' s' (post : vm -> Prop) :
  lands code n s' post -> (n <= n')%nat -> lands code n' s' post.
Proof. intros (m & s1 & Hm & Hr & Hp) Hle. exists m, s1. split; [lia|]. auto. Qed.


(** One turn of a halting run that is not at [HALT]. *)
Ltac turn Hrun :=
  let n1 := fresh "n" in
  let h := fresh "h" in
  let s1 := fresh "s" in
  let Hstep := fresh "Hstep" in
  apply run_loop_ok in Hrun as (n1 & h & s1 & -> & Hstep & Hrun).

Lemma is_global_range v : is_global v = true -> 0 <= v < 26.
Proof. unfold is_global. lia. Qed.

Lemma exec_binop (op : Z -> Z -> Z) (i : Instruction) x1 x2 :
  (forall code s l h s1,
     code_at code (pc s) (Instruction_value i :: l) ->
     step code s = Ok (h, s1) -> 2 <= sp s ->
     exists a b, h = false /\ stack s !! Z.to_nat (sp s - 2) = Some a /\
       stack s !! Z.to_nat (sp s - 1) = Some b /\
       stack s1 = <[Z.to_nat (sp s - 2) := op a b]> (stack s) /\
       sp s1 = sp s - 1 /\ pc s1 = pc s + 1 /\ _globals s1 = _globals s) ->
  (forall code s n s',
     code_at code (pc s) (code_of x1) -> 0 <= sp s ->
     run_loop code n s = Ok (tt, s') -> lands code n s' (expr_post x1 s)) ->
  (forall code s n s',
     code_at code (pc s) (code_of x2) -> 0 <= sp s ->
     run_loop code n s = Ok (tt, s') -> lands code n s' (expr_post x2 s)) ->
  forall code s n s',
    code_at code (pc s)
      (code_of x1 ++ code_of x2 ++ [Instruction_value i]) ->
    0 <= sp s ->
    run_loop code n s = Ok (tt, s') ->
    lands code n s' (fun s3 =>
      pc s3 = pc s + zlen (code_of x1 ++ code_of x2 ++ [Instruction_value i]) /\
      sp s3 = sp s + 1 /\
      stack s3 !! Z.to_nat (sp s) =
        Some (op (eval x1 (_globals s)).1
                 (eval x2 (eval x1 (_globals s)).2).1) /\
      _globals s3 = (eval x2 (eval x1 (_globals s)).2).2 /\
      forall j : nat, Z.of_nat j < sp s -> stack s3 !! j = stack s !! j).
Proof.
  intros Hop IH1 IH2 code s n s' Hc Hsp Hrun.
  apply code_at_app in Hc as [Hc1 Hc2].
  apply code_at_app in Hc2 as [Hc2 Hc3].
  eapply lands_then; [eapply IH1; eassumption|].
  intros m1 s1 Hm1 Hrun1 (Hpc1 & Hsp1 & Hv1 & Hg1 & Hb1).
  eapply lands_then.
  { eapply (IH2 code s1); [|lia|eassumption].
    eapply code_at_eq; [eassumption|lia]. }
  intros m2 s2 Hm2 Hrun2 (Hpc2 & Hsp2 & Hv2 & Hg2 & Hb2).
  turn Hrun2.
  eapply Hop in Hstep as (a & b & -> & Ha & Hb & Hst & Hsp3 & Hpc3 & Hg3);
    [| eapply code_at_eq; [eassumption|lia] | lia].
  replace (sp s2 - 2) with (sp s) in * by lia.
  replace (sp s2 - 1) with (sp s1) in * by lia.
  rewrite Hb2 in Ha by lia. rewrite Hg1 in Hv2.
  assert (a = (eval x1 (_globals s)).1) as -> by congruence.
  assert (b = (eval x2 (eval x1 (_globals s)).2).1) as -> by congruence.
  eapply lands_weaken; [eapply lands_now; [eassumption|]|lia].
  repeat split.
  - zl. lia.
  - lia.
  - rewrite Hst. apply list_lookup_insert_eq.
    eapply lookup_lt_Some. rewrite Hb2 by lia. exact Ha.
  - congruence.
  - intros j Hj. rewrite Hst, list_lookup_insert_ne by lia.
    rewrite Hb2 by lia. apply Hb1. lia.
Qed.

Lemma exec_expr x : is_expr x = true ->
  forall code s n s',
    code_at code (pc s) (code_of x) -> 0 <= sp s ->
    run_loop code n s = Ok (tt, s') ->
    lands code n s' (expr_post x s).
Proof.
  induction x; try discriminate; intros Hx code s n s' Hc Hsp Hrun;
    simpl in Hx.
  - (* VAR *)
    apply is_global_range in Hx. turn Hrun.
    eapply step_IFETCH in Hstep
      as (v & -> & Hv & Hst & Hsp1 & Hpc1 & Hg1 & Hlt); [|exact Hc|lia|lia].
    eapply lands_weaken; [eapply lands_now; [eassumption|]|lia].
    unfold expr_post. simpl. rewrite Hv. simpl. repeat split; try assumption.
    + rewrite Hst. apply list_lookup_insert_eq. unfold zlen in Hlt. lia.
    + intros j Hj. rewrite Hst. apply list_lookup_insert_ne. lia.
  - (* CST *)
    turn Hrun.
    eapply step_IPUSH in Hstep
      as (-> & Hst & Hsp1 & Hpc1 & Hg1 & Hlt); [|exact Hc|lia].
    eapply lands_weaken; [eapply lands_now; [eassumption|]|lia].
    unfold expr_post. simpl. repeat split; try assumption.
    + rewrite Hst. apply list_lookup_insert_eq. unfold zlen in Hlt. lia.
    + intros j Hj. rewrite Hst. apply list_lookup_insert_ne. lia.
  - (* ADD *)
    apply andb_prop in Hx as [Hx1 Hx2].
    unfold expr_post. simpl.
    destruct (eval x1 (_globals s)) as [v1 g1] eqn:E1.
    destruct (eval x2 g1) as [v2 g2] eqn:E2.
    pose proof (exec_binop Z.add IADD x1 x2 step_IADD
                  (IHx1 Hx1) (IHx2 Hx2) code s n s' Hc Hsp Hrun) as H.
    rewrite E1 in H. simpl in H. rewrite E2 in H. exact H.
  - (* SUB *)
    apply andb_prop in Hx as [Hx1 Hx2].
    unfold expr_post. simpl.
    destruct (eval x1 (_globals s)) as [v1 g1] eqn:E1.
    destruct (eval x2 g1) as [v2 g2] eqn:E2.
    pose proof (exec_binop Z.sub ISUB x1 x2 step_ISUB
                  (IHx1 Hx1) (IHx2 Hx2) code s n s' Hc Hsp Hrun) as H.
    rewrite E1 in H. simpl in H. rewrite E2 in H. exact H.
  - (* LT *)
    apply andb_prop in Hx as [Hx1 Hx2].
    unfold expr_post. simpl.
    destruct (eval x1 (_globals s)) as [v1 g1] eqn:E1.
    destruct (eval x2 g1) as [v2 g2] eqn:E2.
    pose proof (exec_binop (fun a b => if a <? b then 1 else 0) ILT x1 x2
                  step_ILT
                  (IHx1 Hx1) (IHx2 Hx2) code s n s' Hc Hsp Hrun) as H.
    rewrite E1 in H. simpl in H. rewrite E2 in H. exact H.
  - (* SET *)
    destruct x1; try discriminate.
    apply andb_prop in Hx as [Hv Hx2]. apply is_global_range in Hv.
    simpl in Hc. apply code_at_app in Hc as [Hc1 Hc2].
    eapply lands_then; [eapply (IHx2 Hx2); eassumption|].
    intros m1 s1 Hm1 Hrun1 (Hpc1 & Hsp1 & Hv1 & Hg1 & Hb1).
    turn Hrun1.
    eapply step_ISTORE in Hstep
      as (v & -> & Hv' & Hg2 & Hst & Hsp2 & Hpc2 & Hlt);
      [|eapply code_at_eq; [eassumption|lia]|lia|lia].
    replace (sp s1 - 1) with (sp s) in Hv' by lia.
    eapply lands_weaken; [eapply lands_now; [eassumption|]|lia].
    unfold expr_post. simpl.
    destruct (eval x2 (_globals s)) as [v2 g1] eqn:E2. simpl in *.
    repeat split.
    + zl. lia.
    + lia.
    + congruence.
    + congruence.
    + intros j Hj. rewrite Hst. by apply Hb1.
Qed.

(** *** Compiled statements *)


Ltac here_at := eapply code_at_eq; [eassumption | zl; lia].

Ltac cond_of e :=
  eapply lands_then;
  [ eapply (exec_expr e); [assumption | here_at | lia | eassumption] |].

Lemma exec_stmt_aux n :
  (forall k, (k < n)%nat -> forall x, is_stmt x = true -> balanced k x) ->
  forall x, is_stmt x = true -> forall m, (m <= n)%nat -> balanced m x.
Proof.
  intros Hout. unfold balanced in *.
  induction x; try discriminate; intros Hx m Hm code s s' Hc Hsp Hrun;
    simpl in Hx, Hc;
    try pose proof (zlen_nonneg (code_of x1)) as Hz1;
    try pose proof (zlen_nonneg (code_of x2)) as Hz2;
    try pose proof (zlen_nonneg (code_of x3)) as Hz3.
  - (* IF1 *)
    apply andb_prop in Hx as [Hx1 Hx2].
    apply code_at_app in Hc as [Hc1 Hc2].
    pose proof Hc2 as Hc3. apply code_at_cons in Hc3 as (_ & _ & Hc3).
    apply code_at_cons in Hc3 as (_ & _ & Hc3).
    eapply lands_then;
      [eapply (exec_expr x1); [assumption|eassumption|lia|eassumption]|].
    intros m1 s1 Hm1 Hrun1 (Hpc1 & Hsp1 & _ & _ & _).
    turn Hrun1.
    eapply step_JZ in Hstep as (v & -> & _ & _ & Hsp2 & _ & Hpc2);
      [|here_at|lia].
    destruct (v =? 0).
    + eapply lands_weaken; [eapply lands_now; [eassumption|]|lia].
      split; simpl; zl; lia.
    + eapply lands_weaken with (n := n0); [|lia].
      eapply lands_then.
      { eapply (IHx2 Hx2 n0 ltac:(lia)); [| |eassumption]; [here_at|lia]. }
      intros m2 s2 Hm2 Hrun2 (Hpc3 & Hsp3).
      eapply lands_weaken; [eapply lands_now; [eassumption|]|lia].
      split; simpl; zl; lia.
  - (* IF2 *)
    apply andb_prop in Hx as [Hx12 Hx3]. apply andb_prop in Hx12 as [Hx1 Hx2].
    apply code_at_app in Hc as [Hc1 Hc2].
    pose proof Hc2 as Hc3. apply code_at_cons in Hc3 as (_ & _ & Hc3).
    apply code_at_cons in Hc3 as (_ & _ & Hc3).
    apply code_at_app in Hc3 as [Hc3 Hc4].
    pose proof Hc4 as Hc5. apply code_at_cons in Hc5 as (_ & _ & Hc5).
    apply code_at_cons in Hc5 as (_ & _ & Hc5).
    eapply lands_then;
      [eapply (exec_expr x1); [assumption|eassumption|lia|eassumption]|].
    intros m1 s1 Hm1 Hrun1 (Hpc1 & Hsp1 & _ & _ & _).
    turn Hrun1.
    eapply step_JZ in Hstep as (v & -> & _ & _ & Hsp2 & _ & Hpc2);
      [|here_at|lia].
    destruct (v =? 0).
    + eapply lands_weaken with (n := n0); [|lia].
      eapply lands_then.
      { eapply (IHx3 Hx3 n0 ltac:(lia)); [| |eassumption]; [here_at|lia]. }
      intros m2 s2 Hm2 Hrun2 (Hpc3 & Hsp3).
      eapply lands_weaken; [eapply lands_now; [eassumption|]|lia].
      split; simpl; zl; lia.
    + eapply lands_weaken with (n := n0); [|lia].
      eapply lands_then.
      { eapply (IHx2 Hx2 n0 ltac:(lia)); [| |eassumption]; [here_at|lia]. }
      intros m2 s2 Hm2 Hrun2 (Hpc3 & Hsp3).
      turn Hrun2.
      eapply step_JMP in Hstep as (-> & _ & Hsp4 & _ & Hpc4); [|here_at].
      eapply lands_weaken; [eapply lands_now; [eassumption|]|lia].
      split; simpl; zl; lia.
  - (* WHILE *)
    apply andb_prop in Hx as [Hx1 Hx2].
    pose proof Hc as Hwhole.
    apply code_at_app in Hc as [Hc1 Hc2].
    pose proof Hc2 as Hc3. apply code_at_cons in Hc3 as (_ & _ & Hc3).
    apply code_at_cons in Hc3 as (_ & _ & Hc3).
    apply code_at_app in Hc3 as [Hc3 Hc4].
    eapply lands_then;
      [eapply (exec_expr x1); [assumption|eassumption|lia|eassumption]|].
    intros m1 s1 Hm1 Hrun1 (Hpc1 & Hsp1 & _ & _ & _).
    turn Hrun1.
    eapply step_JZ in Hstep as (v & -> & _ & _ & Hsp2 & _ & Hpc2);
      [|here_at|lia].
    destruct (v =? 0).
    + eapply lands_weaken; [eapply lands_now; [eassumption|]|lia].
      split; simpl; zl; lia.
    + eapply lands_weaken with (n := n0); [|lia].
      eapply lands_then.
      { eapply (IHx2 Hx2 n0 ltac:(lia)); [| |eassumption]; [here_at|lia]. }
      intros m2 s2 Hm2 Hrun2 (Hpc3 & Hsp3).
      turn Hrun2.
      eapply step_JMP in Hstep as (-> & _ & Hsp4 & _ & Hpc4); [|here_at].
      assert (pc s3 = pc s) as Hback by (zl; lia).
      eapply lands_weaken with (n := n1); [|lia].
      eapply lands_then.
      { eapply (Hout n1 ltac:(lia) (WHILE x1 x2)); [| | |eassumption]; [| |lia].
        - simpl. by rewrite Hx1, Hx2.
        - simpl. rewrite Hback. exact Hwhole. }
      intros m3 s4 Hm3 Hrun3 (Hpc5 & Hsp5).
      eapply lands_now; [eassumption|].
      split; simpl in *; zl; lia.
  - (* DO *)
    apply andb_prop in Hx as [Hx1 Hx2].
    pose proof Hc as Hwhole.
    apply code_at_app in Hc as [Hc1 Hc2].
    apply code_at_app in Hc2 as [Hc2 Hc3].
    eapply lands_then.
    { eapply (IHx1 Hx1 m ltac:(lia)); [| |eassumption]; [here_at|lia]. }
    intros m1 s1 Hm1 Hrun1 (Hpc1 & Hsp1).
    eapply lands_then;
      [eapply (exec_expr x2); [assumption| | |eassumption]; [here_at|lia]|].
    intros m2 s2 Hm2 Hrun2 (Hpc2 & Hsp2 & _ & _ & _).
    turn Hrun2.
    eapply step_JNZ in Hstep as (v & -> & _ & _ & Hsp3 & _ & Hpc3);
      [|here_at|lia].
    destruct (v =? 0).
    + eapply lands_weaken; [eapply lands_now; [eassumption|]|lia].
      split; simpl; zl; lia.
    + assert (pc s0 = pc s) as Hback by (zl; lia).
      eapply lands_weaken with (n := n0); [|lia].
      eapply lands_then.
      { eapply (Hout n0 ltac:(lia) (DO x1 x2)); [| | |eassumption]; [| |lia].
        - simpl. by rewrite Hx1, Hx2.
        - simpl. rewrite Hback. exact Hwhole. }
      intros m3 s4 Hm3 Hrun3 (Hpc5 & Hsp5).
      eapply lands_now; [eassumption|].
      split; simpl in *; zl; lia.
  - (* EMPTY *)
    eapply lands_now; [eassumption|]. split; simpl; zl; lia.
  - (* SEQ *)
    apply andb_prop in Hx as [Hx1 Hx2].
    apply code_at_app in Hc as [Hc1 Hc2].
    eapply lands_then.
    { eapply (IHx1 Hx1 m ltac:(lia)); [| |eassumption]; [here_at|lia]. }
    intros m1 s1 Hm1 Hrun1 (Hpc1 & Hsp1).
    eapply lands_then.
    { eapply (IHx2 Hx2 m1 ltac:(lia)); [| |eassumption]; [here_at|lia]. }
    intros m2 s2 Hm2 Hrun2 (Hpc2 & Hsp2).
    eapply lands_now; [eassumption|]. split; simpl; zl; lia.
  - (* EXPR *)
    apply code_at_app in Hc as [Hc1 Hc2].
    eapply lands_then;
      [eapply (exec_expr x); [assumption|eassumption|lia|eassumption]|].
    intros m1 s1 Hm1 Hrun1 (Hpc1 & Hsp1 & _ & _ & _).
    turn Hrun1.
    eapply step_IPOP in Hstep as (-> & _ & Hsp2 & Hpc2 & _); [|here_at].
    eapply lands_weaken; [eapply lands_now; [eassumption|]|lia].
    split; simpl; zl; lia.
Qed.

Lemma exec_stmt n : forall x, is_stmt x = true -> balanced n x.
Proof.
  induction n as [n IH] using lt_wf_ind.
  intros x Hx. apply (exec_stmt_aux n IH x Hx n). lia.
Qed.

(** *** Lexer *)

Lemma append_assoc (s1 s2 s3 : string) :
  ((s1 ++ s2) ++ s3 = s1 ++ (s2 ++ s3))%string.
Proof. induction s1 as [|a s1 IH]; simpl; [reflexivity|by rewrite IH]. Qed.

Lemma scan_word_first (p : ascii -> bool) inp a acc :
  p a = true ->
  exists rest,
    (scan p (fun s d => (s ++ String d "")%string) inp (Some a) acc).1.1 =
    (acc ++ String a rest)%string.
Proof.
  revert a acc. induction inp as [|b inp IH]; intros a acc Ha; simpl; rewrite Ha.
  - by exists EmptyString.
  - destruct (p b) eqn:Hb.
    + destruct (IH b (acc ++ String a "")%string Hb) as [rest Hrest].
      exists (String b rest). rewrite Hrest.
      by rewrite append_assoc.
    + exists EmptyString. destruct inp; simpl; by rewrite Hb.
Qed.

Lemma lookup_word_range name :
  0 <= lookup_word words 0 name <= 4.
Proof.
  unfold words. cbn [lookup_word].
  repeat (destruct (String.eqb _ name); [lia|]). lia.
Qed.

Lemma lookup_word_keyword name w :
  words !! Z.to_nat (lookup_word words 0 name) = Some (Some w) ->
  0 <= lookup_word words 0 name <= 3.
Proof.
  unfold words. cbn [lookup_word].
  repeat (destruct (String.eqb _ name); [lia|]). discriminate.
Qed.

Lemma lex_ok_other L :
  sym L <> Symbol_value ID -> lex_ok L.
Proof. intros H E. contradiction. Qed.

Lemma single_lex_ok s L u L' :
  s <> ID -> single s L = Ok (u, L') -> lex_ok L'.
Proof.
  intros Hs H. unfold single in H. simplify_eq. apply lex_ok_other. simpl.
  destruct s; try (vm_compute; discriminate). congruence.
Qed.

Lemma next_sym_lex_ok L u L' : next_sym L = Ok (u, L') -> lex_ok L'.
Proof.
  unfold next_sym.
  destruct (scan is_blank _ _ _ _) as [[? c] inp].
  destruct c as [a|].
  2:{ intros H. simplify_eq. apply lex_ok_other. vm_compute. congruence. }
  repeat (match goal with
          | |- (if ?b then single _ _ else _) = _ -> _ =>
              destruct b; [apply single_lex_ok; congruence|]
          end).
  destruct (is_digit a).
  { destruct (scan is_digit _ _ _ _) as [[? ?] ?]. intros H. simplify_eq.
    apply lex_ok_other. vm_compute. congruence. }
  destruct (is_lower a) eqn:Hl; [|discriminate].
  assert (is_word a = true) as Hw by (unfold is_word; by rewrite Hl).
  destruct (scan_word_first is_word inp a ""%string Hw) as [rest Hrest].
  destruct (scan is_word _ _ _ _) as [[name c'] inp'] eqn:Es.
  simpl in Hrest. subst name.
  assert (forall L1 : lexer,
    (if Z.of_nat (String.length (String a rest)) =? 1
     then Ok (tt, {| ch := c'; stdin := inp'; sym := Symbol_value ID;
                     int_val := int_val L1; id_name := String a rest |})
     else Raise (SystemExit 1 "syntax error")) = Ok (u, L') -> lex_ok L') as Hid.
  { intros L1. destruct (_ =? 1) eqn:E1; [|discriminate]. intros H _.
    simplify_eq. simpl.
    exists a. destruct rest; [auto|]. exfalso.
    apply Z.eqb_eq in E1. cbn [String.length] in E1. lia. }
  pose proof (lookup_word_keyword (String a rest)) as Hkw.
  remember (lookup_word words 0 (String a rest)) as k eqn:Ek. clear Ek.
  destruct (words !! _) as [[w|]|] eqn:Ew; [|apply Hid..].
  clear Hid. specialize (Hkw w eq_refl). intros H.
  injection H as _ HL. subst L'.
  apply lex_ok_other. cbn [sym]. change (Symbol_value ID) with 14. lia.
Qed.

(** *** Parser: the nodes it builds *)

Lemma sym_is_ok s L b L' :
  sym_is s L = Ok (b, L') -> b = (sym L =? Symbol_value s) /\ L' = L.
Proof. unfold sym_is, gets. intros H. by injection H as <- <-. Qed.

Lemma expect_ok s L u L' :
  expect s L = Ok (u, L') ->
  sym L = Symbol_value s /\ next_sym L = Ok (u, L').
Proof.
  unfold expect. intros (b & L1 & H1 & H2)%bind_ok.
  apply sym_is_ok in H1 as [-> ->].
  destruct (sym L =? Symbol_value s) eqn:E; [|discriminate].
  split; [lia|exact H2].
Qed.

Ltac pinv H :=
  lazymatch type of H with
  | bind _ _ _ = Ok _ =>
      let a := fresh "a" in
      let s1 := fresh "L" in
      let H1 := fresh "H" in
      let H2 := fresh "H" in
      apply bind_ok in H as (a & s1 & H1 & H2); pinv H1; pinv H2
  | sym_is _ _ = Ok _ => apply sym_is_ok in H as [-> ->]
  | expect _ _ = Ok _ =>
      let E := fresh "E" in
      let N := fresh "N" in
      apply expect_ok in H as [E N]
  | lift _ _ = Ok _ =>
      let H1 := fresh "H" in
      apply lift_ok in H as [H1 ->]
  | gets _ _ = Ok _ => unfold gets in H; injection H as <- <-
  | ret _ _ = Ok _ => unfold ret in H; injection H as <- <-
  | syntax_error _ = Ok _ => discriminate H
  | out_of_fuel _ = Ok _ => discriminate H
  | (if ?b then _ else _) _ = Ok _ =>
      let E := fresh "E" in
      destruct b eqn:E; pinv H
  | _ => idtac
  end.

Lemma is_lower_global a : is_lower a = true -> is_global (ord a - ord "a") = true.
Proof.
  unfold is_lower, is_global. change (ord "a") with 97. change (ord "z") with 122.
  lia.
Qed.

Ltac lexed :=
  match goal with
  | H : next_sym _ = Ok (_, ?L) |- lex_ok ?L =>
      exact (next_sym_lex_ok _ _ _ H)
  | H : next_sym _ = Ok (_, ?L) |- _ =>
      lazymatch goal with
      | _ : lex_ok L |- _ => fail
      | _ => pose proof (next_sym_lex_ok _ _ _ H)
      end
  end.

Ltac use_parses :=
  match goal with
  | R : parses _ ?m, H : ?m ?L = Ok (?x, ?L') |- _ =>
      let Hx := fresh "Hx" in
      let HL := fresh "HL" in
      destruct (R L x L' ltac:(assumption) H) as [Hx HL]; clear H
  end.

Lemma term_parses rec : parses is_expr rec -> parses is_expr (term rec).
Proof.
  intros Hrec L x L' HL H. unfold term, paren_expr in H. pinv H; repeat lexed.
  - apply Z.eqb_eq in E. destruct (HL E) as (c0 & Ha & Hl).
    rewrite Ha in H0. injection H0 as <-.
    split; [|assumption]. by apply is_lower_global.
  - split; [reflexivity|assumption].
  - use_parses. repeat lexed. split; assumption.
Qed.

Lemma sum_loop_parses rec n :
  parses is_expr rec ->
  forall x, is_expr x = true -> parses is_expr (sum_loop rec n x).
Proof.
  intros Hrec. pose proof (term_parses rec Hrec) as Hterm.
  induction n as [|n IH]; intros x Hx L x' L' HL H; [discriminate|].
  cbn [sum_loop] in H. pinv H; repeat lexed.
  - use_parses.
    match goal with
    | H : sum_loop rec n ?y ?L1 = Ok _ |- _ =>
        assert (is_expr y = true) as Hy
          by (destruct (sym L =? Symbol_value PLUS); simpl; by rewrite Hx, Hx0);
        exact (IH y Hy L1 _ _ ltac:(assumption) H)
    end.
  - split; assumption.
Qed.

Lemma sum_parses rec n : parses is_expr rec -> parses is_expr (_sum rec n).
Proof.
  intros Hrec L x L' HL H. unfold _sum in H. pinv H.
  pose proof (term_parses rec Hrec) as Hterm. use_parses.
  eapply (sum_loop_parses rec n Hrec a Hx L0); eassumption.
Qed.

Lemma test_parses rec n : parses is_expr rec -> parses is_expr (test rec n).
Proof.
  intros Hrec L x L' HL H. unfold test in H.
  pose proof (sum_parses rec n Hrec) as Hsum. pinv H; use_parses; repeat lexed.
  - use_parses. split; [|assumption]. simpl. by rewrite Hx, Hx0.
  - split; assumption.
Qed.

Lemma expr_body_parses rec n :
  parses is_expr rec -> parses is_expr (expr_body rec n).
Proof.
  intros Hrec L x L' HL H. unfold expr_body in H.
  pose proof (test_parses rec n Hrec) as Htest. pinv H; use_parses; repeat lexed.
  - split; assumption.
  - use_parses. split; [|assumption].
    apply andb_prop in E0 as [Hv _]. destruct a; try discriminate.
    simpl in *. by rewrite Hx, Hx0.
  - split; assumption.
Qed.

Lemma expr_parses n : parses is_expr (expr n).
Proof.
  induction n as [|n IH]; [intros L x L' _ H; discriminate|].
  cbn [expr]. by apply expr_body_parses.
Qed.

Lemma paren_expr_parses n : parses is_expr (paren_expr (expr n)).
Proof.
  intros L x L' HL H. unfold paren_expr in H. pinv H. repeat lexed.
  pose proof (expr_parses n) as Hrec. use_parses. repeat lexed.
  split; assumption.
Qed.

Lemma block_loop_parses rec k :
  parses is_stmt rec ->
  forall x, is_stmt x = true -> parses is_stmt (block_loop rec k x).
Proof.
  intros Hrec.
  induction k as [|k IH]; intros x Hx L x' L' HL H; [discriminate|].
  cbn [block_loop] in H. pinv H.
  - split; assumption.
  - use_parses.
    match goal with
    | H : block_loop rec k ?y ?L1 = Ok _ |- _ =>
        assert (is_stmt y = true) as Hy by (simpl; by rewrite Hx, Hx0);
        exact (IH y Hy L1 _ _ ltac:(assumption) H)
    end.
Qed.

Lemma statement_body_parses rec n :
  parses is_stmt rec -> parses is_stmt (statement_body rec n).
Proof.
  intros Hrec L x L' HL H. unfold statement_body in H.
  pose proof (paren_expr_parses n) as Hparen.
  pose proof (expr_parses n) as Hexpr.
  pose proof (block_loop_parses rec n Hrec EMPTY eq_refl) as Hblock.
  pinv H; repeat lexed; repeat (use_parses; repeat lexed);
    (split; [simpl; by rewrite ?Hx, ?Hx0, ?Hx1 | assumption]).
Qed.

Lemma statement_parses n : parses is_stmt (statement n).
Proof.
  induction n as [|n IH]; [intros L x L' _ H; discriminate|].
  cbn [statement]. by apply statement_body_parses.
Qed.

(** A program that parses is [PROG] of a statement. *)
Lemma program_wf input x :
  program input = Ok x -> exists s, x = PROG s /\ is_stmt s = true.
Proof.
  unfold program. intros H.
  destruct (program_body _ _) as [[x' L']| |] eqn:E; try discriminate.
  injection H as ->. unfold program_body in E. pinv E. repeat lexed.
  pose proof (statement_parses (fuel_for input)) as Hst. use_parses.
  eauto.
Qed.

(** *** One instruction, run forward *)

Lemma getitem_value i : Instruction_getitem (Instruction_value i) = Ok i.
Proof. by destruct i. Qed.

Lemma step_store code s i v :
  py_get code (pc s) = Ok (Instruction_value ISTORE) ->
  py_get code (pc s + 1) = Ok i ->
  py_get (stack s) (sp s - 1) = Ok v ->
  step code s =
    match set_i (_globals s) i v with
    | Ok gl => Ok (false, {| stack := stack s; sp := sp s; pc := pc s + 1 + 1;
                             _globals := gl |})
    | Raise e => Raise e
    | Fuel => Fuel
    end.
Proof.
  intros H0 H1 Hv.
  unfold step, bind, rd_code, rd_stack, set_global, add_pc, modify, gets, lift, ret.
  rewrite H0, getitem_value. cbn. rewrite Hv. cbn. rewrite H1.
  destruct (set_i _ _ _); reflexivity.
Qed.

Lemma step_branch code s i d v :
  i = JZ \/ i = JNZ ->
  py_get code (pc s) = Ok (Instruction_value i) ->
  py_get code (pc s + 1) = Ok d ->
  py_get (stack s) (sp s - 1) = Ok v ->
  step code s =
    Ok (false, {| stack := stack s; sp := sp s - 1;
                  pc := if jumps i v then pc s + 1 + d else pc s + 1 + 1;
                  _globals := _globals s |}).
Proof.
  intros Hi H0 H1 Hv.
  unfold step, bind, rd_code, lift. rewrite H0, getitem_value.
  destruct Hi as [-> | ->]; cbn;
    unfold branch, bind, add_sp, add_pc, rd_stack, rd_code, modify, gets, lift, ret;
    cbn; change (sp s + -1) with (sp s - 1); rewrite Hv; cbn;
    destruct (v =? 0); cbn; rewrite ?H1; reflexivity.
Qed.

Lemma step_jump code s d :
  py_get code (pc s) = Ok (Instruction_value JMP) ->
  py_get code (pc s + 1) = Ok d ->
  step code s =
    Ok (false, {| stack := stack s; sp := sp s; pc := pc s + 1 + d;
                  _globals := _globals s |}).
Proof.
  intros H0 H1.
  unfold step, bind, rd_code, lift. rewrite H0, getitem_value. cbn.
  unfold bind, add_pc, rd_code, modify, lift, ret. cbn. rewrite H1. reflexivity.
Qed.

(** *** The stack at [HALT] *)

Lemma compile_listing x code :
  compile x = Ok code -> code_at code 0 (code_of x).
Proof.
  unfold compile. destruct (c x codegen_init) as [[u st]| |] eqn:E; try discriminate.
  intros [= <-]. apply c_listing in E as (_ & H & _); [exact H|simpl; lia].
Qed.

(** C2: for every program that parses, compiles and runs to [HALT], the
    stack pointer is 0 when [HALT] is decoded; and the code of any statement,
    entered in a run that halts, is left at the height at which it was
    entered. *)
Theorem stack_empty_at_halt input ast code n s' :
  program input = Ok ast ->
  compile ast = Ok code ->
  run_loop code n (vm_init (replicate 26 0)) = Ok (tt, s') ->
  sp s' = 0 /\
  py_get code (pc s' - 1) = Ok (Instruction_value HALT) /\
  forall x k, is_stmt x = true -> balanced k x.
Proof.
  intros Hp Hc Hrun. split; [|split]; [| |intros x k Hx; by apply exec_stmt].
  all: apply program_wf in Hp as (st & -> & Hst);
    apply compile_listing in Hc; simpl in Hc;
    apply code_at_app in Hc as [Hc1 Hc2];
    destruct (exec_stmt n st Hst code (vm_init (replicate 26 0)) s' Hc1
                ltac:(simpl; lia) Hrun)
      as (m & s1 & _ & Hrun1 & Hpc & Hsp);
    simpl in Hpc, Hsp;
    turn Hrun1;
    eapply step_HALT in Hstep as (-> & _ & Hsp2 & _ & Hpc2);
      [|eapply code_at_eq; [exact Hc2|lia]]; subst s'.
  - lia.
  - eapply code_at_get. eapply code_at_eq; [exact Hc2|lia].
Qed.

Lemma stack_empty_at_halt_witness : sp demo_final = 0.
Proof.
  refine (proj1 (stack_empty_at_halt (chars "a=1;") demo_ast demo_code 4
                   demo_final _ _ _)).
  - vm_compute; reflexivity.
  - vm_compute; reflexivity.
  - vm_compute; reflexivity.
Defined.

(** *** Branches *)

(** C3: the byte [fix] writes at the hole [src] is [dst - src]; a branch
    instruction whose displacement byte is that hole adds the byte to [pc]
    while [pc] is [src], so that it continues at [dst] when it jumps and at
    [src + 1] when it does not. *)
Theorem patched_branch_target src dst st st' (i : Instruction) (s : vm) (v : Z) :
  fix_ src dst st = Ok (tt, st') ->
  0 <= src ->
  i = JZ \/ i = JNZ \/ i = JMP ->
  pc s + 1 = src ->
  py_get (_object st') (pc s) = Ok (Instruction_value i) ->
  (pops i = true -> py_get (stack s) (sp s - 1) = Ok v) ->
  py_get (_object st') src = Ok (dst - src) /\
  step (_object st') s =
    Ok (false, {| stack := stack s;
                  sp := if pops i then sp s - 1 else sp s;
                  pc := if jumps i v then dst else src + 1;
                  _globals := _globals s |}).
Proof.
  intros Hfix Hsrc Hi Hpc Hop Hv.
  apply fix_ok in Hfix as (_ & Hb & _ & _); [|exact Hsrc].
  apply code_at_get in Hb. split; [exact Hb|].
  rewrite <- Hpc in Hb.
  destruct Hi as [-> | [-> | ->]].
  - rewrite (step_branch _ _ JZ _ v (or_introl eq_refl) Hop Hb (Hv eq_refl)).
    simpl. destruct (v =? 0); do 3 f_equal; lia.
  - rewrite (step_branch _ _ JNZ _ v (or_intror eq_refl) Hop Hb (Hv eq_refl)).
    simpl. destruct (v =? 0); simpl; do 3 f_equal; lia.
  - rewrite (step_jump _ _ _ Hop Hb). simpl. do 3 f_equal. lia.
Qed.

Lemma patched_branch_target_witness :
  py_get [7; 5; 0] 1 = Ok (6 - 1) /\
  step [7; 5; 0] {| stack := [0]; sp := 1; pc := 0; _globals := [] |} =
    Ok (false, {| stack := [0]; sp := 0; pc := 6; _globals := [] |}).
Proof.
  apply (patched_branch_target 1 6 {| _object := [7; 0; 0]; here := 2 |}
           {| _object := [7; 5; 0]; here := 2 |} JZ
           {| stack := [0]; sp := 1; pc := 0; _globals := [] |} 0).
  - reflexivity.
  - lia.
  - left; reflexivity.
  - reflexivity.
  - reflexivity.
  - reflexivity.
Defined.

(** *** Store *)

(** C5: [ISTORE i] writes the value on top of the stack to [_globals[i]] and
    leaves the stack, its height and every other global as they were. *)
Theorem store_global_frame code (s : vm) (i v : Z) :
  py_get code (pc s) = Ok (Instruction_value ISTORE) ->
  py_get code (pc s + 1) = Ok i ->
  py_get (stack s) (sp s - 1) = Ok v ->
  0 <= i < zlen (_globals s) ->
  INT_MIN <= v <= INT_MAX ->
  exists s',
    step code s = Ok (false, s') /\
    stack s' = stack s /\
    sp s' = sp s /\
    _globals s' !! Z.to_nat i = Some v /\
    (forall j : nat, j <> Z.to_nat i -> _globals s' !! j = _globals s !! j) /\
    length (_globals s') = length (_globals s).
Proof.
  intros H0 H1 Hv Hi Hr.
  rewrite (step_store _ _ _ _ H0 H1 Hv).
  unfold set_i. rewrite (py_set_in_range _ _ _ _ _ Hi Hr).
  eexists. split; [reflexivity|]. simpl. repeat split.
  - apply list_lookup_insert_eq. unfold zlen in Hi. lia.
  - intros j Hj. by apply list_lookup_insert_ne.
  - apply length_insert.
Qed.

Lemma store_global_frame_witness :
  exists s',
    step [1; 2] {| stack := [7; 9]; sp := 2; pc := 0; _globals := [0; 0; 0] |} =
      Ok (false, s') /\
    stack s' = [7; 9] /\
    sp s' = 2 /\
    _globals s' !! 2%nat = Some 9 /\
    (forall j : nat, j <> 2%nat -> _globals s' !! j = [0; 0; 0] !! j) /\
    length (_globals s') = 3%nat.
Proof.
  apply (store_global_frame [1; 2]
           {| stack := [7; 9]; sp := 2; pc := 0; _globals := [0; 0; 0] |} 2 9).
  - reflexivity.
  - reflexivity.
  - reflexivity.
  - vm_compute. split; congruence.
  - vm_compute. split; congruence.
Defined.

(** *** Determinism of the code generator *)

(** C9: two compilations of one tree emit the same bytes, holes included,
    whatever the buffers held before and wherever emission starts; from the
    same state they leave the same state. *)
Theorem compile_deterministic x st1 st1' st2 st2' :
  c x st1 = Ok (tt, st1') ->
  c x st2 = Ok (tt, st2') ->
  0 <= here st1 -> 0 <= here st2 ->
  here st1' - here st1 = here st2' - here st2 /\
  (forall k, 0 <= k < here st1' - here st1 ->
     exists b, py_get (_object st1') (here st1 + k) = Ok b /\
               py_get (_object st2') (here st2 + k) = Ok b) /\
  (st1 = st2 -> st1' = st2').
Proof.
  intros H1 H2 Hh1 Hh2.
  split; [|split].
  - apply c_listing in H1 as (E1 & _ & _); [|exact Hh1].
    apply c_listing in H2 as (E2 & _ & _); [|exact Hh2]. lia.
  - apply c_listing in H1 as (E1 & [_ C1] & _); [|exact Hh1].
    apply c_listing in H2 as (E2 & [_ C2] & _); [|exact Hh2].
    intros k Hk.
    destruct (lookup_lt_is_Some_2 (code_of x) (Z.to_nat k)) as [b Hb].
    { unfold zlen in *. lia. }
    exists b. split; apply py_get_lookup; try lia.
    + specialize (C1 _ _ Hb).
      by replace (Z.to_nat (here st1 + k)) with (Z.to_nat (here st1) + Z.to_nat k)%nat by lia.
    + specialize (C2 _ _ Hb).
      by replace (Z.to_nat (here st2 + k)) with (Z.to_nat (here st2) + Z.to_nat k)%nat by lia.
  - intros ->. congruence.
Qed.

Lemma compile_deterministic_witness :
  3 - 0 = 8 - 5 /\
  (forall k, 0 <= k < 3 - 0 ->
     exists b, py_get [2; 1; 3; 0; 0; 0; 0; 0] (0 + k) = Ok b /\
               py_get [9; 9; 9; 9; 9; 2; 1; 3] (5 + k) = Ok b) /\
  ({| _object := [0; 0; 0; 0; 0; 0; 0; 0]; here := 0 |} =
   {| _object := [9; 9; 9; 9; 9; 9; 9; 9]; here := 5 |} ->
   {| _object := [2; 1; 3; 0; 0; 0; 0; 0]; here := 3 |} =
   {| _object := [9; 9; 9; 9; 9; 2; 1; 3]; here := 8 |}).
Proof.
  apply (compile_deterministic (EXPR (CST 1))
           {| _object := [0; 0; 0; 0; 0; 0; 0; 0]; here := 0 |}
           {| _object := [2; 1; 3; 0; 0; 0; 0; 0]; here := 3 |}
           {| _object := [9; 9; 9; 9; 9; 9; 9; 9]; here := 5 |}
           {| _object := [9; 9; 9; 9; 9; 2; 1; 3]; here := 8 |}).
  - reflexivity.
  - reflexivity.
  - simpl; lia.
  - simpl; lia.
Defined.

(** *** Inputs the parser rejects *)

Lemma scan_all {A} (p : ascii -> bool) (f : A -> ascii -> A) inp a acc :
  p a = true -> Forall (fun b => p b = true) inp ->
  exists acc', scan p f inp (Some a) acc = (acc', None, []).
Proof.
  revert a acc. induction inp as [|b inp IH]; intros a acc Ha Hall; simpl; rewrite Ha.
  - eauto.
  - inversion Hall; subst. by apply IH.
Qed.

Lemma blank_is_blank a : blank a -> is_blank a = true.
Proof. by intros [-> | ->]. Qed.

Lemma blank_next_sym input :
  Forall blank input ->
  next_sym (lexer_init input) =
    Ok (tt, {| ch := None; stdin := []; sym := Symbol_value EOI;
               int_val := 0; id_name := ""%string |}).
Proof.
  intros Hall. unfold next_sym. cbn [lexer_init ch stdin].
  destruct (scan_all is_blank (fun (u : unit) _ => u) input " "%char tt
              eq_refl) as [acc' ->].
  - eapply Forall_impl; [exact Hall|]. intros a. apply blank_is_blank.
  - reflexivity.
Qed.

(** *** Assignment targets *)

Lemma is_expr_lhs x : is_expr x = true -> lhs_are_vars x = true.
Proof.
  induction x; simpl; try discriminate; try reflexivity.
  - intros [H1 H2]%andb_prop. by rewrite IHx1, IHx2.
  - intros [H1 H2]%andb_prop. by rewrite IHx1, IHx2.
  - intros [H1 H2]%andb_prop. by rewrite IHx1, IHx2.
  - destruct x1; try discriminate. intros [H1 H2]%andb_prop.
    by rewrite IHx2.
Qed.

Lemma is_stmt_lhs x : is_stmt x = true -> lhs_are_vars x = true.
Proof.
  induction x; simpl; try discriminate; try reflexivity.
  - intros [H1 H2]%andb_prop. by rewrite (is_expr_lhs _ H1), IHx2.
  - intros [[H1 H2]%andb_prop H3]%andb_prop.
    by rewrite (is_expr_lhs _ H1), IHx2, IHx3.
  - intros [H1 H2]%andb_prop. by rewrite (is_expr_lhs _ H1), IHx2.
  - intros [H1 H2]%andb_prop. by rewrite (is_expr_lhs _ H2), IHx1.
  - intros [H1 H2]%andb_prop. by rewrite IHx1, IHx2.
  - apply is_expr_lhs.
Qed.



(** *** Words *)

Lemma append_one (s : string) a t :
  ((s ++ String a "") ++ t = s ++ String a t)%string.
Proof. by rewrite append_assoc. Qed.

Lemma scan_run (run : string) : forall a acc rest,
  is_word a = true ->
  Forall (fun b => is_word b = true) (chars run) ->
  ends_word rest ->
  scan is_word (fun s d => (s ++ String d "")%string) (chars run ++ rest)
       (Some a) acc =
  ((acc ++ String a run)%string, (read1 rest).1, (read1 rest).2).
Proof.
  induction run as [|b run IH]; intros a acc rest Ha Hrun Hrest.
  - cbn [chars list_ascii_of_string app]. destruct rest as [|r rest].
    + cbn [scan]. by rewrite Ha.
    + cbn [scan]. rewrite Ha. cbn in Hrest. destruct rest; cbn [scan];
        by rewrite Hrest.
  - cbn [chars list_ascii_of_string app] in *. inversion Hrun; subst.
    cbn [scan]. rewrite Ha. fold (chars run).
    rewrite (IH b _ rest) by assumption. by rewrite append_one.
Qed.

Lemma lower_not_blank a : is_lower a = true -> is_blank a = false.
Proof.
  unfold is_lower, is_blank. change (ord "a") with 97. change (ord "z") with 122.
  lia.
Qed.

Lemma lower_not_digit a : is_lower a = true -> is_digit a = false.
Proof.
  unfold is_lower, is_digit. change (ord "a") with 97. change (ord "z") with 122.
  change (ord "0") with 48. change (ord "9") with 57. lia.
Qed.

Lemma lower_range a : is_lower a = true -> 97 <= ord a <= 122.
Proof.
  unfold is_lower. change (ord "a") with 97. change (ord "z") with 122. lia.
Qed.

Ltac not_punct Hr :=
  repeat match goal with
  | |- context [if ord ?a =? ?y then single _ _ else _] =>
      let v := eval vm_compute in y in
      replace (ord a =? y) with false
        by (symmetry; apply Z.eqb_neq; change y with v; lia)
  end.

(** What [next_sym] does at a word that starts with a lowercase letter. *)
Lemma next_sym_word a (run : string) rest L :
  is_lower a = true ->
  Forall (fun b => is_word b = true) (chars run) ->
  ends_word rest ->
  ch L = Some a -> stdin L = chars run ++ rest ->
  next_sym L =
    match keyword_of (String a run) with
    | Some s =>
        Ok (tt, {| ch := (read1 rest).1; stdin := (read1 rest).2;
                   sym := Symbol_value s; int_val := int_val L;
                   id_name := String a run |})
    | None =>
        if (String.length (String a run) =? 1)%nat then
          Ok (tt, {| ch := (read1 rest).1; stdin := (read1 rest).2;
                     sym := Symbol_value ID; int_val := int_val L;
                     id_name := String a run |})
        else Raise (SystemExit 1 "syntax error")
    end.
Proof.
  intros Hl Hrun Hrest Hch Hin.
  pose proof (lower_range a Hl) as Hr.
  assert (is_word a = true) as Hw by (unfold is_word; by rewrite Hl).
  unfold next_sym. rewrite Hch, Hin.
  assert (scan is_blank (fun (u : unit) _ => u) (chars run ++ rest) (Some a) tt
          = (tt, Some a, chars run ++ rest)) as ->.
  { destruct (chars run ++ rest); cbn [scan]; by rewrite (lower_not_blank a Hl). }
  cbn iota beta. not_punct Hr.
  rewrite (lower_not_digit a Hl), Hl.
  rewrite (scan_run run a ""%string rest Hw Hrun Hrest).
  change (("" ++ String a run)%string) with (String a run).
  cbn iota beta.
  unfold keyword_of, words. cbn [lookup_word].
  destruct (String.eqb "do" (String a run)); [reflexivity|].
  destruct (String.eqb "else" (String a run)); [reflexivity|].
  destruct (String.eqb "if" (String a run)); [reflexivity|].
  destruct (String.eqb "while" (String a run)); [reflexivity|].
  cbn [Z.to_nat lookup]. change (Z.to_nat (0 + 1 + 1 + 1 + 1)) with 4%nat.
  cbn [lookup list_lookup].
  destruct run as [|b run]; [reflexivity|].
  cbn [String.length Nat.eqb].
  replace (Z.of_nat (S (S (String.length run))) =? 1) with false
    by (symmetry; apply Z.eqb_neq; lia).
  reflexivity.
Qed.

Lemma next_sym_init a inp :
  is_blank a = false ->
  next_sym (lexer_init (a :: inp)) =
  next_sym {| ch := Some a; stdin := inp; sym := 0; int_val := 0;
              id_name := ""%string |}.
Proof.
  intros Ha. unfold next_sym. cbn [lexer_init ch stdin sym int_val id_name].
  cbn [scan]. change (is_blank " ") with true. cbn iota.
  destruct inp as [|b inp]; cbn [scan]; rewrite Ha; reflexivity.
Qed.




(** *** The report *)

Lemma report_lines (globals : list Z) (idx : list Z) :
  Forall (fun i => 0 <= i < zlen globals) idx ->
  report globals idx =
    Ok (map (fun i => (str (ord "a" + i) ++ " = " ++
                       str (default 0 (globals !! Z.to_nat i)))%string)
            (List.filter
               (fun i => negb (default 0 (globals !! Z.to_nat i) =? 0)) idx)).
Proof.
  induction idx as [|i idx IH]; intros Hall; [reflexivity|].
  inversion Hall as [|? ? Hi Hidx]; subst.
  cbn [report List.filter]. rewrite (IH Hidx).
  destruct (lookup_lt_is_Some_2 globals (Z.to_nat i)) as [v Hv].
  { unfold zlen in Hi. lia. }
  rewrite (py_get_lookup _ _ _ (proj1 Hi) Hv). rewrite Hv.
  unfold default at 2. cbn [from_option id].
  destruct (v =? 0); cbn [negb map]; [reflexivity|].
  rewrite Hv. reflexivity.
Qed.

(** C1 on the program [a=1;]: the line printed for [a] starts with the number
    97, the code point of the letter, where the claim has the letter. *)
Theorem report_prints_code_point :
  main 4 (chars "a=1;") = Exited 0 ["97 = 1"%string] [] /\
  main 4 (chars "a=1;") <> Exited 0 ["a = 1"%string] [].
Proof. split; [vm_compute; reflexivity|vm_compute; discriminate]. Qed.

(** *** More fuel changes no result *)

Lemma weaker_refl {A} (m : P A) : weaker m m.
Proof. by intros L _. Qed.

Lemma weaker_bind {A B} (m m' : P A) (k k' : A -> P B) :
  weaker m m' -> (forall a, weaker (k a) (k' a)) ->
  weaker (bind m k) (bind m' k').
Proof.
  intros Hm Hk L. unfold bind. intros H.
  destruct (m L) as [[a L1]| |] eqn:E.
  - rewrite (Hm L), E by (rewrite E; discriminate). by apply Hk.
  - rewrite (Hm L), E by (rewrite E; discriminate). reflexivity.
  - contradiction.
Qed.

Lemma weaker_fuel {A} (m : P A) : weaker out_of_fuel m.
Proof. intros L H. contradiction. Qed.

Ltac mono :=
  repeat first
    [ assumption
    | apply weaker_fuel
    | apply weaker_refl
    | apply weaker_bind; [|intros ?]
    | match goal with
      | |- weaker (if ?b then _ else _) (if ?b then _ else _) => destruct b
      end ].

Lemma paren_expr_mono r r' : weaker r r' -> weaker (paren_expr r) (paren_expr r').
Proof. intros H. unfold paren_expr. mono. Qed.

Lemma term_mono r r' : weaker r r' -> weaker (term r) (term r').
Proof.
  intros H. pose proof (paren_expr_mono r r' H). unfold term. mono.
Qed.

Lemma sum_loop_mono r r' n n' :
  weaker r r' -> (n <= n')%nat ->
  forall x, weaker (sum_loop r n x) (sum_loop r' n' x).
Proof.
  intros H. pose proof (term_mono r r' H) as Ht. revert n'.
  induction n as [|n IH]; intros n' Hle x; [apply weaker_fuel|].
  destruct n' as [|n']; [lia|]. cbn [sum_loop].
  assert (forall y, weaker (sum_loop r n y) (sum_loop r' n' y)) as Hl
    by (intros y; apply IH; lia).
  mono; apply Hl.
Qed.

Lemma sum_mono r r' n n' :
  weaker r r' -> (n <= n')%nat -> weaker (_sum r n) (_sum r' n').
Proof.
  intros H Hle. pose proof (term_mono r r' H) as Ht.
  pose proof (sum_loop_mono r r' n n' H Hle) as Hl.
  unfold _sum. mono; apply Hl.
Qed.

Lemma test_mono r r' n n' :
  weaker r r' -> (n <= n')%nat -> weaker (test r n) (test r' n').
Proof.
  intros H Hle. pose proof (sum_mono r r' n n' H Hle) as Hs.
  unfold test. mono.
Qed.

Lemma expr_body_mono r r' n n' :
  weaker r r' -> (n <= n')%nat -> weaker (expr_body r n) (expr_body r' n').
Proof.
  intros H Hle. pose proof (test_mono r r' n n' H Hle) as Ht.
  unfold expr_body. mono.
Qed.

Lemma expr_mono n : forall n', (n <= n')%nat -> weaker (expr n) (expr n').
Proof.
  induction n as [|n IH]; intros n' Hle; [apply weaker_fuel|].
  destruct n' as [|n']; [lia|]. cbn [expr].
  apply expr_body_mono; [apply IH|]; lia.
Qed.

Lemma block_loop_mono r r' k k' :
  weaker r r' -> (k <= k')%nat ->
  forall x, weaker (block_loop r k x) (block_loop r' k' x).
Proof.
  intros H. revert k'.
  induction k as [|k IH]; intros k' Hle x; [apply weaker_fuel|].
  destruct k' as [|k']; [lia|]. cbn [block_loop].
  assert (forall y, weaker (block_loop r k y) (block_loop r' k' y)) as Hl
    by (intros y; apply IH; lia).
  mono; apply Hl.
Qed.

Lemma statement_body_mono r r' n n' :
  weaker r r' -> (n <= n')%nat ->
  weaker (statement_body r n) (statement_body r' n').
Proof.
  intros H Hle.
  pose proof (expr_mono n n' Hle) as He.
  pose proof (paren_expr_mono _ _ He) as Hp.
  pose proof (block_loop_mono r r' n n' H Hle EMPTY) as Hb.
  unfold statement_body. mono.
Qed.

Lemma statement_mono n : forall n', (n <= n')%nat -> weaker (statement n) (statement n').
Proof.
  induction n as [|n IH]; intros n' Hle; [apply weaker_fuel|].
  destruct n' as [|n']; [lia|]. cbn [statement].
  apply statement_body_mono; [apply IH|]; lia.
Qed.

Lemma expr_more_fuel n n' L r :
  expr n L = Ok r -> (n <= n')%nat -> expr n' L = Ok r.
Proof.
  intros H Hle. rewrite (expr_mono n n' Hle L); [exact H|]. by rewrite H.
Qed.

(** *** Chained assignment: parsing *)

Lemma keyword_of_single a : keyword_of (String a "") = None.
Proof.
  unfold keyword_of. cbn [String.eqb].
  repeat match goal with
         | |- context [Ascii.eqb ?x ?y] => destruct (Ascii.eqb x y)
         end; reflexivity.
Qed.

Lemma next_sym_ident a rest s iv nm :
  is_lower a = true -> ends_word rest ->
  next_sym {| ch := Some a; stdin := rest; sym := s; int_val := iv;
              id_name := nm |} =
    Ok (tt, {| ch := (read1 rest).1; stdin := (read1 rest).2;
               sym := Symbol_value ID; int_val := iv;
               id_name := String a "" |}).
Proof.
  intros Hl Hrest.
  rewrite (next_sym_word a ""%string rest
             {| ch := Some a; stdin := rest; sym := s; int_val := iv;
                id_name := nm |} Hl (List.Forall_nil _) Hrest eq_refl eq_refl).
  by rewrite keyword_of_single.
Qed.

Lemma next_sym_equal L :
  ch L = Some "="%char ->
  next_sym L = Ok (tt, set_sym EQUAL (next_ch L)).
Proof.
  destruct L as [c0 inp s0 iv nm]. cbn [ch]. intros ->.
  destruct inp as [|b inp]; reflexivity.
Qed.

Lemma program_ident a tail :
  is_lower a = true ->
  program (a :: "="%char :: tail) =
    match expr (fuel_for (a :: "="%char :: tail)) (at_ident a tail) with
    | Ok (e, L3) =>
        if sym L3 =? Symbol_value SEMI then
          match next_sym L3 with
          | Ok (_, L2) =>
              if sym L2 =? Symbol_value EOI then Ok (PROG (EXPR e))
              else Raise (SystemExit 1 "syntax error")
          | Raise e => Raise e
          | Fuel => Fuel
          end
        else Raise (SystemExit 1 "syntax error")
    | Raise e => Raise e
    | Fuel => Fuel
    end.
Proof.
  intros Hl. unfold program, program_body, bind.
  rewrite next_sym_init by (by apply lower_not_blank).
  rewrite (next_sym_ident a ("="%char :: tail) _ _ _ Hl eq_refl).
  cbn [read1 fst snd int_val]. fold (at_ident a tail).
  unfold fuel_for. cbn [statement]. unfold statement_body at 1.
  unfold bind, gets, expect, sym_is. cbn [at_ident sym].
  change (Symbol_value ID =? Symbol_value IF_SYM) with false.
  change (Symbol_value ID =? Symbol_value WHILE_SYM) with false.
  change (Symbol_value ID =? Symbol_value DO_SYM) with false.
  change (Symbol_value ID =? Symbol_value SEMI) with false.
  change (Symbol_value ID =? Symbol_value LBRA) with false.
  cbn iota beta. fold (at_ident a tail). cbn [length].
  destruct (expr _ _) as [[e L3]| |]; try reflexivity.
  unfold bind, gets, ret, syntax_error, raise. cbn beta.
  destruct (sym L3 =? Symbol_value SEMI); [|reflexivity].
  destruct (next_sym L3) as [[u L2]| |]; try reflexivity.
  destruct (sym L2 =? Symbol_value EOI); reflexivity.
Qed.

Lemma test_at_ident r n a b rest :
  test r (S n) (at_ident a (b :: rest)) =
    Ok (VAR (var_of a),
        {| ch := Some b; stdin := rest; sym := Symbol_value EQUAL;
           int_val := 0; id_name := String a "" |}).
Proof. reflexivity. Qed.

Lemma expr_assign a b tail n e L3 :
  is_lower b = true ->
  expr n (at_ident b tail) = Ok (e, L3) ->
  expr (S n) (at_ident a (b :: "="%char :: tail)) =
    Ok (SET (VAR (var_of a)) e, L3).
Proof.
  intros Hb He. cbn [expr]. unfold expr_body.
  unfold bind at 1. unfold sym_is at 1, gets. cbn [at_ident sym].
  change (Symbol_value ID =? Symbol_value ID) with true. cbn [negb].
  fold (at_ident a (b :: "="%char :: tail)).
  unfold bind at 1. rewrite test_at_ident.
  unfold bind at 1. unfold sym_is at 1, gets. cbn [sym is_VAR andb].
  change (Symbol_value EQUAL =? Symbol_value EQUAL) with true. cbn iota.
  unfold bind at 1.
  rewrite (next_sym_ident b ("="%char :: tail) _ _ _ Hb eq_refl).
  cbn [read1 fst snd int_val]. fold (at_ident b tail).
  unfold bind. rewrite He. reflexivity.
Qed.

Lemma chain_text_head vs a rest :
  exists b tail,
    chain_text vs ++ a :: "="%char :: rest = b :: "="%char :: tail /\
    In b (vs ++ [a]).
Proof.
  destruct vs as [|w vs].
  - exists a, rest. split; [reflexivity|]. by left.
  - exists w, (chain_text vs ++ a :: "="%char :: rest). split; [reflexivity|].
    by left.
Qed.

Lemma chain_parses vs : forall a rest K,
  Forall (fun b => is_lower b = true) (vs ++ [a]) ->
  program (a :: "="%char :: rest) = Ok (PROG (EXPR (SET (VAR (var_of a)) K))) ->
  program (chain_text vs ++ a :: "="%char :: rest) =
    Ok (PROG (EXPR (chain (map var_of vs) (SET (VAR (var_of a)) K)))).
Proof.
  induction vs as [|u vs IH]; intros a rest K Hall Hp; [exact Hp|].
  inversion Hall as [|? ? Hu Hrest]; subst.
  specialize (IH a rest K Hrest Hp).
  destruct (chain_text_head vs a rest) as (b & tail & Etext & Hin).
  assert (is_lower b = true) as Hb.
  { rewrite Forall_forall in Hrest. apply Hrest. by apply list_elem_of_In. }
  cbn [chain_text flat_map app map chain foldr].
  fold (chain_text vs). fold (chain (map var_of vs) (SET (VAR (var_of a)) K)).
  rewrite Etext in IH |- *.
  rewrite program_ident in IH by exact Hb.
  rewrite program_ident by exact Hu.
  destruct (expr _ (at_ident b tail)) as [[e L3]| |] eqn:He; try discriminate.
  unfold fuel_for. cbn [length].
  rewrite (expr_assign u b tail _ e L3 Hb).
  2:{ eapply expr_more_fuel; [exact He|]. unfold fuel_for. cbn [length]. lia. }
  destruct (sym L3 =? Symbol_value SEMI); [|discriminate].
  destruct (next_sym L3) as [[? L2]| |]; try discriminate.
  destruct (sym L2 =? Symbol_value EOI); [|discriminate].
  injection IH as ->. reflexivity.
Qed.

(** *** Chained assignment: execution *)

Lemma eval_length x : forall g, length (eval x g).2 = length g.
Proof.
  induction x; intros g; try reflexivity; simpl.
  - specialize (IHx1 g). destruct (eval x1 g) as [v1 g1].
    specialize (IHx2 g1). destruct (eval x2 g1) as [v2 g2]. simpl in *. lia.
  - specialize (IHx1 g). destruct (eval x1 g) as [v1 g1].
    specialize (IHx2 g1). destruct (eval x2 g1) as [v2 g2]. simpl in *. lia.
  - specialize (IHx1 g). destruct (eval x1 g) as [v1 g1].
    specialize (IHx2 g1). destruct (eval x2 g1) as [v2 g2]. simpl in *. lia.
  - destruct x1; try reflexivity.
    specialize (IHx2 g). destruct (eval x2 g) as [v g1]. simpl in *.
    by rewrite length_insert.
Qed.

Lemma eval_chain vars K g :
  Forall (fun v => 0 <= v < zlen g) vars ->
  (eval (chain vars K) g).1 = (eval K g).1 /\
  forall u, In u vars ->
    (eval (chain vars K) g).2 !! Z.to_nat u = Some (eval K g).1.
Proof.
  induction vars as [|w vars IH]; intros Hall.
  - split; [reflexivity|]. intros u [].
  - inversion Hall as [|? ? Hw Hvars]; subst.
    destruct (IH Hvars) as [IH1 IH2]. cbn [chain foldr].
    fold (chain vars K). cbn [eval].
    pose proof (eval_length (chain vars K) g) as Hlen.
    destruct (eval (chain vars K) g) as [v g1]. simpl in *. subst v.
    split; [reflexivity|]. intros u [<- | Hu].
    + apply list_lookup_insert_eq. unfold zlen in Hw. lia.
    + destruct (decide (u = w)) as [-> | Hne].
      * apply list_lookup_insert_eq. unfold zlen in Hw. lia.
      * rewrite list_lookup_insert_ne; [by apply IH2|].
        rewrite Forall_forall in Hvars.
        assert (0 <= u < zlen g) by (apply Hvars; by apply list_elem_of_In).
        lia.
Qed.

Lemma is_expr_chain vars K :
  Forall (fun v => is_global v = true) vars -> is_expr K = true ->
  is_expr (chain vars K) = true.
Proof.
  induction vars as [|w vars IH]; intros Hall HK; [exact HK|].
  inversion Hall; subst. cbn [chain foldr is_expr]. fold (chain vars K).
  rewrite IH by assumption. by rewrite andb_true_r.
Qed.

Lemma chain_app vs a K :
  chain (vs ++ [a]) K = chain vs (SET (VAR a) K).
Proof. unfold chain. by rewrite foldr_app. Qed.

(** The globals a halting run of [v1=...=vn=K;] leaves. *)
Lemma chain_runs vars K code n s' :
  Forall (fun v => is_global v = true) vars -> is_expr K = true ->
  compile (PROG (EXPR (chain vars K))) = Ok code ->
  run_loop code n (vm_init (replicate 26 0)) = Ok (tt, s') ->
  forall u, In u vars ->
    _globals s' !! Z.to_nat u = Some (eval K (replicate 26 0)).1.
Proof.
  intros Hvars HK Hc Hrun u Hu.
  apply compile_listing in Hc. cbn [code_of] in Hc.
  apply code_at_app in Hc as [Hc Hhalt]. apply code_at_app in Hc as [Hc Hpop].
  pose proof (is_expr_chain vars K Hvars HK) as Hx.
  destruct (exec_expr _ Hx code (vm_init (replicate 26 0)) n s' Hc
              ltac:(simpl; lia) Hrun)
    as (m & s1 & _ & Hrun1 & Hpc1 & Hsp1 & _ & Hg1 & _).
  cbn [vm_init pc sp _globals] in Hpc1, Hsp1, Hg1.
  turn Hrun1.
  eapply step_IPOP in Hstep as (-> & _ & Hsp2 & Hpc2 & Hg2);
    [|eapply code_at_eq; [exact Hpop|lia]].
  turn Hrun1.
  eapply step_HALT in Hstep as (-> & _ & _ & Hg3 & _);
    [|eapply code_at_eq; [exact Hhalt|zl; lia]].
  subst s'. rewrite Hg3, Hg2, Hg1.
  apply eval_chain; [|exact Hu].
  eapply Forall_impl; [exact Hvars|]. intros v Hv.
  apply is_global_range in Hv. unfold zlen. rewrite length_replicate. lia.
Qed.

(** *** The parser terminates, and fails only with the syntax error *)

Lemma good_bind {A B} (m : P A) (k : A -> P B) L
    (I : A -> lexer -> Prop) (Q : B -> lexer -> Prop) :
  good I (m L) -> (forall a L1, I a L1 -> good Q (k a L1)) ->
  good Q (bind m k L).
Proof.
  intros Hm Hk. unfold bind. destruct (m L) as [[a L1]| |].
  - apply Hk, Hm.
  - exact Hm.
  - exact Hm.
Qed.

Lemma good_weaken {A} (Q Q' : A -> lexer -> Prop) r :
  good Q r -> (forall a L', Q a L' -> Q' a L') -> good Q' r.
Proof.
  intros Hr HQ. destruct r as [[a L']| |]; [apply HQ, Hr|exact Hr|exact Hr].
Qed.

Lemma scan_unread {A} (p : ascii -> bool) (f : A -> ascii -> A) inp :
  forall c acc acc' c' inp',
    scan p f inp c acc = (acc', c', inp') ->
    (length inp' + match c' with Some _ => 1 | None => 0 end <=
     length inp + match c with Some _ => 1 | None => 0 end)%nat /\
    (forall a, c = Some a -> p a = true ->
       (length inp' + match c' with Some _ => 1 | None => 0 end <
        length inp + 1)%nat).
Proof.
  induction inp as [|b inp IH]; intros c acc acc' c' inp' H.
  - destruct c as [a|]; cbn [scan] in H.
    + destruct (p a) eqn:Ea; injection H as <- <- <-; cbn [length].
      * split; [lia|]. intros; lia.
      * split; [lia|]. intros ? [= <-] ?. congruence.
    + injection H as <- <- <-. split; [cbn [length]; lia|]. discriminate.
  - destruct c as [a|]; cbn [scan] in H.
    + destruct (p a) eqn:Ea.
      * apply IH in H as [H _]. cbn [length]. cbn iota in H.
        split; [lia|]. intros; lia.
      * injection H as <- <- <-. cbn [length].
        split; [lia|]. intros ? [= <-] ?. congruence.
    + injection H as <- <- <-. split; [lia|]. discriminate.
Qed.

Lemma unread_le_toks L : (unread L <= toks L)%nat.
Proof. unfold toks. lia. Qed.

Lemma unread_lt_toks L s :
  sym L = Symbol_value s -> s <> EOI -> (unread L < toks L)%nat.
Proof.
  intros Hs Hne. unfold toks. rewrite Hs.
  destruct s; try congruence; vm_compute (_ =? _); cbn iota; lia.
Qed.

Lemma single_good s (u0 : nat) c inp (L : lexer) :
  s <> ID ->
  ch L = Some c -> stdin L = inp ->
  (length inp + 1 <= u0)%nat ->
  good (fun _ L' => lex_ok L' /\ (toks L' <= u0)%nat) (single s L).
Proof.
  intros Hs Hc Hi Hle. split.
  - by apply (single_lex_ok s L tt).
  - unfold toks, unread, next_ch. rewrite Hi.
    destruct inp as [|b inp]; cbn [read1 set_sym ch stdin sym length];
      destruct (Symbol_value s =? Symbol_value EOI); cbn [length] in *; lia.
Qed.

Lemma good_ok {A} (Q : A -> lexer -> Prop) a L : Q a L -> good Q (Ok (a, L)).
Proof. intros H. exact H. Qed.

Lemma good_syntax {A} (Q : A -> lexer -> Prop) :
  good Q (Raise (SystemExit 1 "syntax error")).
Proof. reflexivity. Qed.

Lemma next_sym_good L :
  good (fun _ L' => lex_ok L' /\ (toks L' <= unread L)%nat) (next_sym L).
Proof.
  pose proof (next_sym_lex_ok L) as Hok.
  unfold next_sym in *.
  destruct (scan is_blank _ _ _ _) as [[? c] inp] eqn:Eb.
  apply scan_unread in Eb as [Hb _]. fold (unread L) in Hb.
  remember (unread L) as u0 eqn:Eu. clear Eu.
  destruct c as [a|]; cbn iota in Hb.
  2:{ apply good_ok. split; [by apply (Hok tt)|].
      unfold toks, unread. cbn [set_sym ch stdin sym].
      change (Symbol_value EOI =? Symbol_value EOI) with true. cbn iota. lia. }
  repeat (match goal with
          | |- good _ (if ?b then single _ _ else _) =>
              destruct b;
              [eapply single_good; [congruence|reflexivity..|exact Hb]|]
          end).
  destruct (is_digit a) eqn:Ed.
  { destruct (scan is_digit _ _ _ _) as [[v c'] inp'] eqn:Es.
    apply scan_unread in Es as [_ Hs]. specialize (Hs a eq_refl Ed).
    apply good_ok. split; [by apply (Hok tt)|].
    unfold toks, unread. cbn [ch stdin sym].
    destruct (Symbol_value INT =? Symbol_value EOI); lia. }
  destruct (is_lower a) eqn:Hl; [|apply good_syntax].
  destruct (scan is_word _ _ _ _) as [[name c'] inp'] eqn:Es.
  apply scan_unread in Es as [_ Hs].
  specialize (Hs a eq_refl ltac:(unfold is_word; by rewrite Hl)).
  remember (lookup_word words 0 name) as k eqn:Ek. clear Ek.
  assert (forall s iv nm,
            (toks {| ch := c'; stdin := inp'; sym := s; int_val := iv;
                     id_name := nm |} <= u0)%nat) as Htoks.
  { intros s iv nm. unfold toks, unread. cbn [ch stdin sym].
    destruct (s =? Symbol_value EOI); lia. }
  destruct (words !! _) as [[w|]|].
  - apply good_ok. split; [by apply (Hok tt)|apply Htoks].
  - destruct (_ =? 1); [|apply good_syntax].
    apply good_ok. split; [by apply (Hok tt)|apply Htoks].
  - destruct (_ =? 1); [|apply good_syntax].
    apply good_ok. split; [by apply (Hok tt)|apply Htoks].
Qed.

Lemma bind_sym_is {B} s (k : bool -> P B) L :
  bind (sym_is s) k L = k (sym L =? Symbol_value s) L.
Proof. reflexivity. Qed.

Lemma bind_gets {A B} (f : lexer -> A) (k : A -> P B) L :
  bind (gets f) k L = k (f L) L.
Proof. reflexivity. Qed.

Lemma sym_not_eoi L s :
  (sym L =? Symbol_value s) = true -> s <> EOI -> (unread L < toks L)%nat.
Proof. intros H Hne. apply Z.eqb_eq in H. by apply (unread_lt_toks L s). Qed.

(** [next_sym] called when the token in [sym] is [s]. *)
Lemma advance_good L s :
  (sym L =? Symbol_value s) = true -> s <> EOI ->
  good (closer L) (next_sym L).
Proof.
  intros Hs Hne. eapply good_weaken; [apply next_sym_good|].
  intros ? L' [Hok Hle]. split; [exact Hok|].
  pose proof (sym_not_eoi L s Hs Hne). lia.
Qed.

Lemma expect_good s L :
  s <> EOI -> good (closer L) (expect s L).
Proof.
  intros Hne. unfold expect. rewrite bind_sym_is.
  destruct (sym L =? Symbol_value s) eqn:E; [|apply good_syntax].
  by apply (advance_good L s).
Qed.

Lemma closer_trans {A B} (L L1 : lexer) (a : A) (b : B) L2 :
  closer L a L1 -> closer L1 b L2 -> closer L b L2.
Proof. intros [_ H1] [Hok H2]. split; [exact Hok|lia]. Qed.

Lemma paren_good r bound L :
  rec_ok bound r -> (toks L <= bound)%nat ->
  good (closer L) (paren_expr r L).
Proof.
  intros Hr Hb. unfold paren_expr.
  eapply good_bind; [apply (expect_good LPAR); congruence|].
  intros ? L1 [Hok1 Hlt1]. cbn beta.
  eapply good_bind; [apply Hr; [exact Hok1|lia]|].
  intros x L2 [Hok2 Hlt2]. cbn beta.
  eapply good_bind; [apply (expect_good RPAR); congruence|].
  intros ? L3 [Hok3 Hlt3]. apply good_ok. split; [exact Hok3|lia].
Qed.

Lemma bind_lift_ok {A B} (a : A) (k : A -> P B) L :
  bind (lift (Ok a)) k L = k a L.
Proof. reflexivity. Qed.

Lemma then_ret_good {A B} (m : P A) (b : B) L (L0 : lexer) :
  good (closer L0) (m L) -> good (closer L0) (bind m (fun _ => ret b) L).
Proof.
  intros H. eapply good_bind; [exact H|]. intros a L1 H1. exact H1.
Qed.

Lemma term_good r bound L :
  rec_ok bound r -> lex_ok L -> (toks L <= bound)%nat ->
  good (closer L) (term r L).
Proof.
  intros Hr Hok Hb. unfold term. rewrite bind_sym_is.
  destruct (sym L =? Symbol_value ID) eqn:Eid.
  - rewrite bind_gets.
    destruct (Hok (proj1 (Z.eqb_eq _ _) Eid)) as (a & Ha & _). rewrite Ha.
    cbn [first_ord]. rewrite bind_lift_ok.
    apply then_ret_good. apply (advance_good L ID Eid). congruence.
  - rewrite bind_sym_is.
    destruct (sym L =? Symbol_value INT) eqn:Eint.
    + rewrite bind_gets.
      apply then_ret_good. apply (advance_good L INT Eint). congruence.
    + by apply (paren_good r bound).
Qed.

Lemma sum_loop_good r bound k : forall x L,
  rec_ok bound r -> lex_ok L -> (toks L <= bound)%nat -> (toks L < k)%nat ->
  good (fun _ L' => lex_ok L' /\ (toks L' <= toks L)%nat) (sum_loop r k x L).
Proof.
  induction k as [|k IH]; intros x L Hr Hok Hb Hk; [lia|].
  cbn [sum_loop]. rewrite !bind_sym_is.
  destruct (sym L =? Symbol_value PLUS) eqn:Ep;
    [|destruct (sym L =? Symbol_value MINUS) eqn:Em]; cbn [orb].
  - eapply good_bind; [apply (advance_good L PLUS Ep); congruence|].
    intros ? L1 [Hok1 Hlt1]. cbn beta.
    eapply good_bind; [apply (term_good r bound); [exact Hr|exact Hok1|lia]|].
    intros y L2 [Hok2 Hlt2]. cbn beta.
    eapply good_weaken; [apply IH; [exact Hr|exact Hok2|lia|lia]|].
    intros ? L3 [Hok3 Hle3]. split; [exact Hok3|lia].
  - eapply good_bind; [apply (advance_good L MINUS Em); congruence|].
    intros ? L1 [Hok1 Hlt1]. cbn beta.
    eapply good_bind; [apply (term_good r bound); [exact Hr|exact Hok1|lia]|].
    intros y L2 [Hok2 Hlt2]. cbn beta.
    eapply good_weaken; [apply IH; [exact Hr|exact Hok2|lia|lia]|].
    intros ? L3 [Hok3 Hle3]. split; [exact Hok3|lia].
  - apply good_ok. split; [exact Hok|lia].
Qed.

Lemma sum_good r bound n L :
  rec_ok bound r -> lex_ok L -> (toks L <= bound)%nat -> (toks L <= n)%nat ->
  good (closer L) (_sum r n L).
Proof.
  intros Hr Hok Hb Hn. unfold _sum.
  eapply good_bind; [by apply (term_good r bound)|].
  intros x L1 [Hok1 Hlt1]. cbn beta.
  eapply good_weaken; [apply (sum_loop_good r bound); [exact Hr|exact Hok1|lia|lia]|].
  intros ? L2 [Hok2 Hle2]. split; [exact Hok2|lia].
Qed.

Lemma test_good r bound n L :
  rec_ok bound r -> lex_ok L -> (toks L <= bound)%nat -> (toks L <= n)%nat ->
  good (closer L) (test r n L).
Proof.
  intros Hr Hok Hb Hn. unfold test.
  eapply good_bind; [by apply (sum_good r bound)|].
  intros x L1 [Hok1 Hlt1]. cbn beta. rewrite bind_sym_is.
  destruct (sym L1 =? Symbol_value LESS) eqn:El.
  - eapply good_bind; [apply (advance_good L1 LESS El); congruence|].
    intros ? L2 [Hok2 Hlt2]. cbn beta.
    eapply good_bind; [apply (sum_good r bound n); [exact Hr|exact Hok2|lia|lia]|].
    intros y L3 [Hok3 Hlt3]. apply good_ok. split; [exact Hok3|lia].
  - apply good_ok. split; [exact Hok1|lia].
Qed.

Lemma expr_body_good r bound n L :
  rec_ok bound r -> lex_ok L -> (toks L <= bound)%nat -> (toks L <= n)%nat ->
  good (closer L) (expr_body r n L).
Proof.
  intros Hr Hok Hb Hn. unfold expr_body. rewrite bind_sym_is.
  destruct (sym L =? Symbol_value ID); cbn [negb];
    [|by apply (test_good r bound)].
  eapply good_bind; [by apply (test_good r bound)|].
  intros x L1 [Hok1 Hlt1]. cbn beta. rewrite bind_sym_is.
  destruct (is_VAR x); cbn [andb]; [|apply good_ok; split; [exact Hok1|lia]].
  destruct (sym L1 =? Symbol_value EQUAL) eqn:Ee;
    [|apply good_ok; split; [exact Hok1|lia]].
  eapply good_bind; [apply (advance_good L1 EQUAL Ee); congruence|].
  intros ? L2 [Hok2 Hlt2]. cbn beta.
  eapply good_bind; [apply Hr; [exact Hok2|lia]|].
  intros y L3 [Hok3 Hlt3]. apply good_ok. split; [exact Hok3|lia].
Qed.

Lemma expr_good n : rec_ok n (expr n).
Proof.
  induction n as [|n IH]; intros L Hok Hlt; [lia|].
  cbn [expr]. apply (expr_body_good (expr n) n); [exact IH|exact Hok|lia|lia].
Qed.

Lemma block_loop_good r bound k : forall x L,
  rec_ok bound r -> lex_ok L -> (toks L < bound)%nat -> (toks L < k)%nat ->
  good (fun _ L' => lex_ok L' /\ (toks L' <= toks L)%nat)
       (block_loop r k x L).
Proof.
  induction k as [|k IH]; intros x L Hr Hok Hb Hk; [lia|].
  cbn [block_loop]. rewrite bind_sym_is.
  destruct (sym L =? Symbol_value RBRA).
  - apply good_ok. split; [exact Hok|lia].
  - eapply good_bind; [apply Hr; [exact Hok|lia]|].
    intros y L1 [Hok1 Hlt1]. cbn beta.
    eapply good_weaken; [apply IH; [exact Hr|exact Hok1|lia|lia]|].
    intros ? L2 [Hok2 Hle2]. split; [exact Hok2|lia].
Qed.

Lemma statement_body_good r n L :
  rec_ok n r -> lex_ok L -> (toks L <= n)%nat ->
  good (closer L) (statement_body r (S n) L).
Proof.
  intros Hr Hok Hn.
  pose proof (expr_good (S n)) as He.
  unfold statement_body. rewrite bind_gets. cbn beta.
  destruct (sym L =? Symbol_value IF_SYM) eqn:Eif.
  { eapply good_bind; [apply (advance_good L IF_SYM Eif); congruence|].
    intros ? L1 [Hok1 Hlt1]. cbn beta.
    eapply good_bind; [apply (paren_good _ (S n)); [exact He|lia]|].
    intros e2 L2 [Hok2 Hlt2]. cbn beta.
    eapply good_bind; [apply Hr; [exact Hok2|lia]|].
    intros a3 L3 [Hok3 Hlt3]. cbn beta. rewrite bind_sym_is.
    destruct (sym L3 =? Symbol_value ELSE_SYM) eqn:Eel.
    - eapply good_bind; [apply (advance_good L3 ELSE_SYM Eel); congruence|].
      intros ? L4 [Hok4 Hlt4]. cbn beta.
      eapply good_bind; [apply Hr; [exact Hok4|lia]|].
      intros b5 L5 [Hok5 Hlt5]. apply good_ok. split; [exact Hok5|lia].
    - apply good_ok. split; [exact Hok3|lia]. }
  destruct (sym L =? Symbol_value WHILE_SYM) eqn:Ewh.
  { eapply good_bind; [apply (advance_good L WHILE_SYM Ewh); congruence|].
    intros ? L1 [Hok1 Hlt1]. cbn beta.
    eapply good_bind; [apply (paren_good _ (S n)); [exact He|lia]|].
    intros e2 L2 [Hok2 Hlt2]. cbn beta.
    eapply good_bind; [apply Hr; [exact Hok2|lia]|].
    intros a3 L3 [Hok3 Hlt3]. apply good_ok. split; [exact Hok3|lia]. }
  destruct (sym L =? Symbol_value DO_SYM) eqn:Edo.
  { eapply good_bind; [apply (advance_good L DO_SYM Edo); congruence|].
    intros ? L1 [Hok1 Hlt1]. cbn beta.
    eapply good_bind; [apply Hr; [exact Hok1|lia]|].
    intros a2 L2 [Hok2 Hlt2]. cbn beta.
    eapply good_bind; [apply (expect_good WHILE_SYM); congruence|].
    intros ? L3 [Hok3 Hlt3]. cbn beta.
    eapply good_bind; [apply (paren_good _ (S n)); [exact He|lia]|].
    intros e4 L4 [Hok4 Hlt4]. cbn beta.
    eapply good_bind; [apply (expect_good SEMI); congruence|].
    intros ? L5 [Hok5 Hlt5]. apply good_ok. split; [exact Hok5|lia]. }
  destruct (sym L =? Symbol_value SEMI) eqn:Ese.
  { apply then_ret_good. apply (advance_good L SEMI Ese). congruence. }
  destruct (sym L =? Symbol_value LBRA) eqn:Elb.
  { eapply good_bind; [apply (advance_good L LBRA Elb); congruence|].
    intros ? L1 [Hok1 Hlt1]. cbn beta.
    eapply good_bind;
      [apply (block_loop_good r n); [exact Hr|exact Hok1|lia|lia]|].
    intros x L2 [Hok2 Hle2]. cbn beta.
    eapply good_bind; [apply next_sym_good|].
    intros ? L3 [Hok3 Hle3]. apply good_ok. split; [exact Hok3|].
    pose proof (unread_le_toks L2). lia. }
  eapply good_bind; [apply He; [exact Hok|lia]|].
  intros e1 L1 [Hok1 Hlt1]. cbn beta.
  eapply good_bind; [apply (expect_good SEMI); congruence|].
  intros ? L2 [Hok2 Hlt2]. apply good_ok. split; [exact Hok2|lia].
Qed.

Lemma statement_good n : rec_ok n (statement n).
Proof.
  induction n as [|n IH]; intros L Hok Hlt; [lia|].
  cbn [statement]. apply statement_body_good; [exact IH|exact Hok|lia].
Qed.

(** [program] returns a tree or raises the syntax error. *)
Lemma program_total input :
  match program input with
  | Ok _ => True
  | Raise e => e = SystemExit 1 "syntax error"
  | Fuel => False
  end.
Proof.
  unfold program.
  assert (good (fun _ _ => True) (program_body (fuel_for input) (lexer_init input))) as H.
  { unfold program_body.
    eapply good_bind; [apply next_sym_good|].
    intros ? L1 [Hok1 Hle1]. cbn beta.
    eapply good_bind.
    { apply statement_good; [exact Hok1|].
      unfold fuel_for. unfold unread, lexer_init in Hle1. cbn [stdin ch] in Hle1.
      lia. }
    intros x L2 _. cbn beta. rewrite bind_sym_is.
    destruct (sym L2 =? Symbol_value EOI); [exact I|apply good_syntax]. }
  destruct (program_body _ _) as [[x L]| |]; exact H.
Qed.

(** *** The exceptions of the code generator and of the machine *)

Lemma raises_bind {S A B} ok (m : M S A) (k : A -> M S B) :
  raises_only ok m -> (forall a, raises_only ok (k a)) ->
  raises_only ok (bind m k).
Proof.
  intros Hm Hk s. unfold bind. specialize (Hm s).
  destruct (m s) as [[a s1]| |]; [apply Hk|exact Hm|exact Hm].
Qed.

Lemma raises_ret {S A} ok (a : A) : raises_only ok (@ret S A a).
Proof. intros s. exact I. Qed.

Lemma raises_gets {S A} ok (f : S -> A) : raises_only ok (gets f).
Proof. intros s. exact I. Qed.

Lemma raises_modify {S} ok (f : S -> S) : raises_only ok (modify f).
Proof. intros s. exact I. Qed.

Lemma py_get_benign {A} (l : list A) i :
  match py_get l i with Ok _ => True | Raise e => benign e | Fuel => False end.
Proof.
  unfold py_get. destruct (py_index _ _); [|by left].
  destruct (l !! _); [exact I|by left].
Qed.

Lemma py_set_benign lo hi l i v :
  match py_set lo hi l i v with
  | Ok _ => True | Raise e => benign e | Fuel => False
  end.
Proof.
  unfold py_set. destruct (py_index _ _); [|by left].
  destruct (_ && _); [exact I|by right].
Qed.

Lemma raises_lift {S A} (ok : exn -> Prop) (r : res A) :
  match r with Ok _ => True | Raise e => ok e | Fuel => False end ->
  raises_only ok (@lift S A r).
Proof. intros H s. unfold lift. destruct r; exact H. Qed.

Lemma raises_g v : raises_only benign (g v).
Proof.
  intros st. unfold g, set_b.
  pose proof (py_set_benign (-128) 127 (_object st) (here st) v) as H.
  destruct (py_set _ _ _ _ _); exact H.
Qed.

Lemma raises_fix src dst : raises_only benign (fix_ src dst).
Proof.
  intros st. unfold fix_, set_b.
  pose proof (py_set_benign (-128) 127 (_object st) src (dst - src)) as H.
  destruct (py_set _ _ _ _ _); exact H.
Qed.

Lemma raises_hole : raises_only benign hole.
Proof. intros st. exact I. Qed.

Ltac raises :=
  repeat first
    [ apply raises_g | apply raises_fix | apply raises_hole
    | apply raises_ret | apply raises_gets | apply raises_modify
    | assumption
    | apply raises_bind; [|intros ?] ].

Lemma c_raises x : lhs_are_vars x = true -> raises_only benign (c x).
Proof.
  induction x; cbn [lhs_are_vars c]; intros Hx;
    repeat match goal with
           | H : _ && _ = true |- _ => apply andb_prop in H as [? ?]
           end;
    repeat match goal with
           | IH : ?P -> raises_only _ _, H : ?P |- _ => specialize (IH H)
           end;
    try solve [raises].
  destruct x1; try discriminate. cbn [val_of].
  change (@lift codegen Z (Ok val)) with (@ret codegen Z val). raises.
Qed.

Lemma compile_raises x :
  lhs_are_vars x = true ->
  match compile x with
  | Ok _ => True | Raise e => benign e | Fuel => False
  end.
Proof.
  intros Hx. unfold compile. pose proof (c_raises x Hx codegen_init) as H.
  destruct (c x codegen_init) as [[u st]| |]; exact H.
Qed.

Lemma raises_rd_code code : raises_only benign (rd_code code).
Proof. intros s. unfold rd_code. apply raises_lift, py_get_benign. Qed.

Lemma raises_rd_stack i : raises_only benign (rd_stack i).
Proof. intros s. unfold rd_stack. apply raises_lift, py_get_benign. Qed.

Lemma raises_rd_global i : raises_only benign (rd_global i).
Proof. intros s. unfold rd_global. apply raises_lift, py_get_benign. Qed.

Lemma raises_set_stack i v : raises_only benign (set_stack i v).
Proof.
  intros s. unfold set_stack, set_i.
  pose proof (py_set_benign INT_MIN INT_MAX (stack s) i v) as H.
  destruct (py_set _ _ _ _ _); exact H.
Qed.

Lemma raises_set_global i v : raises_only benign (set_global i v).
Proof.
  intros s. unfold set_global, set_i.
  pose proof (py_set_benign INT_MIN INT_MAX (_globals s) i v) as H.
  destruct (py_set _ _ _ _ _); exact H.
Qed.

Ltac vraises :=
  repeat first
    [ apply raises_rd_code | apply raises_rd_stack | apply raises_rd_global
    | apply raises_set_stack | apply raises_set_global
    | apply raises_ret | apply raises_gets | apply raises_modify
    | apply raises_bind; [|intros ?]
    | match goal with
      | |- raises_only _ (if ?b then _ else _) => destruct b
      end ].

Lemma step_raises code : raises_only benign (step code).
Proof.
  unfold step. apply raises_bind; [apply raises_rd_code|]. intros b.
  apply raises_bind.
  { apply raises_lift. unfold Instruction_getitem. apply py_get_benign. }
  intros i. apply raises_bind; [apply raises_modify|]. intros _.
  destruct i; unfold binop, branch, add_sp, add_pc; vraises.
Qed.

Lemma run_loop_raises code n : forall s,
  match run_loop code n s with
  | Raise e => benign e
  | _ => True
  end.
Proof.
  induction n as [|n IH]; intros s; [exact I|].
  cbn [run_loop]. unfold bind. pose proof (step_raises code s) as H.
  destruct (step code s) as [[h s1]| |]; [|exact H|exact I].
  destruct h; [exact I|apply IH].
Qed.

(** *** The globals keep their number *)

Lemma keeps_bind {A B} (m : V A) (k : A -> V B) :
  keeps_len m -> (forall a, keeps_len (k a)) -> keeps_len (bind m k).
Proof.
  intros Hm Hk s b s2 H. apply bind_ok in H as (a & s1 & H1 & H2).
  rewrite (Hk a _ _ _ H2). exact (Hm _ _ _ H1).
Qed.

Lemma keeps_ret {A} (a : A) : keeps_len (ret a).
Proof. intros s b s1 H. by injection H as _ <-. Qed.

Lemma keeps_gets {A} (f : vm -> A) : keeps_len (gets f).
Proof. intros s b s1 H. by injection H as _ <-. Qed.

Lemma keeps_lift {A} (r : vm -> res A) : keeps_len (fun s => lift (r s) s).
Proof. intros s b s1 H. by apply lift_ok in H as [_ ->]. Qed.

Lemma keeps_add_sp d : keeps_len (add_sp d).
Proof. intros s b s1 H. by injection H as _ <-. Qed.

Lemma keeps_add_pc d : keeps_len (add_pc d).
Proof. intros s b s1 H. by injection H as _ <-. Qed.

Lemma keeps_set_stack i v : keeps_len (set_stack i v).
Proof.
  intros s b s1 H. unfold set_stack in H.
  destruct (set_i _ _ _); try discriminate. by injection H as _ <-.
Qed.

Lemma keeps_set_global i v : keeps_len (set_global i v).
Proof.
  intros s b s1 H. unfold set_global, set_i, py_set in H.
  destruct (py_index _ _); try discriminate.
  destruct (_ && _); try discriminate.
  injection H as _ <-. cbn [_globals]. apply length_insert.
Qed.

Ltac keeps :=
  repeat first
    [ apply keeps_ret | apply keeps_gets | apply keeps_add_sp
    | apply keeps_add_pc | apply keeps_set_stack | apply keeps_set_global
    | apply (keeps_lift (fun s => py_get _ _))
    | apply keeps_bind; [|intros ?]
    | match goal with
      | |- keeps_len (if ?b then _ else _) => destruct b
      end ].

Lemma step_keeps code : keeps_len (step code).
Proof.
  unfold step, rd_code. apply keeps_bind; [keeps|]. intros b.
  apply keeps_bind; [apply (keeps_lift (fun _ => Instruction_getitem b))|].
  intros i. apply keeps_bind; [keeps|]. intros _.
  destruct i; unfold binop, branch, rd_stack, rd_global, rd_code; keeps.
Qed.

Lemma run_loop_keeps code n : keeps_len (run_loop code n).
Proof.
  induction n as [|n IH]; [intros s b s1 H; discriminate|].
  cbn [run_loop]. apply keeps_bind; [apply step_keeps|].
  intros h. destruct h; [apply keeps_ret|exact IH].
Qed.

Lemma report_zeros_ok globals :
  length globals = 26%nat -> exists out, report globals range26 = Ok out.
Proof.
  intros Hlen. eexists. apply report_lines.
  unfold zlen. rewrite Hlen.
  repeat (constructor; [lia|]). constructor.
Qed.


(** *** The parser reads no stale lexer variable *)

Lemma respects_bind {A B} (m : P A) (k : A -> P B) :
  respects m -> (forall a, respects (k a)) -> respects (bind m k).
Proof.
  intros Hm Hk L1 L2 HL. unfold bind. specialize (Hm L1 L2 HL).
  destruct (m L1) as [[a1 L1']| |], (m L2) as [[a2 L2']| |];
    try contradiction; try exact Hm.
  destruct Hm as [<- HL']. by apply Hk.
Qed.

Lemma respects_ret {A} (a : A) : respects (ret a).
Proof. intros L1 L2 HL. by split. Qed.

Lemma respects_sym_is s : respects (sym_is s).
Proof.
  intros L1 L2 HL. split; [|exact HL].
  destruct HL as (_ & _ & -> & _). reflexivity.
Qed.

Lemma respects_gets_sym : respects (gets sym).
Proof.
  intros L1 L2 HL. split; [|exact HL]. by destruct HL as (_ & _ & -> & _).
Qed.

Lemma respects_syntax_error {A} : respects (@syntax_error lexer A).
Proof. intros L1 L2 HL. reflexivity. Qed.

Lemma respects_out_of_fuel {A} : respects (@out_of_fuel lexer A).
Proof. intros L1 L2 HL. exact I. Qed.

Lemma single_reads s c inp s1 iv1 nm1 s2 iv2 nm2 :
  s <> ID -> s <> INT ->
  same_res
    (single s {| ch := c; stdin := inp; sym := s1; int_val := iv1;
                 id_name := nm1 |})
    (single s {| ch := c; stdin := inp; sym := s2; int_val := iv2;
                 id_name := nm2 |}).
Proof.
  intros Hid Hint. unfold single, next_ch. cbn [stdin].
  destruct (read1 inp) as [c' inp']. cbn [set_sym ch stdin sym int_val id_name].
  repeat split; cbn [ch stdin sym int_val id_name]; try reflexivity;
    intros H; destruct s; vm_compute in H; congruence.
Qed.

Lemma next_sym_reads L1 L2 :
  ch L1 = ch L2 -> stdin L1 = stdin L2 ->
  same_res (next_sym L1) (next_sym L2).
Proof.
  intros Hc Hi. unfold next_sym. rewrite Hc, Hi.
  destruct (scan is_blank _ _ _ _) as [[? c] inp].
  destruct c as [a|].
  2:{ repeat split; cbn [set_sym ch stdin sym]; try reflexivity;
      intros H; vm_compute in H; discriminate. }
  repeat match goal with
         | |- same_res (if ?b then single ?s _ else _) _ =>
             destruct b; [apply single_reads; congruence|]
         end.
  destruct (is_digit a).
  { destruct (scan is_digit _ _ _ _) as [[v c'] inp'].
    repeat split; cbn [ch stdin sym]; try reflexivity;
      intros H; vm_compute in H; discriminate. }
  destruct (is_lower a); [|reflexivity].
  destruct (scan is_word _ _ _ _) as [[name c'] inp'].
  pose proof (lookup_word_keyword name) as Hkw.
  remember (lookup_word words 0 name) as k eqn:Ek. clear Ek.
  destruct (words !! _) as [[w|]|].
  - specialize (Hkw w eq_refl).
    repeat split; cbn [ch stdin sym]; try reflexivity.
    change (Symbol_value INT) with 13. lia.
  - destruct (_ =? 1); [|reflexivity].
    repeat split; cbn [ch stdin sym]; try reflexivity;
      intros H; vm_compute in H; discriminate.
  - destruct (_ =? 1); [|reflexivity].
    repeat split; cbn [ch stdin sym]; try reflexivity;
      intros H; vm_compute in H; discriminate.
Qed.

Lemma respects_next_sym : respects next_sym.
Proof. intros L1 L2 (Hc & Hi & _). by apply next_sym_reads. Qed.

Ltac resp :=
  repeat first
    [ assumption
    | apply respects_next_sym | apply respects_sym_is | apply respects_gets_sym
    | apply respects_ret | apply respects_syntax_error
    | apply respects_out_of_fuel
    | apply respects_bind; [|intros ?]
    | match goal with
      | |- respects (if ?b then _ else _) => destruct b
      end ].

Lemma respects_expect s : respects (expect s).
Proof. unfold expect. resp. Qed.

Lemma respects_paren r : respects r -> respects (paren_expr r).
Proof. intros Hr. pose proof respects_expect. unfold paren_expr. resp. Qed.

Lemma respects_term r : respects r -> respects (term r).
Proof.
  intros Hr L1 L2 HL. pose proof (respects_paren r Hr) as Hp.
  unfold term. rewrite !bind_sym_is.
  pose proof HL as (Hc & Hi & Hs & Hid & Hint). rewrite <- Hs.
  destruct (sym L1 =? Symbol_value ID) eqn:Eid.
  - rewrite !bind_gets. rewrite <- (Hid (proj1 (Z.eqb_eq _ _) Eid)).
    destruct (first_ord (id_name L1)) as [o| |]; try reflexivity.
    rewrite !bind_lift_ok.
    apply (respects_bind next_sym (fun _ => ret (VAR (o - ord "a"))));
      [resp|intros; resp|exact HL].
  - rewrite !bind_sym_is. rewrite <- Hs.
    destruct (sym L1 =? Symbol_value INT) eqn:Eint.
    + rewrite !bind_gets. rewrite <- (Hint (proj1 (Z.eqb_eq _ _) Eint)).
      apply (respects_bind next_sym (fun _ => ret (CST (int_val L1))));
        [resp|intros; resp|exact HL].
    + by apply Hp.
Qed.

Lemma respects_sum_loop r n : respects r -> forall x, respects (sum_loop r n x).
Proof.
  intros Hr. pose proof (respects_term r Hr) as Ht.
  induction n as [|n IH]; intros x; cbn [sum_loop]; resp; apply IH.
Qed.

Lemma respects_sum r n : respects r -> respects (_sum r n).
Proof.
  intros Hr. pose proof (respects_term r Hr).
  pose proof (respects_sum_loop r n Hr) as Hl. unfold _sum. resp. apply Hl.
Qed.

Lemma respects_test r n : respects r -> respects (test r n).
Proof. intros Hr. pose proof (respects_sum r n Hr). unfold test. resp. Qed.

Lemma respects_expr_body r n : respects r -> respects (expr_body r n).
Proof.
  intros Hr. pose proof (respects_test r n Hr). unfold expr_body. resp.
Qed.

Lemma respects_expr n : respects (expr n).
Proof.
  induction n as [|n IH]; cbn [expr]; [resp|by apply respects_expr_body].
Qed.

Lemma respects_block_loop r k : respects r -> forall x, respects (block_loop r k x).
Proof.
  intros Hr. induction k as [|k IH]; intros x; cbn [block_loop]; resp; apply IH.
Qed.

Lemma respects_statement_body r n : respects r -> respects (statement_body r n).
Proof.
  intros Hr. pose proof (respects_expr n).
  pose proof (respects_paren (expr n) (respects_expr n)).
  pose proof (respects_block_loop r n Hr EMPTY).
  pose proof (respects_expect WHILE_SYM). pose proof (respects_expect SEMI).
  unfold statement_body. resp.
Qed.

Lemma respects_statement n : respects (statement n).
Proof.
  induction n as [|n IH]; cbn [statement];
    [resp|by apply respects_statement_body].
Qed.

(** Whatever [sym], [int_val] and [id_name] hold when [program] is entered,
    the result is the same: the values the model gives these variables
    before their first assignment are never read. *)
Lemma program_stale n input s iv nm :
  same_res
    (program_body n {| ch := Some " "%char; stdin := input; sym := s;
                       int_val := iv; id_name := nm |})
    (program_body n (lexer_init input)).
Proof.
  unfold program_body, bind.
  pose proof (next_sym_reads
                {| ch := Some " "%char; stdin := input; sym := s;
                   int_val := iv; id_name := nm |}
                (lexer_init input) eq_refl eq_refl) as H.
  destruct (next_sym _) as [[u1 L1]| |], (next_sym (lexer_init input))
    as [[u2 L2]| |]; try contradiction; try exact H.
  destruct H as [_ HL].
  pose proof (respects_statement n L1 L2 HL) as Hs.
  destruct (statement n L1) as [[x1 L1']| |], (statement n L2)
    as [[x2 L2']| |]; try contradiction; try exact Hs.
  destruct Hs as [<- HL'].
  pose proof HL' as (_ & _ & Hsym & _). unfold sym_is, gets. rewrite Hsym.
  destruct (sym L2' =? Symbol_value EOI); [by split|reflexivity].
Qed.

(** *** What the code generator leaves in the buffer *)

Lemma set_b_length obj i v obj' :
  set_b obj i v = Ok obj' -> length obj' = length obj.
Proof.
  unfold set_b, py_set. destruct (py_index _ _); [|discriminate].
  destruct (_ && _); [|discriminate]. intros [= <-]. apply length_insert.
Qed.

Lemma g_length v st u st' :
  g v st = Ok (u, st') -> length (_object st') = length (_object st).
Proof.
  unfold g. destruct (set_b _ _ _) as [o| |] eqn:E; try discriminate.
  intros [= _ <-]. simpl. by eapply set_b_length.
Qed.

Lemma fix_length src dst st u st' :
  fix_ src dst st = Ok (u, st') -> length (_object st') = length (_object st).
Proof.
  unfold fix_. destruct (set_b _ _ _) as [o| |] eqn:E; try discriminate.
  intros [= _ <-]. simpl. by eapply set_b_length.
Qed.

Ltac extent_step :=
  match goal with
  | H : g _ _ = Ok _ |- _ =>
      let E := fresh "E" in let S := fresh "S" in let R := fresh "R" in
      let Ln := fresh "Ln" in
      pose proof (g_length _ _ _ _ H) as Ln;
      apply g_ok in H as (E & _ & S & R); [|simpl in *; lia]
  | H : fix_ _ _ _ = Ok _ |- _ =>
      let E := fresh "E" in let S := fresh "S" in let R := fresh "R" in
      let Ln := fresh "Ln" in
      pose proof (fix_length _ _ _ _ _ H) as Ln;
      apply fix_ok in H as (E & _ & S & R); [|simpl in *; lia]
  | IH : forall st u st', c ?x st = Ok _ -> _, H : c ?x _ = Ok _ |- _ =>
      let E := fresh "E" in let S := fresh "S" in let R := fresh "R" in
      let Ln := fresh "Ln" in
      apply IH in H as (E & Ln & S & R); [|simpl in *; lia]
  end.

Ltac above :=
  let i := fresh "i" in let Hi := fresh "Hi" in
  intros i Hi;
  repeat match goal with
         | S : same_from _ _ ?o |- ?o !! _ = _ => rewrite (S i) by lia
         | S : same_except _ _ ?o |- ?o !! _ = _ => rewrite (S i) by lia
         end;
  reflexivity.

Lemma c_extent x : forall st u st',
  c x st = Ok (u, st') -> 0 <= here st ->
  here st' = here st + zlen (code_of x) /\
  length (_object st') = length (_object st) /\
  same_from (here st') (_object st) (_object st') /\
  Forall (fun b => is_byte b = true) (code_of x).
Proof.
  induction x; intros st u st' H Hh; simpl in H; minv H;
    try pose proof (zlen_nonneg (code_of x1));
    try pose proof (zlen_nonneg (code_of x2));
    try pose proof (zlen_nonneg (code_of x3));
    try pose proof (zlen_nonneg (code_of x));
    repeat extent_step;
    try match goal with H : val_of _ = Ok _ |- _ => simpl; rewrite H end;
    simpl in *; zl;
    (split; [lia | split; [congruence | split; [above |] ] ]);
    repeat first [rewrite Forall_app | rewrite Forall_cons | rewrite Forall_nil];
    repeat split; try assumption; unfold is_byte; lia.
Qed.

(** X1 ([c], [g], [hole], [fix], lines 325-406): when the code generator
    succeeds on the fresh buffer, the buffer it leaves is the listing of the
    tree followed by the zeros the buffer started with; the listing is at
    most 1000 bytes long and each of its bytes, the literals and the jump
    distances among them, is in the range -128..127 of a buffer item. *)
Theorem compile_image x code :
  compile x = Ok code ->
  (length (code_of x) <= 1000)%nat /\
  code = code_of x ++ replicate (1000 - length (code_of x)) 0 /\
  Forall (fun b => is_byte b = true) (code_of x).
Proof.
  unfold compile.
  destruct (c x codegen_init) as [[u st]| |] eqn:E; try discriminate.
  intros [= <-].
  pose proof (c_listing _ _ _ _ E ltac:(simpl; lia)) as (_ & [_ Hat] & _).
  apply c_extent in E as (Eh & Ln & Hfrom & Hb); [|simpl; lia].
  unfold codegen_init in *. cbn [here _object] in *.
  rewrite length_replicate in Ln.
  assert (length (code_of x) <= 1000)%nat as Hle.
  { destruct (code_of x) as [|b l] eqn:El using rev_ind; [simpl; lia|].
    clear IHl. specialize (Hat (length l) b).
    rewrite lookup_app_r, Nat.sub_diag in Hat by lia.
    specialize (Hat eq_refl). apply lookup_lt_Some in Hat.
    rewrite length_app. simpl. lia. }
  split; [exact Hle|]. split; [|exact Hb].
  apply list_eq. intros i.
  destruct (decide (i < length (code_of x))%nat) as [Hi|Hi].
  - rewrite lookup_app_l by exact Hi.
    destruct (lookup_lt_is_Some_2 _ _ Hi) as [b Hb']. rewrite Hb'.
    exact (Hat i b Hb').
  - rewrite lookup_app_r by lia. rewrite Hfrom by (unfold zlen in Eh; lia).
    destruct (decide (i < 1000)%nat) as [Hk|Hk].
    + rewrite !lookup_replicate_2 by lia. reflexivity.
    + transitivity (@None Z); [|symmetry];
        apply lookup_replicate_None; lia.
Qed.

Lemma compile_image_witness :
  (length (code_of demo_ast) <= 1000)%nat /\
  demo_code = code_of demo_ast ++ replicate (1000 - length (code_of demo_ast)) 0 /\
  Forall (fun b => is_byte b = true) (code_of demo_ast).
Proof. apply (compile_image demo_ast demo_code). vm_compute. reflexivity. Defined.

(** *** When the code generator succeeds *)

Lemma bind_run {S A B} (m : M S A) (k : A -> M S B) s a s1 :
  m s = Ok (a, s1) -> bind m k s = k a s1.
Proof. unfold bind. by intros ->. Qed.

Lemma run_hole {B} (k : Z -> G B) st :
  bind hole k st = k (here st + 1 - 1) {| _object := _object st; here := here st + 1 |}.
Proof. reflexivity. Qed.

Lemma run_gets {S A B} (f : S -> A) (k : A -> M S B) s :
  bind (gets f) k s = k (f s) s.
Proof. reflexivity. Qed.

Lemma run_lift {S A B} (a : A) (k : A -> M S B) s :
  bind (lift (Ok a)) k s = k a s.
Proof. reflexivity. Qed.

Lemma g_runs v st :
  0 <= here st < zlen (_object st) -> is_byte v = true ->
  exists st', g v st = Ok (tt, st').
Proof.
  intros Hh Hv. unfold g, set_b.
  rewrite py_set_in_range by (unfold is_byte in Hv; lia). eauto.
Qed.

Lemma fix_runs src dst st :
  0 <= src < zlen (_object st) -> is_byte (dst - src) = true ->
  exists st', fix_ src dst st = Ok (tt, st').
Proof.
  intros Hh Hv. unfold fix_, set_b.
  rewrite py_set_in_range by (unfold is_byte in Hv; lia). eauto.
Qed.

Ltac fits :=
  cbn [here _object] in *; unfold zlen in *;
  first [assumption | lia | (unfold is_byte in *; lia)].

Ltac run1 :=
  lazymatch goal with
  | |- exists st', bind (c ?x) _ ?st = Ok _ =>
      match goal with
      | IH : forall st, _ -> _ -> _ -> _ -> ex _ |- _ =>
          let st1 := fresh "st" in let H := fresh "H" in
          destruct (IH st) as [st1 H]; [fits | fits | fits | fits |];
          rewrite (bind_run _ _ _ _ _ H);
          apply c_extent in H as (? & ? & _ & _); [|fits]
      end
  | |- exists st', bind (g ?v) _ ?st = Ok _ =>
      let st1 := fresh "st" in let H := fresh "H" in
      destruct (g_runs v st) as [st1 H]; [fits | fits |];
      rewrite (bind_run _ _ _ _ _ H);
      pose proof (g_length _ _ _ _ H);
      apply g_ok in H as (? & _ & _ & _); [|fits]
  | |- exists st', bind (fix_ ?a ?b) _ ?st = Ok _ =>
      let st1 := fresh "st" in let H := fresh "H" in
      destruct (fix_runs a b st) as [st1 H]; [fits | fits |];
      rewrite (bind_run _ _ _ _ _ H);
      pose proof (fix_length _ _ _ _ _ H);
      apply fix_ok in H as (? & _ & _ & _); [|fits]
  | |- exists st', bind hole _ _ = Ok _ => rewrite run_hole
  | |- exists st', bind (gets _) _ _ = Ok _ => rewrite run_gets
  | |- exists st', bind (lift (Ok _)) _ _ = Ok _ => rewrite run_lift
  | |- exists st', c ?x ?st = Ok _ =>
      match goal with
      | IH : forall st, _ -> _ -> _ -> _ -> ex _ |- _ => apply IH; fits
      end
  | |- exists st', g _ _ = Ok _ => apply g_runs; fits
  | |- exists st', fix_ _ _ _ = Ok _ => apply fix_runs; fits
  | |- exists st', ret tt _ = Ok _ => eexists; reflexivity
  end.

Lemma c_complete x : forall st,
  0 <= here st -> here st + zlen (code_of x) <= zlen (_object st) ->
  lhs_are_vars x = true ->
  Forall (fun b => is_byte b = true) (code_of x) ->
  exists st', c x st = Ok (tt, st').
Proof.
  induction x; intros st Hh Hfit Hx Hb;
    try match type of Hx with
        | lhs_are_vars (SET ?o _) = true => destruct o; try discriminate
        end;
    simpl in Hx; cbn [c code_of val_of] in *; zl;
    repeat first [rewrite Forall_app in Hb | rewrite Forall_cons in Hb];
    repeat match goal with
           | H : _ && _ = true |- _ => apply andb_prop in H as [? ?]
           end;
    destruct_and?;
    try pose proof (zlen_nonneg (code_of x1));
    try pose proof (zlen_nonneg (code_of x2));
    try pose proof (zlen_nonneg (code_of x3));
    try pose proof (zlen_nonneg (code_of x)).
  all: repeat run1.
Qed.


(** *** The meaning of compiled statements *)

Lemma meaning_mono k : forall k' x g r,
  (k <= k')%nat -> meaning k x g = Some r -> meaning k' x g = Some r.
Proof.
  induction k as [|k IH]; intros k' x g r Hle H; [discriminate|].
  destruct k' as [|k']; [lia|].
  assert (forall x g r, meaning k x g = Some r -> meaning k' x g = Some r)
    as IH' by (intros; eapply IH; [lia|eassumption]).
  clear IH.
  destruct x; cbn [meaning] in *; try discriminate;
    repeat match goal with
           | H : context [eval ?e ?g] |- _ =>
               is_var g; destruct (eval e g)
           | H : (if ?b then _ else _) = Some _ |- _ => destruct b
           | H : match meaning k ?a ?g with _ => _ end = Some _ |- _ =>
               let E := fresh "E" in
               destruct (meaning k a g) eqn:E; [|discriminate];
               rewrite (IH' _ _ _ E)
           end; auto.
Qed.

Lemma meaning_if1_skip e a g :
  (eval e g).1 = 0 -> meaning 1 (IF1 e a) g = Some (eval e g).2.
Proof.
  intros H. cbn [meaning]. destruct (eval e g) as [v g1]. simpl in *.
  by rewrite H.
Qed.

Lemma meaning_if1_take e a g k r :
  (eval e g).1 <> 0 -> meaning k a (eval e g).2 = Some r ->
  meaning (S k) (IF1 e a) g = Some r.
Proof.
  intros H Hk. cbn [meaning]. destruct (eval e g) as [v g1]. simpl in *.
  by destruct (Z.eqb_spec v 0).
Qed.

Lemma meaning_if2_else e a b g k r :
  (eval e g).1 = 0 -> meaning k b (eval e g).2 = Some r ->
  meaning (S k) (IF2 e a b) g = Some r.
Proof.
  intros H Hk. cbn [meaning]. destruct (eval e g) as [v g1]. simpl in *.
  by rewrite H.
Qed.

Lemma meaning_if2_then e a b g k r :
  (eval e g).1 <> 0 -> meaning k a (eval e g).2 = Some r ->
  meaning (S k) (IF2 e a b) g = Some r.
Proof.
  intros H Hk. cbn [meaning]. destruct (eval e g) as [v g1]. simpl in *.
  by destruct (Z.eqb_spec v 0).
Qed.

Lemma meaning_while_exit e a g :
  (eval e g).1 = 0 -> meaning 1 (WHILE e a) g = Some (eval e g).2.
Proof.
  intros H. cbn [meaning]. destruct (eval e g) as [v g1]. simpl in *.
  by rewrite H.
Qed.

Lemma meaning_while_turn e a g k1 k2 g2 r :
  (eval e g).1 <> 0 -> meaning k1 a (eval e g).2 = Some g2 ->
  meaning k2 (WHILE e a) g2 = Some r ->
  meaning (S (k1 `max` k2)) (WHILE e a) g = Some r.
Proof.
  intros H H1 H2. cbn [meaning]. destruct (eval e g) as [v g1]. simpl in *.
  destruct (Z.eqb_spec v 0); [contradiction|].
  rewrite (meaning_mono k1 (k1 `max` k2) _ _ _ ltac:(lia) H1).
  exact (meaning_mono k2 (k1 `max` k2) _ _ _ ltac:(lia) H2).
Qed.

Lemma meaning_do_exit a e g k g1 :
  meaning k a g = Some g1 -> (eval e g1).1 = 0 ->
  meaning (S k) (DO a e) g = Some (eval e g1).2.
Proof.
  intros H1 H. cbn [meaning]. rewrite H1.
  destruct (eval e g1) as [v g2]. simpl in *. by rewrite H.
Qed.

Lemma meaning_do_turn a e g k1 k2 g1 r :
  meaning k1 a g = Some g1 -> (eval e g1).1 <> 0 ->
  meaning k2 (DO a e) (eval e g1).2 = Some r ->
  meaning (S (k1 `max` k2)) (DO a e) g = Some r.
Proof.
  intros H1 H H2. cbn [meaning].
  rewrite (meaning_mono k1 (k1 `max` k2) _ _ _ ltac:(lia) H1).
  destruct (eval e g1) as [v g2]. simpl in *.
  destruct (Z.eqb_spec v 0); [contradiction|].
  exact (meaning_mono k2 (k1 `max` k2) _ _ _ ltac:(lia) H2).
Qed.

Lemma meaning_seq a b g k1 k2 g1 r :
  meaning k1 a g = Some g1 -> meaning k2 b g1 = Some r ->
  meaning (S (k1 `max` k2)) (SEQ a b) g = Some r.
Proof.
  intros H1 H2. cbn [meaning].
  rewrite (meaning_mono k1 (k1 `max` k2) _ _ _ ltac:(lia) H1).
  exact (meaning_mono k2 (k1 `max` k2) _ _ _ ltac:(lia) H2).
Qed.

(** The value a branch pops is the value of the condition just computed. *)
Ltac popped v e Hv Hv1 :=
  let Ev := fresh "Ev" in
  assert (v = e) as Ev
    by (match type of Hv with
        | _ !! Z.to_nat ?i = _ =>
            match type of Hv1 with
            | _ !! Z.to_nat ?j = _ => replace i with j in Hv by lia
            end
        end; congruence).

Ltac landed :=
  eapply lands_weaken; [eapply lands_now; [eassumption|]|lia];
  split; [simpl in *; zl; lia|]; split; [simpl in *; lia|].

Lemma run_stmt_aux n :
  (forall k, (k < n)%nat -> forall x, is_stmt x = true -> faithful k x) ->
  forall x, is_stmt x = true -> forall m, (m <= n)%nat -> faithful m x.
Proof.
  intros Hout. unfold faithful in *.
  induction x; try discriminate; intros Hx m Hm code s s' Hc Hsp Hrun;
    simpl in Hx, Hc;
    try pose proof (zlen_nonneg (code_of x1)) as Hz1;
    try pose proof (zlen_nonneg (code_of x2)) as Hz2;
    try pose proof (zlen_nonneg (code_of x3)) as Hz3.
  - (* IF1 *)
    apply andb_prop in Hx as [Hx1 Hx2].
    apply code_at_app in Hc as [Hc1 Hc2].
    pose proof Hc2 as Hc3. apply code_at_cons in Hc3 as (_ & _ & Hc3).
    apply code_at_cons in Hc3 as (_ & _ & Hc3).
    eapply lands_then;
      [eapply (exec_expr x1); [assumption|eassumption|lia|eassumption]|].
    intros m1 s1 Hm1 Hrun1 (Hpc1 & Hsp1 & Hv1 & Hg1 & _).
    turn Hrun1.
    eapply step_JZ in Hstep as (v & -> & Hv & _ & Hsp2 & Hg2 & Hpc2);
      [|here_at|lia].
    popped v (eval x1 (_globals s)).1 Hv Hv1.
    destruct (v =? 0) eqn:Ez.
    + landed. exists 1%nat. rewrite Hg2, Hg1. apply meaning_if1_skip. lia.
    + eapply lands_weaken with (n := n0); [|lia].
      eapply lands_then.
      { eapply (IHx2 Hx2 n0 ltac:(lia)); [| |eassumption]; [here_at|lia]. }
      intros m2 s2 Hm2 Hrun2 (Hpc3 & Hsp3 & k & Hk).
      landed. exists (S k). apply meaning_if1_take; [lia|].
      rewrite <- Hg1, <- Hg2. exact Hk.
  - (* IF2 *)
    apply andb_prop in Hx as [Hx12 Hx3]. apply andb_prop in Hx12 as [Hx1 Hx2].
    apply code_at_app in Hc as [Hc1 Hc2].
    pose proof Hc2 as Hc3. apply code_at_cons in Hc3 as (_ & _ & Hc3).
    apply code_at_cons in Hc3 as (_ & _ & Hc3).
    apply code_at_app in Hc3 as [Hc3 Hc4].
    pose proof Hc4 as Hc5. apply code_at_cons in Hc5 as (_ & _ & Hc5).
    apply code_at_cons in Hc5 as (_ & _ & Hc5).
    eapply lands_then;
      [eapply (exec_expr x1); [assumption|eassumption|lia|eassumption]|].
    intros m1 s1 Hm1 Hrun1 (Hpc1 & Hsp1 & Hv1 & Hg1 & _).
    turn Hrun1.
    eapply step_JZ in Hstep as (v & -> & Hv & _ & Hsp2 & Hg2 & Hpc2);
      [|here_at|lia].
    popped v (eval x1 (_globals s)).1 Hv Hv1.
    destruct (v =? 0) eqn:Ez.
    + eapply lands_weaken with (n := n0); [|lia].
      eapply lands_then.
      { eapply (IHx3 Hx3 n0 ltac:(lia)); [| |eassumption]; [here_at|lia]. }
      intros m2 s2 Hm2 Hrun2 (Hpc3 & Hsp3 & k & Hk).
      landed. exists (S k). apply meaning_if2_else; [lia|].
      rewrite <- Hg1, <- Hg2. exact Hk.
    + eapply lands_weaken with (n := n0); [|lia].
      eapply lands_then.
      { eapply (IHx2 Hx2 n0 ltac:(lia)); [| |eassumption]; [here_at|lia]. }
      intros m2 s2 Hm2 Hrun2 (Hpc3 & Hsp3 & k & Hk).
      turn Hrun2.
      eapply step_JMP in Hstep as (-> & _ & Hsp4 & Hg4 & Hpc4); [|here_at].
      landed. exists (S k). rewrite Hg4. apply meaning_if2_then; [lia|].
      rewrite <- Hg1, <- Hg2. exact Hk.
  - (* WHILE *)
    apply andb_prop in Hx as [Hx1 Hx2].
    pose proof Hc as Hwhole.
    apply code_at_app in Hc as [Hc1 Hc2].
    pose proof Hc2 as Hc3. apply code_at_cons in Hc3 as (_ & _ & Hc3).
    apply code_at_cons in Hc3 as (_ & _ & Hc3).
    apply code_at_app in Hc3 as [Hc3 Hc4].
    eapply lands_then;
      [eapply (exec_expr x1); [assumption|eassumption|lia|eassumption]|].
    intros m1 s1 Hm1 Hrun1 (Hpc1 & Hsp1 & Hv1 & Hg1 & _).
    turn Hrun1.
    eapply step_JZ in Hstep as (v & -> & Hv & _ & Hsp2 & Hg2 & Hpc2);
      [|here_at|lia].
    popped v (eval x1 (_globals s)).1 Hv Hv1.
    destruct (v =? 0) eqn:Ez.
    + landed. exists 1%nat. rewrite Hg2, Hg1. apply meaning_while_exit. lia.
    + eapply lands_weaken with (n := n0); [|lia].
      eapply lands_then.
      { eapply (IHx2 Hx2 n0 ltac:(lia)); [| |eassumption]; [here_at|lia]. }
      intros m2 s2 Hm2 Hrun2 (Hpc3 & Hsp3 & k1 & Hk1).
      turn Hrun2.
      eapply step_JMP in Hstep as (-> & _ & Hsp4 & Hg4 & Hpc4); [|here_at].
      assert (pc s3 = pc s) as Hback by (zl; lia).
      eapply lands_weaken with (n := n1); [|lia].
      eapply lands_then.
      { eapply (Hout n1 ltac:(lia) (WHILE x1 x2)); [| | |eassumption]; [| |lia].
        - simpl. by rewrite Hx1, Hx2.
        - simpl. rewrite Hback. exact Hwhole. }
      intros m3 s4 Hm3 Hrun3 (Hpc5 & Hsp5 & k2 & Hk2).
      eapply lands_now; [eassumption|].
      split; [simpl in *; zl; lia|]. split; [simpl in *; lia|].
      exists (S (k1 `max` k2)).
      eapply meaning_while_turn; [lia| |].
      * rewrite <- Hg1, <- Hg2. exact Hk1.
      * rewrite <- Hg4. exact Hk2.
  - (* DO *)
    apply andb_prop in Hx as [Hx1 Hx2].
    pose proof Hc as Hwhole.
    apply code_at_app in Hc as [Hc1 Hc2].
    apply code_at_app in Hc2 as [Hc2 Hc3].
    eapply lands_then.
    { eapply (IHx1 Hx1 m ltac:(lia)); [| |eassumption]; [here_at|lia]. }
    intros m1 s1 Hm1 Hrun1 (Hpc1 & Hsp1 & k1 & Hk1).
    eapply lands_then;
      [eapply (exec_expr x2); [assumption| | |eassumption]; [here_at|lia]|].
    intros m2 s2 Hm2 Hrun2 (Hpc2 & Hsp2 & Hv2 & Hg2 & _).
    turn Hrun2.
    eapply step_JNZ in Hstep as (v & -> & Hv & _ & Hsp3 & Hg3 & Hpc3);
      [|here_at|lia].
    popped v (eval x2 (_globals s1)).1 Hv Hv2.
    destruct (v =? 0) eqn:Ez.
    + landed. exists (S k1). rewrite Hg3, Hg2.
      apply meaning_do_exit; [exact Hk1|lia].
    + assert (pc s0 = pc s) as Hback by (zl; lia).
      eapply lands_weaken with (n := n0); [|lia].
      eapply lands_then.
      { eapply (Hout n0 ltac:(lia) (DO x1 x2)); [| | |eassumption]; [| |lia].
        - simpl. by rewrite Hx1, Hx2.
        - simpl. rewrite Hback. exact Hwhole. }
      intros m3 s4 Hm3 Hrun3 (Hpc5 & Hsp5 & k2 & Hk2).
      eapply lands_now; [eassumption|].
      split; [simpl in *; zl; lia|]. split; [simpl in *; lia|].
      exists (S (k1 `max` k2)).
      eapply meaning_do_turn; [exact Hk1|lia|].
      rewrite <- Hg2, <- Hg3. exact Hk2.
  - (* EMPTY *)
    eapply lands_now; [eassumption|].
    split; [simpl; zl; lia|]. split; [lia|]. by exists 1%nat.
  - (* SEQ *)
    apply andb_prop in Hx as [Hx1 Hx2].
    apply code_at_app in Hc as [Hc1 Hc2].
    eapply lands_then.
    { eapply (IHx1 Hx1 m ltac:(lia)); [| |eassumption]; [here_at|lia]. }
    intros m1 s1 Hm1 Hrun1 (Hpc1 & Hsp1 & k1 & Hk1).
    eapply lands_then.
    { eapply (IHx2 Hx2 m1 ltac:(lia)); [| |eassumption]; [here_at|lia]. }
    intros m2 s2 Hm2 Hrun2 (Hpc2 & Hsp2 & k2 & Hk2).
    eapply lands_now; [eassumption|].
    split; [simpl; zl; lia|]. split; [lia|].
    exists (S (k1 `max` k2)). eapply meaning_seq; eassumption.
  - (* EXPR *)
    apply code_at_app in Hc as [Hc1 Hc2].
    eapply lands_then;
      [eapply (exec_expr x); [assumption|eassumption|lia|eassumption]|].
    intros m1 s1 Hm1 Hrun1 (Hpc1 & Hsp1 & _ & Hg1 & _).
    turn Hrun1.
    eapply step_IPOP in Hstep as (-> & _ & Hsp2 & Hpc2 & Hg2); [|here_at].
    landed. exists 1%nat. cbn [meaning]. by rewrite Hg2, Hg1.
Qed.

Lemma run_stmt n : forall x, is_stmt x = true -> faithful n x.
Proof.
  induction n as [n IH] using lt_wf_ind.
  intros x Hx. apply (run_stmt_aux n IH x Hx n). lia.
Qed.

(** X3 ([c] lines 341-406 and [run] lines 414-459, expressions): in a run
    that reaches [HALT], the code of an expression, entered with a stack
    height that is not negative, is left one value higher, with the value of
    the expression on top, the globals updated by the assignments in it and
    the stack below as it was.  No addition or subtraction has wrapped
    around: the value is that of unbounded arithmetic. *)
Theorem expression_code_value x code n s s' :
  is_expr x = true ->
  code_at code (pc s) (code_of x) -> 0 <= sp s ->
  run_loop code n s = Ok (tt, s') ->
  exists (m : nat) (s1 : vm),
    (m <= n)%nat /\ run_loop code m s1 = Ok (tt, s') /\
    pc s1 = pc s + zlen (code_of x) /\
    sp s1 = sp s + 1 /\
    stack s1 !! Z.to_nat (sp s) = Some (eval x (_globals s)).1 /\
    _globals s1 = (eval x (_globals s)).2 /\
    forall j : nat, Z.of_nat j < sp s -> stack s1 !! j = stack s !! j.
Proof. intros Hx Hc Hsp Hrun. exact (exec_expr x Hx code s n s' Hc Hsp Hrun). Qed.

Lemma expression_code_value_witness :
  exists (m : nat) (s1 : vm),
    (m <= 4)%nat /\
    run_loop [2; 3; 2; 4; 5; 10] m s1 =
      Ok (tt, {| stack := [-1; 4]; sp := 1; pc := 6; _globals := [] |}) /\
    pc s1 = 0 + zlen (code_of (SUB (CST 3) (CST 4))) /\
    sp s1 = 0 + 1 /\
    stack s1 !! Z.to_nat 0 = Some (eval (SUB (CST 3) (CST 4)) []).1 /\
    _globals s1 = (eval (SUB (CST 3) (CST 4)) []).2 /\
    forall j : nat, Z.of_nat j < 0 -> stack s1 !! j = [0; 0] !! j.
Proof.
  apply (expression_code_value (SUB (CST 3) (CST 4)) [2; 3; 2; 4; 5; 10] 4
           {| stack := [0; 0]; sp := 0; pc := 0; _globals := [] |}).
  - reflexivity.
  - split; [simpl; lia|].
    intros [|[|[|[|[|i]]]]] b; simpl; intros H;
      first [discriminate H | injection H as <-; reflexivity].
  - simpl; lia.
  - reflexivity.
Defined.

(** X4 ([c] lines 341-406 and [run] lines 414-459, statements): in a run
    that reaches [HALT], the code of a statement, entered with a stack height
    that is not negative, is left at its end with the globals that the
    statement means: [if] runs its branch when the condition is not zero (and
    the [else] branch, if any, when it is), [while] tests before each turn
    and [do] after it, a block runs its statements in order. *)
Theorem statement_code_means x code n s s' :
  is_stmt x = true ->
  code_at code (pc s) (code_of x) -> 0 <= sp s ->
  run_loop code n s = Ok (tt, s') ->
  exists (m : nat) (s1 : vm) (k : nat),
    (m <= n)%nat /\ run_loop code m s1 = Ok (tt, s') /\
    pc s1 = pc s + zlen (code_of x) /\
    sp s1 = sp s /\
    meaning k x (_globals s) = Some (_globals s1).
Proof.
  intros Hx Hc Hsp Hrun.
  destruct (run_stmt n x Hx code s s' Hc Hsp Hrun)
    as (m & s1 & Hm & Hrun1 & Hpc & Hsp1 & k & Hk).
  exists m, s1, k. auto.
Qed.

Lemma statement_code_means_witness :
  exists (m : nat) (s1 : vm) (k : nat),
    (m <= 9)%nat /\
    run_loop [0; 0; 7; 6; 2; 5; 1; 0; 3; 10] m s1 =
      Ok (tt, {| stack := [5; 0]; sp := 0; pc := 10; _globals := [5] |}) /\
    pc s1 = 0 + zlen (code_of (IF1 (VAR 0) (EXPR (SET (VAR 0) (CST 5))))) /\
    sp s1 = 0 /\
    meaning k (IF1 (VAR 0) (EXPR (SET (VAR 0) (CST 5)))) [3] = Some (_globals s1).
Proof.
  apply (statement_code_means (IF1 (VAR 0) (EXPR (SET (VAR 0) (CST 5))))
           [0; 0; 7; 6; 2; 5; 1; 0; 3; 10] 9
           {| stack := [0; 0]; sp := 0; pc := 0; _globals := [3] |}).
  - reflexivity.
  - split; [simpl; lia|].
    intros [|[|[|[|[|[|[|[|[|i]]]]]]]]] b; simpl; intros H;
      first [discriminate H | injection H as <-; reflexivity].
  - simpl; lia.
  - reflexivity.
Defined.

(** The globals a halting run of a compiled program leaves. *)
Lemma run_means st code n g g' :
  is_stmt st = true -> compile (PROG st) = Ok code ->
  run n code g = Ok g' ->
  exists k, meaning k st g = Some g'.
Proof.
  intros Hst Hc Hrun. unfold run in Hrun.
  destruct (run_loop code n (vm_init g)) as [[[] s']| |] eqn:E; try discriminate.
  injection Hrun as <-.
  apply compile_listing in Hc. simpl in Hc.
  apply code_at_app in Hc as [Hc1 Hc2].
  destruct (run_stmt n st Hst code (vm_init g) s' Hc1 ltac:(simpl; lia) E)
    as (m & s1 & _ & Hrun1 & Hpc & Hsp & k & Hk).
  simpl in Hpc, Hsp, Hk. turn Hrun1.
  eapply step_HALT in Hstep as (-> & _ & _ & Hg & _);
    [|eapply code_at_eq; [exact Hc2|lia]].
  subst s'. exists k. by rewrite Hg.
Qed.

(** X5 (main program, lines 465-475, with [program], [c] and [run]): when
    the process ends with status 0, its input parsed to a statement, the
    machine halted with the globals that statement means from 26 zeros, and
    the lines printed are the report of those globals; nothing was written
    to the diagnostic stream. *)
Theorem exit_zero_means (n : nat) (input : list ascii) out err :
  main n input = Exited 0 out err ->
  exists st k globals,
    program input = Ok (PROG st) /\
    meaning k st (replicate 26 0) = Some globals /\
    report globals range26 = Ok out /\
    err = [].
Proof.
  unfold main. intros H.
  pose proof (program_total input) as Hp.
  destruct (program input) as [ast|e|] eqn:Ep; cbn [finish] in H;
    [|subst e; discriminate|discriminate].
  destruct (program_wf _ _ Ep) as (st & -> & Hst).
  pose proof (compile_raises (PROG st) (is_stmt_lhs st Hst)) as Hc.
  destruct (compile (PROG st)) as [code|e|] eqn:Ec; cbn [finish] in H;
    [|destruct Hc as [-> | ->]; discriminate|discriminate].
  pose proof (run_loop_raises code n (vm_init (replicate 26 0))) as Hr.
  pose proof (run_loop_keeps code n (vm_init (replicate 26 0))) as Hl.
  unfold run in H.
  destruct (run_loop code n (vm_init (replicate 26 0))) as [[u s']|e|] eqn:Er;
    cbn [finish] in H; [|destruct Hr as [-> | ->]; discriminate|discriminate].
  destruct (report_zeros_ok (_globals s')) as [lines Hlines].
  { by rewrite (Hl u s' eq_refl). }
  rewrite Hlines in H. cbn [finish] in H. injection H as <- <-.
  destruct (run_means st code n (replicate 26 0) (_globals s') Hst Ec)
    as [k Hk].
  { unfold run. by rewrite Er. }
  exists st, k, (_globals s'). auto.
Qed.

Lemma exit_zero_means_witness :
  exists st k globals,
    program (chars "a=1;") = Ok (PROG st) /\
    meaning k st (replicate 26 0) = Some globals /\
    report globals range26 = Ok ["97 = 1"%string] /\
    @nil string = [].
Proof.
  apply (exit_zero_means 4 (chars "a=1;")). vm_compute. reflexivity.
Defined.

(** *** Blanks before the first token *)

Lemma program_body_mono n n' :
  (n <= n')%nat -> weaker (program_body n) (program_body n').
Proof.
  intros Hle. unfold program_body.
  pose proof (statement_mono n n' Hle). mono.
Qed.

(** The fuel [program] gives the parser is enough: more changes nothing. *)
Lemma program_more_fuel input n :
  (fuel_for input <= n)%nat ->
  program_body n (lexer_init input) =
  program_body (fuel_for input) (lexer_init input).
Proof.
  intros Hle. apply (program_body_mono _ _ Hle).
  pose proof (program_total input) as H. unfold program in H.
  intros E. by rewrite E in H.
Qed.

Lemma scan_blanks {A} (f : A -> ascii -> A) ws : forall a inp acc,
  is_blank a = true -> Forall (fun b => is_blank b = true) ws ->
  (forall acc b, f acc b = acc) ->
  scan is_blank f (ws ++ inp) (Some a) acc =
  scan is_blank f inp (Some " "%char) acc.
Proof.
  induction ws as [|w ws IH]; intros a inp acc Ha Hws Hf.
  - cbn [app]. destruct inp as [|b inp]; cbn [scan]; rewrite Ha;
      change (is_blank " ") with true; cbn iota; rewrite !Hf; reflexivity.
  - inversion Hws; subst. cbn [app scan]. rewrite Ha, Hf. by apply IH.
Qed.

Lemma next_sym_blanks ws inp :
  Forall (fun b => is_blank b = true) ws ->
  next_sym (lexer_init (ws ++ inp)) = next_sym (lexer_init inp).
Proof.
  intros Hws. unfold next_sym, lexer_init. cbn [ch stdin sym int_val id_name].
  by rewrite (scan_blanks _ ws " "%char inp tt eq_refl Hws).
Qed.


(** *** Numbers *)

Lemma digit_range a : is_digit a = true -> 48 <= ord a <= 57.
Proof.
  unfold is_digit. change (ord "0") with 48. change (ord "9") with 57. lia.
Qed.

Lemma digit_not_blank a : is_digit a = true -> is_blank a = false.
Proof. intros H%digit_range. unfold is_blank. lia. Qed.

Lemma scan_digits {A} (f : A -> ascii -> A) ds : forall a acc rest,
  is_digit a = true ->
  Forall (fun b => is_digit b = true) ds ->
  ends_number rest ->
  scan is_digit f (ds ++ rest) (Some a) acc =
  (fold_left f (a :: ds) acc, (read1 rest).1, (read1 rest).2).
Proof.
  induction ds as [|b ds IH]; intros a acc rest Ha Hds Hrest.
  - cbn [app fold_left]. destruct rest as [|r rest]; cbn [scan]; rewrite Ha.
    + reflexivity.
    + cbn in Hrest. destruct rest; cbn [scan]; by rewrite Hrest.
  - inversion Hds; subst. cbn [app scan]. rewrite Ha.
    by rewrite (IH b _ rest).
Qed.

(** What [next_sym] does at a run of digits. *)
Lemma next_sym_number a ds rest s iv nm :
  is_digit a = true ->
  Forall (fun b => is_digit b = true) ds ->
  ends_number rest ->
  next_sym {| ch := Some a; stdin := ds ++ rest; sym := s; int_val := iv;
              id_name := nm |} =
    Ok (tt, {| ch := (read1 rest).1; stdin := (read1 rest).2;
               sym := Symbol_value INT;
               int_val := fold_left (fun v d => v * 10 + ord d - ord "0")
                            (a :: ds) 0;
               id_name := nm |}).
Proof.
  intros Ha Hds Hrest. pose proof (digit_range a Ha) as Hr.
  unfold next_sym. cbn [ch stdin sym int_val id_name].
  assert (scan is_blank (fun (u : unit) _ => u) (ds ++ rest) (Some a) tt
          = (tt, Some a, ds ++ rest)) as ->.
  { destruct (ds ++ rest); cbn [scan]; by rewrite (digit_not_blank a Ha). }
  cbn iota beta. not_punct Hr. rewrite Ha.
  by rewrite (scan_digits _ ds a 0 rest Ha Hds Hrest).
Qed.

Lemma uint_digits d :
  Forall (fun b => is_digit b = true) (chars (NilEmpty.string_of_uint d)).
Proof.
  induction d; cbn [NilEmpty.string_of_uint chars list_ascii_of_string];
    constructor; auto.
Qed.

Lemma uint_value_acc d : forall p,
  fold_left (fun v c => v * 10 + ord c - ord "0")
    (chars (NilEmpty.string_of_uint d)) (Z.pos p) =
  Z.pos (Pos.of_uint_acc d p).
Proof.
  induction d; intros p;
    cbn [NilEmpty.string_of_uint chars list_ascii_of_string fold_left
         Pos.of_uint_acc];
    [reflexivity | fold (chars (NilEmpty.string_of_uint d)) ..];
    rewrite <- IHd; f_equal;
    repeat match goal with
           | |- context [ord ?c] =>
               let v := eval vm_compute in (ord c) in change (ord c) with v
           end; lia.
Qed.

Lemma uint_value d :
  fold_left (fun v c => v * 10 + ord c - ord "0")
    (chars (NilEmpty.string_of_uint d)) 0 =
  Z.of_N (Pos.of_uint d).
Proof.
  induction d;
    cbn [NilEmpty.string_of_uint chars list_ascii_of_string fold_left
         Pos.of_uint];
    [reflexivity | fold (chars (NilEmpty.string_of_uint d)) ..];
    [exact IHd | exact (uint_value_acc d _) ..].
Qed.

(** The decimal text of a number that is not negative: digits, whose value
    as the lexer computes it is the number. *)
Lemma str_digits n :
  0 <= n ->
  exists a ds,
    chars (str n) = a :: ds /\ is_digit a = true /\
    Forall (fun b => is_digit b = true) ds /\
    fold_left (fun v d => v * 10 + ord d - ord "0") (a :: ds) 0 = n.
Proof.
  intros Hn. destruct n as [|p|p]; [| |lia].
  - exists "0"%char, []. repeat split. constructor.
  - unfold str. cbn [Z.to_int NilZero.string_of_int].
    pose proof (DecimalPos.Unsigned.of_to p) as Hot.
    pose proof (uint_digits (Pos.to_uint p)) as Hd.
    pose proof (uint_value (Pos.to_uint p)) as Hv.
    rewrite Hot in Hv. unfold NilZero.string_of_uint.
    destruct (Pos.to_uint p) as [|d|d|d|d|d|d|d|d|d|d]; [discriminate|..];
      cbn [NilEmpty.string_of_uint chars list_ascii_of_string] in *;
      inversion Hd; subst;
      eexists _, _; (split; [reflexivity|]); auto.
Qed.

Lemma next_sym_str n rest :
  0 <= n -> ends_number rest ->
  next_sym (lexer_init (chars (str n) ++ rest)) = Ok (tt, after_number n rest).
Proof.
  intros Hn Hrest.
  destruct (str_digits n Hn) as (a & ds & -> & Ha & Hds & Hv).
  cbn [app]. rewrite next_sym_init by (by apply digit_not_blank).
  rewrite (next_sym_number a ds rest _ _ _ Ha Hds Hrest).
  by rewrite Hv.
Qed.

(** X7 ([next_sym] lines 139-144, [term] lines 210-213): what the report
    prints for a number that is not negative reads back as that number: the
    lexer takes the decimal text, up to the first character that is no
    digit, as one number token of that value; followed by [;] it is the
    program whose only statement is that constant. *)
Theorem number_round_trip (n : Z) (rest : list ascii) :
  0 <= n -> ends_number rest ->
  next_sym (lexer_init (chars (str n) ++ rest)) =
    Ok (tt, after_number n rest) /\
  program (chars (str n) ++ chars ";") = Ok (PROG (EXPR (CST n))).
Proof.
  intros Hn Hrest. split; [by apply next_sym_str|].
  unfold program, program_body. unfold bind at 1.
  rewrite (next_sym_str n (chars ";") Hn eq_refl).
  unfold fuel_for. generalize (length (chars (str n) ++ chars ";")).
  intros k. reflexivity.
Qed.

Lemma number_round_trip_witness :
  next_sym (lexer_init (chars (str 2026) ++ chars "+1;")) =
    Ok (tt, after_number 2026 (chars "+1;")) /\
  program (chars (str 2026) ++ chars ";") = Ok (PROG (EXPR (CST 2026))).
Proof.
  apply (number_round_trip 2026 (chars "+1;")).
  - lia.
  - reflexivity.
Defined.

(** *** Decoding, overflow and the range of the globals *)

(** X8 ([CustomEnumMeta.__getitem__] lines 6-8, [run] line 419): a code
    byte decodes as the instruction of that number, and, Python indexing
    from the end for negative indices, a byte from -11 to -1 decodes as the
    instruction 11 higher ([-1] is [HALT]); every other byte raises
    [IndexError]. *)
Theorem opcode_decoding (b : Z) :
  (forall i, Instruction_getitem b = Ok i <->
             Instruction_value i = b \/ Instruction_value i = b + 11) /\
  (Instruction_getitem b = Raise IndexError <-> b < -11 \/ 10 < b).
Proof.
  assert (b < -11 \/ 10 < b \/
          ((b = -11 \/ b = -10 \/ b = -9 \/ b = -8 \/ b = -7 \/ b = -6 \/
            b = -5 \/ b = -4 \/ b = -3 \/ b = -2 \/ b = -1) \/
           (b = 0 \/ b = 1 \/ b = 2 \/ b = 3 \/ b = 4 \/ b = 5 \/ b = 6 \/
            b = 7 \/ b = 8 \/ b = 9 \/ b = 10))) as Hb by lia.
  assert (b < -11 \/ 10 < b -> Instruction_getitem b = Raise IndexError)
    as Hout.
  { clear Hb. intros H. unfold Instruction_getitem, py_get. cbn [length].
    change (Z.of_nat 11) with 11.
    assert (py_index 11 b = None) as ->; [|reflexivity].
    unfold py_index.
    destruct ((0 <=? b) && (b <? 11)) eqn:E1; [exfalso; lia|].
    destruct ((- (11) <=? b) && (b <? 0)) eqn:E2; [exfalso; lia|].
    reflexivity. }
  split.
  - intros i. split.
    + intros H. destruct Hb as [Hb | [Hb | Hb]];
        [rewrite Hout in H by auto; discriminate ..|].
      destruct_or?; subst b; vm_compute in H; injection H as <-;
        vm_compute; auto.
    + intros [<- | H].
      * apply getitem_value.
      * replace b with (Instruction_value i - 11) by lia. by destruct i.
  - split; [|exact Hout].
    intros H. destruct Hb as [Hb | [Hb | Hb]]; [auto ..|].
    destruct_or?; subst b; vm_compute in H; discriminate.
Qed.

Lemma step_binop code s (i : Instruction) (op : Z -> Z -> Z) a b :
  (i = IADD /\ op = Z.add) \/ (i = ISUB /\ op = Z.sub) ->
  py_get code (pc s) = Ok (Instruction_value i) ->
  py_get (stack s) (sp s - 2) = Ok a ->
  py_get (stack s) (sp s - 1) = Ok b ->
  step code s =
    match set_i (stack s) (sp s - 2) (op a b) with
    | Ok st => Ok (false, {| stack := st; sp := sp s - 1; pc := pc s + 1;
                             _globals := _globals s |})
    | Raise e => Raise e
    | Fuel => Fuel
    end.
Proof.
  intros Hi H0 Ha Hb.
  unfold step, bind, rd_code, lift. rewrite H0, getitem_value.
  destruct Hi as [[-> ->] | [-> ->]]; cbn;
    unfold binop, bind, add_sp, rd_stack, set_stack, modify, gets, lift, ret;
    cbn; rewrite Ha; cbn; rewrite Hb; cbn;
    destruct (set_i _ _ _); reflexivity.
Qed.

(** X9 ([run] lines 435-440): [IADD] and [ISUB] replace the two values on
    top of the stack by their sum or difference when it is a 32-bit signed
    integer, and raise [OverflowError] when it is not: the machine does not
    wrap around. *)
Theorem arithmetic_is_checked code (s : vm) (i : Instruction) (a b : Z) :
  i = IADD \/ i = ISUB ->
  py_get code (pc s) = Ok (Instruction_value i) ->
  2 <= sp s <= zlen (stack s) ->
  py_get (stack s) (sp s - 2) = Ok a ->
  py_get (stack s) (sp s - 1) = Ok b ->
  step code s =
    let r := match i with IADD => a + b | _ => a - b end in
    if is_int r then
      Ok (false, {| stack := <[Z.to_nat (sp s - 2) := r]> (stack s);
                    sp := sp s - 1; pc := pc s + 1; _globals := _globals s |})
    else Raise OverflowError.
Proof.
  intros Hi H0 Hsp Ha Hb.
  rewrite (step_binop code s i (match i with IADD => Z.add | _ => Z.sub end)
             a b); [|destruct Hi as [-> | ->]; auto|assumption ..].
  cbv zeta. unfold set_i, py_set, is_int.
  rewrite py_index_in_range by (unfold zlen in Hsp; lia).
  destruct Hi as [-> | ->]; by destruct (_ && _).
Qed.

Lemma arithmetic_is_checked_witness :
  step [4] {| stack := [2147483647; 1]; sp := 2; pc := 0; _globals := [] |} =
    Raise OverflowError.
Proof.
  apply (arithmetic_is_checked [4]
           {| stack := [2147483647; 1]; sp := 2; pc := 0; _globals := [] |}
           IADD 2147483647 1).
  - by left.
  - reflexivity.
  - vm_compute. split; congruence.
  - reflexivity.
  - reflexivity.
Defined.

(** *** The range of the globals *)

Section Range.
Variable I : list Z -> Prop.
Hypothesis I_insert :
  forall g (k : nat) v, I g -> is_int v = true -> I (<[k:=v]> g).

Lemma range_bind {A B} (m : V A) (k : A -> V B) :
  keeps_globals I m -> (forall a, keeps_globals I (k a)) ->
  keeps_globals I (bind m k).
Proof.
  intros Hm Hk s b s2 H Hs. apply bind_ok in H as (a & s1 & H1 & H2).
  exact (Hk a _ _ _ H2 (Hm _ _ _ H1 Hs)).
Qed.

Lemma range_ret {A} (a : A) : keeps_globals I (ret a).
Proof. intros s b s1 H. by injection H as _ <-. Qed.

Lemma range_gets {A} (f : vm -> A) : keeps_globals I (gets f).
Proof. intros s b s1 H. by injection H as _ <-. Qed.

Lemma range_lift {A} (r : vm -> res A) : keeps_globals I (fun s => lift (r s) s).
Proof. intros s b s1 H. by apply lift_ok in H as [_ ->]. Qed.

Lemma range_add_sp d : keeps_globals I (add_sp d).
Proof. intros s b s1 H. by injection H as _ <-. Qed.

Lemma range_add_pc d : keeps_globals I (add_pc d).
Proof. intros s b s1 H. by injection H as _ <-. Qed.

Lemma range_set_stack i v : keeps_globals I (set_stack i v).
Proof.
  intros s b s1 H. unfold set_stack in H.
  destruct (set_i _ _ _); try discriminate. by injection H as _ <-.
Qed.

Lemma range_set_global i v : keeps_globals I (set_global i v).
Proof.
  intros s b s1 H Hs. unfold set_global, set_i, py_set in H.
  destruct (py_index _ _); try discriminate.
  destruct (_ && _) eqn:E; try discriminate.
  injection H as _ <-. cbn [_globals]. by apply I_insert.
Qed.

Ltac ranges :=
  repeat first
    [ apply range_ret | apply range_gets | apply range_add_sp
    | apply range_add_pc | apply range_set_stack | apply range_set_global
    | apply (range_lift (fun s => py_get _ _))
    | apply range_bind; [|intros ?]
    | match goal with
      | |- keeps_globals _ (if ?b then _ else _) => destruct b
      end ].

Lemma step_range code : keeps_globals I (step code).
Proof.
  unfold step, rd_code. apply range_bind; [ranges|]. intros b.
  apply range_bind; [apply (range_lift (fun _ => Instruction_getitem b))|].
  intros i. apply range_bind; [ranges|]. intros _.
  destruct i; unfold binop, branch, rd_stack, rd_global, rd_code; ranges.
Qed.

Lemma run_loop_range code n : keeps_globals I (run_loop code n).
Proof.
  induction n as [|n IH]; [intros s b s1 H; discriminate|].
  cbn [run_loop]. apply range_bind; [apply step_range|].
  intros h. destruct h; [apply range_ret|exact IH].
Qed.
End Range.

(** X10 ([run] lines 414-459, [_globals] line 412): a run that reaches
    [HALT] leaves as many globals as it found, and each of them a 32-bit
    signed integer if they all were: the machine stores no value outside
    that range. *)
Theorem globals_stay_in_range (n : nat) (code globals globals' : list Z) :
  run n code globals = Ok globals' ->
  Forall (fun v => is_int v = true) globals ->
  length globals' = length globals /\
  Forall (fun v => is_int v = true) globals'.
Proof.
  unfold run. intros H Hg.
  destruct (run_loop code n (vm_init globals)) as [[u s']| |] eqn:E;
    try discriminate.
  injection H as <-. split.
  - exact (run_loop_keeps code n _ _ _ E).
  - refine (run_loop_range _ _ code n _ _ _ E Hg).
    intros g k v Hall Hv. by apply Forall_insert.
Qed.

Lemma globals_stay_in_range_witness :
  length (_globals demo_final) = length (replicate 26 0) /\
  Forall (fun v => is_int v = true) (_globals demo_final).
Proof.
  refine (globals_stay_in_range 4 demo_code (replicate 26 0)
            (_globals demo_final) _ _).
  - vm_compute. reflexivity.
  - cbn [replicate]. repeat constructor.
Defined.

(** *** Sums *)

Lemma term_ident r b ops :
  term r (after_word ID (String b "") (sum_text ops ++ [";"%char])) =
  Ok (VAR (var_of b), at_op ops (String b "")).
Proof. destruct ops as [|[[] b'] ops']; reflexivity. Qed.

Lemma sum_text_ends ops : ends_word (sum_text ops ++ [";"%char]).
Proof. destruct ops as [|[[] b'] ops']; reflexivity. Qed.

Lemma sum_loop_ops r ops : forall x nm k,
  Forall (fun o : bool * ascii => is_lower o.2 = true) ops ->
  (length ops < k)%nat ->
  exists nm', sum_loop r k x (at_op ops nm) = Ok (sum_tree x ops, at_op [] nm').
Proof.
  induction ops as [|[p b] ops IH]; intros x nm k Hall Hk;
    (destruct k as [|k]; [simpl in Hk; lia|]).
  - exists nm. reflexivity.
  - inversion Hall as [|? ? Hb Hops]; subst. cbn [fst snd] in Hb.
    destruct (IH (if p then ADD x (VAR (var_of b)) else SUB x (VAR (var_of b)))
                (String b "") k Hops ltac:(simpl in Hk; lia)) as [nm' Hrec].
    exists nm'. cbn [sum_tree fold_left fst snd]. fold (sum_tree
      (if p then ADD x (VAR (var_of b)) else SUB x (VAR (var_of b))) ops).
    rewrite <- Hrec.
    transitivity
      (bind next_sym
         (fun _ => bind (term r)
            (fun y => sum_loop r k (if p then ADD x y else SUB x y)))
         (at_op ((p, b) :: ops) nm)); [by destruct p|].
    unfold at_op at 1. cbn [fst snd].
    rewrite (bind_run _ _ _ _ _
               (next_sym_ident b (sum_text ops ++ [";"%char]) _ 0 nm Hb
                  (sum_text_ends ops))).
    fold (after_word ID (String b "") (sum_text ops ++ [";"%char])).
    by rewrite (bind_run _ _ _ _ _ (term_ident r b ops)).
Qed.

(** X11 ([_sum] lines 218-226, with [term], [test], [expr], [statement],
    [program]): [+] and [-] associate to the left.  The statement
    [a o1 b1 o2 b2 ... on bn;], whose operands are variables and whose
    operators are [+] or [-], parses to the tree that applies the operators
    one after the other from the left: [((a o1 b1) o2 b2) ... on bn]. *)
Theorem sums_associate_left (a : ascii) (ops : list (bool * ascii)) :
  is_lower a = true ->
  Forall (fun o : bool * ascii => is_lower o.2 = true) ops ->
  program (a :: sum_text ops ++ [";"%char]) =
    Ok (PROG (EXPR (sum_tree (VAR (var_of a)) ops))).
Proof.
  intros Ha Hops. unfold program, program_body. unfold bind at 1.
  rewrite next_sym_init by (by apply lower_not_blank).
  rewrite (next_sym_ident a (sum_text ops ++ [";"%char]) _ _ _ Ha
             (sum_text_ends ops)).
  fold (after_word ID (String a "") (sum_text ops ++ [";"%char])).
  unfold fuel_for. cbn [length]. rewrite length_app.
  set (k := (length (sum_text ops) + length [";"%char])%nat).
  assert (length ops < S (S (S k)))%nat as Hk.
  { subst k. clear. unfold sum_text.
    induction ops as [|o ops IH]; simpl in *; lia. }
  destruct (sum_loop_ops (expr (S (S k))) ops (VAR (var_of a)) (String a "")
              (S (S (S k))) Hops Hk) as [nm' Hloop].
  set (L := after_word ID (String a "") (sum_text ops ++ [";"%char])) in *.
  assert (_sum (expr (S (S k))) (S (S (S k))) L =
          Ok (sum_tree (VAR (var_of a)) ops, at_op [] nm')) as Hsum.
  { unfold _sum. subst L. by rewrite (bind_run _ _ _ _ _ (term_ident _ a ops)). }
  assert (expr (S (S (S k))) L =
          Ok (sum_tree (VAR (var_of a)) ops, at_op [] nm')) as Hexpr.
  { assert (test (expr (S (S k))) (S (S (S k))) L =
            Ok (sum_tree (VAR (var_of a)) ops, at_op [] nm')) as Htest.
    { unfold test. by rewrite (bind_run _ _ _ _ _ Hsum). }
    change (expr (S (S (S k))))
      with (expr_body (expr (S (S k))) (S (S (S k)))).
    unfold expr_body.
    rewrite (bind_run (sym_is ID) _ L true L eq_refl). cbn [negb].
    rewrite (bind_run _ _ _ _ _ Htest).
    rewrite (bind_run (sym_is EQUAL) _ (at_op [] nm') false _ eq_refl).
    by rewrite andb_false_r. }
  assert (statement (S (S (S k))) L =
          Ok (EXPR (sum_tree (VAR (var_of a)) ops),
              set_sym EOI (at_op [] nm'))) as Hstmt.
  { change (statement (S (S (S k))))
      with (statement_body (statement (S (S k))) (S (S (S k)))).
    unfold statement_body.
    rewrite (bind_run (gets sym) _ L (Symbol_value ID) L eq_refl).
    change (Symbol_value ID =? Symbol_value IF_SYM) with false.
    change (Symbol_value ID =? Symbol_value WHILE_SYM) with false.
    change (Symbol_value ID =? Symbol_value DO_SYM) with false.
    change (Symbol_value ID =? Symbol_value SEMI) with false.
    change (Symbol_value ID =? Symbol_value LBRA) with false.
    cbn iota. by rewrite (bind_run _ _ _ _ _ Hexpr). }
  by rewrite (bind_run _ _ _ _ _ Hstmt).
Qed.

Lemma sums_associate_left_witness :
  program (chars "a-b+c-d;") =
    Ok (PROG (EXPR (SUB (ADD (SUB (VAR 0) (VAR 1)) (VAR 2)) (VAR 3)))).
Proof.
  apply (sums_associate_left "a"
           [(false, "b"%char); (true, "c"%char); (false, "d"%char)]).
  - reflexivity.
  - repeat constructor.
Defined.

(** *** Further properties of the parser and of the code generator *)

(** X12 (lexer globals lines 78-81, the parser lines 192-306): [sym] and
    [int_val] are declared without a value and [id_name] starts empty; the
    parser's result is the same whatever these three hold when [program] is
    entered: none of them is read before [next_sym] has assigned it. *)
Theorem parser_reads_no_stale_global (n : nat) (input : list ascii)
    (s iv : Z) (nm : string) :
  match program_body n {| ch := Some " "%char; stdin := input; sym := s;
                          int_val := iv; id_name := nm |},
        program_body n (lexer_init input) with
  | Ok (x1, _), Ok (x2, _) => x1 = x2
  | Raise e1, Raise e2 => e1 = e2
  | Fuel, Fuel => True
  | _, _ => False
  end.
Proof.
  pose proof (program_stale n input s iv nm) as H. unfold same_res in H.
  destruct (program_body n _) as [[x1 L1]| |],
    (program_body n (lexer_init input)) as [[x2 L2]| |];
    try exact H. by destruct H.
Qed.

(** X13 ([c], [g], [hole], [fix], lines 325-406): the code generator
    writes only where it emits.  When [c] succeeds from a cursor that is not
    negative, the cursor has advanced by the length of the listing, the
    buffer has kept its length, and every byte below the old cursor or from
    the new cursor on is as it was. *)
Theorem code_generator_frame (x : Node) (st st' : codegen) :
  c x st = Ok (tt, st') -> 0 <= here st ->
  here st' = here st + zlen (code_of x) /\
  length (_object st') = length (_object st) /\
  forall i : nat, Z.of_nat i < here st \/ here st' <= Z.of_nat i ->
    _object st' !! i = _object st !! i.
Proof.
  intros H Hh.
  pose proof (c_listing _ _ _ _ H Hh) as (_ & _ & Hbelow).
  apply c_extent in H as (E & Ln & Hfrom & _); [|exact Hh].
  split; [exact E|]. split; [exact Ln|].
  intros i [Hi | Hi]; [by apply Hbelow | by apply Hfrom].
Qed.

Lemma code_generator_frame_witness :
  here {| _object := [9; 2; 7; 9; 9]; here := 3 |} =
    1 + zlen (code_of (CST 7)) /\
  length [9; 2; 7; 9; 9] = length [9; 9; 9; 9; 9] /\
  forall i : nat, Z.of_nat i < 1 \/ 3 <= Z.of_nat i ->
    [9; 2; 7; 9; 9] !! i = [9; 9; 9; 9; 9] !! i.
Proof.
  apply (code_generator_frame (CST 7)
           {| _object := [9; 9; 9; 9; 9]; here := 1 |}
           {| _object := [9; 2; 7; 9; 9]; here := 3 |}).
  - reflexivity.
  - simpl; lia.
Defined.

(** *** The characters of accepted programs *)

Lemma reaches_trans L1 L2 L3 : reaches L1 L2 -> reaches L2 L3 -> reaches L1 L3.
Proof.
  induction 1 as [|L L1 L2 H _ IH]; [auto|].
  intros H3. eapply reaches_step; [exact H|auto].
Qed.

Lemma reaches_next L (u : unit) L' : next_sym L = Ok (u, L') -> reaches L L'.
Proof. destruct u. intros H. eapply reaches_step; [exact H|constructor]. Qed.

Ltac chain_up :=
  repeat match goal with
         | |- reaches ?L ?L => apply reaches_refl
         | H : next_sym ?L = Ok (_, ?L1) |- reaches ?L _ =>
             apply (reaches_trans L L1); [exact (reaches_next _ _ _ H)|]
         | H : reaches ?L ?L1 |- reaches ?L _ =>
             apply (reaches_trans L L1); [exact H|]
         end.

Ltac use_advances :=
  repeat match goal with
         | R : advances ?m, H : ?m ?L = Ok (?x, ?L') |- _ =>
             apply R in H
         end.

Lemma term_advances rec : advances rec -> advances (term rec).
Proof.
  intros Hrec L x L' H. unfold term, paren_expr in H. pinv H;
    use_advances; chain_up.
Qed.

Lemma sum_loop_advances rec n :
  advances rec -> forall x, advances (sum_loop rec n x).
Proof.
  intros Hrec. pose proof (term_advances rec Hrec) as Hterm.
  induction n as [|n IH]; intros x L x' L' H; [discriminate|].
  cbn [sum_loop] in H. pinv H; [|chain_up].
  match goal with
  | H : sum_loop rec n _ _ = Ok _ |- _ => apply IH in H
  end.
  use_advances. chain_up.
Qed.

Lemma sum_advances rec n : advances rec -> advances (_sum rec n).
Proof.
  intros Hrec L x L' H. unfold _sum in H. pinv H.
  pose proof (term_advances rec Hrec) as Hterm.
  pose proof (sum_loop_advances rec n Hrec a) as Hloop.
  use_advances. chain_up.
Qed.

Lemma test_advances rec n : advances rec -> advances (test rec n).
Proof.
  intros Hrec L x L' H. unfold test in H.
  pose proof (sum_advances rec n Hrec) as Hsum.
  pinv H; use_advances; chain_up.
Qed.

Lemma expr_body_advances rec n : advances rec -> advances (expr_body rec n).
Proof.
  intros Hrec L x L' H. unfold expr_body in H.
  pose proof (test_advances rec n Hrec) as Htest.
  pinv H; use_advances; chain_up.
Qed.

Lemma expr_advances n : advances (expr n).
Proof.
  induction n as [|n IH]; [intros L x L' H; discriminate|].
  cbn [expr]. by apply expr_body_advances.
Qed.

Lemma paren_expr_advances n : advances (paren_expr (expr n)).
Proof.
  intros L x L' H. unfold paren_expr in H. pinv H.
  pose proof (expr_advances n) as Hrec. use_advances. chain_up.
Qed.

Lemma block_loop_advances rec k :
  advances rec -> forall x, advances (block_loop rec k x).
Proof.
  intros Hrec.
  induction k as [|k IH]; intros x L x' L' H; [discriminate|].
  cbn [block_loop] in H. pinv H; [chain_up|].
  match goal with
  | H : block_loop rec k _ _ = Ok _ |- _ => apply IH in H
  end.
  use_advances. chain_up.
Qed.

Lemma statement_body_advances rec n :
  advances rec -> advances (statement_body rec n).
Proof.
  intros Hrec L x L' H. unfold statement_body in H.
  pose proof (paren_expr_advances n) as Hparen.
  pose proof (expr_advances n) as Hexpr.
  pose proof (block_loop_advances rec n Hrec EMPTY) as Hblock.
  pinv H; use_advances; chain_up.
Qed.

Lemma statement_advances n : advances (statement n).
Proof.
  induction n as [|n IH]; [intros L x L' H; discriminate|].
  cbn [statement]. by apply statement_body_advances.
Qed.


Lemma scan_split {A} (p : ascii -> bool) (f : A -> ascii -> A) inp :
  forall c acc, (c = None -> inp = []) ->
  exists eaten,
    pending c inp =
      eaten ++ pending (scan p f inp c acc).1.2 (scan p f inp c acc).2 /\
    Forall (fun a => p a = true) eaten /\
    (scan p f inp c acc).1.1 = fold_left f eaten acc /\
    ((scan p f inp c acc).1.2 = None -> (scan p f inp c acc).2 = []).
Proof.
  induction inp as [|b inp IH]; intros [a|] acc Hnone.
  - cbn [scan]. destruct (p a) eqn:Ha.
    + exists [a]. repeat split; auto.
    + exists []. repeat split; auto.
  - exists []. repeat split; auto.
  - cbn [scan]. destruct (p a) eqn:Ha.
    + destruct (IH (Some b) (f acc a) ltac:(discriminate))
        as (eaten & E & Hall & Hacc & Hn).
      exists (a :: eaten). cbn [pending app] in *. rewrite <- E.
      repeat split; auto.
    + exists []. repeat split; auto.
  - specialize (Hnone eq_refl). discriminate.
Qed.













(** *** From a text to its tokens *)

Lemma same_tok_refl L : same_tok L L.
Proof. by repeat split. Qed.

Lemma same_tok_trans L1 L2 L3 : same_tok L1 L2 -> same_tok L2 L3 -> same_tok L1 L3.
Proof.
  intros (Hc & Hi & Hs & Hid & Hint) (Hc' & Hi' & Hs' & Hid' & Hint').
  repeat split; try congruence.
  - intros H. rewrite (Hid H). apply Hid'. congruence.
  - intros H. rewrite (Hint H). apply Hint'. congruence.
Qed.

Lemma same_tok_sym L1 L2 : same_tok L1 L2 -> same_tok L2 L1.
Proof.
  intros (Hc & Hi & Hs & Hid & Hint). repeat split; try congruence.
  - intros H. symmetry. apply Hid. congruence.
  - intros H. symmetry. apply Hint. congruence.
Qed.

Lemma same_res_ok {A} (r1 r2 : res (A * lexer)) a L :
  same_res r1 r2 -> same_res r2 (Ok (a, L)) ->
  exists L', r1 = Ok (a, L') /\ same_tok L' L.
Proof.
  destruct r1 as [[a1 L1]| |], r2 as [[a2 L2]| |]; try contradiction.
  intros [-> H1] [-> H2]. exists L1. split; [reflexivity|].
  by apply (same_tok_trans _ L2).
Qed.

Lemma at_text_same text L L' : at_text text L -> same_tok L L' -> at_text text L'.
Proof.
  intros (L1 & H & Hs) Hs'. exists L1. split; [exact H|].
  by apply (same_tok_trans _ L).
Qed.

(** Reading on from where a token ended is reading the rest afresh. *)
Lemma next_sym_resume rest s iv nm :
  same_res
    (next_sym {| ch := (read1 rest).1; stdin := (read1 rest).2; sym := s;
                 int_val := iv; id_name := nm |})
    (next_sym (lexer_init rest)).
Proof.
  destruct rest as [|a r]; cbn [read1 fst snd].
  - repeat split; cbn; try reflexivity; intros H; vm_compute in H;
      discriminate.
  - assert (next_sym (lexer_init (a :: r)) =
            next_sym {| ch := Some a; stdin := r; sym := 0; int_val := 0;
                        id_name := ""%string |}) as ->.
    { unfold next_sym. cbn [lexer_init ch stdin sym int_val id_name scan].
      change (is_blank " ") with true. cbn iota.
      by destruct r. }
    by apply next_sym_reads.
Qed.

(** One token of [text] read: the token in [sym] is the one [L0] has, and
    [next_sym] goes on to the first token of the rest. *)
Lemma tok_step tok rest L0 L :
  next_sym (lexer_init (tok ++ rest)) = Ok (tt, L0) ->
  ch L0 = (read1 rest).1 -> stdin L0 = (read1 rest).2 ->
  at_text (tok ++ rest) L -> lexes rest ->
  same_tok L0 L /\
  exists L', next_sym L = Ok (tt, L') /\ at_text rest L'.
Proof.
  intros H0 Hc Hi (L1 & H1 & Hs) (Lr & Hr).
  rewrite H0 in H1. injection H1 as <-. split; [exact Hs|].
  destruct Hs as (Hc' & Hi' & _).
  pose proof (next_sym_reads L
                {| ch := (read1 rest).1; stdin := (read1 rest).2; sym := 0;
                   int_val := 0; id_name := ""%string |}
                ltac:(cbn [ch]; congruence) ltac:(cbn [stdin]; congruence))
    as Hsame.
  pose proof (next_sym_resume rest 0 0 ""%string) as Hres.
  rewrite Hr in Hres.
  destruct (next_sym L) as [[[] L']| |],
    (next_sym {| ch := (read1 rest).1; stdin := (read1 rest).2; sym := 0;
                 int_val := 0; id_name := ""%string |}) as [[[] L2]| |];
    try contradiction.
  exists L'. split; [reflexivity|]. exists Lr. split; [exact Hr|].
  destruct Hsame as [_ Hsame], Hres as [_ Hres].
  apply same_tok_sym. by apply (same_tok_trans _ L2).
Qed.

Lemma punct_token c s rest :
  In (c, s) puncts ->
  next_sym (lexer_init (c :: rest)) =
    Ok (tt, {| ch := (read1 rest).1; stdin := (read1 rest).2;
               sym := Symbol_value s; int_val := 0; id_name := ""%string |}).
Proof.
  unfold puncts. cbn [In]. intros H.
  repeat (destruct H as [[= <- <-] | H]; [by destruct rest|]).
  contradiction.
Qed.

Lemma keyword_token kw s rest :
  In (kw, s) keywords -> ends_word rest ->
  next_sym (lexer_init (chars kw ++ rest)) =
    Ok (tt, {| ch := (read1 rest).1; stdin := (read1 rest).2;
               sym := Symbol_value s; int_val := 0; id_name := kw |}).
Proof.
  unfold keywords. cbn [In]. intros H Hrest.
  destruct H as [[= <- <-] | [[= <- <-] | [[= <- <-] | [[= <- <-] | []]]]];
    cbn [chars list_ascii_of_string app]; rewrite next_sym_init by reflexivity.
  - match goal with
    | |- next_sym ?L = _ =>
        exact (next_sym_word "d" "o" rest L eq_refl ltac:(repeat constructor)
                 Hrest eq_refl eq_refl)
    end.
  - match goal with
    | |- next_sym ?L = _ =>
        exact (next_sym_word "e" "lse" rest L eq_refl ltac:(repeat constructor)
                 Hrest eq_refl eq_refl)
    end.
  - match goal with
    | |- next_sym ?L = _ =>
        exact (next_sym_word "i" "f" rest L eq_refl ltac:(repeat constructor)
                 Hrest eq_refl eq_refl)
    end.
  - match goal with
    | |- next_sym ?L = _ =>
        exact (next_sym_word "w" "hile" rest L eq_refl ltac:(repeat constructor)
                 Hrest eq_refl eq_refl)
    end.
Qed.

Lemma ident_token a rest :
  is_lower a = true -> ends_word rest ->
  next_sym (lexer_init (a :: rest)) =
    Ok (tt, {| ch := (read1 rest).1; stdin := (read1 rest).2;
               sym := Symbol_value ID; int_val := 0;
               id_name := String a "" |}).
Proof.
  intros Ha Hrest. rewrite next_sym_init by (by apply lower_not_blank).
  by apply next_sym_ident.
Qed.

Ltac stepped H0 Hat Hlex :=
  let Hs := fresh "Hs" in
  let Hn := fresh "Hn" in
  destruct (tok_step _ _ _ _ H0 eq_refl eq_refl Hat Hlex) as [Hs Hn];
  destruct Hs as (_ & _ & Hs & Hid & Hint); cbn [sym id_name int_val] in *.

Lemma at_punct c s rest L :
  In (c, s) puncts -> at_text (c :: rest) L -> lexes rest ->
  sym L = Symbol_value s /\
  exists L', next_sym L = Ok (tt, L') /\ at_text rest L'.
Proof.
  intros Hin Hat Hlex. pose proof (punct_token c s rest Hin) as H0.
  change (c :: rest) with ([c] ++ rest) in *. stepped H0 Hat Hlex. auto.
Qed.

Lemma at_keyword kw s rest L :
  In (kw, s) keywords -> ends_word rest ->
  at_text (chars kw ++ rest) L -> lexes rest ->
  sym L = Symbol_value s /\
  exists L', next_sym L = Ok (tt, L') /\ at_text rest L'.
Proof.
  intros Hin Hrest Hat Hlex. pose proof (keyword_token kw s rest Hin Hrest) as H0.
  stepped H0 Hat Hlex. auto.
Qed.

Lemma at_ident_text a rest L :
  is_lower a = true -> ends_word rest ->
  at_text (a :: rest) L -> lexes rest ->
  sym L = Symbol_value ID /\ id_name L = String a "" /\
  exists L', next_sym L = Ok (tt, L') /\ at_text rest L'.
Proof.
  intros Ha Hrest Hat Hlex. pose proof (ident_token a rest Ha Hrest) as H0.
  change (a :: rest) with ([a] ++ rest) in *. stepped H0 Hat Hlex.
  split; [auto|]. split; [symmetry; by apply Hid|auto].
Qed.

Lemma at_number n rest L :
  0 <= n -> ends_number rest ->
  at_text (chars (str n) ++ rest) L -> lexes rest ->
  sym L = Symbol_value INT /\ int_val L = n /\
  exists L', next_sym L = Ok (tt, L') /\ at_text rest L'.
Proof.
  intros Hn0 Hrest Hat Hlex. pose proof (next_sym_str n rest Hn0 Hrest) as H0.
  unfold after_number in H0. stepped H0 Hat Hlex.
  split; [auto|]. split; [symmetry; by apply Hint|auto].
Qed.

Lemma at_blank text L : at_text (" "%char :: text) L -> at_text text L.
Proof.
  intros (L1 & H & Hs). exists L1. split; [|exact Hs].
  rewrite <- H. symmetry.
  apply (next_sym_blanks [" "%char] text). by repeat constructor.
Qed.

(** *** The parser, run forward *)

Ltac sym_now H :=
  rewrite bind_sym_is, H;
  match goal with
  | |- context [Symbol_value ?a =? Symbol_value ?b] =>
      let v := eval vm_compute in (Symbol_value a =? Symbol_value b) in
      change (Symbol_value a =? Symbol_value b) with v
  end; cbn iota.

Lemma expect_run s L L1 :
  sym L = Symbol_value s -> next_sym L = Ok (tt, L1) ->
  expect s L = Ok (tt, L1).
Proof.
  intros Hs Hn. unfold expect. rewrite bind_sym_is, Hs, Z.eqb_refl. exact Hn.
Qed.

Lemma term_var rec L L1 a :
  sym L = Symbol_value ID -> id_name L = String a "" ->
  next_sym L = Ok (tt, L1) ->
  term rec L = Ok (VAR (ord a - ord "a"), L1).
Proof.
  intros Hs Hid Hn. unfold term. sym_now Hs.
  rewrite bind_gets, Hid. cbn [first_ord]. rewrite bind_lift_ok.
  by rewrite (bind_run _ _ _ _ _ Hn).
Qed.

Lemma term_cst rec L L1 :
  sym L = Symbol_value INT -> next_sym L = Ok (tt, L1) ->
  term rec L = Ok (CST (int_val L), L1).
Proof.
  intros Hs Hn. unfold term. sym_now Hs. sym_now Hs.
  rewrite bind_gets. by rewrite (bind_run _ _ _ _ _ Hn).
Qed.

Lemma paren_run rec L L1 L2 L3 x :
  sym L = Symbol_value LPAR -> next_sym L = Ok (tt, L1) ->
  rec L1 = Ok (x, L2) ->
  sym L2 = Symbol_value RPAR -> next_sym L2 = Ok (tt, L3) ->
  paren_expr rec L = Ok (x, L3).
Proof.
  intros Hs Hn Hr Hs2 Hn2. unfold paren_expr.
  rewrite (bind_run _ _ _ _ _ (expect_run LPAR L L1 Hs Hn)).
  rewrite (bind_run _ _ _ _ _ Hr).
  by rewrite (bind_run _ _ _ _ _ (expect_run RPAR L2 L3 Hs2 Hn2)).
Qed.

Lemma term_paren rec L L1 x :
  sym L = Symbol_value LPAR -> paren_expr rec L = Ok (x, L1) ->
  term rec L = Ok (x, L1).
Proof. intros Hs Hp. unfold term. sym_now Hs. sym_now Hs. exact Hp. Qed.

Lemma sum_exit rec k x L :
  sym L <> Symbol_value PLUS -> sym L <> Symbol_value MINUS ->
  sum_loop rec (S k) x L = Ok (x, L).
Proof.
  intros Hp Hm. cbn [sum_loop]. rewrite !bind_sym_is.
  apply Z.eqb_neq in Hp, Hm. by rewrite Hp, Hm.
Qed.

Lemma sum_turn rec k x L L1 L2 y (s : Symbol) :
  s = PLUS \/ s = MINUS ->
  sym L = Symbol_value s -> next_sym L = Ok (tt, L1) ->
  term rec L1 = Ok (y, L2) ->
  sum_loop rec (S k) x L =
  sum_loop rec k (match s with PLUS => ADD x y | _ => SUB x y end) L2.
Proof.
  intros Hs Hsym Hn Ht. cbn [sum_loop]. rewrite !bind_sym_is, Hsym.
  destruct Hs as [-> | ->];
    match goal with
    | |- context [Symbol_value ?a =? Symbol_value PLUS] =>
        let v := eval vm_compute in (Symbol_value a =? Symbol_value PLUS) in
        change (Symbol_value a =? Symbol_value PLUS) with v
    end;
    match goal with
    | |- context [Symbol_value ?a =? Symbol_value MINUS] =>
        let v := eval vm_compute in (Symbol_value a =? Symbol_value MINUS) in
        change (Symbol_value a =? Symbol_value MINUS) with v
    end; cbn [orb]; cbn iota;
    rewrite (bind_run _ _ _ _ _ Hn); by rewrite (bind_run _ _ _ _ _ Ht).
Qed.

Lemma test_plain rec k L L1 x :
  term rec L = Ok (x, L1) ->
  sym L1 <> Symbol_value PLUS -> sym L1 <> Symbol_value MINUS ->
  sym L1 <> Symbol_value LESS ->
  test rec (S k) L = Ok (x, L1).
Proof.
  intros Ht Hp Hm Hl. unfold test, _sum.
  rewrite (bind_run _ _ L x L1);
    [|by rewrite (bind_run _ _ _ _ _ Ht); apply sum_exit].
  rewrite bind_sym_is. apply Z.eqb_neq in Hl. by rewrite Hl.
Qed.

Lemma test_sum rec k L L1 L2 L3 a b (s : Symbol) :
  s = PLUS \/ s = MINUS ->
  term rec L = Ok (a, L1) ->
  sym L1 = Symbol_value s -> next_sym L1 = Ok (tt, L2) ->
  term rec L2 = Ok (b, L3) ->
  sym L3 <> Symbol_value PLUS -> sym L3 <> Symbol_value MINUS ->
  sym L3 <> Symbol_value LESS ->
  test rec (S (S k)) L =
    Ok (match s with PLUS => ADD a b | _ => SUB a b end, L3).
Proof.
  intros Hs Ha Hsym Hn Hb Hp Hm Hl. unfold test, _sum.
  rewrite (bind_run _ _ L (match s with PLUS => ADD a b | _ => SUB a b end) L3).
  2:{ rewrite (bind_run _ _ _ _ _ Ha).
      rewrite (sum_turn rec (S k) a L1 L2 L3 b s Hs Hsym Hn Hb).
      by apply sum_exit. }
  rewrite bind_sym_is. apply Z.eqb_neq in Hl. by rewrite Hl.
Qed.

Lemma test_less rec k L L1 L2 L3 a b :
  term rec L = Ok (a, L1) ->
  sym L1 = Symbol_value LESS -> next_sym L1 = Ok (tt, L2) ->
  term rec L2 = Ok (b, L3) ->
  sym L3 <> Symbol_value PLUS -> sym L3 <> Symbol_value MINUS ->
  test rec (S k) L = Ok (LT a b, L3).
Proof.
  intros Ha Hsym Hn Hb Hp Hm. unfold test, _sum.
  rewrite (bind_run _ _ L a L1).
  2:{ rewrite (bind_run _ _ _ _ _ Ha). apply sum_exit; rewrite Hsym;
        vm_compute; discriminate. }
  sym_now Hsym. rewrite (bind_run _ _ _ _ _ Hn).
  rewrite (bind_run _ _ L2 b L3);
    [reflexivity|by rewrite (bind_run _ _ _ _ _ Hb); apply sum_exit].
Qed.

Lemma expr_plain n L L1 x :
  test (expr n) (S n) L = Ok (x, L1) ->
  is_VAR x = false \/ sym L1 <> Symbol_value EQUAL ->
  expr (S n) L = Ok (x, L1).
Proof.
  intros Ht Hx. cbn [expr]. unfold expr_body. rewrite bind_sym_is.
  destruct (sym L =? Symbol_value ID); cbn [negb]; [|exact Ht].
  rewrite (bind_run _ _ _ _ _ Ht), bind_sym_is.
  destruct Hx as [-> | Hx]; [reflexivity|].
  apply Z.eqb_neq in Hx. rewrite Hx. by rewrite andb_false_r.
Qed.

Lemma expr_set n L L1 L2 L3 v e :
  sym L = Symbol_value ID ->
  test (expr n) (S n) L = Ok (VAR v, L1) ->
  sym L1 = Symbol_value EQUAL -> next_sym L1 = Ok (tt, L2) ->
  expr n L2 = Ok (e, L3) ->
  expr (S n) L = Ok (SET (VAR v) e, L3).
Proof.
  intros Hs Ht Hs1 Hn He. cbn [expr]. unfold expr_body. sym_now Hs.
  cbn [negb]. rewrite (bind_run _ _ _ _ _ Ht). sym_now Hs1. cbn [is_VAR andb].
  rewrite (bind_run _ _ _ _ _ Hn). by rewrite (bind_run _ _ _ _ _ He).
Qed.

(** *** Reading an expression back *)

Lemma letter_ord v : is_global v = true -> ord (letter v) = ord "a" + v.
Proof.
  intros Hv%is_global_range. unfold letter, ord.
  change (Z.of_N (N_of_ascii "a")) with 97.
  rewrite N_ascii_embedding by lia. lia.
Qed.

Lemma letter_lower v : is_global v = true -> is_lower (letter v) = true.
Proof.
  intros Hv. pose proof (letter_ord v Hv) as H.
  apply is_global_range in Hv. unfold is_lower. rewrite H.
  change (ord "a") with 97. change (ord "z") with 122. lia.
Qed.

Lemma at_sym text L0 L :
  next_sym (lexer_init text) = Ok (tt, L0) -> at_text text L ->
  sym L = sym L0.
Proof.
  intros H0 (L1 & H1 & Hs). rewrite H0 in H1. injection H1 as <-.
  by destruct Hs as (_ & _ & <- & _).
Qed.

Lemma lexes_punct c s rest : In (c, s) puncts -> lexes (c :: rest).
Proof. intros H. eexists. exact (punct_token c s rest H). Qed.

Lemma stops_punct c s rest : In (c, s) puncts -> stops (c :: rest).
Proof.
  unfold puncts. cbn [In]. intros H.
  repeat (destruct H as [[= <- <-] | H]; [by split|]). contradiction.
Qed.

Lemma sym_punct c s rest L :
  In (c, s) puncts -> at_text (c :: rest) L -> sym L = Symbol_value s.
Proof. intros H Hat. by rewrite (at_sym _ _ _ (punct_token c s rest H) Hat). Qed.

(** The first token of the text of an expression. *)
Lemma expr_first x rest :
  expr_ok x = true -> stops rest ->
  exists L0, next_sym (lexer_init (unparse_expr x ++ rest)) = Ok (tt, L0) /\
             sym L0 = Symbol_value (first_sym x).
Proof.
  intros Hx [Hw Hd].
  destruct x; try discriminate; cbn [unparse_expr app first_sym];
    try (eexists; split;
         [apply (punct_token "("%char LPAR); unfold puncts; cbn [In]; auto
         |reflexivity]).
  - eexists. split; [apply ident_token; [by apply letter_lower|exact Hw]|].
    reflexivity.
  - eexists. split; [apply next_sym_str; [cbn in Hx; lia|exact Hd]|].
    reflexivity.
Qed.

Lemma lexes_expr x rest : expr_ok x = true -> stops rest -> lexes (unparse_expr x ++ rest).
Proof. intros Hx Hr. destruct (expr_first x rest Hx Hr) as (L0 & H & _). by exists L0. Qed.

Lemma in_puncts c s :
  (c, s) = ("(", LPAR)%char \/ (c, s) = (")", RPAR)%char \/
  (c, s) = ("+", PLUS)%char \/ (c, s) = ("-", MINUS)%char \/
  (c, s) = ("<", LESS)%char \/ (c, s) = (";", SEMI)%char \/
  (c, s) = ("=", EQUAL)%char \/ (c, s) = ("{", LBRA)%char \/
  (c, s) = ("}", RBRA)%char ->
  In (c, s) puncts.
Proof. unfold puncts. cbn [In]. intros H. destruct_or?; simplify_eq; auto 10. Qed.

Ltac punct := apply in_puncts; auto 10.

Lemma closes_stops rest : closes rest -> stops rest.
Proof. intros (r & [-> | ->]); by split. Qed.

Lemma closes_sym rest L :
  closes rest -> at_text rest L ->
  sym L = Symbol_value RPAR \/ sym L = Symbol_value SEMI.
Proof.
  intros (r & [-> | ->]) Hat.
  - left. eapply sym_punct; [|exact Hat]. punct.
  - right. eapply sym_punct; [|exact Hat]. punct.
Qed.

Ltac other_sym H :=
  first [ rewrite H; vm_compute; discriminate
        | destruct H as [H | H]; rewrite H; vm_compute; discriminate ].

(** An expression that is read as a term is read as an expression, when
    [)] or [;] follows. *)
Lemma expr_of_term x n rest L :
  (exists L', term (expr n) L = Ok (x, L') /\ at_text rest L') ->
  closes rest ->
  exists L', expr (S n) L = Ok (x, L') /\ at_text rest L'.
Proof.
  intros (L' & Ht & Hat) Hc. exists L'. split; [|exact Hat].
  pose proof (closes_sym rest L' Hc Hat) as Hs.
  apply expr_plain; [|right; other_sym Hs].
  apply test_plain; [exact Ht|other_sym Hs..].
Qed.

Lemma binop_text a c b rest :
  ("("%char :: a ++ c :: b ++ [")"%char]) ++ rest =
  "("%char :: a ++ c :: b ++ ")"%char :: rest.
Proof. cbn [app]. by rewrite <- !app_assoc, <- app_comm_cons, <- app_assoc. Qed.

(** A binary operation in parentheses, read as a term. *)
Lemma binop_reads k a b c s x rest L :
  (forall rest L, stops rest -> lexes rest ->
     at_text (unparse_expr a ++ rest) L ->
     exists L', term (expr (S k)) L = Ok (a, L') /\ at_text rest L') ->
  (forall rest L, stops rest -> lexes rest ->
     at_text (unparse_expr b ++ rest) L ->
     exists L', term (expr (S k)) L = Ok (b, L') /\ at_text rest L') ->
  expr_ok a = true -> expr_ok b = true ->
  (c, s, x) = ("+"%char, PLUS, ADD a b) \/
  (c, s, x) = ("-"%char, MINUS, SUB a b) \/
  (c, s, x) = ("<"%char, LESS, LT a b) ->
  lexes rest ->
  at_text ("("%char :: unparse_expr a ++ c :: unparse_expr b ++ ")"%char :: rest) L ->
  exists L', term (expr (S (S k))) L = Ok (x, L') /\ at_text rest L'.
Proof.
  intros IHa IHb Ha Hb Hop Hlex Hat.
  assert (In (c, s) puncts) as Hin by (destruct_or?; simplify_eq; punct).
  destruct (at_punct "("%char LPAR _ L ltac:(punct) Hat)
    as (Hs & L1 & Hn & Hat1).
  { apply lexes_expr; [exact Ha|]. by apply (stops_punct c s). }
  destruct (IHa _ L1 (stops_punct c s _ Hin) (lexes_punct c s _ Hin) Hat1)
    as (L2 & Hta & Hat2).
  destruct (at_punct c s _ L2 Hin Hat2) as (Hs2 & L3 & Hn2 & Hat3).
  { apply lexes_expr; [exact Hb|]. apply (stops_punct ")"%char RPAR). punct. }
  destruct (IHb _ L3 (stops_punct ")"%char RPAR _ ltac:(punct))
              (lexes_punct ")"%char RPAR _ ltac:(punct)) Hat3)
    as (L4 & Htb & Hat4).
  destruct (at_punct ")"%char RPAR _ L4 ltac:(punct) Hat4 Hlex)
    as (Hs4 & L5 & Hn4 & Hat5).
  exists L5. split; [|exact Hat5].
  apply term_paren; [exact Hs|].
  apply (paren_run _ L L1 L4 L5 x Hs Hn); [|exact Hs4|exact Hn4].
  apply expr_plain; [|left; destruct_or?; by simplify_eq].
  destruct Hop as [Hop | [Hop | Hop]]; injection Hop as -> -> ->.
  - exact (test_sum _ k L1 L2 L3 L4 a b PLUS (or_introl eq_refl) Hta Hs2 Hn2
             Htb ltac:(other_sym Hs4) ltac:(other_sym Hs4)
             ltac:(other_sym Hs4)).
  - exact (test_sum _ k L1 L2 L3 L4 a b MINUS (or_intror eq_refl) Hta Hs2
             Hn2 Htb ltac:(other_sym Hs4) ltac:(other_sym Hs4)
             ltac:(other_sym Hs4)).
  - exact (test_less _ (S k) L1 L2 L3 L4 a b Hta Hs2 Hn2 Htb
             ltac:(other_sym Hs4) ltac:(other_sym Hs4)).
Qed.

(** A variable, read as a term. *)
Lemma var_reads n v rest L :
  is_global v = true -> ends_word rest -> lexes rest ->
  at_text (letter v :: rest) L ->
  exists L', term (expr n) L = Ok (VAR v, L') /\ at_text rest L'.
Proof.
  intros Hv Hw Hlex Hat.
  destruct (at_ident_text (letter v) rest L (letter_lower v Hv) Hw Hat Hlex)
    as (Hs & Hid & L1 & Hn & Hat1).
  exists L1. split; [|exact Hat1].
  rewrite (term_var _ L L1 (letter v) Hs Hid Hn).
  do 2 f_equal. rewrite (letter_ord v Hv). f_equal. lia.
Qed.

(** An assignment in parentheses, read as a term. *)
Lemma set_reads k v e rest L :
  (forall rest L, stops rest -> lexes rest ->
     at_text (unparse_expr e ++ rest) L ->
     exists L', term (expr k) L = Ok (e, L') /\ at_text rest L') ->
  is_global v = true -> expr_ok e = true -> lexes rest ->
  at_text ("("%char :: letter v :: "="%char :: unparse_expr e ++ ")"%char :: rest) L ->
  exists L', term (expr (S (S k))) L = Ok (SET (VAR v) e, L') /\
             at_text rest L'.
Proof.
  intros IHe Hv He Hlex Hat.
  destruct (at_punct "("%char LPAR _ L ltac:(punct) Hat)
    as (Hs & L1 & Hn & Hat1).
  { eexists. apply ident_token; [by apply letter_lower|].
    exact (eq_refl : ends_word ("="%char :: _)). }
  assert (ends_word ("="%char :: unparse_expr e ++ ")"%char :: rest)) as Hew
    by reflexivity.
  destruct (var_reads (S k) v _ L1 Hv Hew
              (lexes_punct "="%char EQUAL _ ltac:(punct)) Hat1)
    as (L2 & Htv & Hat2).
  pose proof (proj1 (at_ident_text (letter v) _ L1 (letter_lower v Hv) Hew
                       Hat1 (lexes_punct "="%char EQUAL _ ltac:(punct))))
    as Hs1.
  destruct (at_punct "="%char EQUAL _ L2 ltac:(punct) Hat2)
    as (Hs2 & L3 & Hn2 & Hat3).
  { apply lexes_expr; [exact He|]. apply (stops_punct ")"%char RPAR). punct. }
  destruct (expr_of_term e k (")"%char :: rest) L3) as (L4 & Hte & Hat4).
  { apply IHe; [|by apply (lexes_punct ")"%char RPAR); punct|exact Hat3].
    apply (stops_punct ")"%char RPAR). punct. }
  { eexists. by left. }
  destruct (at_punct ")"%char RPAR _ L4 ltac:(punct) Hat4 Hlex)
    as (Hs4 & L5 & Hn4 & Hat5).
  exists L5. split; [|exact Hat5].
  apply term_paren; [exact Hs|].
  apply (paren_run _ L L1 L4 L5 _ Hs Hn); [|exact Hs4|exact Hn4].
  apply (expr_set (S k) L1 L2 L3 L4 v e Hs1); [|exact Hs2|exact Hn2|exact Hte].
  apply test_plain; [exact Htv|other_sym Hs2..].
Qed.

Lemma term_reads x : forall n rest L,
  expr_ok x = true -> (height x < n)%nat ->
  stops rest -> lexes rest ->
  at_text (unparse_expr x ++ rest) L ->
  exists L', term (expr n) L = Ok (x, L') /\ at_text rest L'.
Proof.
  induction x; try discriminate; intros n rest L Hx Hh Hst Hlex Hat;
    cbn [expr_ok] in Hx; cbn [height] in Hh; cbn [unparse_expr] in Hat.
  - (* VAR *)
    apply var_reads; [exact Hx|apply Hst|exact Hlex|exact Hat].
  - (* CST *)
    destruct (at_number val rest L ltac:(lia) (proj2 Hst) Hat Hlex)
      as (Hs & Hv & L1 & Hn & Hat1).
    exists L1. split; [|exact Hat1].
    by rewrite (term_cst _ L L1 Hs Hn), Hv.
  - (* ADD *)
    apply andb_prop in Hx as [Hx1 Hx2]. rewrite binop_text in Hat.
    destruct n as [|[|k]]; [lia..|].
    eapply (binop_reads k x1 x2 "+"%char PLUS); eauto.
    + intros r L0 ? ? ?. apply IHx1; auto. lia.
    + intros r L0 ? ? ?. apply IHx2; auto. lia.
  - (* SUB *)
    apply andb_prop in Hx as [Hx1 Hx2]. rewrite binop_text in Hat.
    destruct n as [|[|k]]; [lia..|].
    eapply (binop_reads k x1 x2 "-"%char MINUS); eauto.
    + intros r L0 ? ? ?. apply IHx1; auto. lia.
    + intros r L0 ? ? ?. apply IHx2; auto. lia.
  - (* LT *)
    apply andb_prop in Hx as [Hx1 Hx2]. rewrite binop_text in Hat.
    destruct n as [|[|k]]; [lia..|].
    eapply (binop_reads k x1 x2 "<"%char LESS); eauto 6.
    + intros r L0 ? ? ?. apply IHx1; auto. lia.
    + intros r L0 ? ? ?. apply IHx2; auto. lia.
  - (* SET *)
    destruct x1; try discriminate.
    apply andb_prop in Hx as [Hx1 Hx2]. rewrite binop_text in Hat.
    cbn [unparse_expr app height] in *.
    destruct n as [|[|k]]; [lia..|].
    apply (set_reads k); auto.
    intros r L0 ? ? ?. apply IHx2; auto. lia.
Qed.

Lemma expr_reads x n rest L :
  expr_ok x = true -> (S (height x) < n)%nat ->
  closes rest -> lexes rest ->
  at_text (unparse_expr x ++ rest) L ->
  exists L', expr n L = Ok (x, L') /\ at_text rest L'.
Proof.
  intros Hx Hh Hc Hlex Hat. destruct n as [|n]; [lia|].
  apply expr_of_term; [|exact Hc].
  apply term_reads; auto; [lia|by apply closes_stops].
Qed.

(** *** Statements, run forward *)

Ltac syms H :=
  rewrite H;
  repeat match goal with
         | |- context [Symbol_value ?a =? Symbol_value ?b] =>
             let v := eval vm_compute in (Symbol_value a =? Symbol_value b) in
             change (Symbol_value a =? Symbol_value b) with v
         end; cbn iota.

Lemma stmt_empty n L L1 :
  sym L = Symbol_value SEMI -> next_sym L = Ok (tt, L1) ->
  statement (S n) L = Ok (EMPTY, L1).
Proof.
  intros Hs Hn. cbn [statement]. unfold statement_body.
  rewrite bind_gets. syms Hs. by rewrite (bind_run _ _ _ _ _ Hn).
Qed.

Lemma stmt_expr n L L1 L2 e (s : Symbol) :
  s = ID \/ s = INT \/ s = LPAR ->
  sym L = Symbol_value s ->
  expr (S n) L = Ok (e, L1) ->
  sym L1 = Symbol_value SEMI -> next_sym L1 = Ok (tt, L2) ->
  statement (S n) L = Ok (EXPR e, L2).
Proof.
  intros Hc Hs He Hs1 Hn. cbn [statement]. unfold statement_body.
  rewrite bind_gets.
  destruct Hc as [-> | [-> | ->]]; syms Hs;
    rewrite (bind_run _ _ _ _ _ He);
    by rewrite (bind_run _ _ _ _ _ (expect_run SEMI L1 L2 Hs1 Hn)).
Qed.

Lemma stmt_if1 n L L1 L2 L3 e a :
  sym L = Symbol_value IF_SYM -> next_sym L = Ok (tt, L1) ->
  paren_expr (expr (S n)) L1 = Ok (e, L2) ->
  statement n L2 = Ok (a, L3) ->
  sym L3 <> Symbol_value ELSE_SYM ->
  statement (S n) L = Ok (IF1 e a, L3).
Proof.
  intros Hs Hn He Ha Hs3. cbn [statement]. unfold statement_body.
  rewrite bind_gets. syms Hs. rewrite (bind_run _ _ _ _ _ Hn).
  rewrite (bind_run _ _ _ _ _ He). rewrite (bind_run _ _ _ _ _ Ha).
  rewrite bind_sym_is. apply Z.eqb_neq in Hs3. by rewrite Hs3.
Qed.

Lemma stmt_if2 n L L1 L2 L3 L4 L5 e a b :
  sym L = Symbol_value IF_SYM -> next_sym L = Ok (tt, L1) ->
  paren_expr (expr (S n)) L1 = Ok (e, L2) ->
  statement n L2 = Ok (a, L3) ->
  sym L3 = Symbol_value ELSE_SYM -> next_sym L3 = Ok (tt, L4) ->
  statement n L4 = Ok (b, L5) ->
  statement (S n) L = Ok (IF2 e a b, L5).
Proof.
  intros Hs Hn He Ha Hs3 Hn3 Hb. cbn [statement]. unfold statement_body.
  rewrite bind_gets. syms Hs. rewrite (bind_run _ _ _ _ _ Hn).
  rewrite (bind_run _ _ _ _ _ He). rewrite (bind_run _ _ _ _ _ Ha).
  rewrite bind_sym_is, Hs3, Z.eqb_refl. rewrite (bind_run _ _ _ _ _ Hn3).
  by rewrite (bind_run _ _ _ _ _ Hb).
Qed.

Lemma stmt_while n L L1 L2 L3 e a :
  sym L = Symbol_value WHILE_SYM -> next_sym L = Ok (tt, L1) ->
  paren_expr (expr (S n)) L1 = Ok (e, L2) ->
  statement n L2 = Ok (a, L3) ->
  statement (S n) L = Ok (WHILE e a, L3).
Proof.
  intros Hs Hn He Ha. cbn [statement]. unfold statement_body.
  rewrite bind_gets. syms Hs. rewrite (bind_run _ _ _ _ _ Hn).
  rewrite (bind_run _ _ _ _ _ He). by rewrite (bind_run _ _ _ _ _ Ha).
Qed.

Lemma stmt_do n L L1 L2 L3 L4 L5 a e :
  sym L = Symbol_value DO_SYM -> next_sym L = Ok (tt, L1) ->
  statement n L1 = Ok (a, L2) ->
  sym L2 = Symbol_value WHILE_SYM -> next_sym L2 = Ok (tt, L3) ->
  paren_expr (expr (S n)) L3 = Ok (e, L4) ->
  sym L4 = Symbol_value SEMI -> next_sym L4 = Ok (tt, L5) ->
  statement (S n) L = Ok (DO a e, L5).
Proof.
  intros Hs Hn Ha Hs2 Hn2 He Hs4 Hn4. cbn [statement]. unfold statement_body.
  rewrite bind_gets. syms Hs. rewrite (bind_run _ _ _ _ _ Hn).
  rewrite (bind_run _ _ _ _ _ Ha).
  rewrite (bind_run _ _ _ _ _ (expect_run WHILE_SYM L2 L3 Hs2 Hn2)).
  rewrite (bind_run _ _ _ _ _ He).
  by rewrite (bind_run _ _ _ _ _ (expect_run SEMI L4 L5 Hs4 Hn4)).
Qed.

Lemma stmt_block n L L1 L2 L3 x :
  sym L = Symbol_value LBRA -> next_sym L = Ok (tt, L1) ->
  block_loop (statement n) (S n) EMPTY L1 = Ok (x, L2) ->
  next_sym L2 = Ok (tt, L3) ->
  statement (S n) L = Ok (x, L3).
Proof.
  intros Hs Hn Hb Hn2. cbn [statement]. unfold statement_body.
  rewrite bind_gets. syms Hs. rewrite (bind_run _ _ _ _ _ Hn).
  rewrite (bind_run _ _ _ _ _ Hb). by rewrite (bind_run _ _ _ _ _ Hn2).
Qed.

Lemma block_exit rec k x L :
  sym L = Symbol_value RBRA -> block_loop rec (S k) x L = Ok (x, L).
Proof.
  intros Hs. cbn [block_loop]. by rewrite bind_sym_is, Hs, Z.eqb_refl.
Qed.

Lemma block_turn rec k x y L L1 :
  sym L <> Symbol_value RBRA -> rec L = Ok (y, L1) ->
  block_loop rec (S k) x L = block_loop rec k (SEQ x y) L1.
Proof.
  intros Hs Hr. cbn [block_loop]. rewrite bind_sym_is.
  apply Z.eqb_neq in Hs. rewrite Hs. by rewrite (bind_run _ _ _ _ _ Hr).
Qed.

(** *** Reading a statement back *)

Lemma in_keywords kw s :
  (kw, s) = ("do", DO_SYM)%string \/ (kw, s) = ("else", ELSE_SYM)%string \/
  (kw, s) = ("if", IF_SYM)%string \/ (kw, s) = ("while", WHILE_SYM)%string ->
  In (kw, s) keywords.
Proof. unfold keywords. cbn [In]. intros H. destruct_or?; simplify_eq; auto 10. Qed.

Ltac keyword := apply in_keywords; auto 10.

Ltac flat :=
  cbn [unparse unparse_block chars list_ascii_of_string app];
  repeat first [rewrite <- app_assoc | rewrite <- app_comm_cons];
  cbn [app].

Lemma if1_text e a rest :
  unparse (IF1 e a) ++ rest =
  chars "if" ++ "("%char :: unparse_expr e ++ ")"%char :: unparse a ++ rest.
Proof. by flat. Qed.

Lemma if2_text e a b rest :
  unparse (IF2 e a b) ++ rest =
  chars "if" ++ "("%char :: unparse_expr e ++ ")"%char :: unparse a ++
  chars "else" ++ " "%char :: unparse b ++ rest.
Proof. by flat. Qed.

Lemma while_text e a rest :
  unparse (WHILE e a) ++ rest =
  chars "while" ++ "("%char :: unparse_expr e ++ ")"%char :: unparse a ++ rest.
Proof. by flat. Qed.

Lemma do_text a e rest :
  unparse (DO a e) ++ rest =
  chars "do" ++ " "%char :: unparse a ++
  chars "while" ++ "("%char :: unparse_expr e ++ ")"%char :: ";"%char :: rest.
Proof. by flat. Qed.

Lemma seq_text a b rest :
  unparse (SEQ a b) ++ rest =
  "{"%char :: unparse_block (SEQ a b) ++ "}"%char :: rest.
Proof. by flat. Qed.

Lemma expr_text e rest :
  unparse (EXPR e) ++ rest = unparse_expr e ++ ";"%char :: rest.
Proof. by flat. Qed.

Lemma first_sym_expr e : expr_ok e = true -> first_sym (EXPR e) = first_sym e.
Proof. by destruct e. Qed.

(** The first token of the text of a statement. *)
Lemma stmt_first x rest :
  stmt_ok x = true ->
  exists L0, next_sym (lexer_init (unparse x ++ rest)) = Ok (tt, L0) /\
             sym L0 = Symbol_value (first_sym x).
Proof.
  intros Hx. destruct x; try discriminate; cbn [stmt_ok] in Hx.
  - rewrite if1_text. eexists.
    split; [by apply (keyword_token "if" IF_SYM); [keyword|]|reflexivity].
  - rewrite if2_text. eexists.
    split; [by apply (keyword_token "if" IF_SYM); [keyword|]|reflexivity].
  - rewrite while_text. eexists.
    split; [by apply (keyword_token "while" WHILE_SYM); [keyword|]|reflexivity].
  - rewrite do_text. eexists.
    split; [by apply (keyword_token "do" DO_SYM); [keyword|]|reflexivity].
  - eexists.
    split; [apply (punct_token ";"%char SEMI); punct|reflexivity].
  - rewrite seq_text. eexists.
    split; [apply (punct_token "{"%char LBRA); punct|reflexivity].
  - rewrite expr_text, first_sym_expr by exact Hx.
    apply expr_first; [exact Hx|]. apply (stops_punct ";"%char SEMI). punct.
Qed.

Lemma lexes_stmt x rest : stmt_ok x = true -> lexes (unparse x ++ rest).
Proof. intros Hx. destruct (stmt_first x rest Hx) as (L0 & H & _). by exists L0. Qed.

Lemma sym_stmt x rest L :
  stmt_ok x = true -> at_text (unparse x ++ rest) L ->
  sym L = Symbol_value (first_sym x).
Proof.
  intros Hx Hat. destruct (stmt_first x rest Hx) as (L0 & H & Hs).
  by rewrite (at_sym _ _ _ H Hat).
Qed.

Lemma first_sym_stmt x :
  stmt_ok x = true ->
  first_sym x <> ELSE_SYM /\ first_sym x <> RBRA.
Proof.
  intros Hx. destruct x; try discriminate; cbn [first_sym]; try by split.
  destruct x; by split.
Qed.

Lemma no_else_stmt x rest : stmt_ok x = true -> no_else (unparse x ++ rest).
Proof.
  intros Hx L Hat. rewrite (sym_stmt x rest L Hx Hat).
  destruct (first_sym_stmt x Hx) as [H _].
  destruct (first_sym x); try contradiction; vm_compute; discriminate.
Qed.

Lemma lexes_block x R :
  block_ok x = true -> lexes R -> lexes (unparse_block x ++ R).
Proof.
  revert R. induction x; try discriminate; intros R Hx HR; [exact HR|].
  cbn [block_ok] in Hx. apply andb_prop in Hx as [Hx1 Hx2].
  cbn [unparse_block]. rewrite <- app_assoc.
  apply IHx1; [exact Hx1|]. by apply lexes_stmt.
Qed.

Lemma lexes_blank text : lexes text -> lexes (" "%char :: text).
Proof.
  intros (L & H). exists L. rewrite <- H.
  apply (next_sym_blanks [" "%char] text). by repeat constructor.
Qed.

Lemma sym_keyword kw s rest L :
  In (kw, s) keywords -> ends_word rest ->
  at_text (chars kw ++ rest) L -> sym L = Symbol_value s.
Proof.
  intros Hin Hr Hat. by rewrite (at_sym _ _ _ (keyword_token kw s rest Hin Hr) Hat).
Qed.

Lemma paren_reads e n rest L :
  expr_ok e = true -> (S (height e) < n)%nat -> lexes rest ->
  at_text ("("%char :: unparse_expr e ++ ")"%char :: rest) L ->
  exists L', paren_expr (expr n) L = Ok (e, L') /\ at_text rest L'.
Proof.
  intros He Hh Hlex Hat.
  destruct (at_punct "("%char LPAR _ L ltac:(punct) Hat)
    as (Hs & L1 & Hn & Hat1).
  { apply lexes_expr; [exact He|]. apply (stops_punct ")"%char RPAR). punct. }
  destruct (expr_reads e n (")"%char :: rest) L1 He Hh) as (L2 & Hte & Hat2);
    [eexists; by left|apply (lexes_punct ")"%char RPAR); punct|exact Hat1|].
  destruct (at_punct ")"%char RPAR _ L2 ltac:(punct) Hat2 Hlex)
    as (Hs2 & L3 & Hn2 & Hat3).
  exists L3. split; [|exact Hat3].
  exact (paren_run _ L L1 L2 L3 e Hs Hn Hte Hs2 Hn2).
Qed.

Lemma ends_paren r : ends_word ("("%char :: r).
Proof. reflexivity. Qed.

Lemma ends_blank r : ends_word (" "%char :: r).
Proof. reflexivity. Qed.

Lemma spine_height x : (spine x <= height x)%nat.
Proof. induction x; cbn [spine height]; lia. Qed.

Lemma no_else_punct c s rest :
  In (c, s) puncts -> no_else (c :: rest).
Proof.
  intros Hin L Hat. rewrite (sym_punct c s rest L Hin Hat).
  revert Hin. unfold puncts. cbn [In]. intros H.
  repeat (destruct H as [[= <- <-] | H]; [vm_compute; discriminate|]).
  contradiction.
Qed.

(** One more statement of a block. *)
Lemma seq_block a b :
  (forall n k R L,
     block_ok a = true -> (height a <= n)%nat -> lexes R -> no_else R ->
     at_text (unparse_block a ++ R) L ->
     exists L', at_text R L' /\
       block_loop (statement n) (k + spine a) EMPTY L =
       block_loop (statement n) k a L') ->
  (forall n rest L,
     stmt_ok b = true -> (height b < n)%nat -> lexes rest ->
     (open_if b = true -> no_else rest) ->
     at_text (unparse b ++ rest) L ->
     exists L', statement n L = Ok (b, L') /\ at_text rest L') ->
  forall n k R L,
    block_ok (SEQ a b) = true -> (height (SEQ a b) <= n)%nat ->
    lexes R -> no_else R ->
    at_text (unparse_block (SEQ a b) ++ R) L ->
    exists L', at_text R L' /\
      block_loop (statement n) (k + spine (SEQ a b)) EMPTY L =
      block_loop (statement n) k (SEQ a b) L'.
Proof.
  intros IHa IHb n k R L Hx Hh Hlex Helse Hat.
  cbn [block_ok] in Hx. apply andb_prop in Hx as [Ha Hb].
  cbn [height] in Hh. cbn [unparse_block] in Hat. rewrite <- app_assoc in Hat.
  destruct (IHa n (S k) (unparse b ++ R) L Ha ltac:(lia) (lexes_stmt b R Hb)
              (no_else_stmt b R Hb) Hat) as (L1 & Hat1 & Hloop).
  destruct (IHb n R L1 Hb ltac:(lia) Hlex (fun _ => Helse) Hat1)
    as (L2 & Hsb & Hat2).
  exists L2. split; [exact Hat2|]. cbn [spine].
  replace (k + S (spine a))%nat with (S k + spine a)%nat by lia.
  rewrite Hloop. apply block_turn; [|exact Hsb].
  rewrite (sym_stmt b R L1 Hb Hat1).
  destruct (first_sym_stmt b Hb) as [_ H].
  destruct (first_sym b); try contradiction; vm_compute; discriminate.
Qed.

(** A statement is read back from its text, and a block from the texts of
    its statements: the loop of the block, entered with [EMPTY] at the first
    of them, arrives with the block built at what follows. *)
Lemma stmt_reads_both x :
  (forall n rest L,
     stmt_ok x = true -> (height x < n)%nat -> lexes rest ->
     (open_if x = true -> no_else rest) ->
     at_text (unparse x ++ rest) L ->
     exists L', statement n L = Ok (x, L') /\ at_text rest L') /\
  (forall n k R L,
     block_ok x = true -> (height x <= n)%nat -> lexes R -> no_else R ->
     at_text (unparse_block x ++ R) L ->
     exists L', at_text R L' /\
       block_loop (statement n) (k + spine x) EMPTY L =
       block_loop (statement n) k x L').
Proof.
  induction x as [| | | | | |e _ a [IHa _]|e _ a [IHa _] b [IHb _]
                 |e _ a [IHa _]|a [IHa _] e _| |a [_ IHa2] b [IHb _]|e _|];
    (split; [intros n rest L Hx Hh Hlex Helse Hat
            |intros n k R L Hx Hh Hlex Helse Hat]);
    try discriminate; cbn [stmt_ok block_ok] in Hx; cbn [height] in Hh;
    cbn [open_if] in Helse.
  - (* IF1 *)
    apply andb_prop in Hx as [He Ha]. rewrite if1_text in Hat.
    destruct n as [|n]; [lia|].
    destruct (at_keyword "if" IF_SYM _ L ltac:(keyword) (ends_paren _) Hat)
      as (Hs & L1 & Hn & Hat1); [apply (lexes_punct "("%char LPAR); punct|].
    destruct (paren_reads e (S n) _ L1 He ltac:(lia)
                (lexes_stmt a rest Ha) Hat1) as (L2 & Hp & Hat2).
    destruct (IHa n rest L2 Ha ltac:(lia) Hlex (fun _ => Helse eq_refl) Hat2)
      as (L3 & Hsa & Hat3).
    exists L3. split; [|exact Hat3].
    exact (stmt_if1 n L L1 L2 L3 e a Hs Hn Hp Hsa (Helse eq_refl L3 Hat3)).
  - (* IF2 *)
    apply andb_prop in Hx as [Hx Hb]. apply andb_prop in Hx as [Hx Hopen].
    apply andb_prop in Hx as [He Ha]. apply negb_true_iff in Hopen.
    rewrite if2_text in Hat. destruct n as [|n]; [lia|].
    destruct (at_keyword "if" IF_SYM _ L ltac:(keyword) (ends_paren _) Hat)
      as (Hs & L1 & Hn & Hat1); [apply (lexes_punct "("%char LPAR); punct|].
    assert (lexes (chars "else" ++ " "%char :: unparse b ++ rest)) as Hl1.
    { eexists. by apply (keyword_token "else" ELSE_SYM); [keyword|]. }
    destruct (paren_reads e (S n) _ L1 He ltac:(lia)
                (lexes_stmt a _ Ha) Hat1) as (L2 & Hp & Hat2).
    destruct (IHa n _ L2 Ha ltac:(lia) Hl1 ltac:(congruence) Hat2)
      as (L3 & Hsa & Hat3).
    destruct (at_keyword "else" ELSE_SYM _ L3 ltac:(keyword) (ends_blank _) Hat3)
      as (Hs3 & L4 & Hn3 & Hat4); [apply lexes_blank; by apply lexes_stmt|].
    apply at_blank in Hat4.
    destruct (IHb n rest L4 Hb ltac:(lia) Hlex Helse Hat4)
      as (L5 & Hsb & Hat5).
    exists L5. split; [|exact Hat5].
    exact (stmt_if2 n L L1 L2 L3 L4 L5 e a b Hs Hn Hp Hsa Hs3 Hn3 Hsb).
  - (* WHILE *)
    apply andb_prop in Hx as [He Ha]. rewrite while_text in Hat.
    destruct n as [|n]; [lia|].
    destruct (at_keyword "while" WHILE_SYM _ L ltac:(keyword) (ends_paren _) Hat)
      as (Hs & L1 & Hn & Hat1); [apply (lexes_punct "("%char LPAR); punct|].
    destruct (paren_reads e (S n) _ L1 He ltac:(lia)
                (lexes_stmt a rest Ha) Hat1) as (L2 & Hp & Hat2).
    destruct (IHa n rest L2 Ha ltac:(lia) Hlex Helse Hat2)
      as (L3 & Hsa & Hat3).
    exists L3. split; [|exact Hat3].
    exact (stmt_while n L L1 L2 L3 e a Hs Hn Hp Hsa).
  - (* DO *)
    apply andb_prop in Hx as [Ha He]. rewrite do_text in Hat.
    destruct n as [|n]; [lia|].
    destruct (at_keyword "do" DO_SYM _ L ltac:(keyword) (ends_blank _) Hat)
      as (Hs & L1 & Hn & Hat1); [apply lexes_blank; by apply lexes_stmt|].
    apply at_blank in Hat1.
    assert (lexes (chars "while" ++ "("%char :: unparse_expr e ++
                   ")"%char :: ";"%char :: rest)) as Hl1.
    { eexists. by apply (keyword_token "while" WHILE_SYM); [keyword|]. }
    destruct (IHa n _ L1 Ha ltac:(lia) Hl1) with (2 := Hat1)
      as (L2 & Hsa & Hat2).
    { intros _ L0 H0.
      rewrite (sym_keyword "while" WHILE_SYM _ L0 ltac:(keyword) (ends_paren _) H0).
      vm_compute. discriminate. }
    destruct (at_keyword "while" WHILE_SYM _ L2 ltac:(keyword) (ends_paren _) Hat2)
      as (Hs2 & L3 & Hn2 & Hat3); [apply (lexes_punct "("%char LPAR); punct|].
    destruct (paren_reads e (S n) _ L3 He ltac:(lia)
                (lexes_punct ";"%char SEMI rest ltac:(punct)) Hat3)
      as (L4 & Hp & Hat4).
    destruct (at_punct ";"%char SEMI _ L4 ltac:(punct) Hat4 Hlex)
      as (Hs4 & L5 & Hn4 & Hat5).
    exists L5. split; [|exact Hat5].
    exact (stmt_do n L L1 L2 L3 L4 L5 a e Hs Hn Hsa Hs2 Hn2 Hp Hs4 Hn4).
  - (* EMPTY, as a statement *)
    destruct (at_punct ";"%char SEMI _ L ltac:(punct) Hat Hlex)
      as (Hs & L1 & Hn & Hat1).
    destruct n as [|n]; [lia|].
    exists L1. split; [|exact Hat1]. exact (stmt_empty n L L1 Hs Hn).
  - (* EMPTY, as a block *)
    exists L. split; [exact Hat|]. cbn [spine]. by rewrite Nat.add_0_r.
  - (* SEQ, as a statement *)
    pose proof (seq_block a b IHa2 IHb) as Hblock.
    rewrite seq_text in Hat. destruct n as [|n]; [lia|].
    destruct (at_punct "{"%char LBRA _ L ltac:(punct) Hat)
      as (Hs & L1 & Hn & Hat1).
    { apply lexes_block; [exact Hx|]. apply (lexes_punct "}"%char RBRA). punct. }
    pose proof (spine_height (SEQ a b)) as Hsp. cbn [height] in Hsp.
    destruct (Hblock n (S (n - spine (SEQ a b))) ("}"%char :: rest) L1 Hx
                ltac:(cbn [height]; lia)
                (lexes_punct "}"%char RBRA rest ltac:(punct))
                (no_else_punct "}"%char RBRA rest ltac:(punct)) Hat1)
      as (L2 & Hat2 & Hloop).
    destruct (at_punct "}"%char RBRA _ L2 ltac:(punct) Hat2 Hlex)
      as (Hs2 & L3 & Hn2 & Hat3).
    exists L3. split; [|exact Hat3].
    apply (stmt_block n L L1 L2 L3 _ Hs Hn); [|exact Hn2].
    replace (S n) with (S (n - spine (SEQ a b)) + spine (SEQ a b))%nat by lia.
    rewrite Hloop. by apply block_exit.
  - (* SEQ, as a block *)
    apply (seq_block a b IHa2 IHb); auto.
  - (* EXPR *)
    rewrite expr_text in Hat. destruct n as [|n]; [lia|].
    destruct (expr_first e (";"%char :: rest) Hx
                (stops_punct ";"%char SEMI rest ltac:(punct)))
      as (L0 & H0 & Hs0).
    pose proof (at_sym _ _ _ H0 Hat) as Hs. rewrite Hs0 in Hs.
    destruct (expr_reads e (S n) (";"%char :: rest) L Hx ltac:(lia))
      as (L1 & Hte & Hat1);
      [eexists; by right|apply (lexes_punct ";"%char SEMI); punct|exact Hat|].
    destruct (at_punct ";"%char SEMI _ L1 ltac:(punct) Hat1 Hlex)
      as (Hs1 & L2 & Hn1 & Hat2).
    exists L2. split; [|exact Hat2].
    apply (stmt_expr n L L1 L2 e (first_sym e)); auto.
    destruct e; try discriminate; cbn [first_sym]; auto.
Qed.

(** The text of a statement of the image parses to the statement. *)
Lemma unparse_reads (x : Node) :
  stmt_ok x = true -> program (unparse x) = Ok (PROG x).
Proof.
  intros Hx. unfold program.
  set (N := (fuel_for (unparse x) `max` S (height x))%nat).
  rewrite <- (program_more_fuel (unparse x) N) by lia.
  destruct (stmt_first x [] Hx) as (L0 & H0 & _).
  rewrite app_nil_r in H0.
  unfold program_body. rewrite (bind_run _ _ _ _ _ H0).
  assert (lexes []) as Hnil by (eexists; reflexivity).
  assert (no_else []) as Helse.
  { intros L Hat. rewrite (at_sym [] _ L eq_refl Hat). vm_compute. discriminate. }
  destruct (proj1 (stmt_reads_both x) N [] L0 Hx ltac:(lia) Hnil
              (fun _ => Helse)) as (L1 & Hs & Hat1).
  { rewrite app_nil_r. exists L0. split; [exact H0|apply same_tok_refl]. }
  rewrite (bind_run _ _ _ _ _ Hs).
  rewrite bind_sym_is, (at_sym [] _ L1 eq_refl Hat1). reflexivity.
Qed.


(** *** The image of the parser *)

Lemma digits_nonneg ds : forall acc,
  0 <= acc -> Forall (fun a => is_digit a = true) ds ->
  0 <= fold_left (fun v d => v * 10 + ord d - ord "0") ds acc.
Proof.
  induction ds as [|d ds IH]; intros acc Hacc Hall; [exact Hacc|].
  inversion Hall as [|? ? Hd Hds]; subst. cbn [fold_left]. apply IH; [|exact Hds].
  apply digit_range in Hd. change (ord "0") with 48. lia.
Qed.

Lemma next_sym_lex_nat L u L' : next_sym L = Ok (u, L') -> lex_nat L'.
Proof.
  intros H. split; [exact (next_sym_lex_ok _ _ _ H)|].
  unfold next_sym in H.
  destruct (scan is_blank _ _ _ _) as [[? c] inp].
  destruct c as [a|].
  2:{ injection H as _ <-. cbn [set_sym sym]. vm_compute. discriminate. }
  repeat match type of H with
         | (if ?b then single ?s _ else _) = _ =>
             destruct b;
               [unfold single in H; injection H as _ <-; cbn [set_sym sym];
                vm_compute; discriminate|]
         end.
  destruct (is_digit a) eqn:Hd.
  { destruct (scan_split is_digit (fun v d => v * 10 + ord d - ord "0") inp
                (Some a) 0 ltac:(discriminate)) as (e2 & _ & F2 & Hv & _).
    destruct (scan is_digit _ _ _ _) as [[v c'] inp']. cbn [fst snd] in Hv.
    injection H as _ <-. cbn [int_val]. intros _. rewrite Hv.
    by apply digits_nonneg. }
  destruct (is_lower a); [|discriminate].
  destruct (scan is_word _ _ _ _) as [[name c'] inp'].
  pose proof (lookup_word_keyword name) as Hkw.
  remember (lookup_word words 0 name) as k eqn:Ek. clear Ek.
  destruct (words !! _) as [[w|]|].
  - specialize (Hkw w eq_refl). injection H as _ <-. cbn [sym].
    change (Symbol_value INT) with 13. lia.
  - destruct (_ =? 1); [|discriminate]. injection H as _ <-. cbn [sym].
    vm_compute. discriminate.
  - destruct (_ =? 1); [|discriminate]. injection H as _ <-. cbn [sym].
    vm_compute. discriminate.
Qed.

Ltac lexed_nat :=
  match goal with
  | H : next_sym _ = Ok (_, ?L) |- lex_nat ?L =>
      exact (next_sym_lex_nat _ _ _ H)
  | H : next_sym _ = Ok (_, ?L) |- _ =>
      lazymatch goal with
      | _ : lex_nat L |- _ => fail
      | _ => pose proof (next_sym_lex_nat _ _ _ H)
      end
  end.

Ltac use_returns :=
  match goal with
  | R : returns _ ?m, H : ?m ?L = Ok (?x, ?L') |- _ =>
      let Hx := fresh "Hx" in
      let HL := fresh "HL" in
      destruct (R L x L' ltac:(assumption) H) as [Hx HL]; clear H
  end.

Lemma term_returns rec :
  returns expr_image rec -> returns expr_image (term rec).
Proof.
  intros Hrec L x L' HL H. unfold term, paren_expr in H. unfold expr_image in *.
  pinv H; repeat lexed_nat.
  - apply Z.eqb_eq in E. destruct (proj1 HL E) as (c0 & Ha & Hl).
    rewrite Ha in H0. injection H0 as <-.
    split; [|assumption]. by apply is_lower_global.
  - apply Z.eqb_eq in E0. split; [|assumption]. cbn [expr_ok].
    pose proof (proj2 HL E0). lia.
  - use_returns. repeat lexed_nat. split; assumption.
Qed.

Lemma sum_loop_returns rec n :
  returns expr_image rec ->
  forall x, expr_ok x = true -> returns expr_image (sum_loop rec n x).
Proof.
  intros Hrec. pose proof (term_returns rec Hrec) as Hterm.
  unfold expr_image in *.
  induction n as [|n IH]; intros x Hx L x' L' HL H; [discriminate|].
  cbn [sum_loop] in H. pinv H; repeat lexed_nat.
  - use_returns.
    match goal with
    | H : sum_loop rec n ?y ?L1 = Ok _ |- _ =>
        assert (expr_ok y = true) as Hy
          by (destruct (sym L =? Symbol_value PLUS); simpl; by rewrite Hx, Hx0);
        exact (IH y Hy L1 _ _ ltac:(assumption) H)
    end.
  - split; assumption.
Qed.

Lemma sum_returns rec n :
  returns expr_image rec -> returns expr_image (_sum rec n).
Proof.
  intros Hrec L x L' HL H. unfold _sum in H. pinv H.
  pose proof (term_returns rec Hrec) as Hterm. use_returns.
  eapply (sum_loop_returns rec n Hrec a Hx L0); eassumption.
Qed.

Lemma test_returns rec n :
  returns expr_image rec -> returns expr_image (test rec n).
Proof.
  intros Hrec L x L' HL H. unfold test in H.
  pose proof (sum_returns rec n Hrec) as Hsum. unfold expr_image in *.
  pinv H; use_returns; repeat lexed_nat.
  - use_returns. split; [|assumption]. simpl. by rewrite Hx, Hx0.
  - split; assumption.
Qed.

Lemma expr_body_returns rec n :
  returns expr_image rec -> returns expr_image (expr_body rec n).
Proof.
  intros Hrec L x L' HL H. unfold expr_body in H.
  pose proof (test_returns rec n Hrec) as Htest. unfold expr_image in *.
  pinv H; use_returns; repeat lexed_nat.
  - split; assumption.
  - use_returns. split; [|assumption].
    apply andb_prop in E0 as [Hv _]. destruct a; try discriminate.
    simpl in *. by rewrite Hx, Hx0.
  - split; assumption.
Qed.

Lemma expr_returns n : returns expr_image (expr n).
Proof.
  induction n as [|n IH]; [intros L x L' _ H; discriminate|].
  cbn [expr]. by apply expr_body_returns.
Qed.

Lemma paren_expr_returns n : returns expr_image (paren_expr (expr n)).
Proof.
  intros L x L' HL H. unfold paren_expr in H. pinv H. repeat lexed_nat.
  pose proof (expr_returns n) as Hrec. use_returns. repeat lexed_nat.
  split; assumption.
Qed.

Lemma block_loop_returns rec k :
  returns stmt_image rec ->
  forall x, block_ok x = true -> returns block_image (block_loop rec k x).
Proof.
  intros Hrec. unfold block_image.
  induction k as [|k IH]; intros x Hx L x' L' HL H; [discriminate|].
  cbn [block_loop] in H. pinv H.
  - split; assumption.
  - use_returns. destruct Hx0 as [Hx0 _].
    match goal with
    | H : block_loop rec k ?y ?L1 = Ok _ |- _ =>
        assert (block_ok y = true) as Hy by (simpl; by rewrite Hx, Hx0);
        exact (IH y Hy L1 _ _ ltac:(assumption) H)
    end.
Qed.

Lemma block_is_stmt x : block_ok x = true -> stmt_ok x = true /\ open_if x = false.
Proof. destruct x; try discriminate; by split. Qed.

Lemma statement_body_returns rec n :
  returns stmt_image rec -> returns stmt_image (statement_body rec n).
Proof.
  intros Hrec L x L' HL H. unfold statement_body in H.
  pose proof (paren_expr_returns n) as Hparen.
  pose proof (expr_returns n) as Hexpr.
  pose proof (block_loop_returns rec n Hrec EMPTY eq_refl) as Hblock.
  unfold stmt_image, expr_image, block_image in *.
  pinv H; repeat lexed_nat; repeat (use_returns; repeat lexed_nat);
    destruct_and?; (split; [|assumption]); cbn [stmt_ok open_if].
  - (* if with else *)
    match goal with
    | Ho : open_if ?a = true -> sym ?L2 <> _,
      Ee : (sym ?L2 =? Symbol_value ELSE_SYM) = true |- _ =>
        assert (open_if a = false) as ->
          by (destruct (open_if a); [|reflexivity];
              apply Z.eqb_eq in Ee; by destruct (Ho eq_refl))
    end.
    split; [|assumption].
    repeat match goal with H : _ = true |- _ => rewrite H; clear H end.
    reflexivity.
  - (* if without else *)
    split; [|intros _; by apply Z.eqb_neq].
    repeat match goal with H : _ = true |- _ => rewrite H; clear H end.
    reflexivity.
  - (* while *)
    split; [|assumption].
    repeat match goal with H : _ = true |- _ => rewrite H; clear H end.
    reflexivity.
  - (* do *)
    split; [|discriminate].
    repeat match goal with H : _ = true |- _ => rewrite H; clear H end.
    reflexivity.
  - (* ; *)
    by split.
  - (* block *)
    match goal with
    | Hb : block_ok ?x = true |- _ =>
        destruct (block_is_stmt x Hb) as [Hs Ho]
    end.
    split; [exact Hs|]. by rewrite Ho.
  - (* expression *)
    by split.
Qed.

Lemma statement_returns n : returns stmt_image (statement n).
Proof.
  induction n as [|n IH]; [intros L x L' _ H; discriminate|].
  cbn [statement]. by apply statement_body_returns.
Qed.

(** A program that parses is [PROG] of a statement of the image. *)
Lemma program_image input x :
  program input = Ok x -> exists s, x = PROG s /\ stmt_ok s = true.
Proof.
  unfold program. intros H.
  destruct (program_body _ _) as [[x' L']| |] eqn:E; try discriminate.
  injection H as ->. unfold program_body in E. pinv E. repeat lexed_nat.
  pose proof (statement_returns (fuel_for input)) as Hst. use_returns.
  destruct Hx as [Hx _]. eauto.
Qed.


(** *** No index out of range at run time *)

Lemma py_get_in_range {A} (l : list A) i :
  0 <= i < zlen l -> exists v, py_get l i = Ok v.
Proof.
  intros Hi. destruct (lookup_lt_is_Some_2 l (Z.to_nat i)) as [v Hv].
  { unfold zlen in Hi. lia. }
  exists v. apply py_get_lookup; [lia|exact Hv].
Qed.

Lemma set_i_index l i v :
  0 <= i < zlen l ->
  set_i l i v = Raise OverflowError \/
  exists l', set_i l i v = Ok l' /\ length l' = length l.
Proof.
  intros Hi. unfold set_i, py_set. rewrite py_index_in_range by exact Hi.
  destruct (_ && _); [right|by left].
  eexists. split; [reflexivity|]. apply length_insert.
Qed.

Lemma code_at_second obj p b c l :
  code_at obj p (b :: c :: l) -> py_get obj (p + 1) = Ok c.
Proof. intros (_ & _ & H)%code_at_cons. by apply code_at_get in H. Qed.

Ltac into_step H0 :=
  unfold moves, advance, step, bind, rd_code, lift;
  rewrite H0, getitem_value; cbn.

Lemma moves_IFETCH code s i l :
  code_at code (pc s) (Instruction_value IFETCH :: i :: l) ->
  0 <= i < zlen (_globals s) -> 0 <= sp s < zlen (stack s) ->
  moves code s 2 1.
Proof.
  intros Hc Hi Hsp. pose proof (code_at_get _ _ _ _ Hc) as H0.
  pose proof (code_at_second _ _ _ _ _ Hc) as H1.
  destruct (py_get_in_range (_globals s) i Hi) as [v Hv].
  into_step H0.
  unfold bind, rd_code, rd_global, set_stack, add_sp, add_pc, modify, gets,
    lift, ret. cbn. rewrite H1. cbn. rewrite Hv. cbn.
  destruct (set_i_index (stack s) (sp s) v Hsp) as [-> | (st & -> & Hl)];
    [by left|right].
  eexists. split; [reflexivity|]. cbn. repeat split; lia.
Qed.

Lemma moves_IPUSH code s v l :
  code_at code (pc s) (Instruction_value IPUSH :: v :: l) ->
  0 <= sp s < zlen (stack s) ->
  moves code s 2 1.
Proof.
  intros Hc Hsp. pose proof (code_at_get _ _ _ _ Hc) as H0.
  pose proof (code_at_second _ _ _ _ _ Hc) as H1.
  into_step H0.
  unfold bind, rd_code, set_stack, add_sp, add_pc, modify, gets, lift, ret.
  cbn. rewrite H1. cbn.
  destruct (set_i_index (stack s) (sp s) v Hsp) as [-> | (st & -> & Hl)];
    [by left|right].
  eexists. split; [reflexivity|]. cbn. repeat split; lia.
Qed.

Lemma moves_ISTORE code s i l :
  code_at code (pc s) (Instruction_value ISTORE :: i :: l) ->
  0 <= i < zlen (_globals s) -> 1 <= sp s <= zlen (stack s) ->
  moves code s 2 0.
Proof.
  intros Hc Hi Hsp. pose proof (code_at_get _ _ _ _ Hc) as H0.
  pose proof (code_at_second _ _ _ _ _ Hc) as H1.
  destruct (py_get_in_range (stack s) (sp s - 1) ltac:(lia)) as [v Hv].
  unfold moves. rewrite (step_store _ _ _ _ H0 H1 Hv).
  destruct (set_i_index (_globals s) i v Hi) as [-> | (gl & -> & Hl)];
    [by left|right].
  eexists. split; [reflexivity|]. unfold advance. cbn.
  repeat split; lia.
Qed.

Lemma moves_IPOP code s l :
  code_at code (pc s) (Instruction_value IPOP :: l) ->
  moves code s 1 (-1).
Proof.
  intros Hc. pose proof (code_at_get _ _ _ _ Hc) as H0. into_step H0.
  right. eexists. split; [reflexivity|]. cbn. repeat split; lia.
Qed.

Lemma moves_binop code s (i : Instruction) l :
  i = IADD \/ i = ISUB \/ i = ILT ->
  code_at code (pc s) (Instruction_value i :: l) ->
  2 <= sp s <= zlen (stack s) ->
  moves code s 1 (-1).
Proof.
  intros Hi Hc Hsp. pose proof (code_at_get _ _ _ _ Hc) as H0.
  destruct (py_get_in_range (stack s) (sp s - 2) ltac:(lia)) as [a Ha].
  destruct (py_get_in_range (stack s) (sp s - 1) ltac:(lia)) as [b Hb].
  into_step H0.
  destruct Hi as [-> | [-> | ->]]; cbn;
    unfold binop, bind, add_sp, rd_stack, set_stack, modify, gets, lift, ret;
    cbn; rewrite Ha; cbn; rewrite Hb; cbn;
    match goal with
    | |- context [set_i (stack s) (sp s - 2) ?v] =>
        destruct (set_i_index (stack s) (sp s - 2) v ltac:(lia))
          as [-> | (st & -> & Hl)]
    end; try (by left); right;
    (eexists; split; [reflexivity|]; cbn; repeat split; lia).
Qed.

Lemma moves_branch code s (i : Instruction) d l :
  i = JZ \/ i = JNZ ->
  code_at code (pc s) (Instruction_value i :: d :: l) ->
  1 <= sp s <= zlen (stack s) ->
  exists s1, step code s = Ok (false, s1) /\
    (advance s s1 2 (-1) \/ advance s s1 (1 + d) (-1)).
Proof.
  intros Hi Hc Hsp. pose proof (code_at_get _ _ _ _ Hc) as H0.
  pose proof (code_at_second _ _ _ _ _ Hc) as H1.
  destruct (py_get_in_range (stack s) (sp s - 1) ltac:(lia)) as [v Hv].
  rewrite (step_branch _ _ i d v Hi H0 H1 Hv).
  eexists. split; [reflexivity|]. unfold advance. cbn.
  destruct (jumps i v); [right|left]; repeat split; lia.
Qed.

Lemma moves_JMP code s d l :
  code_at code (pc s) (Instruction_value JMP :: d :: l) ->
  exists s1, step code s = Ok (false, s1) /\ advance s s1 (1 + d) 0.
Proof.
  intros Hc. pose proof (code_at_get _ _ _ _ Hc) as H0.
  pose proof (code_at_second _ _ _ _ _ Hc) as H1.
  rewrite (step_jump _ _ d H0 H1).
  eexists. split; [reflexivity|]. unfold advance. cbn. repeat split; lia.
Qed.

Lemma step_halt code s l :
  code_at code (pc s) (Instruction_value HALT :: l) ->
  exists s1, step code s = Ok (true, s1).
Proof.
  intros Hc. pose proof (code_at_get _ _ _ _ Hc) as H0.
  unfold step, bind, rd_code, lift. rewrite H0, getitem_value. cbn. eauto.
Qed.

Lemma proceeds_fuel code s post : proceeds code 0 s post.
Proof. by left. Qed.

Lemma proceeds_done code n s (post : vm -> Prop) :
  post s -> proceeds code n s post.
Proof. intros H. right. right. exists n, s. auto. Qed.

Lemma proceeds_step code n s s1 post :
  step code s = Ok (false, s1) -> proceeds code n s1 post ->
  proceeds code (S n) s post.
Proof.
  intros Hs. unfold proceeds. cbn [run_loop]. unfold bind. rewrite Hs.
  intros [H | [H | (m & s2 & Hm & Hp & H)]]; auto.
  right. right. exists m, s2. split; [lia|]. auto.
Qed.

Lemma proceeds_moves code n s dpc dsp post :
  moves code s dpc dsp ->
  (forall s1, advance s s1 dpc dsp -> proceeds code n s1 post) ->
  proceeds code (S n) s post.
Proof.
  intros [Hr | (s1 & Hs & Ha)] Hk.
  - right. left. cbn [run_loop]. unfold bind. by rewrite Hr.
  - eapply proceeds_step; [exact Hs|]. by apply Hk.
Qed.

Lemma proceeds_then code n s (post post' : vm -> Prop) :
  proceeds code n s post ->
  (forall m s1, (m <= n)%nat -> post s1 -> proceeds code m s1 post') ->
  proceeds code n s post'.
Proof.
  intros [H | [H | (m & s1 & Hm & Hp & H)]] Hk; [by left|by right; left|].
  unfold proceeds. rewrite H.
  destruct (Hk m s1 Hm Hp) as [H' | [H' | (m' & s2 & Hm' & Hp' & H')]]; auto.
  right. right. exists m', s2. split; [lia|]. auto.
Qed.

Lemma depth_expr x : is_expr x = true -> 1 <= depth x.
Proof.
  induction x; try discriminate; cbn [is_expr depth]; try lia.
  - intros [H1 H2]%andb_prop. specialize (IHx1 H1). lia.
  - intros [H1 H2]%andb_prop. specialize (IHx1 H1). lia.
  - intros [H1 H2]%andb_prop. specialize (IHx1 H1). lia.
  - destruct x1; try discriminate. intros [H1 H2]%andb_prop. auto.
Qed.

Ltac adv :=
  cbv beta in *; unfold advance in *; destruct_and?;
  cbn [code_of app] in *; zl;
  unfold zlen in *; repeat split; lia.

Ltac one_turn :=
  match goal with
  | |- proceeds _ ?m _ _ => destruct m; [apply proceeds_fuel|]
  end.

Lemma fwd_binop (i : Instruction) x1 x2 k :
  i = IADD \/ i = ISUB \/ i = ILT ->
  1 <= depth x2 ->
  (forall k, safe_expr k x1) -> (forall k, safe_expr k x2) ->
  forall code s,
    code_at code (pc s) (code_of x1 ++ code_of x2 ++ [Instruction_value i]) ->
    0 <= sp s -> sp s + depth x1 `max` (1 + depth x2) <= zlen (stack s) ->
    26 <= zlen (_globals s) ->
    proceeds code k s (fun s1 =>
      advance s s1 (zlen (code_of x1 ++ code_of x2 ++ [Instruction_value i])) 1).
Proof.
  intros Hi Hd2 IH1 IH2 code s Hc Hsp Hdepth Hg.
  apply code_at_app in Hc as [Hc1 Hc2].
  apply code_at_app in Hc2 as [Hc2 Hc3].
  eapply proceeds_then; [apply (IH1 k code s); auto; lia|].
  intros m1 s1 Hm1 Ha1.
  eapply proceeds_then.
  { apply (IH2 m1 code s1); [eapply code_at_eq; [exact Hc2|adv]|adv..]. }
  intros m2 s2 Hm2 Ha2. one_turn.
  eapply proceeds_moves.
  { eapply (moves_binop code s2 i); [exact Hi| |adv].
    eapply code_at_eq; [exact Hc3|adv]. }
  intros s3 Ha3. apply proceeds_done. adv.
Qed.

Lemma fwd_expr x : is_expr x = true -> forall k, safe_expr k x.
Proof.
  induction x; try discriminate; intros Hx k code s Hc Hsp Hdepth Hg;
    cbn [is_expr] in Hx; cbn [depth] in Hdepth.
  - (* VAR *)
    apply is_global_range in Hx. one_turn.
    eapply proceeds_moves;
      [eapply moves_IFETCH; [exact Hc|unfold zlen in *; lia|lia]|].
    intros s1 Ha. apply proceeds_done. adv.
  - (* CST *)
    one_turn.
    eapply proceeds_moves; [eapply moves_IPUSH; [exact Hc|lia]|].
    intros s1 Ha. apply proceeds_done. adv.
  - (* ADD *)
    apply andb_prop in Hx as [Hx1 Hx2].
    apply (fwd_binop IADD x1 x2 k); auto using depth_expr.
  - (* SUB *)
    apply andb_prop in Hx as [Hx1 Hx2].
    apply (fwd_binop ISUB x1 x2 k); auto using depth_expr.
  - (* LT *)
    apply andb_prop in Hx as [Hx1 Hx2].
    apply (fwd_binop ILT x1 x2 k); auto using depth_expr.
  - (* SET *)
    destruct x1; try discriminate.
    apply andb_prop in Hx as [Hv Hx2]. apply is_global_range in Hv.
    pose proof (depth_expr x2 Hx2) as Hd.
    cbn [code_of val_of] in Hc. apply code_at_app in Hc as [Hc1 Hc2].
    eapply proceeds_then; [apply (IHx2 Hx2 k code s); auto|].
    intros m1 s1 Hm1 Ha1. one_turn.
    eapply proceeds_moves.
    { eapply moves_ISTORE; [eapply code_at_eq; [exact Hc2|adv]|adv..]. }
    intros s2 Ha2. apply proceeds_done. adv.
Qed.

Ltac at_pc :=
  match goal with
  | H : code_at ?c _ _ |- code_at ?c _ _ =>
      eapply code_at_eq; [exact H | adv]
  end.

Ltac cond_turn i :=
  one_turn;
  match goal with
  | |- proceeds ?code (S ?m) ?s _ =>
      let s1 := fresh "s" in
      let Hs := fresh "Hs" in
      let Ha := fresh "Ha" in
      destruct (moves_branch code s i _ _ ltac:(auto)
                  ltac:(at_pc) ltac:(adv)) as (s1 & Hs & Ha);
      eapply proceeds_step; [exact Hs|]
  end.

Ltac jump_turn :=
  one_turn;
  match goal with
  | |- proceeds ?code (S ?m) ?s _ =>
      let s1 := fresh "s" in
      let Hs := fresh "Hs" in
      let Ha := fresh "Ha" in
      destruct (moves_JMP code s _ _ ltac:(at_pc)) as (s1 & Hs & Ha);
      eapply proceeds_step; [exact Hs|]
  end.

Lemma fwd_stmt_aux n :
  (forall k, (k < n)%nat -> forall x, is_stmt x = true -> safe_stmt k x) ->
  forall x, is_stmt x = true -> forall m, (m <= n)%nat -> safe_stmt m x.
Proof.
  intros Hout. unfold safe_stmt in *.
  induction x; try discriminate; intros Hx m Hm code s Hc Hsp Hdepth Hg;
    cbn [is_stmt] in Hx; cbn [code_of] in Hc; cbn [depth] in Hdepth;
    try pose proof (zlen_nonneg (code_of x1)) as Hz1;
    try pose proof (zlen_nonneg (code_of x2)) as Hz2;
    try pose proof (zlen_nonneg (code_of x3)) as Hz3.
  - (* IF1 *)
    apply andb_prop in Hx as [Hx1 Hx2].
    pose proof (depth_expr x1 Hx1) as Hd1.
    apply code_at_app in Hc as [Hc1 Hc2].
    pose proof Hc2 as Hc3. apply code_at_cons in Hc3 as (_ & _ & Hc3).
    apply code_at_cons in Hc3 as (_ & _ & Hc3).
    eapply proceeds_then; [apply (fwd_expr x1 Hx1 m code s); auto; lia|].
    intros m1 s1 Hm1 Ha1. cond_turn JZ.
    destruct Ha as [Ha | Ha].
    + eapply proceeds_then.
      { apply (IHx2 Hx2 m1 ltac:(lia) code s0); [at_pc|adv..]. }
      intros m2 s2 Hm2 Ha2. apply proceeds_done. adv.
    + apply proceeds_done. adv.
  - (* IF2 *)
    apply andb_prop in Hx as [Hx12 Hx3]. apply andb_prop in Hx12 as [Hx1 Hx2].
    pose proof (depth_expr x1 Hx1) as Hd1.
    apply code_at_app in Hc as [Hc1 Hc2].
    pose proof Hc2 as Hc3. apply code_at_cons in Hc3 as (_ & _ & Hc3).
    apply code_at_cons in Hc3 as (_ & _ & Hc3).
    apply code_at_app in Hc3 as [Hc3 Hc4].
    pose proof Hc4 as Hc5. apply code_at_cons in Hc5 as (_ & _ & Hc5).
    apply code_at_cons in Hc5 as (_ & _ & Hc5).
    eapply proceeds_then; [apply (fwd_expr x1 Hx1 m code s); auto; lia|].
    intros m1 s1 Hm1 Ha1. cond_turn JZ.
    destruct Ha as [Ha | Ha].
    + eapply proceeds_then.
      { apply (IHx2 Hx2 m1 ltac:(lia) code s0); [at_pc|adv..]. }
      intros m2 s2 Hm2 Ha2. jump_turn. apply proceeds_done. adv.
    + eapply proceeds_then.
      { apply (IHx3 Hx3 m1 ltac:(lia) code s0); [at_pc|adv..]. }
      intros m2 s2 Hm2 Ha2. apply proceeds_done. adv.
  - (* WHILE *)
    apply andb_prop in Hx as [Hx1 Hx2].
    pose proof (depth_expr x1 Hx1) as Hd1.
    pose proof Hc as Hwhole.
    apply code_at_app in Hc as [Hc1 Hc2].
    pose proof Hc2 as Hc3. apply code_at_cons in Hc3 as (_ & _ & Hc3).
    apply code_at_cons in Hc3 as (_ & _ & Hc3).
    apply code_at_app in Hc3 as [Hc3 Hc4].
    eapply proceeds_then; [apply (fwd_expr x1 Hx1 m code s); auto; lia|].
    intros m1 s1 Hm1 Ha1. cond_turn JZ.
    destruct Ha as [Ha | Ha].
    + eapply proceeds_then.
      { apply (IHx2 Hx2 m1 ltac:(lia) code s0); [at_pc|adv..]. }
      intros m2 s2 Hm2 Ha2. jump_turn.
      eapply proceeds_then.
      { apply (Hout m2 ltac:(lia) (WHILE x1 x2)); [| | | |].
        - cbn [is_stmt]. by rewrite Hx1, Hx2.
        - cbn [code_of]. eapply code_at_eq; [exact Hwhole|adv].
        - adv.
        - cbn [depth]. adv.
        - adv. }
      intros m3 s4 Hm3 Ha3. apply proceeds_done. adv.
    + apply proceeds_done. adv.
  - (* DO *)
    apply andb_prop in Hx as [Hx1 Hx2].
    pose proof (depth_expr x2 Hx2) as Hd2.
    pose proof Hc as Hwhole.
    apply code_at_app in Hc as [Hc1 Hc2].
    apply code_at_app in Hc2 as [Hc2 Hc3].
    eapply proceeds_then.
    { apply (IHx1 Hx1 m ltac:(lia) code s); [at_pc|adv..]. }
    intros m1 s1 Hm1 Ha1.
    eapply proceeds_then.
    { apply (fwd_expr x2 Hx2 m1 code s1); [at_pc|adv..]. }
    intros m2 s2 Hm2 Ha2. cond_turn JNZ.
    destruct Ha as [Ha | Ha].
    + apply proceeds_done. adv.
    + eapply proceeds_then.
      { apply (Hout m2 ltac:(lia) (DO x1 x2)); [| | | |].
        - cbn [is_stmt]. by rewrite Hx1, Hx2.
        - cbn [code_of]. eapply code_at_eq; [exact Hwhole|adv].
        - adv.
        - cbn [depth]. adv.
        - adv. }
      intros m3 s4 Hm3 Ha3. apply proceeds_done. adv.
  - (* EMPTY *)
    apply proceeds_done. adv.
  - (* SEQ *)
    apply andb_prop in Hx as [Hx1 Hx2].
    apply code_at_app in Hc as [Hc1 Hc2].
    eapply proceeds_then.
    { apply (IHx1 Hx1 m ltac:(lia) code s); [at_pc|adv..]. }
    intros m1 s1 Hm1 Ha1.
    eapply proceeds_then.
    { apply (IHx2 Hx2 m1 ltac:(lia) code s1); [at_pc|adv..]. }
    intros m2 s2 Hm2 Ha2. apply proceeds_done. adv.
  - (* EXPR *)
    pose proof (depth_expr x Hx) as Hd.
    apply code_at_app in Hc as [Hc1 Hc2].
    eapply proceeds_then; [apply (fwd_expr x Hx m code s); auto; lia|].
    intros m1 s1 Hm1 Ha1. one_turn.
    eapply proceeds_moves; [eapply moves_IPOP; at_pc|].
    intros s2 Ha2. apply proceeds_done. adv.
Qed.

Lemma fwd_stmt n : forall x, is_stmt x = true -> safe_stmt n x.
Proof.
  induction n as [n IH] using lt_wf_ind.
  intros x Hx. apply (fwd_stmt_aux n IH x Hx n). lia.
Qed.

Lemma depth_le_code x : depth x <= zlen (code_of x).
Proof.
  induction x; cbn [depth code_of]; zl;
    try pose proof (zlen_nonneg (code_of x1));
    try pose proof (zlen_nonneg (code_of x2));
    try pose proof (zlen_nonneg (code_of x3));
    try pose proof (zlen_nonneg (code_of x)); lia.
Qed.

Lemma code_at_fits obj l : code_at obj 0 l -> zlen l <= zlen obj.
Proof.
  intros [_ H]. unfold zlen.
  destruct l as [|b l] using rev_ind; [cbn; lia|].
  specialize (H (length l) b). rewrite lookup_app_r in H by lia.
  rewrite Nat.sub_diag in H. specialize (H eq_refl).
  apply lookup_lt_Some in H. rewrite length_app. cbn in *. lia.
Qed.

Lemma compile_length x code : compile x = Ok code -> length code = 1000%nat.
Proof.
  unfold compile.
  destruct (c x codegen_init) as [[u st]| |] eqn:E; try discriminate.
  intros [= <-]. apply c_extent in E as (_ & Ln & _); [|cbn; lia].
  rewrite Ln. cbn [codegen_init _object]. apply length_replicate.
Qed.

Lemma run_loop_safe s code n globals :
  is_stmt s = true -> compile (PROG s) = Ok code ->
  26 <= zlen globals ->
  match run_loop code n (vm_init globals) with
  | Raise e => e = OverflowError
  | _ => True
  end.
Proof.
  intros Hs Hcomp Hg.
  pose proof (compile_listing _ _ Hcomp) as Hc.
  pose proof (code_at_fits _ _ Hc) as Hfit.
  pose proof (compile_length _ _ Hcomp) as Hlen.
  cbn [code_of] in Hc, Hfit. apply code_at_app in Hc as [Hc1 Hc2].
  pose proof (depth_le_code s) as Hd.
  assert (zlen (stack (vm_init globals)) = 1000) as Hst.
  { unfold zlen. cbn [vm_init stack]. by rewrite length_replicate. }
  destruct (fwd_stmt n s Hs code (vm_init globals))
    as [H | [H | (m & s1 & Hm & Ha & H)]].
  - exact Hc1.
  - cbn. lia.
  - rewrite Hst. cbn [vm_init sp]. zl. unfold zlen in *. lia.
  - exact Hg.
  - by rewrite H.
  - by rewrite H.
  - rewrite H. destruct m as [|m]; [exact I|].
    destruct (step_halt code s1 []) as [s2 Hh].
    { eapply code_at_eq; [exact Hc2|]. unfold advance in Ha.
      destruct Ha as (-> & _). cbn. lia. }
    cbn [run_loop]. unfold bind. rewrite Hh. exact I.
Qed.

(** X17 ([run], lines 414-459, on the code [c] emits for a tree of
    [program]): the machine never indexes outside its stack, its globals or
    the code.  Whatever the number of turns, the only exception a run of a
    parsed and compiled program raises is the [OverflowError] of an addition
    or subtraction that leaves the range of a C [int]. *)
Theorem run_raises_overflow_only (input : list ascii) (ast : Node)
    (code : list Z) (n : nat) (e : exn) :
  program input = Ok ast -> compile ast = Ok code ->
  run n code (replicate 26 0) = Raise e ->
  e = OverflowError.
Proof.
  intros Hp Hcomp Hrun.
  apply program_wf in Hp as (s & -> & Hs).
  pose proof (run_loop_safe s code n (replicate 26 0) Hs Hcomp) as H.
  unfold run in Hrun.
  destruct (run_loop code n (vm_init (replicate 26 0))) as [[u s1]| |];
    try discriminate.
  injection Hrun as <-. apply H. unfold zlen. rewrite length_replicate. lia.
Qed.

Lemma run_raises_overflow_only_witness :
  exists e : exn,
    run 400
      (code_of
         (PROG (SEQ (SEQ EMPTY (EXPR (SET (VAR 0) (CST 1))))
                  (WHILE (VAR 0)
                     (EXPR (SET (VAR 0) (ADD (VAR 0) (VAR 0)))))))
         ++ replicate 980 0)
      (replicate 26 0) = Raise e /\
    e = OverflowError.
Proof.
  exists OverflowError. split; [vm_compute; reflexivity|].
  refine (run_raises_overflow_only
            (chars "{a=1;while(a)a=a+a;}")
            (PROG (SEQ (SEQ EMPTY (EXPR (SET (VAR 0) (CST 1))))
                       (WHILE (VAR 0)
                          (EXPR (SET (VAR 0) (ADD (VAR 0) (VAR 0)))))))
            (code_of
               (PROG (SEQ (SEQ EMPTY (EXPR (SET (VAR 0) (CST 1))))
                       (WHILE (VAR 0)
                          (EXPR (SET (VAR 0) (ADD (VAR 0) (VAR 0)))))))
               ++ replicate 980 0)
            400 OverflowError _ _ _).
  - vm_compute. reflexivity.
  - vm_compute. reflexivity.
  - vm_compute. reflexivity.
Defined.

(** *** Programs without loops *)

Lemma within_done code n s k (post : vm -> Prop) :
  post s -> ends_within code n s k post.
Proof. intros H. right. exists n, s. repeat split; [lia..|auto]. Qed.

Lemma within_step code n s s1 k post :
  step code s = Ok (false, s1) -> ends_within code n s1 k post ->
  ends_within code (S n) s (S k) post.
Proof.
  intros Hs. unfold ends_within. cbn [run_loop]. unfold bind. rewrite Hs.
  intros [H | (m & s2 & Hm & Hp & H)]; auto.
  right. exists m, s2. repeat split; [lia..|auto|auto].
Qed.

Lemma within_moves code n s dpc dsp k post :
  moves code s dpc dsp ->
  (forall s1, advance s s1 dpc dsp -> ends_within code n s1 k post) ->
  ends_within code (S n) s (S k) post.
Proof.
  intros [Hr | (s1 & Hs & Ha)] Hk.
  - left. cbn [run_loop]. unfold bind. by rewrite Hr.
  - eapply within_step; [exact Hs|]. by apply Hk.
Qed.

Lemma within_then code n s k1 k2 (post post' : vm -> Prop) :
  ends_within code n s k1 post ->
  (forall m s1, (m <= n)%nat /\ (n <= m + k1)%nat -> post s1 ->
     ends_within code m s1 k2 post') ->
  ends_within code n s (k1 + k2) post'.
Proof.
  intros [H | (m & s1 & Hm & Hp & H)] Hk; [by left|].
  unfold ends_within. rewrite H.
  destruct (Hk m s1 Hm Hp) as [H' | (m' & s2 & Hm' & Hp' & H')]; auto.
  right. exists m', s2. repeat split; [lia..|auto|auto].
Qed.

Lemma within_weaken code n s k k' (post : vm -> Prop) :
  ends_within code n s k post -> (k <= k')%nat ->
  ends_within code n s k' post.
Proof.
  intros [H | (m & s1 & Hm & Hp & H)] Hle; [by left|].
  right. exists m, s1. repeat split; [lia..|auto|auto].
Qed.

Lemma within_post code n s k (post post' : vm -> Prop) :
  ends_within code n s k post -> (forall s1, post s1 -> post' s1) ->
  ends_within code n s k post'.
Proof.
  intros [H | (m & s1 & Hm & Hp & H)] Hk; [by left|].
  right. exists m, s1. auto.
Qed.

Ltac lens :=
  repeat first [rewrite length_app in * | progress cbn [length] in *].

Ltac advl := cbn [code_of app] in *; lens; adv.

Ltac at_pcl :=
  match goal with
  | H : code_at ?c _ _ |- code_at ?c _ _ =>
      eapply code_at_eq; [exact H | advl]
  end.

Ltac some_turn :=
  match goal with
  | |- ends_within _ ?m _ _ _ =>
      destruct m; [exfalso; destruct_and?; lens; lia|]
  end.

Lemma quick_binop (i : Instruction) x1 x2 :
  i = IADD \/ i = ISUB \/ i = ILT ->
  1 <= depth x2 ->
  (forall code s n,
     code_at code (pc s) (code_of x1) -> 0 <= sp s ->
     sp s + depth x1 <= zlen (stack s) -> 26 <= zlen (_globals s) ->
     (length (code_of x1) <= n)%nat ->
     ends_within code n s (length (code_of x1))
       (fun s1 => advance s s1 (zlen (code_of x1)) 1)) ->
  (forall code s n,
     code_at code (pc s) (code_of x2) -> 0 <= sp s ->
     sp s + depth x2 <= zlen (stack s) -> 26 <= zlen (_globals s) ->
     (length (code_of x2) <= n)%nat ->
     ends_within code n s (length (code_of x2))
       (fun s1 => advance s s1 (zlen (code_of x2)) 1)) ->
  forall code s n,
    code_at code (pc s) (code_of x1 ++ code_of x2 ++ [Instruction_value i]) ->
    0 <= sp s -> sp s + depth x1 `max` (1 + depth x2) <= zlen (stack s) ->
    26 <= zlen (_globals s) ->
    (length (code_of x1 ++ code_of x2 ++ [Instruction_value i]) <= n)%nat ->
    ends_within code n s
      (length (code_of x1 ++ code_of x2 ++ [Instruction_value i]))
      (fun s1 =>
         advance s s1
           (zlen (code_of x1 ++ code_of x2 ++ [Instruction_value i])) 1).
Proof.
  intros Hi Hd2 IH1 IH2 code s n Hc Hsp Hdepth Hg Hn.
  apply code_at_app in Hc as [Hc1 Hc2].
  apply code_at_app in Hc2 as [Hc2 Hc3].
  apply within_weaken
    with (k := (length (code_of x1) + (length (code_of x2) + 1))%nat);
    [|lens; lia].
  eapply within_then; [apply (IH1 code s n); auto; lens; lia|].
  intros m1 s1 Hm1 Ha1.
  eapply within_then.
  { apply (IH2 code s1 m1); [at_pcl|advl..]. }
  intros m2 s2 Hm2 Ha2. some_turn.
  eapply within_moves.
  { eapply (moves_binop code s2 i); [exact Hi|at_pcl|advl]. }
  intros s3 Ha3. apply within_done. advl.
Qed.

Lemma quick_expr x : is_expr x = true ->
  forall code s n,
    code_at code (pc s) (code_of x) -> 0 <= sp s ->
    sp s + depth x <= zlen (stack s) -> 26 <= zlen (_globals s) ->
    (length (code_of x) <= n)%nat ->
    ends_within code n s (length (code_of x))
      (fun s1 => advance s s1 (zlen (code_of x)) 1).
Proof.
  induction x; try discriminate; intros Hx code s n Hc Hsp Hdepth Hg Hn;
    cbn [is_expr] in Hx; cbn [depth] in Hdepth.
  - (* VAR *)
    apply is_global_range in Hx. cbn [code_of length] in *. some_turn.
    eapply within_moves;
      [eapply moves_IFETCH; [exact Hc|unfold zlen in *; lia|lia]|].
    intros s1 Ha. apply within_done. advl.
  - (* CST *)
    cbn [code_of length] in *. some_turn.
    eapply within_moves; [eapply moves_IPUSH; [exact Hc|lia]|].
    intros s1 Ha. apply within_done. advl.
  - (* ADD *)
    apply andb_prop in Hx as [Hx1 Hx2].
    apply (quick_binop IADD x1 x2); auto using depth_expr.
  - (* SUB *)
    apply andb_prop in Hx as [Hx1 Hx2].
    apply (quick_binop ISUB x1 x2); auto using depth_expr.
  - (* LT *)
    apply andb_prop in Hx as [Hx1 Hx2].
    apply (quick_binop ILT x1 x2); auto using depth_expr.
  - (* SET *)
    destruct x1; try discriminate.
    apply andb_prop in Hx as [Hv Hx2]. apply is_global_range in Hv.
    pose proof (depth_expr x2 Hx2) as Hd.
    cbn [code_of val_of] in *. apply code_at_app in Hc as [Hc1 Hc2].
    apply within_weaken with (k := (length (code_of x2) + 1)%nat);
      [|lens; lia].
    eapply within_then; [apply (IHx2 Hx2 code s n); auto; lens; lia|].
    intros m1 s1 Hm1 Ha1. some_turn.
    eapply within_moves.
    { eapply moves_ISTORE; [at_pcl|advl..]. }
    intros s2 Ha2. apply within_done. advl.
Qed.

Ltac cond_turnl i :=
  some_turn;
  match goal with
  | |- ends_within ?code (S ?m) ?s _ _ =>
      let s1 := fresh "s" in
      let Hs := fresh "Hs" in
      let Ha := fresh "Ha" in
      destruct (moves_branch code s i _ _ ltac:(auto)
                  ltac:(at_pcl) ltac:(advl)) as (s1 & Hs & Ha);
      eapply within_step; [exact Hs|]
  end.

Ltac jump_turnl :=
  some_turn;
  match goal with
  | |- ends_within ?code (S ?m) ?s _ _ =>
      let s1 := fresh "s" in
      let Hs := fresh "Hs" in
      let Ha := fresh "Ha" in
      destruct (moves_JMP code s _ _ ltac:(at_pcl)) as (s1 & Hs & Ha);
      eapply within_step; [exact Hs|]
  end.

Lemma quick_stmt x : is_stmt x = true -> loop_free x = true ->
  forall code s n,
    code_at code (pc s) (code_of x) -> 0 <= sp s ->
    sp s + depth x <= zlen (stack s) -> 26 <= zlen (_globals s) ->
    (length (code_of x) <= n)%nat ->
    ends_within code n s (length (code_of x))
      (fun s1 => advance s s1 (zlen (code_of x)) 0).
Proof.
  induction x; try discriminate; intros Hx Hf code s n Hc Hsp Hdepth Hg Hn;
    cbn [is_stmt] in Hx; cbn [loop_free] in Hf; cbn [code_of] in Hc, Hn;
    cbn [depth] in Hdepth;
    try pose proof (zlen_nonneg (code_of x1)) as Hz1;
    try pose proof (zlen_nonneg (code_of x2)) as Hz2;
    try pose proof (zlen_nonneg (code_of x3)) as Hz3.
  - (* IF1 *)
    apply andb_prop in Hx as [Hx1 Hx2]. apply andb_prop in Hf as [Hf1 Hf2].
    pose proof (depth_expr x1 Hx1) as Hd1.
    apply code_at_app in Hc as [Hc1 Hc2].
    pose proof Hc2 as Hc3. apply code_at_cons in Hc3 as (_ & _ & Hc3).
    apply code_at_cons in Hc3 as (_ & _ & Hc3).
    apply within_weaken
      with (k := (length (code_of x1) + S (length (code_of x2)))%nat);
      [|cbn [code_of]; lens; lia].
    eapply within_then;
      [apply (quick_expr x1 Hx1 code s n); auto; lens; lia|].
    intros m1 s1 Hm1 Ha1. cond_turnl JZ.
    destruct Ha as [Ha | Ha].
    + eapply within_post.
      { apply (IHx2 Hx2 Hf2 code s0); [at_pcl|advl..]. }
      intros s2 Ha2. advl.
    + apply within_done. advl.
  - (* IF2 *)
    apply andb_prop in Hx as [Hx12 Hx3]. apply andb_prop in Hx12 as [Hx1 Hx2].
    apply andb_prop in Hf as [Hf12 Hf3]. apply andb_prop in Hf12 as [Hf1 Hf2].
    pose proof (depth_expr x1 Hx1) as Hd1.
    apply code_at_app in Hc as [Hc1 Hc2].
    pose proof Hc2 as Hc3. apply code_at_cons in Hc3 as (_ & _ & Hc3).
    apply code_at_cons in Hc3 as (_ & _ & Hc3).
    apply code_at_app in Hc3 as [Hc3 Hc4].
    pose proof Hc4 as Hc5. apply code_at_cons in Hc5 as (_ & _ & Hc5).
    apply code_at_cons in Hc5 as (_ & _ & Hc5).
    apply within_weaken
      with (k := (length (code_of x1) +
                  S (length (code_of x2) + 1 + length (code_of x3)))%nat);
      [|cbn [code_of]; lens; lia].
    eapply within_then;
      [apply (quick_expr x1 Hx1 code s n); auto; lens; lia|].
    intros m1 s1 Hm1 Ha1. cond_turnl JZ.
    destruct Ha as [Ha | Ha].
    + apply within_weaken with (k := (length (code_of x2) + 1)%nat); [|lia].
      eapply within_then.
      { apply (IHx2 Hx2 Hf2 code s0); [at_pcl|advl..]. }
      intros m2 s2 Hm2 Ha2. jump_turnl. apply within_done. advl.
    + apply within_weaken with (k := length (code_of x3)); [|lia].
      eapply within_post.
      { apply (IHx3 Hx3 Hf3 code s0); [at_pcl|advl..]. }
      intros s2 Ha2. advl.
  - (* EMPTY *)
    apply within_done. advl.
  - (* SEQ *)
    apply andb_prop in Hx as [Hx1 Hx2]. apply andb_prop in Hf as [Hf1 Hf2].
    apply code_at_app in Hc as [Hc1 Hc2].
    apply within_weaken
      with (k := (length (code_of x1) + length (code_of x2))%nat);
      [|cbn [code_of]; lens; lia].
    eapply within_then.
    { apply (IHx1 Hx1 Hf1 code s); [at_pcl|advl..]. }
    intros m1 s1 Hm1 Ha1.
    eapply within_post.
    { apply (IHx2 Hx2 Hf2 code s1); [at_pcl|advl..]. }
    intros s2 Ha2. advl.
  - (* EXPR *)
    pose proof (depth_expr x Hx) as Hd.
    apply code_at_app in Hc as [Hc1 Hc2].
    apply within_weaken with (k := (length (code_of x) + 1)%nat);
      [|cbn [code_of]; lens; lia].
    eapply within_then;
      [apply (quick_expr x Hx code s n); auto; lens; lia|].
    intros m1 s1 Hm1 Ha1. some_turn.
    eapply within_moves; [eapply moves_IPOP; at_pcl|].
    intros s2 Ha2. apply within_done. advl.
Qed.

Lemma run_loop_ends s code n :
  is_stmt s = true -> loop_free s = true ->
  compile (PROG s) = Ok code ->
  (length (code_of (PROG s)) <= n)%nat ->
  run_loop code n (vm_init (replicate 26 0)) = Raise OverflowError \/
  exists s', run_loop code n (vm_init (replicate 26 0)) = Ok (tt, s').
Proof.
  intros Hs Hf Hcomp Hn.
  pose proof (compile_listing _ _ Hcomp) as Hc.
  pose proof (code_at_fits _ _ Hc) as Hfit.
  pose proof (compile_length _ _ Hcomp) as Hlen.
  cbn [code_of] in *. apply code_at_app in Hc as [Hc1 Hc2].
  pose proof (depth_le_code s) as Hd.
  assert (zlen (replicate 26 0) = 26) as Hg.
  { unfold zlen. by rewrite length_replicate. }
  assert (zlen (stack (vm_init (replicate 26 0))) = 1000) as Hst.
  { unfold zlen. cbn [vm_init stack]. by rewrite length_replicate. }
  destruct (quick_stmt s Hs Hf code (vm_init (replicate 26 0)) n)
    as [H | (m & s1 & Hm & Ha & H)].
  - exact Hc1.
  - cbn. lia.
  - rewrite Hst. cbn [vm_init sp]. zl. unfold zlen in *. lia.
  - cbn [vm_init _globals]. lia.
  - lens. lia.
  - left. exact H.
  - right. rewrite H. destruct m as [|m]; [exfalso; lens; lia|].
    destruct (step_halt code s1 []) as [s2 Hh].
    { eapply code_at_eq; [exact Hc2|]. unfold advance in Ha.
      destruct Ha as (-> & _). cbn. lia. }
    cbn [run_loop]. unfold bind. rewrite Hh. cbn. eauto.
Qed.

(** X18 ([run], lines 414-459, on the code [c] emits for a tree of
    [program]): a program without [while] and [do] ends.  Given as many
    turns as its code has bytes, the run of a parsed and compiled program
    whose tree has no [WHILE] and no [DO] node reaches [HALT] or raises
    [OverflowError]: every instruction is executed at most once. *)
Theorem loop_free_run_ends (input : list ascii) (ast : Node)
    (code : list Z) (n : nat) :
  program input = Ok ast -> compile ast = Ok code ->
  loop_free ast = true -> (length (code_of ast) <= n)%nat ->
  run n code (replicate 26 0) = Raise OverflowError \/
  exists globals, run n code (replicate 26 0) = Ok globals.
Proof.
  intros Hp Hcomp Hf Hn.
  apply program_wf in Hp as (s & -> & Hs).
  unfold run.
  destruct (run_loop_ends s code n Hs Hf Hcomp Hn) as [H | [s' H]];
    rewrite H; [by left|right; eauto].
Qed.

Lemma loop_free_run_ends_witness :
  run 25
    (code_of
       (PROG (SEQ (SEQ EMPTY (EXPR (SET (VAR 0) (CST 3))))
                (IF2 (LT (VAR 0) (CST 5))
                   (EXPR (SET (VAR 1) (CST 1)))
                   (EXPR (SET (VAR 1) (CST 2))))))
       ++ replicate 975 0)
    (replicate 26 0) = Raise OverflowError \/
  exists globals,
    run 25
      (code_of
         (PROG (SEQ (SEQ EMPTY (EXPR (SET (VAR 0) (CST 3))))
                  (IF2 (LT (VAR 0) (CST 5))
                     (EXPR (SET (VAR 1) (CST 1)))
                     (EXPR (SET (VAR 1) (CST 2))))))
         ++ replicate 975 0)
      (replicate 26 0) = Ok globals.
Proof.
  refine (loop_free_run_ends
            (chars "{a=3;if(a<5)b=1;else b=2;}")
            (PROG (SEQ (SEQ EMPTY (EXPR (SET (VAR 0) (CST 3))))
                     (IF2 (LT (VAR 0) (CST 5))
                        (EXPR (SET (VAR 1) (CST 1)))
                        (EXPR (SET (VAR 1) (CST 2))))))
            _ 25 _ _ _ _).
  - vm_compute. reflexivity.
  - vm_compute. reflexivity.
  - vm_compute. reflexivity.
  - vm_compute. lia.
Defined.

(** *** The recursion limit: more frames, more fuel *)

Lemma upto_refl lt {A} (r : res A) : upto lt r r.
Proof. right. by right. Qed.

Lemma upto_weaken (lt lt' : Prop) {A} (r r' : res A) :
  upto lt r r' -> (lt -> lt') -> upto lt' r r'.
Proof. intros [H | [[H Hlt] | H]] Hi; [by left|right; left; auto|by right; right]. Qed.

Lemma upto_fuel (lt : Prop) {A} (r' : res A) : lt -> upto lt Fuel r'.
Proof. intros H. right. by left. Qed.

Lemma upto_bind lt {S A B} (m m' : M S A) (k k' : A -> M S B) s :
  upto lt (m s) (m' s) ->
  (forall a s1, upto lt (k a s1) (k' a s1)) ->
  upto lt (bind m k s) (bind m' k' s).
Proof.
  intros [H | [[H Hlt] | H]] Hk; unfold bind.
  - left. by rewrite H.
  - right. left. by rewrite H.
  - rewrite H. destruct (m' s) as [[a s1]| |]; [apply Hk|apply upto_refl..].
Qed.

Lemma upto_enter lt {S A} (f f' : nat -> M S A) d d' s :
  (d <= d')%nat ->
  (forall e e', (e <= e')%nat -> upto lt (f e s) (f' e' s)) ->
  upto lt (enter d f s) (enter d' f' s).
Proof.
  intros Hd Hf. destruct d as [|e]; [by left|].
  destruct d' as [|e']; [lia|]. cbn [enter]. apply Hf. lia.
Qed.

Lemma limited_upto {A} (r r' : res A) : upto False r r' -> limited r r'.
Proof. intros [H | [[_ []] | H]]; [by left|by right]. Qed.

Lemma next_sym_in_eq d L :
  next_sym_in d L =
  match ch L with
  | None => Ok (tt, set_sym EOI L)
  | Some a =>
      match d with
      | O => Raise RecursionError
      | S d' => if is_blank a then next_sym_in d' (next_ch L) else next_sym L
      end
  end.
Proof.
  destruct d as [|d]; cbn [next_sym_in]; destruct (ch L) as [a|]; try reflexivity;
    destruct (is_blank a); reflexivity.
Qed.

Lemma next_sym_in_steady lt d : forall d' L,
  (d <= d')%nat -> upto lt (next_sym_in d L) (next_sym_in d' L).
Proof.
  induction d as [|d IH]; intros d' L Hd;
    rewrite (next_sym_in_eq _ L), (next_sym_in_eq d' L);
    destruct (ch L) as [a|]; try apply upto_refl.
  - by left.
  - destruct d' as [|d']; [lia|].
    destruct (is_blank a); [apply IH; lia|apply upto_refl].
Qed.

Ltac steady :=
  repeat first
    [ apply upto_refl
    | apply next_sym_in_steady; lia
    | apply upto_bind; [|intros ? ?]
    | apply upto_enter; [lia|intros ? ? ?]
    | match goal with
      | |- upto _ ((if ?b then _ else _) _) ((if ?b then _ else _) _) =>
          destruct b
      | H : forall k k' L, (k <= k')%nat -> upto _ (?e k L) (?e' k' L)
        |- upto _ (?e _ _) (?e' _ _) => apply H; lia
      end ].

Section Steady.
Variable lt : Prop.
Variables e e' : nat -> P Node.
Hypothesis He : forall k k' L, (k <= k')%nat -> upto lt (e k L) (e' k' L).

Lemma paren_expr_steady d d' L :
  (d <= d')%nat -> upto lt (paren_expr_in e d L) (paren_expr_in e' d' L).
Proof.
  intros Hd.
  unfold paren_expr_in, expect_in, next_sym_call, syntax_error_call. steady.
Qed.

Lemma term_steady d d' L :
  (d <= d')%nat -> upto lt (term_in e d L) (term_in e' d' L).
Proof.
  intros Hd.
  unfold term_in, new_node_call, next_sym_call. steady.
Qed.

Lemma sum_loop_steady d d' n : forall n' x L,
  (d <= d')%nat -> (n <= n')%nat -> ((n < n')%nat -> lt) ->
  upto lt (sum_loop_in e d n x L) (sum_loop_in e' d' n' x L).
Proof.
  induction n as [|n IH]; intros n' x L Hd Hn Hlt.
  - destruct n' as [|n']; [apply upto_refl|]. apply upto_fuel, Hlt. lia.
  - destruct n' as [|n']; [lia|]. cbn [sum_loop_in].
    unfold new_node_call, next_sym_call. steady.
    apply IH; [lia|lia|]. intros. apply Hlt. lia.
Qed.

Lemma sum_steady d d' n n' L :
  (d <= d')%nat -> (n <= n')%nat -> ((n < n')%nat -> lt) ->
  upto lt (_sum_in e n d L) (_sum_in e' n' d' L).
Proof.
  intros Hd Hn Hlt. unfold _sum_in. steady.
  by apply sum_loop_steady.
Qed.

Lemma test_steady d d' n n' L :
  (d <= d')%nat -> (n <= n')%nat -> ((n < n')%nat -> lt) ->
  upto lt (test_in e n d L) (test_in e' n' d' L).
Proof.
  intros Hd Hn Hlt. unfold test_in, new_node_call, next_sym_call.
  steady; apply sum_loop_steady; auto; lia.
Qed.

Lemma expr_body_steady d d' n n' L :
  (d <= d')%nat -> (n <= n')%nat -> ((n < n')%nat -> lt) ->
  upto lt (expr_body_in e n d L) (expr_body_in e' n' d' L).
Proof.
  intros Hd Hn Hlt. unfold expr_body_in, new_node_call, next_sym_call.
  steady; apply sum_loop_steady; auto; lia.
Qed.
End Steady.

Lemma expr_steady lt n : forall n' d d' L,
  (d <= d')%nat -> (n <= n')%nat -> ((n < n')%nat -> lt) ->
  upto lt (expr_in n d L) (expr_in n' d' L).
Proof.
  induction n as [|n IH]; intros n' d d' L Hd Hn Hlt.
  - destruct n' as [|n']; [apply upto_refl|]. apply upto_fuel, Hlt. lia.
  - destruct n' as [|n']; [lia|]. cbn [expr_in].
    apply expr_body_steady; [|lia|lia|exact Hlt].
    intros k k' L1 Hk. apply IH; [lia|lia|]. intros. apply Hlt. lia.
Qed.

Section SteadyStatements.
Variable lt : Prop.
Variables r r' : nat -> P Node.
Hypothesis Hr : forall k k' L, (k <= k')%nat -> upto lt (r k L) (r' k' L).

Lemma block_loop_steady d d' k : forall k' x L,
  (d <= d')%nat -> (k <= k')%nat -> ((k < k')%nat -> lt) ->
  upto lt (block_loop_in r d k x L) (block_loop_in r' d' k' x L).
Proof.
  induction k as [|k IH]; intros k' x L Hd Hk Hlt.
  - destruct k' as [|k']; [apply upto_refl|]. apply upto_fuel, Hlt. lia.
  - destruct k' as [|k']; [lia|]. cbn [block_loop_in].
    unfold new_node_call. steady.
    apply IH; [lia|lia|]. intros. apply Hlt. lia.
Qed.

Lemma statement_body_steady d d' n n' L :
  (d <= d')%nat -> (n <= n')%nat -> ((n < n')%nat -> lt) ->
  upto lt (statement_body_in r n d L) (statement_body_in r' n' d' L).
Proof.
  intros Hd Hn Hlt.
  assert (forall k k' L, (k <= k')%nat ->
            upto lt (expr_in n k L) (expr_in n' k' L)) as He.
  { intros. by apply expr_steady. }
  unfold statement_body_in, expect_in, new_node_call, next_sym_call,
    syntax_error_call.
  steady; apply block_loop_steady; auto; lia.
Qed.
End SteadyStatements.

Lemma statement_steady lt n : forall n' d d' L,
  (d <= d')%nat -> (n <= n')%nat -> ((n < n')%nat -> lt) ->
  upto lt (statement_in n d L) (statement_in n' d' L).
Proof.
  induction n as [|n IH]; intros n' d d' L Hd Hn Hlt.
  - destruct n' as [|n']; [apply upto_refl|]. apply upto_fuel, Hlt. lia.
  - destruct n' as [|n']; [lia|]. cbn [statement_in].
    apply statement_body_steady; [|lia|lia|exact Hlt].
    intros k k' L1 Hk. apply IH; [lia|lia|]. intros. apply Hlt. lia.
Qed.

Lemma program_in_steady lt n n' d d' L :
  (d <= d')%nat -> (n <= n')%nat -> ((n < n')%nat -> lt) ->
  upto lt (program_in n d L) (program_in n' d' L).
Proof.
  intros Hd Hn Hlt.
  unfold program_in, new_node_call, next_sym_call, syntax_error_call. steady.
  apply statement_steady; auto; lia.
Qed.

(** *** The recursion limit: enough frames *)

Lemma next_sym_unread L (u : unit) L1 :
  next_sym L = Ok (u, L1) -> (unread L1 <= unread L)%nat.
Proof.
  intros H. pose proof (next_sym_good L) as Hg. rewrite H in Hg.
  destruct Hg as [_ Hle]. unfold toks in Hle. lia.
Qed.

Lemma reaches_unread L L1 : reaches L L1 -> (unread L1 <= unread L)%nat.
Proof.
  induction 1 as [|L L1 L2 H _ IH]; [lia|].
  apply next_sym_unread in H. lia.
Qed.

Lemma advances_quiet {A} (m : P A) : advances m -> quiet m.
Proof. intros H L a L1 E. by apply reaches_unread, (H L a). Qed.

Lemma quiet_next_sym : quiet next_sym.
Proof. intros L [] L1 H. by apply (next_sym_unread L tt). Qed.

Lemma quiet_expect s : quiet (expect s).
Proof.
  intros L [] L1 H. apply expect_ok in H as [_ H].
  by apply (next_sym_unread L tt).
Qed.

Lemma paren_advances rec : advances rec -> advances (paren_expr rec).
Proof.
  intros Hrec L x L' H. unfold paren_expr in H. pinv H.
  use_advances. chain_up.
Qed.

Lemma bind_agree {A B} (m_in m : P A) (k_in k : A -> P B) W L :
  (unread L <= W)%nat -> m_in L = m L -> quiet m ->
  (forall a L1, (unread L1 <= W)%nat -> k_in a L1 = k a L1) ->
  bind m_in k_in L = bind m k L.
Proof.
  intros HL Hm Hq Hk. unfold bind. rewrite Hm.
  destruct (m L) as [[a L1]| |] eqn:E; [|reflexivity..].
  apply Hk. apply Hq in E. lia.
Qed.

Lemma enter_ok {St A} d (f : nat -> M St A) s :
  (1 <= d)%nat -> enter d f s = f (d - 1)%nat s.
Proof.
  intros Hd. destruct d as [|d]; [lia|]. cbn [enter].
  by replace (S d - 1)%nat with d by lia.
Qed.

Lemma bind_new_node {B} d (k : unit -> P B) L :
  (2 <= d)%nat -> bind (new_node_call d) k L = k tt L.
Proof.
  intros Hd. destruct d as [|[|d]]; [lia..|]. reflexivity.
Qed.

Lemma syntax_error_call_ok {A} d L :
  (1 <= d)%nat -> @syntax_error_call A d L = syntax_error L.
Proof. intros Hd. destruct d; [lia|]. reflexivity. Qed.

Lemma next_sym_eof L : ch L = None -> next_sym L = Ok (tt, set_sym EOI L).
Proof.
  intros H. destruct L as [c inp s iv nm]. cbn in H. subst c.
  destruct inp; reflexivity.
Qed.

Lemma next_sym_blank L a :
  ch L = Some a -> is_blank a = true -> next_sym L = next_sym (next_ch L).
Proof.
  intros H Ha. destruct L as [c inp s iv nm]. cbn in H. subst c.
  unfold next_sym, next_ch. cbn [ch stdin sym int_val id_name].
  destruct inp as [|b inp]; cbn [scan read1]; rewrite Ha; reflexivity.
Qed.

Lemma unread_next_ch L a :
  ch L = Some a -> (S (unread (next_ch L)) = unread L)%nat.
Proof.
  intros H. destruct L as [c inp s iv nm]. cbn in H. subst c.
  unfold unread, next_ch. cbn [ch stdin].
  destruct inp as [|b inp]; cbn [read1 ch stdin length]; lia.
Qed.

(** A frame for every character still unread is enough for [next_sym]. *)
Lemma next_sym_in_enough d : forall L,
  (unread L <= d)%nat -> next_sym_in d L = next_sym L.
Proof.
  induction d as [|d IH]; intros L Hd; rewrite next_sym_in_eq;
    destruct (ch L) as [a|] eqn:Ec;
    try (symmetry; by apply next_sym_eof).
  - unfold unread in Hd. rewrite Ec in Hd. lia.
  - destruct (is_blank a) eqn:Ea; [|reflexivity].
    rewrite (next_sym_blank L a Ec Ea). apply IH.
    pose proof (unread_next_ch L a Ec). lia.
Qed.

Lemma next_sym_call_ok d L :
  (unread L + 1 <= d)%nat -> next_sym_call d L = next_sym L.
Proof.
  intros Hd. unfold next_sym_call. rewrite enter_ok by lia.
  apply next_sym_in_enough. lia.
Qed.

Lemma expect_in_ok d s L :
  (unread L + 1 <= d)%nat -> expect_in d s L = expect s L.
Proof.
  intros Hd. unfold expect_in, expect. rewrite !bind_sym_is.
  destruct (_ =? _); [by apply next_sym_call_ok|].
  apply syntax_error_call_ok. lia.
Qed.

Ltac agree W tac :=
  repeat first
    [ reflexivity
    | rewrite bind_new_node by lia
    | progress rewrite ?bind_sym_is, ?bind_gets
    | match goal with
      | |- (if ?b then _ else _) _ = (if ?b then _ else _) _ => destruct b
      | |- bind (lift ?r) _ _ = bind (lift ?r) _ _ =>
          unfold bind at 1 3; unfold lift at 1 2; destruct r; [|reflexivity..]
      | |- syntax_error_call _ _ = syntax_error _ =>
          apply syntax_error_call_ok; lia
      | |- next_sym_call _ _ = next_sym _ => apply next_sym_call_ok; lia
      | |- expect_in _ _ _ = expect _ _ => apply expect_in_ok; lia
      | |- enter _ _ _ = _ => rewrite enter_ok by lia
      | |- quiet next_sym => apply quiet_next_sym
      | |- quiet (expect _) => apply quiet_expect
      | |- quiet _ => apply advances_quiet
      | |- bind _ _ ?L = bind _ _ ?L =>
          apply (bind_agree _ _ _ _ W L); [assumption| | |intros ? ? ?]
      end
    | tac ].

Section Enough.
Variables (W c : nat).
Variables (e_in : nat -> P Node) (e : P Node).
Hypothesis He : forall d L,
  (W + c <= d)%nat -> (unread L <= W)%nat -> e_in d L = e L.
Hypothesis Hadv : advances e.

Lemma paren_expr_enough d L :
  (W + c + 1 <= d)%nat -> (unread L <= W)%nat ->
  paren_expr_in e_in d L = paren_expr e L.
Proof.
  intros Hd HL. unfold paren_expr_in, paren_expr.
  agree W ltac:(first [apply He; [lia|assumption] | exact Hadv]).
Qed.

Lemma term_enough d L :
  (W + c + 2 <= d)%nat -> (unread L <= W)%nat ->
  term_in e_in d L = term e L.
Proof.
  intros Hd HL. unfold term_in, term.
  agree W ltac:(apply paren_expr_enough; [lia|assumption]).
Qed.

Lemma sum_loop_enough d n : forall x L,
  (W + c + 3 <= d)%nat -> (unread L <= W)%nat ->
  sum_loop_in e_in d n x L = sum_loop e n x L.
Proof.
  induction n as [|n IH]; intros x L Hd HL; [reflexivity|].
  cbn [sum_loop_in sum_loop].
  agree W ltac:(first [ apply term_enough; [lia|assumption]
                      | apply term_advances, Hadv
                      | apply IH; [lia|assumption] ]).
Qed.

Lemma sum_enough d n L :
  (W + c + 3 <= d)%nat -> (unread L <= W)%nat ->
  _sum_in e_in n d L = _sum e n L.
Proof.
  intros Hd HL. unfold _sum_in, _sum.
  agree W ltac:(first [ apply term_enough; [lia|assumption]
                      | apply term_advances, Hadv
                      | apply sum_loop_enough; [lia|assumption] ]).
Qed.

Lemma test_enough d n L :
  (W + c + 4 <= d)%nat -> (unread L <= W)%nat ->
  test_in e_in n d L = test e n L.
Proof.
  intros Hd HL. unfold test_in, test.
  agree W ltac:(first [ apply sum_enough; [lia|assumption]
                      | apply sum_advances, Hadv ]).
Qed.

Lemma expr_body_enough d n L :
  (W + c + 5 <= d)%nat -> (unread L <= W)%nat ->
  expr_body_in e_in n d L = expr_body e n L.
Proof.
  intros Hd HL. unfold expr_body_in, expr_body.
  agree W ltac:(first [ apply test_enough; [lia|assumption]
                      | apply test_advances, Hadv
                      | apply He; [lia|assumption]
                      | exact Hadv ]).
Qed.
End Enough.

(** Five frames for every level of [expr]. *)
Lemma expr_enough W n : forall d L,
  (W + 5 * n <= d)%nat -> (unread L <= W)%nat -> expr_in n d L = expr n L.
Proof.
  induction n as [|n IH]; intros d L Hd HL; [reflexivity|].
  cbn [expr_in expr].
  apply (expr_body_enough W (5 * n)); [|apply expr_advances|lia|exact HL].
  intros d1 L1 Hd1 HL1. by apply IH.
Qed.

Section EnoughStatements.
Variables (W c n : nat).
Variables (r_in : nat -> P Node) (r : P Node).
Hypothesis Hr : forall d L,
  (W + c <= d)%nat -> (unread L <= W)%nat -> r_in d L = r L.
Hypothesis Hadv : advances r.

Lemma block_loop_enough d k : forall x L,
  (W + c + 1 <= d)%nat -> (2 <= d)%nat -> (unread L <= W)%nat ->
  block_loop_in r_in d k x L = block_loop r k x L.
Proof.
  induction k as [|k IH]; intros x L Hd H2 HL; [reflexivity|].
  cbn [block_loop_in block_loop].
  agree W ltac:(first [ apply Hr; [lia|assumption]
                      | exact Hadv
                      | apply IH; [lia|lia|assumption] ]).
Qed.

Lemma statement_body_enough d L :
  (W + c + 1 <= d)%nat -> (W + 5 * n + 2 <= d)%nat ->
  (unread L <= W)%nat ->
  statement_body_in r_in n d L = statement_body r n L.
Proof.
  intros Hd Hn HL. unfold statement_body_in, statement_body.
  agree W ltac:(first
    [ apply Hr; [lia|assumption]
    | exact Hadv
    | apply (paren_expr_enough W (5 * n));
        [intros; by apply (expr_enough W)|apply expr_advances|lia|assumption]
    | apply paren_expr_advances
    | apply (expr_enough W); [lia|assumption]
    | apply expr_advances
    | apply block_loop_enough; [lia|lia|assumption]
    | apply block_loop_advances, Hadv ]).
Qed.
End EnoughStatements.

Lemma statement_enough W n : forall d L,
  (W + 5 * n + 2 <= d)%nat -> (unread L <= W)%nat ->
  statement_in n d L = statement n L.
Proof.
  induction n as [|n IH]; intros d L Hd HL; [reflexivity|].
  cbn [statement_in statement].
  apply (statement_body_enough W (5 * n + 2));
    [|apply statement_advances|lia|lia|exact HL].
  intros d1 L1 Hd1 HL1. apply IH; [lia|exact HL1].
Qed.

Lemma program_in_enough n d L :
  (unread L + 5 * n + 3 <= d)%nat ->
  program_in n d L = program_body n L.
Proof.
  intros Hd. unfold program_in, program_body.
  pose proof (Nat.le_refl (unread L)) as HL.
  agree (unread L) ltac:(first
    [ apply (statement_enough (unread L)); [lia|assumption]
    | apply statement_advances ]).
Qed.

(** Six frames for every character of the input, and fifteen, are enough
    for the parser. *)
Lemma program_lim_enough limit input :
  (6 * length input + 15 <= limit)%nat ->
  program_lim limit input = program input.
Proof.
  intros Hl. unfold program_lim, program. rewrite enter_ok by lia.
  rewrite program_in_enough; [reflexivity|].
  unfold fuel_for, unread, lexer_init. cbn [stdin ch]. lia.
Qed.

(** Under the limit the parser gives what it gives without, until the limit
    is met. *)
Lemma program_lim_agrees limit input :
  limited (program_lim limit input) (program input).
Proof.
  set (D := (limit `max` (6 * length input + 15))%nat).
  rewrite <- (program_lim_enough D input) by lia.
  unfold program_lim.
  destruct (upto_enter False (program_in (fuel_for input))
              (program_in (fuel_for input)) limit D (lexer_init input))
    as [H | [[_ []] | H]].
  - lia.
  - intros k k' Hk. apply program_in_steady; [lia|lia|lia].
  - left. by rewrite H.
  - right. by rewrite H.
Qed.

(** *** The recursion limit: code generator and machine *)

Lemma limited_refl {A} (r : res A) : limited r r.
Proof. by right. Qed.

Lemma limited_bind {S A B} (m_in m : M S A) (k_in k : A -> M S B) s :
  limited (m_in s) (m s) ->
  (forall a s1, limited (k_in a s1) (k a s1)) ->
  limited (bind m_in k_in s) (bind m k s).
Proof.
  intros [H | H] Hk; unfold bind; rewrite H; [by left|].
  destruct (m s) as [[a s1]| |]; [apply Hk|apply limited_refl..].
Qed.

Lemma bind_ext {S A B} (m_in m : M S A) (k_in k : A -> M S B) s :
  m_in s = m s -> (forall a s1, k_in a s1 = k a s1) ->
  bind m_in k_in s = bind m k s.
Proof.
  intros H Hk. unfold bind. rewrite H.
  destruct (m s) as [[a s1]| |]; [apply Hk|reflexivity..].
Qed.

Ltac past_getitem :=
  match goal with
  | |- limited (bind (getitem_call (S _)) ?k ?s) ?r =>
      change (limited (k tt s) r); cbv beta
  | |- bind (getitem_call (S _)) ?k ?s = ?r =>
      change (k tt s = r); cbv beta
  end.

Lemma c_in_agrees x : forall d st, limited (c_in x d st) (c x st).
Proof.
  induction x; intros d st; (destruct d as [|d]; [by left|]);
    cbn [c_in c]; past_getitem;
    repeat first
      [ apply limited_refl
      | match goal with
        | IH : forall d st, limited (c_in ?x d st) (c ?x st)
          |- limited (enter (S ?d) (c_in ?x) ?s) _ => apply (IH d s)
        end
      | apply limited_bind; [|intros ? ?] ].
Qed.

(** A frame for every level of the tree is enough for [c]. *)
Lemma c_in_enough x : forall d st,
  (nesting x <= d)%nat -> c_in x d st = c x st.
Proof.
  induction x; intros d st Hd; cbn [nesting] in Hd;
    (destruct d as [|d]; [lia|]);
    cbn [c_in c]; past_getitem;
    repeat first
      [ reflexivity
      | match goal with
        | IH : forall d st, (nesting ?x <= d)%nat -> c_in ?x d st = c ?x st
          |- enter (S ?d) (c_in ?x) ?s = _ => apply (IH d s); lia
        end
      | apply bind_ext; [|intros ? ?] ].
Qed.

Lemma compile_lim_agrees limit x :
  limited (compile_lim limit x) (compile x).
Proof.
  unfold compile_lim, compile. destruct limit as [|d]; [by left|].
  cbn [enter]. destruct (c_in_agrees x d codegen_init) as [H | H];
    rewrite H; [by left|by right].
Qed.

Lemma compile_lim_enough limit x :
  (nesting x < limit)%nat -> compile_lim limit x = compile x.
Proof.
  intros Hl. unfold compile_lim, compile. rewrite enter_ok by lia.
  rewrite c_in_enough by lia. reflexivity.
Qed.

Lemma step_in_ok code d s : (1 <= d)%nat -> step_in code d s = step code s.
Proof.
  intros Hd. destruct d as [|d]; [lia|].
  unfold step_in. unfold bind at 1.
  destruct (rd_code code s) as [[b s1]| |] eqn:E.
  - assert (s1 = s) as ->.
    { unfold rd_code, lift in E. destruct (py_get code (pc s)); congruence. }
    reflexivity.
  - unfold step. unfold bind at 1. by rewrite E.
  - unfold step. unfold bind at 1. by rewrite E.
Qed.

Lemma run_loop_in_ok code d n : forall s,
  (1 <= d)%nat -> run_loop_in code d n s = run_loop code n s.
Proof.
  induction n as [|n IH]; intros s Hd; [reflexivity|].
  cbn [run_loop_in run_loop]. apply bind_ext; [by apply step_in_ok|].
  intros h s1. destruct h; [reflexivity|by apply IH].
Qed.

Lemma run_lim_enough limit n code globals :
  (2 <= limit)%nat -> run_lim limit n code globals = run n code globals.
Proof.
  intros Hl. unfold run_lim, run. rewrite enter_ok by lia.
  rewrite run_loop_in_ok by lia. reflexivity.
Qed.

Lemma program_lim_frames limit input ast :
  program_lim limit input = Ok ast -> (3 <= limit)%nat.
Proof.
  intros H. destruct limit as [|[|[|l]]]; try discriminate; lia.
Qed.

(** *** Blank input under the limit *)

Lemma blank_lexer_short d : forall a inp s iv nm,
  is_blank a = true -> Forall (fun b => is_blank b = true) inp ->
  (d <= length inp)%nat ->
  next_sym_in d {| ch := Some a; stdin := inp; sym := s; int_val := iv;
                   id_name := nm |} = Raise RecursionError.
Proof.
  induction d as [|d IH]; intros a inp s iv nm Ha Hall Hd;
    rewrite next_sym_in_eq; cbn [ch]; [reflexivity|].
  rewrite Ha. destruct inp as [|b inp]; [cbn in Hd; lia|].
  inversion Hall; subst. unfold next_ch. cbn [stdin read1 sym int_val id_name].
  apply IH; [assumption..|cbn in Hd; lia].
Qed.

Lemma blank_program_lim limit input :
  Forall blank input ->
  program_lim limit input =
    if (length input + 3 <=? limit)%nat && (8 <=? limit)%nat
    then Raise (SystemExit 1 "syntax error")
    else Raise RecursionError.
Proof.
  intros Hall.
  assert (Forall (fun b => is_blank b = true) input) as Hb.
  { eapply Forall_impl; [exact Hall|]. intros a. apply blank_is_blank. }
  destruct limit as [|[|[|l]]]; try (by rewrite andb_false_r).
  unfold program_lim. cbn [enter]. unfold program_in.
  rewrite bind_new_node by lia. unfold bind at 1.
  unfold next_sym_call. cbn [enter].
  destruct (Nat.leb_spec (length input + 3) (S (S (S l)))) as [Hl | Hl].
  - rewrite next_sym_in_enough
      by (unfold unread, lexer_init; cbn [stdin ch]; lia).
    rewrite (blank_next_sym input Hall). cbn [andb].
    unfold fuel_for.
    destruct l as [|[|[|[|[|l]]]]]; reflexivity.
  - unfold lexer_init.
    rewrite blank_lexer_short; [reflexivity|reflexivity|exact Hb|lia].
Qed.

(** C10, as the program has it: the empty input, and any input of spaces
    and newlines only, is a syntax error when the interpreter allows three
    calls more than the input has characters (and eight at least):
    [next_sym] calls itself once for every blank.  With fewer the process
    dies of [RecursionError], and nothing tells of a syntax error. *)
Theorem blank_input_rejected (limit : nat) (input : list ascii) :
  Forall blank input ->
  ((length input + 3 <= limit)%nat -> (8 <= limit)%nat ->
   forall n, main_lim limit n input = Exited 1 [] ["syntax error"%string]) /\
  ((limit < length input + 3)%nat \/ (limit < 8)%nat ->
   forall n, main_lim limit n input = Uncaught RecursionError).
Proof.
  intros Hall. pose proof (blank_program_lim limit input Hall) as Hp.
  split.
  - intros H1 H2 n. unfold main_lim. rewrite Hp.
    destruct (Nat.leb_spec (length input + 3) limit); [|lia].
    destruct (Nat.leb_spec 8 limit); [|lia]. reflexivity.
  - intros H n. unfold main_lim. rewrite Hp.
    destruct (Nat.leb_spec (length input + 3) limit);
      destruct (Nat.leb_spec 8 limit); try reflexivity. lia.
Qed.

Lemma blank_input_rejected_witness :
  main_lim 1000 0 (chars "  ") = Exited 1 [] ["syntax error"%string] /\
  main_lim 3 0 (chars "  ") = Uncaught RecursionError.
Proof.
  split.
  - destruct (blank_input_rejected 1000 (chars "  ")) as [H _].
    + repeat constructor.
    + apply H; cbn; lia.
  - destruct (blank_input_rejected 3 (chars "  ")) as [_ H].
    + repeat constructor.
    + apply H. left. cbn. lia.
Defined.

(** C10 as stated fails: two thousand spaces under a limit of a thousand
    calls end in an uncaught [RecursionError], not in the syntax error. *)
Lemma blank_input_counterexample :
  Forall blank (replicate 2000 " "%char) /\
  forall n, main_lim 1000 n (replicate 2000 " "%char) =
    Uncaught RecursionError.
Proof.
  assert (Forall blank (replicate 2000 " "%char)) as Hall.
  { apply Forall_forall. intros a Ha. apply elem_of_replicate in Ha as [-> _].
    by left. }
  split; [exact Hall|]. intros n. unfold main_lim.
  rewrite (blank_program_lim _ _ Hall). rewrite length_replicate.
  reflexivity.
Qed.

(** *** How the process ends *)

Lemma limited_ok {A} (r r' : res A) a : limited r r' -> r = Ok a -> r' = Ok a.
Proof. intros [H | H] E; congruence. Qed.

Lemma run_lim_safe limit input s code n :
  program_lim limit input = Ok (PROG s) -> is_stmt s = true ->
  compile_lim limit (PROG s) = Ok code ->
  run_lim limit n code (replicate 26 0) = run n code (replicate 26 0) /\
  compile (PROG s) = Ok code /\
  match run_loop code n (vm_init (replicate 26 0)) with
  | Raise e => e = OverflowError
  | _ => True
  end.
Proof.
  intros Hp Hs Hc.
  pose proof (program_lim_frames _ _ _ Hp) as Hl.
  pose proof (limited_ok _ _ _ (compile_lim_agrees limit (PROG s)) Hc) as Hc'.
  split; [apply run_lim_enough; lia|]. split; [exact Hc'|].
  apply (run_loop_safe s code n (replicate 26 0) Hs Hc').
  unfold zlen. rewrite length_replicate. lia.
Qed.

(** C6, as the program has it: a syntax error ends the process with status
    1 after ["syntax error"] on the diagnostic stream and nothing on standard
    output.  Otherwise the parser returns a tree, or it meets the recursion
    limit and the process dies of [RecursionError].  On a tree, the code
    generator dies of [IndexError], [OverflowError] or [RecursionError], or
    returns the code; the machine then dies of [OverflowError], or does not
    halt, or halts, and the process ends with status 0 after the report. *)
Theorem main_outcomes (limit n : nat) (input : list ascii) :
  match program_lim limit input with
  | Raise e =>
      (e = SystemExit 1 "syntax error" /\
       main_lim limit n input = Exited 1 [] ["syntax error"%string]) \/
      (e = RecursionError /\ main_lim limit n input = Uncaught RecursionError)
  | Fuel => False
  | Ok ast =>
      match compile_lim limit ast with
      | Raise e =>
          (e = IndexError \/ e = OverflowError \/ e = RecursionError) /\
          main_lim limit n input = Uncaught e
      | Fuel => False
      | Ok code =>
          match run_lim limit n code (replicate 26 0) with
          | Raise e => e = OverflowError /\ main_lim limit n input = Uncaught e
          | Fuel => main_lim limit n input = StillRunning
          | Ok globals =>
              exists out,
                report globals range26 = Ok out /\
                main_lim limit n input = Exited 0 out []
          end
      end
  end.
Proof.
  pose proof (program_total input) as Ht.
  pose proof (program_lim_agrees limit input) as Hp. unfold main_lim.
  destruct (program_lim limit input) as [ast|e|] eqn:Ep.
  - apply (limited_ok _ _ ast) in Hp; [|reflexivity].
    apply program_wf in Hp as (st & -> & Hst). cbn [finish].
    pose proof (compile_raises (PROG st) (is_stmt_lhs st Hst)) as Hr.
    pose proof (compile_lim_agrees limit (PROG st)) as Hc.
    destruct (compile_lim limit (PROG st)) as [code|e|] eqn:Ec; cbn [finish].
    + destruct (run_lim_safe limit input st code n Ep Hst Ec)
        as (-> & Hc' & Hsafe).
      unfold run.
      pose proof (run_loop_keeps code n (vm_init (replicate 26 0))) as Hk.
      destruct (run_loop code n _) as [[u s']|e|]; cbn [finish];
        [| |reflexivity].
      * destruct (report_zeros_ok (_globals s')) as [out Hout].
        { by rewrite (Hk u s' eq_refl). }
        exists out. split; [exact Hout|]. by rewrite Hout.
      * subst e. by split.
    + destruct Hc as [Hc | Hc].
      * injection Hc as ->. split; [auto|reflexivity].
      * rewrite <- Hc in Hr. destruct Hr as [-> | ->]; split; auto.
    + destruct Hc as [Hc | Hc]; [discriminate|]. by rewrite <- Hc in Hr.
  - destruct Hp as [Hp | Hp].
    + injection Hp as ->. right. by split.
    + rewrite <- Hp in Ht. subst e. left. by split.
  - destruct Hp as [Hp | Hp]; [discriminate|]. by rewrite <- Hp in Ht.
Qed.

(** C6 as stated fails: [a=200;] is accepted by the parser, and the code
    generator dies of [OverflowError] on the byte 200. *)
Lemma literal_overflow_counterexample :
  program_lim 1000 (chars "a=200;") =
    Ok (PROG (EXPR (SET (VAR 0) (CST 200)))) /\
  forall n, main_lim 1000 n (chars "a=200;") = Uncaught OverflowError.
Proof.
  split; [vm_compute; reflexivity|]. intros n.
  unfold main_lim.
  replace (program_lim 1000 (chars "a=200;"))
    with (@Ok Node (PROG (EXPR (SET (VAR 0) (CST 200)))))
    by (vm_compute; reflexivity).
  cbn [finish].
  replace (compile_lim 1000 (PROG (EXPR (SET (VAR 0) (CST 200)))))
    with (@Raise (list Z) OverflowError) by (vm_compute; reflexivity).
  reflexivity.
Qed.

(** Other ways to die, each on an input the parser accepts under a limit
    of a thousand calls: 334 statements [a;] in a block make 1003 bytes of
    code, and [g] dies of [IndexError] past the end of the buffer; the block
    of a thousand empty statements is a chain of a thousand [SEQ] nodes, and
    [c], which calls itself once for every one, dies of
    [RecursionError]. *)
Lemma long_code_dies :
  forall n,
    main_lim 1000 n
      ("{"%char :: concat (replicate 334 (chars "a;")) ++ ["}"%char]) =
    Uncaught IndexError.
Proof.
  intros n. unfold main_lim.
  destruct (program_lim 1000 _) as [ast| |] eqn:Ep;
    [|vm_compute in Ep; discriminate..].
  cbn [finish].
  destruct (compile_lim 1000 ast) as [code|e|] eqn:Ec;
    [vm_compute in Ep; injection Ep as <-; vm_compute in Ec; discriminate
    | |vm_compute in Ep; injection Ep as <-; vm_compute in Ec; discriminate].
  vm_compute in Ep. injection Ep as <-. vm_compute in Ec.
  injection Ec as <-. reflexivity.
Qed.

Lemma deep_block_dies :
  forall n,
    main_lim 1000 n ("{"%char :: replicate 1000 ";"%char ++ ["}"%char]) =
    Uncaught RecursionError.
Proof.
  intros n. unfold main_lim.
  destruct (program_lim 1000 _) as [ast| |] eqn:Ep;
    [|vm_compute in Ep; discriminate..].
  cbn [finish].
  destruct (compile_lim 1000 ast) as [code|e|] eqn:Ec;
    [vm_compute in Ep; injection Ep as <-; vm_compute in Ec; discriminate
    | |vm_compute in Ep; injection Ep as <-; vm_compute in Ec; discriminate].
  vm_compute in Ep. injection Ep as <-. vm_compute in Ec.
  injection Ec as <-. reflexivity.
Qed.

(** Two hundred nested parentheses: [paren_expr], [expr], [test], [_sum]
    and [term] call one another five deep for every one, and the parser
    dies of [RecursionError]. *)
Lemma deep_parentheses_die :
  forall n,
    main_lim 1000 n
      (replicate 200 "("%char ++ "1"%char :: replicate 200 ")"%char ++
       [";"%char]) =
    Uncaught RecursionError.
Proof.
  intros n. unfold main_lim.
  destruct (program_lim 1000 _) as [ast|e|] eqn:Ep;
    [vm_compute in Ep; discriminate| |vm_compute in Ep; discriminate].
  vm_compute in Ep. injection Ep as <-. reflexivity.
Qed.

(** *** Chained assignments under the limit *)

Lemma is_expr_loop_free x : is_expr x = true -> loop_free x = true.
Proof.
  induction x; try discriminate; cbn [is_expr loop_free]; try reflexivity.
  - intros [H1 H2]%andb_prop. by rewrite IHx1, IHx2.
  - intros [H1 H2]%andb_prop. by rewrite IHx1, IHx2.
  - intros [H1 H2]%andb_prop. by rewrite IHx1, IHx2.
  - destruct x1; try discriminate. intros [H1 H2]%andb_prop.
    by rewrite IHx2.
Qed.

(** C4: if [v=K;] parses as the assignment of [K] to [v], then, with six
    frames for every character of the text and fifteen,
    [v1=...=vn=v=K;] parses as the assignments nested to the right; the run
    of its code, given as many turns as the code has bytes, raises
    [OverflowError] or halts, and when it halts each of [v1], ..., [vn], [v]
    holds the value of [K]; [a=b=c=2<3;] halts with 1 in [a], [b] and
    [c]. *)
Theorem chained_assignment (limit : nat) (vs : list ascii) (a : ascii)
    (rest : list ascii) (K : Node) :
  Forall (fun b => is_lower b = true) (vs ++ [a]) ->
  program_lim limit (a :: "="%char :: rest) =
    Ok (PROG (EXPR (SET (VAR (var_of a)) K))) ->
  (6 * length (chain_text vs ++ a :: "="%char :: rest) + 15 <= limit)%nat ->
  program_lim limit (chain_text vs ++ a :: "="%char :: rest) =
    Ok (PROG (EXPR (chain (map var_of (vs ++ [a])) K))) /\
  (forall code n,
     compile_lim limit (PROG (EXPR (chain (map var_of (vs ++ [a])) K))) =
       Ok code ->
     (length (code_of (PROG (EXPR (chain (map var_of (vs ++ [a])) K)))) <= n)%nat ->
     run_lim limit n code (replicate 26 0) = Raise OverflowError \/
     exists globals,
       run_lim limit n code (replicate 26 0) = Ok globals /\
       forall u, In u (vs ++ [a]) ->
         globals !! Z.to_nat (var_of u) =
           Some (eval K (replicate 26 0)).1) /\
  (program_lim 1000 (chars "a=b=c=2<3;") = Ok abc_ast /\
   compile_lim 1000 abc_ast = Ok abc_code /\
   run_lim 1000 8 abc_code (replicate 26 0) =
     Ok (1 :: 1 :: 1 :: replicate 23 0)).
Proof.
  intros Hall Hp Hl.
  apply (limited_ok _ _ _ (program_lim_agrees _ _)) in Hp.
  assert (program (chain_text vs ++ a :: "="%char :: rest) =
            Ok (PROG (EXPR (chain (map var_of (vs ++ [a])) K)))) as Hchain.
  { rewrite map_app. cbn [map]. rewrite chain_app. by apply chain_parses. }
  split; [|split].
  - by rewrite program_lim_enough.
  - intros code n Hc Hn.
    apply (limited_ok _ _ _ (compile_lim_agrees _ _)) in Hc.
    rewrite run_lim_enough by lia. unfold run.
    apply program_wf in Hp as (st & [= <-] & Hst).
    cbn [is_stmt is_expr] in Hst. apply andb_prop in Hst as [_ HK].
    assert (Forall (fun v => is_global v = true) (map var_of (vs ++ [a])))
      as Hvars.
    { rewrite Forall_forall in Hall. apply Forall_forall.
      intros v (b & <- & Hb)%list_elem_of_In%in_map_iff.
      apply is_lower_global, Hall. by apply list_elem_of_In. }
    pose proof (is_expr_chain _ K Hvars HK) as Hx.
    destruct (run_loop_ends (EXPR (chain (map var_of (vs ++ [a])) K)) code n)
      as [H | [s' H]]; [exact Hx|exact (is_expr_loop_free _ Hx)|exact Hc|exact Hn|..].
    + left. by rewrite H.
    + right. rewrite H. exists (_globals s'). split; [reflexivity|].
      intros u Hu.
      eapply chain_runs; [exact Hvars|exact HK|exact Hc|exact H|by apply in_map].
  - repeat split; vm_compute; reflexivity.
Qed.

Lemma chained_assignment_witness :
  program_lim 1000 (chars "x=y=z=7;") =
    Ok (PROG (EXPR (chain [23; 24; 25] (CST 7)))) /\
  (forall code n,
     compile_lim 1000 (PROG (EXPR (chain [23; 24; 25] (CST 7)))) = Ok code ->
     (length (code_of (PROG (EXPR (chain [23; 24; 25]%Z (CST 7%Z))))) <= n)%nat ->
     run_lim 1000 n code (replicate 26 0) = Raise OverflowError \/
     exists globals,
       run_lim 1000 n code (replicate 26 0) = Ok globals /\
       forall u, In u (chars "xyz") ->
         globals !! Z.to_nat (var_of u) = Some 7).
Proof.
  pose proof (chained_assignment 1000 (chars "xy") "z" (chars "7;") (CST 7))
    as (H1 & H2 & _).
  - repeat constructor.
  - vm_compute. reflexivity.
  - cbn. lia.
  - split; [exact H1|exact H2].
Defined.

(** *** The code generator under the limit *)

(** X2 ([c], [g], [hole], [fix], lines 325-406): the code generator
    succeeds on the fresh buffer for every tree whose assignment targets are
    variables (as in all trees the parser builds), whose listing is at most
    1000 bytes long and holds only bytes in the range -128..127, when the
    interpreter allows more calls than [c] nests for the tree: one for
    every level of the tree, and one inside the last. *)
Theorem compile_succeeds (limit : nat) (x : Node) :
  lhs_are_vars x = true ->
  (length (code_of x) <= 1000)%nat ->
  Forall (fun b => is_byte b = true) (code_of x) ->
  (nesting x < limit)%nat ->
  exists code, compile_lim limit x = Ok code.
Proof.
  intros Hx Hlen Hb Hl. rewrite compile_lim_enough by exact Hl.
  unfold compile.
  destruct (c_complete x codegen_init) as [st ->]; eauto.
  - simpl. lia.
  - unfold codegen_init, zlen. cbn [here _object].
    rewrite length_replicate. lia.
Qed.

Lemma compile_succeeds_witness : exists code, compile_lim 5 demo_ast = Ok code.
Proof.
  apply (compile_succeeds 5 demo_ast).
  - reflexivity.
  - vm_compute. lia.
  - vm_compute. repeat constructor.
  - vm_compute. lia.
Defined.

(** *** Blanks before the first token, under the limit *)

Lemma blanks_lexed ws : forall d input,
  Forall (fun b => is_blank b = true) ws ->
  next_sym_in (d + length ws) (next_ch (lexer_init (ws ++ input))) =
  next_sym_in d (next_ch (lexer_init input)).
Proof.
  induction ws as [|w ws IH]; intros d input Hws.
  - cbn [length app]. by rewrite Nat.add_0_r.
  - inversion Hws; subst. cbn [length app].
    replace (d + S (length ws))%nat with (S (d + length ws)) by lia.
    rewrite (next_sym_in_eq (S _)).
    change (ch (next_ch (lexer_init (w :: ws ++ input)))) with (Some w).
    cbv iota. rewrite H1. rewrite <- (IH d input) by assumption.
    reflexivity.
Qed.

(** X6 ([next_sym] lines 93-98, [program] lines 299-306): spaces and
    newlines before the first token change nothing but the depth of the
    calls.  [next_sym] calls itself once for every one of them: what the
    parser gives on an input, a tree or the syntax error, it gives on the
    input with blanks before it when the interpreter allows one call more
    for every blank. *)
Theorem leading_blanks_ignored (limit : nat) (ws input : list ascii)
    (r : res Node) :
  Forall (fun b => is_blank b = true) ws ->
  program_lim limit input = r -> r <> Raise RecursionError ->
  program_lim (limit + length ws) (ws ++ input) = r.
Proof.
  intros Hws Hr Hne.
  assert (r <> Fuel) as Hfuel.
  { intros ->. destruct (program_lim_agrees limit input) as [H | H];
      [congruence|]. pose proof (program_total input) as Ht.
    rewrite <- H, Hr in Ht. exact Ht. }
  destruct limit as [|[|[|d]]]; try (by subst r).
  assert (next_sym_call (S (S d)) (lexer_init input) =
          next_sym_in d (next_ch (lexer_init input))) as E1.
  { unfold next_sym_call. cbn [enter]. by rewrite next_sym_in_eq. }
  assert (next_sym_call (S (S (d + length ws))) (lexer_init (ws ++ input)) =
          next_sym_in d (next_ch (lexer_init input))) as E2.
  { unfold next_sym_call. cbn [enter]. rewrite (next_sym_in_eq (S _)).
    cbn [lexer_init ch]. change (is_blank " ") with true. cbv iota.
    exact (blanks_lexed ws d input Hws). }
  replace (S (S (S d)) + length ws)%nat with (S (S (S (d + length ws))))
    by lia.
  unfold program_lim in *.
  assert (fuel_for input <= fuel_for (ws ++ input))%nat as Hn.
  { unfold fuel_for. rewrite length_app. lia. }
  revert Hn Hr.
  generalize (fuel_for input) as n, (fuel_for (ws ++ input)) as n'.
  intros n n' Hn Hr.
  cbn [enter] in *. unfold program_in in *.
  rewrite bind_new_node in Hr by lia. rewrite bind_new_node by lia.
  unfold bind at 1 in Hr. unfold bind at 1. rewrite E1 in Hr. rewrite E2.
  destruct (next_sym_in d (next_ch (lexer_init input))) as [[u L1]| |];
    [|exact Hr..].
  match goal with
  | |- match ?m' with _ => _ end = r =>
      match type of Hr with
      | match ?m with _ => _ end = r =>
          assert (upto (n < n')%nat m m') as [H | [[H _] | H]]
      end
  end.
  - apply upto_bind.
    + apply upto_enter; [lia|]. intros k k' Hk.
      apply statement_steady; [lia|lia|auto].
    + intros x L2. unfold syntax_error_call. steady.
  - rewrite H in Hr. by subst r.
  - rewrite H in Hr. by subst r.
  - by rewrite <- H.
Qed.

Lemma leading_blanks_ignored_witness :
  program_lim (9 + 2) (chars "  a=1;") = Ok (PROG (EXPR (SET (VAR 0) (CST 1)))).
Proof.
  apply (leading_blanks_ignored 9 (chars "  ") (chars "a=1;")).
  - repeat constructor.
  - vm_compute. reflexivity.
  - discriminate.
Defined.

(** *** The image of the parser, under the limit *)

(** X15 (the lexer and the parser, lines 87-306): every tree in the image
    of the parser has a text that the parser reads back as that tree.  For
    a statement whose expressions have globals for variables, constants
    that are not negative and variables for assignment targets, whose
    blocks are chains of [SEQ] nodes from [EMPTY], and in which no [if]
    with [else] has a first branch ending in an [if] without [else], the
    text written with every operation in parentheses parses to [PROG] of
    the statement, when the interpreter allows six calls for every
    character of the text, and fifteen. *)
Theorem unparse_parses (limit : nat) (x : Node) :
  stmt_ok x = true ->
  (6 * length (unparse x) + 15 <= limit)%nat ->
  program_lim limit (unparse x) = Ok (PROG x).
Proof.
  intros Hx Hl. rewrite program_lim_enough by exact Hl.
  exact (unparse_reads x Hx).
Qed.

Lemma unparse_parses_witness :
  program_lim 1000 (chars "{(a=(b+1));while((a<10))(a=(a+a));}") =
    Ok (PROG (SEQ (SEQ EMPTY (EXPR (SET (VAR 0) (ADD (VAR 1) (CST 1)))))
                  (WHILE (LT (VAR 0) (CST 10))
                     (EXPR (SET (VAR 0) (ADD (VAR 0) (VAR 0))))))).
Proof.
  apply (unparse_parses 1000
           (SEQ (SEQ EMPTY (EXPR (SET (VAR 0) (ADD (VAR 1) (CST 1)))))
                (WHILE (LT (VAR 0) (CST 10))
                   (EXPR (SET (VAR 0) (ADD (VAR 0) (VAR 0))))))).
  - reflexivity.
  - vm_compute. lia.
Defined.

(** X16 (the parser, lines 192-306, with the lexer): the trees the parser
    returns are exactly the [PROG] nodes over the statements described in
    X15: every tree it returns, under whatever limit, is one, its constants
    not negative, its variables among the 26 globals, its assignment
    targets variables, its blocks chains from [EMPTY], no [else] taken from
    an inner [if]; and every such tree is returned for some input under
    some limit, its text for one. *)
Theorem parser_image (ast : Node) :
  (exists limit input, program_lim limit input = Ok ast) <->
  (exists st, ast = PROG st /\ stmt_ok st = true).
Proof.
  split.
  - intros (limit & input & H).
    apply (limited_ok _ _ _ (program_lim_agrees _ _)) in H.
    exact (program_image input ast H).
  - intros (st & -> & Hst).
    exists (6 * length (unparse st) + 15)%nat, (unparse st).
    rewrite program_lim_enough by lia. by apply unparse_reads.
Qed.

(** *** The limit and nothing else *)

(** X19 (every function, lines 83-475): the recursion limit changes the
    outcome of the process in one way only.  Under any limit the process
    ends as it does on an interpreter that refuses no call, or it dies of
    [RecursionError]. *)
Theorem limit_only_cuts (limit n : nat) (input : list ascii) :
  main_lim limit n input = Uncaught RecursionError \/
  main_lim limit n input = main n input.
Proof.
  unfold main_lim, main.
  destruct (program_lim_agrees limit input) as [Hp | Hp];
    [left; by rewrite Hp|].
  destruct (program_lim limit input) as [ast|e|] eqn:Ep; rewrite <- Hp;
    [|by right..].
  cbn [finish].
  destruct (compile_lim_agrees limit ast) as [Hc | Hc];
    [left; by rewrite Hc|].
  rewrite Hc.
  destruct (compile ast) as [code|e|]; [|by right..].
  cbn [finish]. rewrite run_lim_enough; [by right|].
  apply program_lim_frames in Ep. lia.
Qed.

(** X20 ([next_sym], the parser, lines 93-306): six calls for every
    character of the input, and fifteen, are frames enough: under such a
    limit the parser returns the tree, or raises the syntax error, that it
    does on an interpreter that refuses no call. *)
Theorem parser_frames (limit : nat) (input : list ascii) :
  (6 * length input + 15 <= limit)%nat ->
  program_lim limit input = program input /\
  program_lim limit input <> Raise RecursionError.
Proof.
  intros Hl. rewrite program_lim_enough by exact Hl. split; [reflexivity|].
  pose proof (program_total input) as Ht.
  destruct (program input); [discriminate| |exact (False_ind _ Ht)].
  by subst e.
Qed.

Lemma parser_frames_witness :
  program_lim 100 (chars "a=b=c=2<3;") = program (chars "a=b=c=2<3;") /\
  program_lim 100 (chars "a=b=c=2<3;") <> Raise RecursionError.
Proof.
  apply (parser_frames 100 (chars "a=b=c=2<3;")). cbn. lia.
Defined.
